(** * SolGuard: attestation and reclamation pipeline

    A shallow embedding of the parts of SolGuard that its specification makes
    claims about, and the proofs that settle those claims against the code.
    Further properties of the same code, and of the stages around it, follow
    the proofs of the claims.

    Conventions of the model.
    - A JavaScript string is a [string]: the sequence of its UTF-8 bytes.
      Comparing strings byte by byte agrees with JavaScript's comparison of
      code units on every text without supplementary characters.
    - A [Buffer] or [Uint8Array] is a [list byte].
    - A JavaScript number is a double.  One that holds an integer is that
      integer, a [Z], and so is a [BigInt]; the others, which only
      [JSON.parse] brings in, are dyadic fractions and the infinities.  The
      numbers the stages compute with are safe integers (below 2^53 in
      magnitude), on which the arithmetic of doubles is that of [Z].
    - A structured value is a [JSValue]; an object lists its properties in
      the order JavaScript enumerates them.
    - SQLite tables are lists of records in rowid order; statements are
      functions on the ledger, and a transaction is one such function.
    - A function that can throw returns an [option]; [None] is the throw.
    - A call that can throw after it has written returns the ledger it
      leaves together with how it ended.
    - A loop the code does not bound takes fuel; [None] means that the fuel
      ran out, and the theorems say how much is enough.
    - The nodes are oracles: a query is a function of its arguments, which
      answers or throws.  One call sees one clock.
    - [lifecycle_events.account_pubkey] is a foreign key and the connection
      enforces it: an event for a pubkey without a row throws.
    - Writes to [audit_log] are left out: [AppDatabase.log] catches its own
      errors, and no stage reads the table.
    - SHA-256, Base58 and Base64 are defined here; Ed25519, the collation
      and the URL parser are parameters, gathered in [Platform]. *)

From Stdlib Require Import ZArith List String Ascii Bool Lia.
From Stdlib.Strings Require Import Byte.
From Stdlib Require Import Permutation Sorted DecimalString OrderedTypeEx.
From Stdlib Require Import DecimalPos DecimalZ.
Import ListNotations.

Local Open Scope string_scope.
Local Open Scope list_scope.
Local Open Scope Z_scope.

Set Implicit Arguments.

(** ** Bytes and hexadecimal text *)

Definition bytes := list byte.

Definition byte_of_Z (z : Z) : byte :=
  match Byte.of_N (Z.to_N (z mod 256)) with
  | Some b => b
  | None => x00
  end.

Definition Z_of_byte (b : byte) : Z := Z.of_N (Byte.to_N b).

(** [Buffer.from(s, 'utf8')]: the bytes of a string. *)
Definition utf8 (s : string) : bytes := list_byte_of_string s.

Definition hex_digit (z : Z) : ascii :=
  ascii_of_N (Z.to_N (if z <? 10 then 48 + z else 87 + z)).

(** [buf.toString('hex')]: two lowercase digits per byte. *)
Fixpoint to_hex (b : bytes) : string :=
  match b with
  | [] => EmptyString
  | x :: rest =>
      String (hex_digit (Z_of_byte x / 16))
        (String (hex_digit (Z_of_byte x mod 16)) (to_hex rest))
  end.

(** ** SHA-256 (FIPS 180-4), the function behind [crypto.createHash('sha256')] *)

Module SHA256.

Definition mask32 (x : Z) : Z := Z.land x 4294967295.
Definition add32 (x y : Z) : Z := mask32 (x + y).
Definition rotr (n x : Z) : Z :=
  Z.lor (Z.shiftr x n) (mask32 (Z.shiftl x (32 - n))).
Definition not32 (x : Z) : Z := Z.lxor x 4294967295.

Definition ch (x y z : Z) : Z := Z.lxor (Z.land x y) (Z.land (not32 x) z).
Definition maj (x y z : Z) : Z :=
  Z.lxor (Z.lxor (Z.land x y) (Z.land x z)) (Z.land y z).
Definition bsig0 (x : Z) : Z := Z.lxor (Z.lxor (rotr 2 x) (rotr 13 x)) (rotr 22 x).
Definition bsig1 (x : Z) : Z := Z.lxor (Z.lxor (rotr 6 x) (rotr 11 x)) (rotr 25 x).
Definition ssig0 (x : Z) : Z := Z.lxor (Z.lxor (rotr 7 x) (rotr 18 x)) (Z.shiftr x 3).
Definition ssig1 (x : Z) : Z := Z.lxor (Z.lxor (rotr 17 x) (rotr 19 x)) (Z.shiftr x 10).

(** The first 64 primes.  The round constants are the first 32 bits of the
    fractional parts of their cube roots, the initial state those of the
    square roots of the first eight. *)
Definition primes : list Z :=
  [2; 3; 5; 7; 11; 13; 17; 19; 23; 29; 31; 37; 41; 43; 47; 53; 59; 61; 67; 71;
   73; 79; 83; 89; 97; 101; 103; 107; 109; 113; 127; 131; 137; 139; 149; 151;
   157; 163; 167; 173; 179; 181; 191; 193; 197; 199; 211; 223; 227; 229; 233;
   239; 241; 251; 257; 263; 269; 271; 277; 281; 283; 293; 307; 311].

(** The integer cube root, bit by bit from [2^bits] down. *)
Fixpoint cube_root (bits : nat) (n r : Z) : Z :=
  match bits with
  | O => r
  | S k =>
      let r' := r + 2 ^ Z.of_nat k in
      cube_root k n (if r' * r' * r' <=? n then r' else r)
  end.

Definition round_constants : list Z :=
  Eval vm_compute in
    map (fun p => mask32 (cube_root 40 (p * 2 ^ 96) 0)) primes.

Record state := St
  { ha : Z; hb : Z; hc : Z; hd : Z; he : Z; hf : Z; hg : Z; hh : Z }.

Definition root_bits (p : Z) : Z := mask32 (Z.sqrt (p * 2 ^ 64)).

Definition initial : state :=
  Eval vm_compute in
    St (root_bits 2) (root_bits 3) (root_bits 5) (root_bits 7)
       (root_bits 11) (root_bits 13) (root_bits 17) (root_bits 19).

(** Padding: a 1 bit, zeros up to 56 mod 64, the bit length on 64 bits. *)
Definition be_bytes (n : nat) (x : Z) : list Z :=
  map (fun i => Z.land (Z.shiftr x (8 * Z.of_nat i)) 255) (rev (seq 0 n)).

Definition pad (msg : list Z) : list Z :=
  let len := Z.of_nat (List.length msg) in
  let zeros := Z.to_nat ((55 - len) mod 64) in
  msg ++ [128] ++ repeat 0 zeros ++ be_bytes 8 (8 * len).

Fixpoint words (fuel : nat) (l : list Z) : list Z :=
  match fuel, l with
  | S k, a :: b :: c :: d :: rest =>
      (a * 16777216 + b * 65536 + c * 256 + d) :: words k rest
  | _, _ => []
  end.

(** The message schedule, newest word first: [sched] holds W(t-1), W(t-2), ... *)
Fixpoint extend (n : nat) (sched : list Z) : list Z :=
  match n with
  | O => sched
  | S k =>
      let w2 := nth 1 sched 0 in
      let w7 := nth 6 sched 0 in
      let w15 := nth 14 sched 0 in
      let w16 := nth 15 sched 0 in
      extend k (add32 (add32 (ssig1 w2) w7) (add32 (ssig0 w15) w16) :: sched)
  end.

Definition schedule (block : list Z) : list Z :=
  rev (extend 48 (rev (words 16 block))).

Definition round (s : state) (kw : Z * Z) : state :=
  let t1 := add32 (add32 (add32 (hh s) (bsig1 (he s))) (ch (he s) (hf s) (hg s)))
                  (add32 (fst kw) (snd kw)) in
  let t2 := add32 (bsig0 (ha s)) (maj (ha s) (hb s) (hc s)) in
  St (add32 t1 t2) (ha s) (hb s) (hc s) (add32 (hd s) t1) (he s) (hf s) (hg s).

Definition compress (s : state) (block : list Z) : state :=
  let r := fold_left round (combine round_constants (schedule block)) s in
  St (add32 (ha s) (ha r)) (add32 (hb s) (hb r)) (add32 (hc s) (hc r))
     (add32 (hd s) (hd r)) (add32 (he s) (he r)) (add32 (hf s) (hf r))
     (add32 (hg s) (hg r)) (add32 (hh s) (hh r)).

Fixpoint absorb (fuel : nat) (s : state) (l : list Z) : state :=
  match fuel, l with
  | S k, _ :: _ => absorb k (compress s (firstn 64 l)) (skipn 64 l)
  | _, _ => s
  end.

Definition output (s : state) : bytes :=
  map byte_of_Z
    (List.concat (map (be_bytes 4)
               [ha s; hb s; hc s; hd s; he s; hf s; hg s; hh s])).

(** [createHash('sha256').update(m).digest()] *)
Definition digest (m : bytes) : bytes :=
  let p := pad (map Z_of_byte m) in
  output (absorb (List.length p) initial p).

End SHA256.

Definition sha256 (m : bytes) : bytes := SHA256.digest m.
Arguments sha256 : simpl never.

(** [createHash('sha256').update(m).digest('hex')] *)
Definition sha256_hex (m : bytes) : string := to_hex (sha256 m).

(** ** Positional notation, for the text encodings of byte strings *)

Module Radix.

(** The digits of [n] in base [B], most significant first, in front of
    [acc]; [fuel] bounds their number. *)
Fixpoint to_digits (B : Z) (fuel : nat) (n : Z) (acc : list Z) : list Z :=
  match fuel with
  | O => acc
  | S k => if n =? 0 then acc else to_digits B k (n / B) (n mod B :: acc)
  end.

Definition of_digits (B : Z) (l : list Z) : Z :=
  fold_left (fun acc d => acc * B + d) l 0.

Fixpoint leading_zeros (l : list Z) : nat :=
  match l with
  | d :: rest => if d =? 0 then S (leading_zeros rest) else O
  | [] => O
  end.

End Radix.

(** ** Base58 ([bs58], the Bitcoin alphabet) *)

Module bs58.

Definition ALPHABET : string :=
  "123456789ABCDEFGHJKLMNPQRSTUVWXYZabcdefghijkmnopqrstuvwxyz".

Definition char_of_digit (d : Z) : ascii :=
  nth (Z.to_nat d) (list_ascii_of_string ALPHABET) "1"%char.

Fixpoint index_of (c : ascii) (l : list ascii) (i : Z) : option Z :=
  match l with
  | [] => None
  | x :: rest => if Ascii.eqb x c then Some i else index_of c rest (i + 1)
  end.

Definition digit_of_char (c : ascii) : option Z :=
  index_of c (list_ascii_of_string ALPHABET) 0.

Fixpoint digits_of_chars (l : list ascii) : option (list Z) :=
  match l with
  | [] => Some []
  | c :: rest =>
      match digit_of_char c, digits_of_chars rest with
      | Some d, Some ds => Some (d :: ds)
      | _, _ => None
      end
  end.

(** [bs58.encode]: one '1' per leading zero byte, then the number the
    bytes spell, in base 58. *)
Definition encode (b : bytes) : string :=
  let zs := map Z_of_byte b in
  string_of_list_ascii
    (map char_of_digit
       (repeat 0 (Radix.leading_zeros zs)
        ++ Radix.to_digits 58 (2 * List.length b)
             (Radix.of_digits 256 zs) [])).

(** [bs58.decode]: [None] when it throws on a character outside the
    alphabet. *)
Definition decode (s : string) : option bytes :=
  match digits_of_chars (list_ascii_of_string s) with
  | None => None
  | Some ds =>
      Some (map byte_of_Z
              (repeat 0 (Radix.leading_zeros ds)
               ++ Radix.to_digits 256 (List.length ds)
                    (Radix.of_digits 58 ds) []))
  end.

End bs58.

(** [new PublicKey(text)] succeeds on the Base58 text of 32 bytes. *)
Definition valid_pubkey (text : string) : bool :=
  match bs58.decode text with
  | Some b => (List.length b =? 32)%nat
  | None => false
  end.

(** ** Base64, as [Buffer] encodes and decodes it *)

Module base64.

Definition ALPHABET : string :=
  "ABCDEFGHIJKLMNOPQRSTUVWXYZabcdefghijklmnopqrstuvwxyz0123456789+/".

Definition char_of_sextet (d : Z) : ascii :=
  nth (Z.to_nat d) (list_ascii_of_string ALPHABET) "A"%char.

(** The URL-safe characters are accepted as well. *)
Definition sextet_of_char (c : ascii) : option Z :=
  if Ascii.eqb c "-" then Some 62
  else if Ascii.eqb c "_" then Some 63
  else bs58.index_of c (list_ascii_of_string ALPHABET) 0.

Fixpoint encode_groups (l : list Z) : list ascii :=
  match l with
  | a :: b :: c :: rest =>
      char_of_sextet (a / 4)
      :: char_of_sextet (a mod 4 * 16 + b / 16)
      :: char_of_sextet (b mod 16 * 4 + c / 64)
      :: char_of_sextet (c mod 64)
      :: encode_groups rest
  | [a; b] =>
      [char_of_sextet (a / 4); char_of_sextet (a mod 4 * 16 + b / 16);
       char_of_sextet (b mod 16 * 4); "="%char]
  | [a] =>
      [char_of_sextet (a / 4); char_of_sextet (a mod 4 * 16);
       "="%char; "="%char]
  | [] => []
  end.

(** [buf.toString('base64')] *)
Definition encode (b : bytes) : string :=
  string_of_list_ascii (encode_groups (map Z_of_byte b)).

(** The sextets of the text up to the first padding character; characters
    outside the alphabet are skipped. *)
Fixpoint sextets (l : list ascii) : list Z :=
  match l with
  | [] => []
  | c :: rest =>
      if Ascii.eqb c "=" then []
      else match sextet_of_char c with
           | Some d => d :: sextets rest
           | None => sextets rest
           end
  end.

Fixpoint decode_groups (l : list Z) : list Z :=
  match l with
  | s1 :: s2 :: s3 :: s4 :: rest =>
      (s1 * 4 + s2 / 16)
      :: (s2 mod 16 * 16 + s3 / 4)
      :: (s3 mod 4 * 64 + s4)
      :: decode_groups rest
  | [s1; s2; s3] => [s1 * 4 + s2 / 16; s2 mod 16 * 16 + s3 / 4]
  | [s1; s2] => [s1 * 4 + s2 / 16]
  | _ => []
  end.

(** [Buffer.from(text, 'base64')] *)
Definition decode (s : string) : bytes :=
  map byte_of_Z (decode_groups (sextets (list_ascii_of_string s))).

End base64.

(** ** JavaScript values

    The structured values the pipeline serializes and reads: null, booleans,
    numbers, strings, arrays and objects.  An object is the list of its own
    properties in the order [Object.keys] enumerates them. *)

(** A number that holds no integer: [m * 2^e] with [m] odd and [e]
    negative, or an infinity. *)
Inductive Float :=
| Dyadic (m e : Z)
| Infinity (negative : bool).

#[local] Unset Elimination Schemes.
Inductive JSValue : Type :=
| JNull
| JBool (b : bool)
| JNum (z : Z)
| JFloat (x : Float)
| JStr (s : string)
| JArr (items : list JSValue)
| JObj (props : list (string * JSValue)).
#[local] Set Elimination Schemes.
#[local] Set Warnings "-register-all".

Definition JSObject := list (string * JSValue).

(** Decimal rendering of an integer, as [Number.prototype.toString] and
    [BigInt.prototype.toString] give it. *)
Definition decimal (z : Z) : string := NilZero.string_of_int (Z.to_int z).

(** ** Doubles

    The numbers of JavaScript, in exact arithmetic: rounding a fraction to
    the nearest double, and the shortest decimal text that reads back as a
    given double. *)

Module Double.

(** The integers below [2^53] in magnitude are doubles, and print as their
    decimal digits. *)
Definition safe (z : Z) : bool := Z.abs z <? 2 ^ 53.

(** [2^l <= p / q], for positive [p] and [q]. *)
Definition above_power (p q l : Z) : bool :=
  if 0 <=? l then q * 2 ^ l <=? p else q <=? p * 2 ^ (- l).

(** The exponent of the greatest power of two that is at most [p / q]. *)
Definition floor_log2 (p q : Z) : Z :=
  let l := Z.log2 p - Z.log2 q in
  if above_power p q l then l else l - 1.

(** [p / q] rounded to the nearest double, a tie going to the even
    mantissa: the double is [m * 2^e], where [2^e] is the gap between
    doubles at [p / q] (53 bits of mantissa, fewer below [2^-1022]).
    [None] when the result is beyond the largest double. *)
Definition round (p q : Z) : option (Z * Z) :=
  let e := Z.max (floor_log2 p q - 52) (-1074) in
  let n := if 0 <=? e then p else p * 2 ^ (- e) in
  let d := if 0 <=? e then q * 2 ^ e else q in
  let m := n / d in
  let r := n mod d in
  let m' := if (d <? 2 * r) || ((2 * r =? d) && Z.odd m) then m + 1 else m in
  if (0 <=? e) && (2 ^ 1024 <=? m' * 2 ^ e) then None else Some (m', e).

(** [m * 10^e10] rounded, for a positive [m].  The two tests on [e10] only
    spare the computation of a power that cannot matter: [10^342] is
    beyond the largest double, and [m * 10^e10 < 2^(log2 m + 1 + 3 * e10)]
    rounds to zero when it is below [2^-1075]. *)
Definition round_decimal (m e10 : Z) : option (Z * Z) :=
  if 0 <=? e10 then
    if 342 <=? e10 then None else round (m * 10 ^ e10) 1
  else if Z.log2 m + 1 + 3 * e10 <=? -1076 then Some (0, -1074)
  else round m (10 ^ (- e10)).

(** [p / q < 10^n], for positive [p] and [q]. *)
Definition below_power10 (p q n : Z) : bool :=
  if 0 <=? n then p <? q * 10 ^ n else p * 10 ^ (- n) <? q.

(** The [n] with [10^(n-1) <= p / q < 10^n]: the least [n] that puts
    [10^n] above [p / q], looked for around [log2 (p / q) * log10 2]. *)
Definition magnitude (p q : Z) : Z :=
  let guess := (Z.log2 p - Z.log2 q) * 30103 / 100000 in
  match find (below_power10 p q)
          [guess - 1; guess; guess + 1; guess + 2; guess + 3] with
  | Some n => n
  | None => guess + 4
  end.

(** Whether a rounded value is [p / q]. *)
Definition is_value (r : option (Z * Z)) (p q : Z) : bool :=
  match r with
  | Some (m, e) =>
      if 0 <=? e then m * 2 ^ e * q =? p else m * q =? p * 2 ^ (- e)
  | None => false
  end.

(** The two integers around [p / q * 10^(k - n)], the nearer one first
    and, of two that are as near, the even one. *)
Definition neighbours (p q n k : Z) : list Z :=
  let num := if 0 <=? k - n then p * 10 ^ (k - n) else p in
  let den := if 0 <=? k - n then q else q * 10 ^ (n - k) in
  let s := num / den in
  let r := num mod den in
  if 2 * r <? den then [s; s + 1]
  else if den <? 2 * r then [s + 1; s]
  else if Z.even s then [s; s + 1] else [s + 1; s].

(** The least number of digits [k], from [k] on, with an integer [s] of
    [k] digits such that [s * 10^(n - k)] rounds to [p / q], and that [s];
    17 digits always do. *)
Fixpoint shortest_from (fuel : nat) (p q n k : Z) : Z * Z :=
  match find (fun s => is_value (round_decimal s (n - k)) p q)
          (neighbours p q n k) with
  | Some s => (s, k)
  | None =>
      match fuel with
      | O => (p * 10 ^ (k - n) / q, k)
      | S fuel' => shortest_from fuel' p q n (k + 1)
      end
  end.

Definition digits_of (s : Z) : list ascii :=
  list_ascii_of_string (NilEmpty.string_of_uint (Pos.to_uint (Z.to_pos s))).

Definition zeros (n : Z) : list ascii := repeat "0"%char (Z.to_nat n).

(** The digits of a number with the decimal point after the [n]-th:
    written out when [n] is between -5 and 21, and with an exponent
    otherwise. *)
Definition layout (digits : list ascii) (n : Z) : list ascii :=
  let k := Z.of_nat (List.length digits) in
  if (k <=? n) && (n <=? 21) then digits ++ zeros (n - k)
  else if (0 <? n) && (n <=? 21) then
    firstn (Z.to_nat n) digits ++ "."%char :: skipn (Z.to_nat n) digits
  else if (-6 <? n) && (n <=? 0) then
    "0"%char :: "."%char :: zeros (- n) ++ digits
  else
    match digits with
    | d :: rest =>
        d :: match rest with
             | [] => []
             | _ :: _ => "."%char :: rest
             end
        ++ "e"%char :: (if n - 1 <? 0 then "-"%char else "+"%char)
        :: digits_of (Z.abs (n - 1))
    | [] => []
    end.

(** The digits and the place of the point of the positive double [p / q]:
    the shortest digits that read back as the double. *)
Definition shortest (p q : Z) : Z * Z :=
  let n := magnitude p q in
  let (s, k) := shortest_from 16 p q n 1 in
  if s =? 10 ^ k then (1, n + 1) else (s, n).

(** [Number::toString] of the positive double [p / q]. *)
Definition text_of (p q : Z) : list ascii :=
  let (s, n) := shortest p q in layout (digits_of s) n.

Definition signed (negative : bool) (l : list ascii) : string :=
  string_of_list_ascii (if negative then "-"%char :: l else l).

(** The text of a number that holds the integer [z]; [None] for one
    beyond the largest double, which is an infinity. *)
Definition integer_text (z : Z) : option string :=
  if safe z then Some (decimal z)
  else
    match round (Z.abs z) 1 with
    | Some (m, e) => Some (signed (z <? 0) (text_of (m * 2 ^ e) 1))
    | None => None
    end.

(** The text of [m * 2^e], for a negative [e]. *)
Definition fraction_text (m e : Z) : string :=
  signed (m <? 0) (text_of (Z.abs m) (2 ^ (- e))).

End Double.

(** An array index is a canonical numeric string below 2^32 - 1: the
    property keys an ordinary object enumerates first, in numeric order. *)
Definition array_index (k : string) : option Z :=
  match NilZero.uint_of_string k with
  | Some d =>
      let n := Z.of_uint d in
      if (decimal n =? k)%string && (n <? 4294967295) then Some n else None
  | None => None
  end.

Definition Object_keys (o : JSObject) : list string := map fst o.

(** [o[k]]: the value of property [k], [None] for [undefined]. *)
Fixpoint get_prop (k : string) (o : JSObject) : option JSValue :=
  match o with
  | [] => None
  | (k', x) :: rest => if (k' =? k)%string then Some x else get_prop k rest
  end.

Definition has_prop (k : string) (o : JSObject) : bool :=
  match get_prop k o with Some _ => true | None => false end.

Fixpoint replace_prop (k : string) (x : JSValue) (o : JSObject) : JSObject :=
  match o with
  | [] => []
  | (k', y) :: rest =>
      if (k' =? k)%string then (k', x) :: rest
      else (k', y) :: replace_prop k x rest
  end.

Fixpoint insert_index (n : Z) (k : string) (x : JSValue) (o : JSObject)
  : JSObject :=
  match o with
  | [] => [(k, x)]
  | (k', y) :: rest =>
      match array_index k' with
      | Some m =>
          if n <? m then (k, x) :: o else (k', y) :: insert_index n k x rest
      | None => (k, x) :: o
      end
  end.

(** [Object.defineProperty(o, k, {value: x, ...})] with a data property
    that can be written, enumerated and configured, as [JSON.parse] and the
    spread syntax create their properties.  An existing property keeps its
    place; a new array index goes among the indices in numeric order; any
    other new key goes last. *)
Definition define_prop (o : JSObject) (k : string) (x : JSValue) : JSObject :=
  if has_prop k o then replace_prop k x o
  else match array_index k with
       | Some n => insert_index n k x o
       | None => o ++ [(k, x)]
       end.

(** [o[k] = x] on an object that inherits from [Object.prototype] or from a
    structured value.  The key [__proto__] of an object that has no such
    property of its own names the accessor of [Object.prototype]: the
    assignment changes at most the prototype and creates no property.  Any
    other assignment defines the property. *)
Definition assigns (o : JSObject) (k : string) : bool :=
  has_prop k o || negb (k =? "__proto__")%string.

Definition set_prop (o : JSObject) (k : string) (x : JSValue) : JSObject :=
  if assigns o k then define_prop o k x else o.

(** Sorting, as [Array.prototype.sort] and [ORDER BY] do it: a stable
    insertion into ascending order under [le]. *)
Section Sort.
Variable A : Type.
Variable le : A -> A -> bool.

Fixpoint insert_by (x : A) (l : list A) : list A :=
  match l with
  | [] => [x]
  | h :: t => if le x h then x :: l else h :: insert_by x t
  end.

Definition sort_by (l : list A) : list A := fold_right insert_by [] l.
End Sort.

(** [Array.prototype.sort()] on strings: ascending by code unit. *)
Definition sort_strings (l : list string) : list string :=
  sort_by String.leb l.

(** ** The canonicalizer ([core/attestation/utils.ts]) *)

(** One step of the [reduce]: [acc[key] = canonicalize(obj[key])], with the
    canonical values of [obj] already computed in [cobj]. *)
Definition canon_step (cobj acc : JSObject) (key : string) : JSObject :=
  match get_prop key cobj with
  | Some x => set_prop acc key x
  | None => acc
  end.

Fixpoint canonicalize (obj : JSValue) : JSValue :=
  match obj with
  | JArr items => JArr (map canonicalize items)
  | JObj props =>
      let cobj :=
        (fix canon_props (o : JSObject) : JSObject :=
           match o with
           | [] => []
           | (k, x) :: rest => (k, canonicalize x) :: canon_props rest
           end) props in
      JObj (fold_left (canon_step cobj) (sort_strings (Object_keys props)) [])
  | _ => obj
  end.

(** ** [JSON.stringify] *)

Definition dquote : ascii := "034"%char.
Definition backslash : ascii := "092"%char.

Definition escape_char (c : ascii) : string :=
  let n := Z.of_N (N_of_ascii c) in
  if n =? 34 then String backslash (String dquote EmptyString)
  else if n =? 92 then String backslash (String backslash EmptyString)
  else if n =? 8 then String backslash "b"
  else if n =? 9 then String backslash "t"
  else if n =? 10 then String backslash "n"
  else if n =? 12 then String backslash "f"
  else if n =? 13 then String backslash "r"
  else if n <? 32 then
    String backslash
      (String "u" (String "0" (String "0"
         (String (hex_digit (n / 16)) (String (hex_digit (n mod 16)) EmptyString)))))
  else String c EmptyString.

Fixpoint escape (s : string) : string :=
  match s with
  | EmptyString => EmptyString
  | String c rest => (escape_char c ++ escape rest)%string
  end.

Definition quote (s : string) : string :=
  String dquote (escape s ++ String dquote EmptyString)%string.

Fixpoint join (sep : string) (l : list string) : string :=
  match l with
  | [] => EmptyString
  | [x] => x
  | x :: rest => (x ++ sep ++ join sep rest)%string
  end.

(** [Number::toString]. *)
Definition number_text (z : Z) : string :=
  match Double.integer_text z with
  | Some text => text
  | None => if z <? 0 then "-Infinity" else "Infinity"
  end.

Definition float_text (x : Float) : string :=
  match x with
  | Dyadic m e => Double.fraction_text m e
  | Infinity negative => if negative then "-Infinity" else "Infinity"
  end.

(** A number as [JSON.stringify] writes it: an infinity is [null]. *)
Definition number_json (z : Z) : string :=
  match Double.integer_text z with
  | Some text => text
  | None => "null"
  end.

Definition float_json (x : Float) : string :=
  match x with
  | Dyadic m e => Double.fraction_text m e
  | Infinity _ => "null"
  end.

Fixpoint JSON_stringify (v : JSValue) : string :=
  match v with
  | JNull => "null"
  | JBool true => "true"
  | JBool false => "false"
  | JNum z => number_json z
  | JFloat x => float_json x
  | JStr s => quote s
  | JArr items => ("[" ++ join "," (map JSON_stringify items) ++ "]")%string
  | JObj props =>
      ("{" ++ join ","
         ((fix members (o : JSObject) : list string :=
             match o with
             | [] => []
             | (k, x) :: rest =>
                 (quote k ++ ":" ++ JSON_stringify x)%string :: members rest
             end) props) ++ "}")%string
  end.


(** The canonical values of the properties of an object, in place: the
    local [canon_props] of [canonicalize], named for the proofs. *)
Fixpoint canon_props (o : JSObject) : JSObject :=
  match o with
  | [] => []
  | (k, x) :: rest => (k, canonicalize x) :: canon_props rest
  end.

(** The values the canonical form binds: those of the argument in
    canonical form, but for the key [__proto__], which it never binds. *)
Definition canonical_value (props : JSObject) (k : string) : option JSValue :=
  if (k =? "__proto__")%string then None
  else option_map canonicalize (get_prop k props).

(** The order in which an ordinary object enumerates the keys that
    [canonicalize] gives it: array indices first, by value, then the other
    keys, which arrive in ascending order. *)
Definition key_lt (k1 k2 : string) : Prop :=
  match array_index k1, array_index k2 with
  | Some a, Some b => a < b
  | Some _, None => True
  | None, Some _ => False
  | None, None => String.ltb k1 k2 = true
  end.

Definition canonical_object (o : JSObject) : Prop :=
  StronglySorted key_lt (Object_keys o).

Definition leb_rel (a b : string) : Prop := String.leb a b = true.

(** Structural equivalence: the same scalars, arrays equivalent element by
    element, objects with the same keys bound to equivalent values, in
    whatever order the properties were inserted. *)
Inductive opt_rel (A : Type) (R : A -> A -> Prop) : option A -> option A -> Prop :=
| opt_rel_none : opt_rel R None None
| opt_rel_some (x y : A) : R x y -> opt_rel R (Some x) (Some y).

Inductive equivalent : JSValue -> JSValue -> Prop :=
| equivalent_null : equivalent JNull JNull
| equivalent_bool (b : bool) : equivalent (JBool b) (JBool b)
| equivalent_num (z : Z) : equivalent (JNum z) (JNum z)
| equivalent_float (x : Float) : equivalent (JFloat x) (JFloat x)
| equivalent_str (s : string) : equivalent (JStr s) (JStr s)
| equivalent_arr (l1 l2 : list JSValue) :
    Forall2 equivalent l1 l2 -> equivalent (JArr l1) (JArr l2)
| equivalent_obj (o1 o2 : JSObject) :
    (forall k, opt_rel equivalent (get_prop k o1) (get_prop k o2)) ->
    equivalent (JObj o1) (JObj o2).

(** ** [JSON.parse]

    [None] is a SyntaxError. *)

Module JSON.

Definition code (c : ascii) : Z := Z.of_N (N_of_ascii c).

Definition is_ws (c : ascii) : bool :=
  (code c =? 32) || (code c =? 9) || (code c =? 10) || (code c =? 13).

Fixpoint skip_ws (l : list ascii) : list ascii :=
  match l with
  | c :: rest => if is_ws c then skip_ws rest else l
  | [] => []
  end.

Definition hex_value (c : ascii) : option Z :=
  let n := code c in
  if (48 <=? n) && (n <=? 57) then Some (n - 48)
  else if (97 <=? n) && (n <=? 102) then Some (n - 87)
  else if (65 <=? n) && (n <=? 70) then Some (n - 55)
  else None.

Definition char (n : Z) : ascii := ascii_of_N (Z.to_N n).

(** The UTF-8 bytes of the code unit a [\uXXXX] escape names. *)
Definition utf8_of_unit (u : Z) : list ascii :=
  if u <? 128 then [char u]
  else if u <? 2048 then [char (192 + u / 64); char (128 + u mod 64)]
  else [char (224 + u / 4096); char (128 + u / 64 mod 64); char (128 + u mod 64)].

(** The characters of a string literal after its opening quote; [acc]
    holds what was read, last character first. *)
Fixpoint parse_string (l : list ascii) (acc : list ascii)
  : option (string * list ascii) :=
  match l with
  | [] => None
  | c :: rest =>
      if Ascii.eqb c dquote then
        Some (string_of_list_ascii (rev acc), rest)
      else if Ascii.eqb c backslash then
        match rest with
        | e :: rest' =>
            if Ascii.eqb e "u" then
              match rest' with
              | h1 :: h2 :: h3 :: h4 :: rest'' =>
                  match hex_value h1, hex_value h2, hex_value h3, hex_value h4 with
                  | Some a, Some b, Some c', Some d =>
                      parse_string rest''
                        (rev (utf8_of_unit (((a * 16 + b) * 16 + c') * 16 + d))
                         ++ acc)
                  | _, _, _, _ => None
                  end
              | _ => None
              end
            else
              match
                (if Ascii.eqb e dquote then Some dquote
                 else if Ascii.eqb e backslash then Some backslash
                 else if Ascii.eqb e "/" then Some "/"%char
                 else if Ascii.eqb e "b" then Some (char 8)
                 else if Ascii.eqb e "f" then Some (char 12)
                 else if Ascii.eqb e "n" then Some (char 10)
                 else if Ascii.eqb e "r" then Some (char 13)
                 else if Ascii.eqb e "t" then Some (char 9)
                 else None)
              with
              | Some x => parse_string rest' (x :: acc)
              | None => None
              end
        | [] => None
        end
      else if code c <? 32 then None
      else parse_string rest (c :: acc)
  end.

Definition is_digit (c : ascii) : bool := (48 <=? code c) && (code c <=? 57).

(** A run of digits: the number they denote after those read as [acc],
    how many they are with the [count] read, and what follows them. *)
Fixpoint scan_digits (l : list ascii) (acc count : Z) : Z * Z * list ascii :=
  match l with
  | c :: rest =>
      if is_digit c then scan_digits rest (acc * 10 + (code c - 48)) (count + 1)
      else (acc, count, l)
  | [] => (acc, count, [])
  end.

(** The fraction of a number, after the integer part [int]: a point and
    at least one digit.  The result is the digits of the number so far,
    as an integer, and how many of them follow the point. *)
Definition parse_fraction (int : Z) (l : list ascii)
  : option (Z * Z * list ascii) :=
  match l with
  | c :: rest =>
      if Ascii.eqb c "." then
        let '(m, count, rest') := scan_digits rest int 0 in
        if count =? 0 then None else Some (m, count, rest')
      else Some (int, 0, l)
  | [] => Some (int, 0, l)
  end.

(** The exponent of a number: [e] or [E], a sign or none, and at least
    one digit. *)
Definition parse_exponent (l : list ascii) : option (Z * list ascii) :=
  match l with
  | c :: rest =>
      if Ascii.eqb c "e" || Ascii.eqb c "E" then
        let (negative, digits) :=
          match rest with
          | sign :: rest' =>
              if Ascii.eqb sign "-" then (true, rest')
              else if Ascii.eqb sign "+" then (false, rest')
              else (false, rest)
          | [] => (false, rest)
          end in
        let '(e, count, rest') := scan_digits digits 0 0 in
        if count =? 0 then None
        else Some (if negative then - e else e, rest')
      else Some (0, l)
  | [] => Some (0, l)
  end.

(** A number without its sign: an integer part with no leading zero, a
    fraction or none, an exponent or none.  The number is [m * 10^e10]. *)
Definition parse_number (l : list ascii) : option (Z * Z * list ascii) :=
  match l with
  | c :: rest =>
      if is_digit c then
        let '(int, _, rest1) :=
          if code c =? 48 then (0, 1, rest) else scan_digits l 0 0 in
        match parse_fraction int rest1 with
        | Some (m, places, rest2) =>
            match parse_exponent rest2 with
            | Some (e, rest3) => Some (m, e - places, rest3)
            | None => None
            end
        | None => None
        end
      else None
  | [] => None
  end.

(** The double nearest to [m * 10^e10], with its sign: an integer when it
    holds one. *)
Fixpoint halve (m : positive) (e : Z) : Z * Z :=
  match m with
  | xO m' => if e <? 0 then halve m' (e + 1) else (Zpos m, e)
  | _ => (Zpos m, e)
  end.

Definition number (negative : bool) (m e10 : Z) : JSValue :=
  let sign z := if negative then - z else z in
  if m =? 0 then JNum 0
  else if (0 <=? e10) && (e10 <=? 16) && Double.safe (m * 10 ^ e10)
  then JNum (sign (m * 10 ^ e10))
  else
    match Double.round_decimal m e10 with
    | None => JFloat (Infinity negative)
    | Some (Zpos p, e) =>
        if 0 <=? e then JNum (sign (Zpos p * 2 ^ e))
        else
          let (m', e') := halve p e in
          if e' <? 0 then JFloat (Dyadic (sign m') e') else JNum (sign m')
    | Some (_, _) => JNum 0
    end.

Fixpoint starts_with (word l : list ascii) : option (list ascii) :=
  match word, l with
  | [], _ => Some l
  | w :: word', c :: rest =>
      if Ascii.eqb w c then starts_with word' rest else None
  | _ :: _, [] => None
  end.

Fixpoint parse_value (fuel : nat) (l : list ascii) {struct fuel}
  : option (JSValue * list ascii) :=
  match fuel with
  | O => None
  | S k =>
      match skip_ws l with
      | [] => None
      | c :: rest =>
          if Ascii.eqb c "{" then
            match skip_ws rest with
            | x :: rest' =>
                if Ascii.eqb x "}" then Some (JObj [], rest')
                else parse_members k (x :: rest') []
            | [] => None
            end
          else if Ascii.eqb c "[" then
            match skip_ws rest with
            | x :: rest' =>
                if Ascii.eqb x "]" then Some (JArr [], rest')
                else parse_elements k (x :: rest') []
            | [] => None
            end
          else if Ascii.eqb c dquote then
            match parse_string rest [] with
            | Some (s, rest') => Some (JStr s, rest')
            | None => None
            end
          else if Ascii.eqb c "-" then
            match parse_number rest with
            | Some (m, e10, rest') => Some (number true m e10, rest')
            | None => None
            end
          else if is_digit c then
            match parse_number (c :: rest) with
            | Some (m, e10, rest') => Some (number false m e10, rest')
            | None => None
            end
          else
            match starts_with (list_ascii_of_string "null") (c :: rest) with
            | Some rest' => Some (JNull, rest')
            | None =>
                match starts_with (list_ascii_of_string "true") (c :: rest) with
                | Some rest' => Some (JBool true, rest')
                | None =>
                    match starts_with (list_ascii_of_string "false") (c :: rest) with
                    | Some rest' => Some (JBool false, rest')
                    | None => None
                    end
                end
            end
      end
  end

with parse_elements (fuel : nat) (l : list ascii) (acc : list JSValue)
  {struct fuel} : option (JSValue * list ascii) :=
  match fuel with
  | O => None
  | S k =>
      match parse_value k l with
      | Some (v, rest) =>
          match skip_ws rest with
          | c :: rest' =>
              if Ascii.eqb c "," then parse_elements k rest' (v :: acc)
              else if Ascii.eqb c "]" then Some (JArr (rev (v :: acc)), rest')
              else None
          | [] => None
          end
      | None => None
      end
  end

with parse_members (fuel : nat) (l : list ascii) (acc : JSObject)
  {struct fuel} : option (JSValue * list ascii) :=
  match fuel with
  | O => None
  | S k =>
      match skip_ws l with
      | q :: rest =>
          if Ascii.eqb q dquote then
            match parse_string rest [] with
            | Some (key, rest') =>
                match skip_ws rest' with
                | colon :: rest'' =>
                    if Ascii.eqb colon ":" then
                      match parse_value k rest'' with
                      | Some (v, rest3) =>
                          let acc' := define_prop acc key v in
                          match skip_ws rest3 with
                          | c :: rest4 =>
                              if Ascii.eqb c "," then parse_members k rest4 acc'
                              else if Ascii.eqb c "}" then Some (JObj acc', rest4)
                              else None
                          | [] => None
                          end
                      | None => None
                      end
                    else None
                | [] => None
                end
            | None => None
            end
          else None
      | [] => None
      end
  end.

Definition parse (text : string) : option JSValue :=
  let l := list_ascii_of_string text in
  match parse_value (4 * List.length l + 4) l with
  | Some (v, rest) =>
      match skip_ws rest with
      | [] => Some v
      | _ :: _ => None
      end
  | None => None
  end.

End JSON.

(** ** Conversions of JavaScript values *)

Definition truthy (v : JSValue) : bool :=
  match v with
  | JNull => false
  | JBool b => b
  | JNum z => negb (z =? 0)
  | JFloat _ => true
  | JStr s => negb (s =? "")%string
  | JArr _ | JObj _ => true
  end.

(** [String(v)], as [Array.prototype.sort] and [Array.prototype.join]
    turn their elements into text.  The text of an object is the one
    [Object.prototype.toString] gives. *)
Fixpoint ToString (v : JSValue) : string :=
  match v with
  | JNull => "null"
  | JBool true => "true"
  | JBool false => "false"
  | JNum z => number_text z
  | JFloat x => float_text x
  | JStr s => s
  | JArr items =>
      join ","
        (map (fun x => match x with JNull => EmptyString | _ => ToString x end)
           items)
  | JObj _ => "[object Object]"
  end.

(** White space at the head of a text, in UTF-8: the characters that
    [StringToBigInt] trims (TAB, LF, VT, FF, CR, SP, NBSP, U+1680,
    U+2000 to U+200A, U+2028, U+2029, U+202F, U+205F, U+3000, U+FEFF).
    The result is what follows the character. *)
Definition white_space (l : list ascii) : option (list ascii) :=
  match map JSON.code l with
  | 9 :: _ | 10 :: _ | 11 :: _ | 12 :: _ | 13 :: _ | 32 :: _ => Some (tl l)
  | 194 :: 160 :: _ => Some (tl (tl l))
  | 225 :: 154 :: 128 :: _ => Some (tl (tl (tl l)))
  | 226 :: 128 :: c :: _ =>
      if ((128 <=? c) && (c <=? 138)) || (c =? 168) || (c =? 169) || (c =? 175)
      then Some (tl (tl (tl l))) else None
  | 226 :: 129 :: 159 :: _ => Some (tl (tl (tl l)))
  | 227 :: 128 :: 128 :: _ => Some (tl (tl (tl l)))
  | 239 :: 187 :: 191 :: _ => Some (tl (tl (tl l)))
  | _ => None
  end.

(** The same at the end of a text: [l] is the text backwards. *)
Definition white_space_back (l : list ascii) : option (list ascii) :=
  match map JSON.code l with
  | 9 :: _ | 10 :: _ | 11 :: _ | 12 :: _ | 13 :: _ | 32 :: _ => Some (tl l)
  | 160 :: 194 :: _ => Some (tl (tl l))
  | 128 :: 154 :: 225 :: _ => Some (tl (tl (tl l)))
  | c :: 128 :: 226 :: _ =>
      if ((128 <=? c) && (c <=? 138)) || (c =? 168) || (c =? 169) || (c =? 175)
      then Some (tl (tl (tl l))) else None
  | 159 :: 129 :: 226 :: _ => Some (tl (tl (tl l)))
  | 128 :: 128 :: 227 :: _ => Some (tl (tl (tl l)))
  | 191 :: 187 :: 239 :: _ => Some (tl (tl (tl l)))
  | _ => None
  end.

Fixpoint trim_with (space : list ascii -> option (list ascii)) (fuel : nat)
  (l : list ascii) : list ascii :=
  match fuel with
  | O => l
  | S fuel' =>
      match space l with
      | Some rest => trim_with space fuel' rest
      | None => l
      end
  end.

Definition trim (l : list ascii) : list ascii :=
  let l' := trim_with white_space (List.length l) l in
  rev (trim_with white_space_back (List.length l') (rev l')).

(** The value of a digit in a base up to 16, [None] for another
    character. *)
Definition digit_in (base : Z) (c : ascii) : option Z :=
  match JSON.hex_value c with
  | Some d => if d <? base then Some d else None
  | None => None
  end.

Fixpoint digits_in (base : Z) (l : list ascii) (acc : Z) : option Z :=
  match l with
  | [] => Some acc
  | c :: rest =>
      match digit_in base c with
      | Some d => digits_in base rest (acc * base + d)
      | None => None
      end
  end.

(** At least one digit of the base, and nothing else. *)
Definition integer_in (base : Z) (l : list ascii) : option Z :=
  match l with
  | [] => None
  | _ :: _ => digits_in base l 0
  end.

(** [StringToBigInt]: white space around, then nothing (zero), decimal
    digits with a sign or none, or the digits of another base after [0x],
    [0o] or [0b].  [None] when the text is none of these. *)
Definition StringToBigInt (s : string) : option Z :=
  match trim (list_ascii_of_string s) with
  | [] => Some 0
  | c :: rest =>
      if Ascii.eqb c "-" then option_map Z.opp (integer_in 10 rest)
      else if Ascii.eqb c "+" then integer_in 10 rest
      else
        match (if Ascii.eqb c "0" then rest else []) with
        | p :: digits =>
            if Ascii.eqb p "x" || Ascii.eqb p "X" then integer_in 16 digits
            else if Ascii.eqb p "o" || Ascii.eqb p "O" then integer_in 8 digits
            else if Ascii.eqb p "b" || Ascii.eqb p "B" then integer_in 2 digits
            else integer_in 10 (c :: rest)
        | [] => integer_in 10 (c :: rest)
        end
  end.

(** [BigInt(v)]; [None] when it throws: for [null], for a number that
    holds no integer, and for a text, or an array or object turned into
    text, that does not denote an integer. *)
Definition BigInt (v : JSValue) : option Z :=
  match v with
  | JNum z => Some z
  | JFloat _ => None
  | JBool b => Some (if b then 1 else 0)
  | JStr s => StringToBigInt s
  | JArr _ | JObj _ => StringToBigInt (ToString v)
  | JNull => None
  end.

(** ** The ledger ([db/database.js])

    Rows as SQLite holds them.  [None] is SQL [NULL]. *)

(** Modelled from the spec: the column [processing_lock], a nullable
    worker id, which the reclaimer reads and writes and the schema script
    under [dist/] does not declare.  The other columns are those of the
    script; [lifecycle_state] is never written as [NULL]. *)
Record SponsoredAccount := {
  account_pubkey : string;
  creation_signature : string;
  slot : Z;
  discovered_at : string;
  operator_pubkey : string;
  lifecycle_state : string;
  lamports : option Z;
  data_len : option Z;
  owner_program : option string;
  last_lifecycle_check : option string;
  processing_lock : option string
}.

Record LifecycleEvent := {
  event_id : Z;
  event_account : string;
  old_state : string;
  new_state : string;
  trigger_reason : string;
  evidence_payload : option string;
  event_timestamp : string
}.

(** [system_kv_store] is a list of key/value rows with distinct keys;
    [event_seq] is the AUTOINCREMENT counter of [lifecycle_events]. *)
Record Ledger := {
  sponsored_accounts : list SponsoredAccount;
  lifecycle_events : list LifecycleEvent;
  system_kv_store : list (string * string);
  event_seq : Z
}.

(** The two columns [fetchAndLock] selects. *)
Definition row_pubkey (a : SponsoredAccount) : string := account_pubkey a.
Definition row_lamports (a : SponsoredAccount) : option Z := lamports a.

Definition empty_ledger : Ledger :=
  {| sponsored_accounts := []; lifecycle_events := [];
     system_kv_store := []; event_seq := 0 |}.

Definition js_text (o : option string) : JSValue :=
  match o with Some s => JStr s | None => JNull end.

Definition js_integer (o : option Z) : JSValue :=
  match o with Some z => JNum z | None => JNull end.

(** A row of [SELECT * FROM sponsored_accounts] as better-sqlite3 returns
    it: an object keyed by column name. *)
Definition account_row (a : SponsoredAccount) : JSValue :=
  JObj [("account_pubkey", JStr (account_pubkey a));
        ("creation_signature", JStr (creation_signature a));
        ("slot", JNum (slot a));
        ("discovered_at", JStr (discovered_at a));
        ("operator_pubkey", JStr (operator_pubkey a));
        ("lifecycle_state", JStr (lifecycle_state a));
        ("lamports", js_integer (lamports a));
        ("data_len", js_integer (data_len a));
        ("owner_program", js_text (owner_program a));
        ("last_lifecycle_check", js_text (last_lifecycle_check a));
        ("processing_lock", js_text (processing_lock a))].

Definition event_row (e : LifecycleEvent) : JSValue :=
  JObj [("id", JNum (event_id e));
        ("account_pubkey", JStr (event_account e));
        ("old_state", JStr (old_state e));
        ("new_state", JStr (new_state e));
        ("trigger_reason", JStr (trigger_reason e));
        ("evidence_payload", js_text (evidence_payload e));
        ("timestamp", JStr (event_timestamp e))].

(** [ORDER BY account_pubkey ASC] (BINARY collation) and [ORDER BY id ASC]. *)
Definition pubkey_leb (a b : SponsoredAccount) : bool :=
  String.leb (account_pubkey a) (account_pubkey b).

Definition id_leb (a b : LifecycleEvent) : bool := event_id a <=? event_id b.

Definition accounts_by_pubkey (db : Ledger) : list SponsoredAccount :=
  sort_by pubkey_leb (sponsored_accounts db).

Definition events_by_id (db : Ledger) : list LifecycleEvent :=
  sort_by id_leb (lifecycle_events db).

(** ** The state hasher ([core/attestation/state_hash.js]) *)

Module StateHasher.

(** [hashTable]: [rows] is the result of the ordered query. *)
Definition hashTable (tableName : string) (rows : list JSValue) : string :=
  match rows with
  | [] => sha256_hex (utf8 (tableName ++ ":empty")%string)
  | _ =>
      let tableHasher :=
        fold_left
          (fun fed row =>
             let rowStr := JSON_stringify (canonicalize row) in
             let rowHash := sha256 (utf8 rowStr) in
             fed ++ rowHash)
          rows [] in
      to_hex (sha256 tableHasher)
  end.

Definition computeStateHash (db : Ledger) : string :=
  let sponsoredHash :=
    hashTable "sponsored_accounts" (map account_row (accounts_by_pubkey db)) in
  let lifecycleHash :=
    hashTable "lifecycle_events" (map event_row (events_by_id db)) in
  sha256_hex (utf8 sponsoredHash ++ utf8 lifecycleHash).

End StateHasher.

(** The per-table digest as the specification words it: the 32 bytes
    [SHA256(utf8("<table>:empty"))] for an empty table, otherwise the SHA-256
    of the concatenated 32-byte row hashes, in row order. *)
Definition row_hash (row : JSValue) : bytes :=
  sha256 (utf8 (JSON_stringify (canonicalize row))).

Definition table_digest (tableName : string) (rows : list JSValue) : bytes :=
  match rows with
  | [] => sha256 (utf8 (tableName ++ ":empty")%string)
  | _ => sha256 (List.concat (map row_hash rows))
  end.

(** The root digest as the specification words it: SHA-256 over the two raw
    32-byte table digests, in hex. *)
Definition root_of_raw_digests (db : Ledger) : string :=
  sha256_hex
    (table_digest "sponsored_accounts" (map account_row (accounts_by_pubkey db))
     ++ table_digest "lifecycle_events" (map event_row (events_by_id db))).

(** The root digest as the code computes it: SHA-256 over the text of the
    two table digests, each 64 lowercase hexadecimal characters. *)
Definition root_of_hex_digests (db : Ledger) : string :=
  sha256_hex
    (utf8 (to_hex (table_digest "sponsored_accounts"
                     (map account_row (accounts_by_pubkey db))))
     ++ utf8 (to_hex (table_digest "lifecycle_events"
                        (map event_row (events_by_id db))))).

(** ** Ledger statements shared by the stages *)

(** What the process reads from its environment: the wall clock in
    milliseconds, the text SQLite stores for [CURRENT_TIMESTAMP], and
    [new Date(text).getTime()] ([None] for an invalid date). *)
Record Clock := {
  now_ms : Z;
  current_timestamp : string;
  Date_getTime : string -> option Z
}.

(** [UPDATE sponsored_accounts SET ... WHERE account_pubkey = ?] *)
Definition update_account (f : SponsoredAccount -> SponsoredAccount)
  (pubkey : string) (db : Ledger) : Ledger :=
  {| sponsored_accounts :=
       map (fun a => if (account_pubkey a =? pubkey)%string then f a else a)
         (sponsored_accounts db);
     lifecycle_events := lifecycle_events db;
     system_kv_store := system_kv_store db;
     event_seq := event_seq db |}.

(** [INSERT INTO lifecycle_events (account_pubkey, old_state, new_state,
    trigger_reason, evidence_payload) VALUES (...)]: the id comes from the
    AUTOINCREMENT counter, the timestamp from [CURRENT_TIMESTAMP]. *)
Definition insert_event (clock : Clock) (pubkey oldState newState reason : string)
  (evidence : option string) (db : Ledger) : Ledger :=
  {| sponsored_accounts := sponsored_accounts db;
     lifecycle_events :=
       lifecycle_events db ++
       [{| event_id := event_seq db + 1;
           event_account := pubkey;
           old_state := oldState;
           new_state := newState;
           trigger_reason := reason;
           evidence_payload := evidence;
           event_timestamp := current_timestamp clock |}];
     system_kv_store := system_kv_store db;
     event_seq := event_seq db + 1 |}.

Definition set_lifecycle_state (st : string) (a : SponsoredAccount)
  : SponsoredAccount :=
  {| account_pubkey := account_pubkey a;
     creation_signature := creation_signature a;
     slot := slot a;
     discovered_at := discovered_at a;
     operator_pubkey := operator_pubkey a;
     lifecycle_state := st;
     lamports := lamports a;
     data_len := data_len a;
     owner_program := owner_program a;
     last_lifecycle_check := last_lifecycle_check a;
     processing_lock := processing_lock a |}.

Definition set_processing_lock (lock : option string) (a : SponsoredAccount)
  : SponsoredAccount :=
  {| account_pubkey := account_pubkey a;
     creation_signature := creation_signature a;
     slot := slot a;
     discovered_at := discovered_at a;
     operator_pubkey := operator_pubkey a;
     lifecycle_state := lifecycle_state a;
     lamports := lamports a;
     data_len := data_len a;
     owner_program := owner_program a;
     last_lifecycle_check := last_lifecycle_check a;
     processing_lock := lock |}.

Definition find_account (pubkey : string) (db : Ledger) : option SponsoredAccount :=
  find (fun a => (account_pubkey a =? pubkey)%string) (sponsored_accounts db).

Definition events_of (pubkey : string) (db : Ledger) : list LifecycleEvent :=
  filter (fun e => (event_account e =? pubkey)%string) (lifecycle_events db).

Definition SYSTEM_PROGRAM_ID : string := "11111111111111111111111111111111".

(** ** The policy engine ([core/policy.ts]) *)

Module PolicyEngine.

Record PolicyConfig := {
  dbPath : string;
  dryRun : bool;
  minLamports : option Z;
  minAgeDays : option Z;
  whitelist : option (list string)
}.

Record Decision := { newState : option string; reason : string }.

Definition includes (l : list string) (x : string) : bool :=
  existsb (fun y => (y =? x)%string) l.

(** [x || 0] on an optional number. *)
Definition or_zero (x : option Z) : Z :=
  match x with Some z => z | None => 0 end.

Definition MS_PER_DAY : Z := 1000 * 60 * 60 * 24.

(** The reason of the "too young" decision embeds [ageDays.toFixed(2)];
    [evaluate] discards it, and the model keeps only its fixed part. *)
Definition checkEligibility (config : PolicyConfig) (clock : Clock)
  (account : SponsoredAccount) : Decision :=
  if match whitelist config with
     | Some w => includes w (account_pubkey account)
     | None => false
     end
  then {| newState := Some "PROTECTED"; reason := "Whitelisted" |}
  else
    match lamports account, owner_program account with
    | None, _ | _, None =>
        {| newState := Some "SKIPPED";
           reason := "Missing lifecycle data (Account might simply be closed/null already)" |}
    | Some lam, Some owner =>
        if negb (owner =? SYSTEM_PROGRAM_ID)%string then
          {| newState := Some "SKIPPED";
             reason := ("Owner is not System Program (Owner: " ++ owner ++ ")")%string |}
        else if match data_len account with
                | Some d => negb (d =? 0) && (d >? 0)
                | None => false
                end
        then
          {| newState := Some "SKIPPED";
             reason := ("Account has data (" ++ decimal (or_zero (data_len account))
                        ++ " bytes)")%string |}
        else
          let balance := lam in
          let minLamports := or_zero (minLamports config) in
          if balance <? minLamports then
            {| newState := Some "DUST";
               reason := ("Balance " ++ decimal balance ++ " < Min "
                          ++ decimal minLamports)%string |}
          else if balance <=? 0 then
            {| newState := Some "SKIPPED"; reason := "0 Balance" |}
          else
            let passes :=
              {| newState := Some "RECLAIMABLE";
                 reason := "Passes all safety & eligibility rules" |} in
            match minAgeDays config with
            | Some days =>
                if negb (days =? 0) && (days >? 0) then
                  match last_lifecycle_check account with
                  | None | Some EmptyString =>
                      {| newState := Some "SKIPPED";
                         reason := "No age data (run lifecycle scan first)" |}
                  | Some checked =>
                      match Date_getTime clock checked with
                      | Some lastCheck =>
                          let diffTime := now_ms clock - lastCheck in
                          if diffTime <? days * MS_PER_DAY then
                            {| newState := None;
                               reason := ("Age below Min " ++ decimal days)%string |}
                          else passes
                      | None => passes
                      end
                  end
                else passes
            | None => passes
            end
    end.

Definition config_json (config : PolicyConfig) : JSValue :=
  JObj ([("dbPath", JStr (dbPath config)); ("dryRun", JBool (dryRun config))]
        ++ match minLamports config with
           | Some z => [("minLamports", JNum z)] | None => []
           end
        ++ match minAgeDays config with
           | Some z => [("minAgeDays", JNum z)] | None => []
           end
        ++ match whitelist config with
           | Some w => [("whitelist", JArr (map JStr w))] | None => []
           end).

Definition updateState (config : PolicyConfig) (clock : Clock)
  (pubkey oldState newState reason : string) (db : Ledger) : Ledger :=
  if dryRun config then db
  else
    insert_event clock pubkey oldState newState ("Policy: " ++ reason)%string
      (Some (JSON_stringify (JObj [("config", config_json config)])))
      (update_account (set_lifecycle_state newState) pubkey db).

(** [WHERE lifecycle_state NOT IN ('RECLAIMABLE', 'reclaimed', 'closed_zero')
     ORDER BY account_pubkey ASC] *)
Definition candidates (db : Ledger) : list SponsoredAccount :=
  sort_by pubkey_leb
    (filter (fun a =>
               negb (includes ["RECLAIMABLE"; "reclaimed"; "closed_zero"]
                       (lifecycle_state a)))
       (sponsored_accounts db)).

Definition evaluate (config : PolicyConfig) (clock : Clock) (db : Ledger)
  : Ledger :=
  fold_left
    (fun db account =>
       let decision := checkEligibility config clock account in
       match newState decision with
       | Some st =>
           if negb (st =? "")%string
              && negb (st =? lifecycle_state account)%string
           then updateState config clock (account_pubkey account)
                  (lifecycle_state account) st (reason decision) db
           else db
       | None => db
       end)
    (candidates db) db.

End PolicyEngine.

(** ** The indexer ([core/indexer.ts])

    The chain as the indexer sees it.  [history] lists the operator's
    signatures newest first; [signatures_fail n] tells whether the [n]-th
    call of [getSignaturesForAddress] throws.  Writes to [audit_log] are
    left out: no stage reads that table. *)

Module Indexer.

Record AccountKey := { signer : bool; pubkey : string }.

Record ParsedInfo := { from : string; newAccount : string }.

Record Parsed := { type : string; info : ParsedInfo }.

(** [parsed = None]: a partially decoded instruction. *)
Record Instruction := { programId : string; parsed : option Parsed }.

Record Transaction := {
  accountKeys : list AccountKey;
  instructions : list Instruction;
  signatures : list string;
  tx_slot : Z
}.

Inductive TxFetch :=
| TxThrows
| TxNull
| TxOk (tx : Transaction).

Record Chain := {
  history : list string;
  signatures_fail : nat -> bool;
  getParsedTransaction : string -> TxFetch
}.

Record IndexerConfig := {
  operator : string;
  rpcUrl : string;
  dbPath : string;
  dryRun : bool
}.

Definition SIGNATURE_CURSOR_KEY : string := "discovery_cursor_last_signature".
Definition SIGNATURE_FETCH_LIMIT : nat := 100.

Fixpoint after_signature (before : string) (l : list string) : list string :=
  match l with
  | [] => []
  | s :: rest => if (s =? before)%string then rest else after_signature before rest
  end.

Fixpoint up_to_signature (until : string) (l : list string) : list string :=
  match l with
  | [] => []
  | s :: rest => if (s =? until)%string then [] else s :: up_to_signature until rest
  end.

(** The RPC [getSignaturesForAddress(operator, {limit, until, before})]:
    at most [limit] signatures, newest first, older than [before] and newer
    than [until]. *)
Definition getSignaturesForAddress (chain : Chain) (limit : nat)
  (until before : option string) : list string :=
  let older :=
    match before with
    | Some b => after_signature b (history chain)
    | None => history chain
    end in
  let newer :=
    match until with
    | Some u => up_to_signature u older
    | None => older
    end in
  firstn limit newer.

Fixpoint kv_get (key : string) (kv : list (string * string)) : option string :=
  match kv with
  | [] => None
  | (k, v) :: rest => if (k =? key)%string then Some v else kv_get key rest
  end.

(** [INSERT OR REPLACE INTO system_kv_store (key, value)] *)
Definition kv_put (key value : string) (kv : list (string * string))
  : list (string * string) :=
  filter (fun row => negb (fst row =? key)%string) kv ++ [(key, value)].

Definition getCursor (db : Ledger) : option string :=
  kv_get SIGNATURE_CURSOR_KEY (system_kv_store db).

(** The state of a run: the ledger and the values the run has written to
    the cursor key, oldest write first. *)
Record RunState := { ledger : Ledger; cursor_writes : list string }.

Definition saveCursor (config : IndexerConfig) (signature : string)
  (st : RunState) : RunState :=
  if dryRun config then st
  else
    {| ledger :=
         {| sponsored_accounts := sponsored_accounts (ledger st);
            lifecycle_events := lifecycle_events (ledger st);
            system_kv_store :=
              kv_put SIGNATURE_CURSOR_KEY signature (system_kv_store (ledger st));
            event_seq := event_seq (ledger st) |};
       cursor_writes := cursor_writes st ++ [signature] |}.

(** [INSERT ... ON CONFLICT(account_pubkey) DO NOTHING] *)
Definition storeSponsoredAccount (config : IndexerConfig) (clock : Clock)
  (pubkey creation : string) (slot : Z) (db : Ledger) : Ledger :=
  if dryRun config then db
  else
    match find_account pubkey db with
    | Some _ => db
    | None =>
        {| sponsored_accounts :=
             sponsored_accounts db ++
             [{| account_pubkey := pubkey;
                 creation_signature := creation;
                 slot := slot;
                 discovered_at := current_timestamp clock;
                 operator_pubkey := operator config;
                 lifecycle_state := "DISCOVERED";
                 lamports := None;
                 data_len := None;
                 owner_program := None;
                 last_lifecycle_check := None;
                 processing_lock := None |}];
           lifecycle_events := lifecycle_events db;
           system_kv_store := system_kv_store db;
           event_seq := event_seq db |}
    end.

(** The body of the loop over the instructions of a transaction: the
    flag [discovered] and the ledger. *)
Definition visit_instruction (config : IndexerConfig) (clock : Clock)
  (tx : Transaction) (acc : bool * Ledger) (instruction : Instruction)
  : bool * Ledger :=
  match parsed instruction with
  | Some p =>
      if (programId instruction =? SYSTEM_PROGRAM_ID)%string
         && (type p =? "createAccount")%string
         && (from (info p) =? operator config)%string
      then
        (true,
         match signatures tx with
         | sig :: _ =>
             storeSponsoredAccount config clock
               (newAccount (info p)) sig (tx_slot tx) (snd acc)
         | [] => snd acc
         end)
      else acc
  | None => acc
  end.

(** [parseTransaction]: [None] when it throws (no account keys). *)
Definition parseTransaction (config : IndexerConfig) (clock : Clock)
  (tx : Transaction) (db : Ledger) : option (bool * Ledger) :=
  match accountKeys tx with
  | [] => None
  | feePayer :: _ =>
      if negb (signer feePayer) || negb (pubkey feePayer =? operator config)%string
      then Some (false, db)
      else
        Some (fold_left (visit_instruction config clock tx)
                (instructions tx) (false, db))
  end.

(** The [for] loop over one page: [false] when a fetch or a parse throws;
    the ledger writes made before the throw stay. *)
Fixpoint process_page (chain : Chain) (config : IndexerConfig) (clock : Clock)
  (page : list string) (db : Ledger) : bool * Ledger :=
  match page with
  | [] => (true, db)
  | sig :: rest =>
      match getParsedTransaction chain sig with
      | TxThrows => (false, db)
      | TxNull => process_page chain config clock rest db
      | TxOk tx =>
          match parseTransaction config clock tx db with
          | None => (false, db)
          | Some (_, db') => process_page chain config clock rest db'
          end
      end
  end.

Definition truthy (s : option string) : bool :=
  match s with
  | Some EmptyString | None => false
  | Some _ => true
  end.

(** The [while (hasMore)] loop; [call] counts the signature requests made
    so far.  [None]: the fuel ran out before the loop ended. *)
Fixpoint run_loop (fuel : nat) (chain : Chain) (config : IndexerConfig)
  (clock : Clock) (untilSignature beforeSignature : option string)
  (call : nat) (st : RunState) : option RunState :=
  match fuel with
  | O => None
  | S fuel' =>
      if signatures_fail chain call then Some st
      else
        match getSignaturesForAddress chain SIGNATURE_FETCH_LIMIT
                untilSignature beforeSignature with
        | [] => Some st
        | (latestInBatch :: _) as page =>
            let oldestInBatch := last page latestInBatch in
            let (ok, db') := process_page chain config clock page (ledger st) in
            let st' := {| ledger := db'; cursor_writes := cursor_writes st |} in
            if ok then
              let st'' :=
                if negb (truthy untilSignature)
                then saveCursor config latestInBatch st'
                else st' in
              run_loop fuel' chain config clock untilSignature
                (Some oldestInBatch) (S call) st''
            else Some st'
        end
  end.

Definition run (chain : Chain) (config : IndexerConfig) (clock : Clock)
  (db : Ledger) : option RunState :=
  run_loop (S (List.length (history chain))) chain config clock
    (getCursor db) None 0 {| ledger := db; cursor_writes := [] |}.

End Indexer.

(** ** Positions inside a value *)

Inductive PathStep :=
| Key (k : string)
| Index (i : nat).

(** The value found by following property names and array indices. *)
Fixpoint at_path (p : list PathStep) (v : JSValue) : option JSValue :=
  match p with
  | [] => Some v
  | Key k :: rest =>
      match v with
      | JObj o =>
          match get_prop k o with
          | Some x => at_path rest x
          | None => None
          end
      | _ => None
      end
  | Index i :: rest =>
      match v with
      | JArr items =>
          match nth_error items i with
          | Some x => at_path rest x
          | None => None
          end
      | _ => None
      end
  end.


(** ** Fetch and lock ([core/reclaimer/fetch.ts]) *)

Module ReclaimerFetcher.

Record ReclaimableAccount := { account_pubkey : string; lamports : option Z }.

Definition unlocked (a : SponsoredAccount) : bool :=
  match processing_lock a with
  | None => true
  | Some l => (l =? "")%string
  end.

Definition is_candidate (a : SponsoredAccount) : bool :=
  (lifecycle_state a =? "RECLAIMABLE")%string && unlocked a.

(** [LIMIT ?]: a negative limit is no limit. *)
Definition sql_limit (A : Type) (limit : Z) (rows : list A) : list A :=
  if limit <? 0 then rows else firstn (Z.to_nat limit) rows.

Definition select_candidates (limit : Z) (db : Ledger) : list ReclaimableAccount :=
  map (fun a => {| account_pubkey := row_pubkey a;
                   lamports := row_lamports a |})
    (sql_limit limit (filter is_candidate (sponsored_accounts db))).

(** The body of [fetchTransaction], run as one ledger transaction. *)
Definition fetchAndLock (limit : Z) (workerId : string) (db : Ledger)
  : list ReclaimableAccount * Ledger :=
  let candidates := select_candidates limit db in
  match candidates with
  | [] => ([], db)
  | _ =>
      let pubkeys := map account_pubkey candidates in
      (candidates,
       fold_left
         (fun db pubkey =>
            update_account (set_processing_lock (Some workerId)) pubkey db)
         pubkeys db)
  end.

End ReclaimerFetcher.

(** ** The database singleton ([db/database.js]) *)

Module AppDatabase.

(** A connection is known by the file it was opened on. *)
Record Connection := { path : string; verbose : bool }.

(** The static field [AppDatabase.instance] and whether [close] has been
    called on the connection it holds. *)
Record Static := { instance : option Connection; closed : bool }.

Definition initial : Static := {| instance := None; closed := false |}.

Section Filesystem.

(** [openable p]: [new Database(p)] succeeds. *)
Variable openable : string -> bool.

(** [initializeSchema] asks [getInstance('')] for the connection, which by
    then is set, and runs the idempotent schema script on it. *)
Definition initializeSchema (st : Static) : Static := st.

(** [getInstance(dbPath, verbose)]: the new state and the connection
    returned, [None] when the constructor throws. *)
Definition getInstance (dbPath : string) (verbose : bool) (st : Static)
  : Static * option Connection :=
  match instance st with
  | None =>
      if openable dbPath then
        let c := {| path := dbPath; verbose := verbose |} in
        let st' := initializeSchema {| instance := Some c; closed := false |} in
        (st', instance st')
      else (st, None)
  | Some c => (st, Some c)
  end.

Definition close (st : Static) : Static :=
  match instance st with
  | Some c => {| instance := Some c; closed := true |}
  | None => st
  end.

Inductive Call :=
| GetInstance (dbPath : string) (verbose : bool)
| Close.

(** The connections returned by the [getInstance] calls of a sequence. *)
Fixpoint returned (calls : list Call) (st : Static) : list (option Connection) :=
  match calls with
  | [] => []
  | GetInstance p v :: rest =>
      let (st', r) := getInstance p v st in r :: returned rest st'
  | Close :: rest => returned rest (close st)
  end.

End Filesystem.

End AppDatabase.

(** The accounts after [fetchAndLock] has locked [pubkeys] for [workerId]. *)
Definition lock_rows (workerId : string) (pubkeys : list string)
  (rows : list SponsoredAccount) : list SponsoredAccount :=
  map (fun a =>
         if existsb (fun k => (account_pubkey a =? k)%string) pubkeys
         then set_processing_lock (Some workerId) a else a)
    rows.

(** ** Just-in-time verification ([core/reclaimer/verify.ts]) *)

Module ReclaimerVerifier.

(** What [getMultipleAccountsInfo] reports for an account that exists:
    [info.lamports], [info.owner.toBase58()], [info.data.length]. *)
Record AccountInfo := {
  info_lamports : Z;
  info_owner : string;
  info_data_length : Z;
  info_executable : bool
}.

Record VerifiedAccount := {
  account_pubkey : string;
  lamports : option Z;
  verifiedLamports : Z
}.

Record InvalidAccount := { pubkey : string; reason : string; status : string }.

Record VerificationResult := {
  valid : list VerifiedAccount;
  invalid : list InvalidAccount
}.

Definition push_valid (x : VerifiedAccount) (r : VerificationResult) :=
  {| valid := valid r ++ [x]; invalid := invalid r |}.

Definition push_invalid (x : InvalidAccount) (r : VerificationResult) :=
  {| valid := valid r; invalid := invalid r ++ [x] |}.

(** [accountInfos[i]]: [None] for [null] and for a missing entry. *)
Definition info_at (accountInfos : list (option AccountInfo)) (i : nat)
  : option AccountInfo :=
  match nth_error accountInfos i with
  | Some info => info
  | None => None
  end.

(** The body of the [for] loop. *)
Definition check (acc : ReclaimerFetcher.ReclaimableAccount)
  (info : option AccountInfo) (r : VerificationResult) : VerificationResult :=
  let pubkeyStr := ReclaimerFetcher.account_pubkey acc in
  match info with
  | None =>
      push_invalid {| pubkey := pubkeyStr;
                      reason := "Account does not exist on-chain";
                      status := "closed_zero" |} r
  | Some info =>
      if info_lamports info =? 0 then
        push_invalid {| pubkey := pubkeyStr;
                        reason := "Account has 0 lamports";
                        status := "closed_zero" |} r
      else if negb (info_owner info =? SYSTEM_PROGRAM_ID)%string then
        push_invalid {| pubkey := pubkeyStr;
                        reason := ("Owner changed to " ++ info_owner info)%string;
                        status := "SKIPPED" |} r
      else if info_data_length info >? 0 then
        push_invalid {| pubkey := pubkeyStr;
                        reason := ("Account has data len "
                                   ++ decimal (info_data_length info))%string;
                        status := "SKIPPED" |} r
      else
        push_valid {| account_pubkey := pubkeyStr;
                      lamports := ReclaimerFetcher.lamports acc;
                      verifiedLamports := info_lamports info |} r
  end.

Fixpoint loop (accounts : list ReclaimerFetcher.ReclaimableAccount) (i : nat)
  (accountInfos : list (option AccountInfo)) (r : VerificationResult)
  : VerificationResult :=
  match accounts with
  | [] => r
  | acc :: rest =>
      loop rest (S i) accountInfos (check acc (info_at accountInfos i) r)
  end.

(** [verify(accounts)] given the answer [accountInfos] of the batched
    query; [None] when [new PublicKey] throws on an address. *)
Definition verify (accounts : list ReclaimerFetcher.ReclaimableAccount)
  (accountInfos : list (option AccountInfo)) : option VerificationResult :=
  match accounts with
  | [] => Some {| valid := []; invalid := [] |}
  | _ =>
      if forallb (fun a => valid_pubkey (ReclaimerFetcher.account_pubkey a))
           accounts
      then Some (loop accounts 0 accountInfos {| valid := []; invalid := [] |})
      else None
  end.

End ReclaimerVerifier.

(** The JIT rules as the specification orders them. *)
Inductive JitOutcome :=
| jit_closed_zero
| jit_SKIPPED
| jit_verified (verified_lamports : Z).

Definition jit_rules (info : option ReclaimerVerifier.AccountInfo) : JitOutcome :=
  match info with
  | None => jit_closed_zero
  | Some i =>
      if ReclaimerVerifier.info_lamports i =? 0 then jit_closed_zero
      else if negb (ReclaimerVerifier.info_owner i =? SYSTEM_PROGRAM_ID)%string
      then jit_SKIPPED
      else if ReclaimerVerifier.info_data_length i >? 0 then jit_SKIPPED
      else jit_verified (ReclaimerVerifier.info_lamports i)
  end.

(** Each account of the batch beside the entry of the answer that has its
    position; an answer that is too short has nothing to say of the accounts
    past its end. *)
Definition answered (accounts : list ReclaimerFetcher.ReclaimableAccount)
  (accountInfos : list (option ReclaimerVerifier.AccountInfo))
  : list (ReclaimerFetcher.ReclaimableAccount
          * option ReclaimerVerifier.AccountInfo) :=
  combine accounts (accountInfos ++ repeat None (List.length accounts)).

(** The pairs the loop of [verify] has still to go through when it stands
    at index [i]. *)
Fixpoint paired (accounts : list ReclaimerFetcher.ReclaimableAccount) (i : nat)
  (accountInfos : list (option ReclaimerVerifier.AccountInfo))
  : list (ReclaimerFetcher.ReclaimableAccount
          * option ReclaimerVerifier.AccountInfo) :=
  match accounts with
  | [] => []
  | acc :: rest =>
      (acc, ReclaimerVerifier.info_at accountInfos i)
      :: paired rest (S i) accountInfos
  end.

Definition verified_of
  (p : ReclaimerFetcher.ReclaimableAccount * option ReclaimerVerifier.AccountInfo)
  : list ReclaimerVerifier.VerifiedAccount :=
  match jit_rules (snd p) with
  | jit_verified onchain =>
      [{| ReclaimerVerifier.account_pubkey :=
            ReclaimerFetcher.account_pubkey (fst p);
          ReclaimerVerifier.lamports := ReclaimerFetcher.lamports (fst p);
          ReclaimerVerifier.verifiedLamports := onchain |}]
  | _ => []
  end.

Definition outcome_of
  (p : ReclaimerFetcher.ReclaimableAccount * option ReclaimerVerifier.AccountInfo)
  : list (string * string) :=
  match jit_rules (snd p) with
  | jit_closed_zero => [(ReclaimerFetcher.account_pubkey (fst p), "closed_zero")]
  | jit_SKIPPED => [(ReclaimerFetcher.account_pubkey (fst p), "SKIPPED")]
  | jit_verified _ => []
  end.

(** ** Library functions taken as given

    Ed25519 ([tweetnacl]), the host's collation ([String.prototype.
    localeCompare]) and its URL parser are not part of the repository. *)

Record Platform := {
  (** [nacl.sign.detached(message, secretKey)] *)
  nacl_sign_detached : bytes -> bytes -> bytes;
  (** [nacl.sign.detached.verify(message, signature, publicKey)], on a
      64-byte signature and a 32-byte key *)
  nacl_sign_detached_verify : bytes -> bytes -> bytes -> bool;
  (** [Keypair.publicKey], from the secret key *)
  keypair_publicKey : bytes -> bytes;
  (** [a.localeCompare(b)] *)
  localeCompare : string -> string -> Z;
  (** [new URL(url)]: [protocol] and [host], [None] when it throws *)
  URL_parse : string -> option (string * string)
}.

(** What the theorems ask of Ed25519: sizes and correctness. *)
Record Ed25519Laws (P : Platform) : Prop := {
  signature_size :
    forall m sk, List.length (nacl_sign_detached P m sk) = 64%nat;
  publicKey_size : forall sk, List.length (keypair_publicKey P sk) = 32%nat;
  verify_signed :
    forall m sk,
      nacl_sign_detached_verify P m (nacl_sign_detached P m sk)
        (keypair_publicKey P sk) = true
}.


Record Keypair := { secretKey : bytes }.

(** ** The manifest ([core/attestation/manifest.ts]) *)

Record ExecutionManifest := {
  version : string;
  network : string;
  manifest_operator_pubkey : option string;
  config : JSObject;
  rpc_endpoint : string;
  db_state_hash : string;
  candidates : list string
}.

Definition manifest_json (m : ExecutionManifest) : JSValue :=
  JObj [("version", JStr (version m));
        ("network", JStr (network m));
        ("operator_pubkey", js_text (manifest_operator_pubkey m));
        ("config", JObj (config m));
        ("rpc_endpoint", JStr (rpc_endpoint m));
        ("db_state_hash", JStr (db_state_hash m));
        ("candidates", JArr (map JStr (candidates m)))].

Definition stringifyManifest (manifest : ExecutionManifest) : string :=
  JSON_stringify (canonicalize (manifest_json manifest)).

Module ManifestBuilder.

(** [Array.from(new Set(l))]: first occurrences, in order. *)
Fixpoint unique (seen l : list string) : list string :=
  match l with
  | [] => []
  | x :: rest =>
      if existsb (fun y => (y =? x)%string) seen then unique seen rest
      else x :: unique (x :: seen) rest
  end.

(** [config.KEY || fallback] *)
Definition or_else (config : JSValue) (key : string) (fallback : JSValue)
  : JSValue :=
  match config with
  | JObj o =>
      match get_prop key o with
      | Some v => if truthy v then v else fallback
      | None => fallback
      end
  | _ => fallback
  end.

Definition sanitizeRpc (P : Platform) (url : string) : string :=
  match URL_parse P url with
  | Some (protocol, host) => (protocol ++ "//" ++ host)%string
  | None => "unknown-rpc"
  end.

(** [build]: [None] when reading a property of a [null] configuration
    throws. *)
Definition build (P : Platform) (network : string) (config : JSValue)
  (operatorPubkey : option string) (rpcEndpoint dbStateHash : string)
  (candidates : list string) : option ExecutionManifest :=
  match config with
  | JNull => None
  | _ =>
      Some
        {| version := "1.0.0";
           network := network;
           manifest_operator_pubkey := operatorPubkey;
           config :=
             [("min_lamports", or_else config "MIN_LAMPORTS_RECLAIM" (JNum 0));
              ("min_age_days", or_else config "MIN_AGE_DAYS" (JNum 0));
              ("whitelist_hash", or_else config "whitelist_hash" JNull)];
           rpc_endpoint := sanitizeRpc P rpcEndpoint;
           db_state_hash := dbStateHash;
           candidates := sort_strings (unique [] candidates) |}
  end.

End ManifestBuilder.

(** ** The result digest ([core/attestation/result.ts]) *)

Record Failure := { failure_pubkey : string; failure_reason : string }.

Record ExecutionResultDigest := {
  evaluated_count : Z;
  accounts : JSObject;
  total_lamports_reclaimed : string;
  transaction_signatures : list JSValue;
  failures : list Failure
}.

Definition failure_json (f : Failure) : JSValue :=
  JObj [("pubkey", JStr (failure_pubkey f)); ("reason", JStr (failure_reason f))].

Definition result_json (r : ExecutionResultDigest) : JSValue :=
  JObj [("evaluated_count", JNum (evaluated_count r));
        ("accounts", JObj (accounts r));
        ("total_lamports_reclaimed", JStr (total_lamports_reclaimed r));
        ("transaction_signatures", JArr (transaction_signatures r));
        ("failures", JArr (map failure_json (failures r)))].

Definition stringifyResult (result : ExecutionResultDigest) : string :=
  JSON_stringify (canonicalize (result_json result)).

Module ResultBuilder.

Record t := {
  builder_accounts : JSObject;
  totalLamports : Z;
  signatures : list JSValue;
  builder_failures : list Failure
}.

Definition empty : t :=
  {| builder_accounts := []; totalLamports := 0;
     signatures := []; builder_failures := [] |}.

(** [addResult]: [None] when [BigInt] throws; the account is recorded
    before it does. *)
Definition addResult (pubkey state : string) (lamportsReclaimed : JSValue)
  (b : t) : option t :=
  match BigInt lamportsReclaimed with
  | Some n =>
      Some {| builder_accounts := set_prop (builder_accounts b) pubkey (JStr state);
              totalLamports := totalLamports b + n;
              signatures := signatures b;
              builder_failures := builder_failures b |}
  | None => None
  end.

Definition addSignature (signature : JSValue) (b : t) : t :=
  {| builder_accounts := builder_accounts b;
     totalLamports := totalLamports b;
     signatures := signatures b ++ [signature];
     builder_failures := builder_failures b |}.

Definition addFailure (pubkey reason : string) (b : t) : t :=
  {| builder_accounts := builder_accounts b;
     totalLamports := totalLamports b;
     signatures := signatures b;
     builder_failures :=
       builder_failures b
       ++ [{| failure_pubkey := pubkey; failure_reason := reason |}] |}.

(** The default order of [sort()]: by the text of the elements. *)
Definition text_leb (a b : JSValue) : bool := String.leb (ToString a) (ToString b).

Definition pubkey_locale_leb (P : Platform) (a b : Failure) : bool :=
  localeCompare P (failure_pubkey a) (failure_pubkey b) <=? 0.

Definition build (P : Platform) (b : t) : ExecutionResultDigest :=
  let sortedSignatures := sort_by text_leb (signatures b) in
  let sortedFailures := sort_by (pubkey_locale_leb P) (builder_failures b) in
  {| evaluated_count := Z.of_nat (List.length (Object_keys (builder_accounts b)));
     accounts := builder_accounts b;
     total_lamports_reclaimed := decimal (totalLamports b);
     transaction_signatures := sortedSignatures;
     failures := sortedFailures |}.

End ResultBuilder.

(** ** The attestor ([core/attestation/attestor.ts]) *)

Record AttestationDoc := {
  manifest : ExecutionManifest;
  doc_db_state_hash : string;
  result_digest : ExecutionResultDigest;
  attestation_hash : string;
  signature : option string
}.

Module Attestor.

(** The digest of the three texts fed to the hasher in turn. *)
Definition hash_bytes (manifestStr dbHash resultStr : string) : bytes :=
  sha256 (utf8 manifestStr ++ utf8 dbHash ++ utf8 resultStr).

Definition generate (P : Platform) (manifest : ExecutionManifest)
  (resultDigest : ExecutionResultDigest) (operatorKeypair : option Keypair)
  : AttestationDoc :=
  let manifestStr := stringifyManifest manifest in
  let dbHash := db_state_hash manifest in
  let resultStr := stringifyResult resultDigest in
  let attestationHashBytes := hash_bytes manifestStr dbHash resultStr in
  let attestationHashHex := to_hex attestationHashBytes in
  let signature :=
    match operatorKeypair with
    | Some kp =>
        Some (base64.encode
                (nacl_sign_detached P attestationHashBytes (secretKey kp)))
    | None => None
    end in
  {| manifest := manifest;
     doc_db_state_hash := dbHash;
     result_digest := resultDigest;
     attestation_hash := attestationHashHex;
     signature := signature |}.

Definition nonempty (o : option string) : bool :=
  match o with
  | Some s => negb (s =? "")%string
  | None => false
  end.

(** The signature check inside the [try]: [false] also when [bs58.decode]
    or [nacl] throws (a foreign character, a wrong size). *)
Definition check_signature (P : Platform) (computedHashBytes : bytes)
  (signature operator_pubkey : string) : bool :=
  match bs58.decode operator_pubkey with
  | None => false
  | Some pubkeyBytes =>
      let sigBytes := base64.decode signature in
      if negb (List.length sigBytes =? 64)%nat then false
      else if negb (List.length pubkeyBytes =? 32)%nat then false
      else nacl_sign_detached_verify P computedHashBytes sigBytes pubkeyBytes
  end.

Definition verify (P : Platform) (doc : AttestationDoc) : bool :=
  let manifestStr := stringifyManifest (manifest doc) in
  let dbHash := doc_db_state_hash doc in
  let resultStr := stringifyResult (result_digest doc) in
  let computedHashBytes := hash_bytes manifestStr dbHash resultStr in
  let computedHashHex := to_hex computedHashBytes in
  if negb (computedHashHex =? attestation_hash doc)%string then false
  else if negb (db_state_hash (manifest doc) =? "")%string
          && negb (db_state_hash (manifest doc) =? doc_db_state_hash doc)%string
  then false
  else if nonempty (signature doc)
          && nonempty (manifest_operator_pubkey (manifest doc))
  then
    match signature doc, manifest_operator_pubkey (manifest doc) with
    | Some sig, Some op => check_signature P computedHashBytes sig op
    | _, _ => true
    end
  else true.

End Attestor.

(** ** The attestation service ([core/attestation/index.ts]) *)

Module AttestationService.

(** [SELECT ... FROM lifecycle_events WHERE account_pubkey = ? AND
    new_state = ?] read with [.get()]: the first matching row of the scan,
    which SQLite runs in rowid order. *)
Definition first_event (db : Ledger) (pubkey state : string)
  : option LifecycleEvent :=
  find (fun e => (event_account e =? pubkey)%string
                 && (new_state e =? state)%string)
    (events_by_id db).

(** [payload.key]: [None] for [undefined]. *)
Definition field (payload : JSValue) (key : string) : option JSValue :=
  match payload with
  | JObj o => get_prop key o
  | _ => None
  end.

(** The [try] block: a text that does not parse and a [null] payload both
    throw before anything is recorded. *)
Definition read_payload (text : string) (reclaimedAmt : JSValue)
  (b : ResultBuilder.t) : JSValue * ResultBuilder.t :=
  match JSON.parse text with
  | None | Some JNull => (reclaimedAmt, b)
  | Some payload =>
      let reclaimedAmt' :=
        match field payload "amount" with
        | Some amount => if truthy amount then amount else reclaimedAmt
        | None => reclaimedAmt
        end in
      let b' :=
        match field payload "signature" with
        | Some sig => if truthy sig then ResultBuilder.addSignature sig b else b
        | None => b
        end in
      (reclaimedAmt', b')
  end.

(** The body of the loop over the accounts; [None] when [BigInt] throws. *)
Definition scan_row (db : Ledger) (b : ResultBuilder.t) (row : SponsoredAccount)
  : option ResultBuilder.t :=
  let reclaimedAmt := JNum 0 in
  let (reclaimedAmt', b1) :=
    match first_event db (account_pubkey row) "RECLAIMED" with
    | Some event =>
        match evidence_payload event with
        | Some text =>
            if negb (text =? "")%string
            then read_payload text reclaimedAmt b
            else (reclaimedAmt, b)
        | None => (reclaimedAmt, b)
        end
    | None => (reclaimedAmt, b)
    end in
  match ResultBuilder.addResult (account_pubkey row) (lifecycle_state row)
          reclaimedAmt' b1 with
  | None => None
  | Some b2 =>
      if (lifecycle_state row =? "FAILED")%string then
        let reason :=
          match first_event db (account_pubkey row) "FAILED" with
          | Some failEvent =>
              if negb (trigger_reason failEvent =? "")%string
              then trigger_reason failEvent else "Unknown error"
          | None => "Unknown error"
          end in
        Some (ResultBuilder.addFailure (account_pubkey row) reason b2)
      else Some b2
  end.

Fixpoint scan (db : Ledger) (rows : list SponsoredAccount) (b : ResultBuilder.t)
  : option ResultBuilder.t :=
  match rows with
  | [] => Some b
  | row :: rest =>
      match scan_row db b row with
      | Some b' => scan db rest b'
      | None => None
      end
  end.

(** [generate(config, operatorKeypair, rpcEndpoint)] on the ledger [db] of
    the service for [network]; [None] when it throws. *)
Definition generate (P : Platform) (db : Ledger) (network : string)
  (config : JSValue) (operatorKeypair : option Keypair) (rpcEndpoint : string)
  : option AttestationDoc :=
  let dbHash := StateHasher.computeStateHash db in
  let accounts := sponsored_accounts db in
  let candidateKeys := map account_pubkey accounts in
  match scan db accounts ResultBuilder.empty with
  | None => None
  | Some resultBuilder =>
      let resultDigest := ResultBuilder.build P resultBuilder in
      match
        ManifestBuilder.build P network config
          (match operatorKeypair with
           | Some kp => Some (bs58.encode (keypair_publicKey P (secretKey kp)))
           | None => None
           end)
          rpcEndpoint dbHash candidateKeys
      with
      | None => None
      | Some manifest =>
          Some (Attestor.generate P manifest resultDigest operatorKeypair)
      end
  end.

End AttestationService.

(** ** A platform to run the examples on

    Not Ed25519: a signature is the digest of key and message followed by
    the key.  It meets the laws above, which shows they can be met; the
    collation is the order of the bytes; no URL parses. *)

Definition stand_in_publicKey (sk : bytes) : bytes := sha256 sk.

Definition stand_in_sign (m sk : bytes) : bytes :=
  sha256 (stand_in_publicKey sk ++ m) ++ stand_in_publicKey sk.

Fixpoint bytes_eqb (a b : bytes) : bool :=
  match a, b with
  | [], [] => true
  | x :: a', y :: b' => Byte.eqb x y && bytes_eqb a' b'
  | _, _ => false
  end.

Definition stand_in_verify (m sig pk : bytes) : bool :=
  bytes_eqb sig (sha256 (pk ++ m) ++ pk).

Definition byte_order (a b : string) : Z :=
  match String.compare a b with
  | Lt => -1
  | Eq => 0
  | Gt => 1
  end.

Definition stand_in : Platform :=
  {| nacl_sign_detached := stand_in_sign;
     nacl_sign_detached_verify := stand_in_verify;
     keypair_publicKey := stand_in_publicKey;
     localeCompare := byte_order;
     URL_parse := fun _ => None |}.

(** ** The evidence the digest reads, in the words of the specification *)

(** The value of a key of the evidence of an event, when the evidence is a
    JSON object that has the key with a truthy value. *)
Definition evidence (e : LifecycleEvent) (key : string) : option JSValue :=
  match evidence_payload e with
  | Some text =>
      match JSON.parse text with
      | Some (JObj o) =>
          match get_prop key o with
          | Some v => if truthy v then Some v else None
          | None => None
          end
      | _ => None
      end
  | None => None
  end.

(** The events that moved an account to RECLAIMED. *)
Definition reclaimed_events (db : Ledger) (pubkey : string)
  : list LifecycleEvent :=
  filter (fun e => (event_account e =? pubkey)%string
                   && (new_state e =? "RECLAIMED")%string)
    (lifecycle_events db).

(** The event of the lowest id among some events. *)
Fixpoint lowest_id (events : list LifecycleEvent) : option LifecycleEvent :=
  match events with
  | [] => None
  | e :: rest =>
      match lowest_id rest with
      | Some e' => if event_id e <=? event_id e' then Some e else Some e'
      | None => Some e
      end
  end.

(** The lamports an event adds: the amount of its evidence as an integer,
    nothing without an event or without an amount; [None] when the amount
    is no integer. *)
Definition amount_of (event : option LifecycleEvent) : option Z :=
  match event with
  | Some e =>
      match evidence e "amount" with
      | Some v => BigInt v
      | None => Some 0
      end
  | None => Some 0
  end.

Definition signature_of (event : option LifecycleEvent) : list JSValue :=
  match event with
  | Some e =>
      match evidence e "signature" with
      | Some v => [v]
      | None => []
      end
  | None => []
  end.

(** What an account contributes: the amount and the signature of the
    RECLAIMED event of the account that has the lowest id. *)
Definition reclaimed_amount (db : Ledger) (a : SponsoredAccount) : option Z :=
  amount_of (lowest_id (reclaimed_events db (account_pubkey a))).



Definition sum (l : list Z) : Z := fold_right Z.add 0 l.

(** The operator named by the manifest is the signer: with a keypair, the
    manifest names no operator or the Base58 address of the keypair. *)
Definition signer_matches (P : Platform) (manifest : ExecutionManifest)
  (operatorKeypair : option Keypair) : Prop :=
  forall kp op,
    operatorKeypair = Some kp ->
    manifest_operator_pubkey manifest = Some op ->
    op = "" \/ op = bs58.encode (keypair_publicKey P (secretKey kp)).

(** ** Inputs of the examples *)

(** The same mapping, its properties inserted in two orders. *)
Definition order_sample_1 : JSValue :=
  JObj [("b", JNum 1); ("a", JObj [("y", JNull); ("x", JArr [JBool true])])].

Definition order_sample_2 : JSValue :=
  JObj [("a", JObj [("x", JArr [JBool true]); ("y", JNull)]); ("b", JNum 1)].

(** A clock for the examples; no date parses. *)
Definition test_clock : Clock :=
  {| now_ms := 1700000000000;
     current_timestamp := "2023-11-14 22:13:20";
     Date_getTime := fun _ => None |}.

(** An account as [recordSuccess] leaves it: RECLAIMED with no balance. *)
Definition reclaimed_account : SponsoredAccount :=
  {| account_pubkey := "TestAccount111111111111111111111111111111111";
     creation_signature := "sig12345";
     slot := 100;
     discovered_at := "2023-01-01 00:00:00";
     operator_pubkey := "OperatorKey1111111111111111111111111111111111";
     lifecycle_state := "RECLAIMED";
     lamports := Some 0;
     data_len := Some 0;
     owner_program := Some SYSTEM_PROGRAM_ID;
     last_lifecycle_check := Some "2023-01-02 00:00:00";
     processing_lock := None |}.

Definition reclaimed_ledger : Ledger :=
  {| sponsored_accounts := [reclaimed_account];
     lifecycle_events :=
       [{| event_id := 1;
           event_account := "TestAccount111111111111111111111111111111111";
           old_state := "RECLAIMABLE";
           new_state := "RECLAIMED";
           trigger_reason := "Reclamation Success";
           evidence_payload := None;
           event_timestamp := "2023-01-02 00:00:00" |}];
     system_kv_store := [];
     event_seq := 1 |}.

(** The configuration the command line builds from its defaults. *)
Definition default_policy : PolicyEngine.PolicyConfig :=
  {| PolicyEngine.dbPath := "kora-rent-devnet.db";
     PolicyEngine.dryRun := false;
     PolicyEngine.minLamports := Some 0;
     PolicyEngine.minAgeDays := Some 0;
     PolicyEngine.whitelist := Some [] |}.

Definition numbered_signature (i : nat) : string :=
  ("sig" ++ decimal (Z.of_nat i))%string.

(** 101 signatures, [sig101] the newest; no transaction can be fetched. *)
Definition two_page_chain : Indexer.Chain :=
  {| Indexer.history := map numbered_signature (rev (seq 1 101));
     Indexer.signatures_fail := fun _ => false;
     Indexer.getParsedTransaction := fun _ => Indexer.TxNull |}.

Definition scan_config : Indexer.IndexerConfig :=
  {| Indexer.operator := "OperatorKey1111111111111111111111111111111111";
     Indexer.rpcUrl := "https://api.devnet.solana.com";
     Indexer.dbPath := "kora-rent-devnet.db";
     Indexer.dryRun := false |}.

(** A ledger with one account that is RECLAIMABLE and unlocked. *)
Definition one_reclaimable : Ledger :=
  {| sponsored_accounts := [set_lifecycle_state "RECLAIMABLE" reclaimed_account];
     lifecycle_events := [];
     system_kv_store := [];
     event_seq := 0 |}.

Definition devnet_connection : AppDatabase.Connection :=
  {| AppDatabase.path := "kora-rent-devnet.db"; AppDatabase.verbose := false |}.

Definition devnet_static : AppDatabase.Static :=
  {| AppDatabase.instance := Some devnet_connection;
     AppDatabase.closed := false |}.

(** A batch with one account per rule; the ledger remembers 2000000
    lamports for each. *)
Definition jit_batch : list ReclaimerFetcher.ReclaimableAccount :=
  map (fun k => {| ReclaimerFetcher.account_pubkey := k;
                   ReclaimerFetcher.lamports := Some 2000000 |})
    ["So11111111111111111111111111111111111111112";
     "TokenkegQfeZyiNwAJbNbGKPFXCWuBvf9Ss623VQ5DA";
     "SysvarRent111111111111111111111111111111111";
     "Vote111111111111111111111111111111111111111";
     "Stake11111111111111111111111111111111111111"].

Definition jit_answers : list (option ReclaimerVerifier.AccountInfo) :=
  [None;
   Some {| ReclaimerVerifier.info_lamports := 0;
           ReclaimerVerifier.info_owner := SYSTEM_PROGRAM_ID;
           ReclaimerVerifier.info_data_length := 0;
           ReclaimerVerifier.info_executable := false |};
   Some {| ReclaimerVerifier.info_lamports := 5;
           ReclaimerVerifier.info_owner :=
             "TokenkegQfeZyiNwAJbNbGKPFXCWuBvf9Ss623VQ5DA";
           ReclaimerVerifier.info_data_length := 165;
           ReclaimerVerifier.info_executable := false |};
   Some {| ReclaimerVerifier.info_lamports := 5;
           ReclaimerVerifier.info_owner := SYSTEM_PROGRAM_ID;
           ReclaimerVerifier.info_data_length := 80;
           ReclaimerVerifier.info_executable := false |};
   Some {| ReclaimerVerifier.info_lamports := 1500000;
           ReclaimerVerifier.info_owner := SYSTEM_PROGRAM_ID;
           ReclaimerVerifier.info_data_length := 0;
           ReclaimerVerifier.info_executable := false |}].

(** An account reclaimed twice: two RECLAIMED events, of 5 and then of 7
    lamports. *)
Definition twice_reclaimed : Ledger :=
  {| sponsored_accounts := [reclaimed_account];
     lifecycle_events :=
       [{| event_id := 1;
           event_account := "TestAccount111111111111111111111111111111111";
           old_state := "RECLAIMABLE";
           new_state := "RECLAIMED";
           trigger_reason := "Reclamation Success";
           evidence_payload :=
             Some (JSON_stringify
                     (JObj [("signature", JStr "tx_old"); ("amount", JNum 5);
                            ("slot", JStr "confirmed")]));
           event_timestamp := "2023-01-02 00:00:00" |};
        {| event_id := 2;
           event_account := "TestAccount111111111111111111111111111111111";
           old_state := "RECLAIMABLE";
           new_state := "RECLAIMED";
           trigger_reason := "Reclamation Success";
           evidence_payload :=
             Some (JSON_stringify
                     (JObj [("signature", JStr "tx_new"); ("amount", JNum 7);
                            ("slot", JStr "confirmed")]));
           event_timestamp := "2023-03-02 00:00:00" |}];
     system_kv_store := [];
     event_seq := 2 |}.

(** The ledger of the first scenario of the specification: A is ACTIVE
    with 5000000 lamports, B was RECLAIMED by [tx_B] for 2000000, C FAILED
    with "simulation failed". *)
Definition seeded_account (pubkey state : string) (balance : Z)
  : SponsoredAccount :=
  {| account_pubkey := pubkey;
     creation_signature := "sig12345";
     slot := 100;
     discovered_at := "2023-01-01 00:00:00";
     operator_pubkey := "OperatorKey1111111111111111111111111111111111";
     lifecycle_state := state;
     lamports := Some balance;
     data_len := Some 0;
     owner_program := Some SYSTEM_PROGRAM_ID;
     last_lifecycle_check := Some "2023-01-02 00:00:00";
     processing_lock := None |}.

Definition seeded_ledger : Ledger :=
  {| sponsored_accounts :=
       [seeded_account "A" "ACTIVE" 5000000;
        seeded_account "B" "RECLAIMED" 0;
        seeded_account "C" "FAILED" 1000];
     lifecycle_events :=
       [{| event_id := 1;
           event_account := "B";
           old_state := "RECLAIMABLE";
           new_state := "RECLAIMED";
           trigger_reason := "Reclamation Success";
           evidence_payload :=
             Some (JSON_stringify
                     (JObj [("amount", JNum 2000000); ("signature", JStr "tx_B")]));
           event_timestamp := "2023-01-02 00:00:00" |};
        {| event_id := 2;
           event_account := "C";
           old_state := "RECLAIMABLE";
           new_state := "FAILED";
           trigger_reason := "simulation failed";
           evidence_payload := None;
           event_timestamp := "2023-01-02 00:00:00" |}];
     system_kv_store := [];
     event_seq := 2 |}.

Definition seeded_config : JSValue := JObj [("MIN_LAMPORTS_RECLAIM", JNum 1000)].

(** A manifest that names its operator in text that is not Base58. *)
Definition foreign_manifest : ExecutionManifest :=
  {| version := "1.0.0";
     network := "devnet";
     manifest_operator_pubkey := Some "0OIl";
     config := [("min_lamports", JNum 1000); ("min_age_days", JNum 0);
                ("whitelist_hash", JNull)];
     rpc_endpoint := "unknown-rpc";
     db_state_hash := StateHasher.computeStateHash seeded_ledger;
     candidates := ["A"; "B"; "C"] |}.

Definition seeded_digest : ExecutionResultDigest :=
  {| evaluated_count := 3;
     accounts := [("A", JStr "ACTIVE"); ("B", JStr "RECLAIMED");
                  ("C", JStr "FAILED")];
     total_lamports_reclaimed := "2000000";
     transaction_signatures := [JStr "tx_B"];
     failures := [{| failure_pubkey := "C";
                     failure_reason := "simulation failed" |}] |}.

(** A keypair, and the manifest and digest it signs in the examples. *)
Definition operator_keypair : Keypair :=
  {| secretKey := map byte_of_Z (map Z.of_nat (seq 1 64)) |}.

Definition signed_manifest : ExecutionManifest :=
  {| version := "1.0.0";
     network := "devnet";
     manifest_operator_pubkey :=
       Some (bs58.encode (keypair_publicKey stand_in (secretKey operator_keypair)));
     config := [("min_lamports", JNum 1000); ("min_age_days", JNum 0);
                ("whitelist_hash", JNull)];
     rpc_endpoint := "unknown-rpc";
     db_state_hash := StateHasher.computeStateHash seeded_ledger;
     candidates := ["A"; "B"; "C"] |}.

(** ** Runs of builder calls, and documents without a signature *)

(** A run of [addResult] calls, in order, each with an integer amount. *)
Fixpoint addResults (calls : list (string * string * Z)) (b : ResultBuilder.t)
  : option ResultBuilder.t :=
  match calls with
  | [] => Some b
  | (pubkey, state, amount) :: rest =>
      match ResultBuilder.addResult pubkey state (JNum amount) b with
      | Some b' => addResults rest b'
      | None => None
      end
  end.

(** The pubkeys [addResult] makes a property of [accounts] for: every one
    but [__proto__]. *)
Definition recorded (pubkey : string) : bool :=
  negb (pubkey =? "__proto__")%string.

Definition call_pubkey (c : string * string * Z) : string := fst (fst c).
Definition call_state (c : string * string * Z) : string := snd (fst c).
Definition call_amount (c : string * string * Z) : Z := snd c.

(** The state given by the last call for [pubkey], if any. *)
Fixpoint last_state (pubkey : string) (calls : list (string * string * Z))
  : option string :=
  match calls with
  | [] => None
  | c :: rest =>
      match last_state pubkey rest with
      | Some s => Some s
      | None =>
          if (call_pubkey c =? pubkey)%string then Some (call_state c) else None
      end
  end.

(** A builder with the signatures it was given replaced by [sigs]. *)
Definition with_signatures (sigs : list JSValue) (b : ResultBuilder.t)
  : ResultBuilder.t :=
  {| ResultBuilder.builder_accounts := ResultBuilder.builder_accounts b;
     ResultBuilder.totalLamports := ResultBuilder.totalLamports b;
     ResultBuilder.signatures := sigs;
     ResultBuilder.builder_failures := ResultBuilder.builder_failures b |}.

Definition is_text (v : JSValue) : Prop := exists s, v = JStr s.

Definition strip_signature (doc : AttestationDoc) : AttestationDoc :=
  {| manifest := manifest doc;
     doc_db_state_hash := doc_db_state_hash doc;
     result_digest := result_digest doc;
     attestation_hash := attestation_hash doc;
     signature := None |}.

(** ** What the policy engine decides for a row *)

(** [evaluate] row by row: whether the query selects the row, and the state
    the loop body leaves it in. *)
Definition policy_candidate (a : SponsoredAccount) : bool :=
  negb (PolicyEngine.includes ["RECLAIMABLE"; "reclaimed"; "closed_zero"]
          (lifecycle_state a)).

Definition policy_change (config : PolicyEngine.PolicyConfig) (clock : Clock)
  (a : SponsoredAccount) : option string :=
  match PolicyEngine.newState (PolicyEngine.checkEligibility config clock a) with
  | Some st =>
      if negb (st =? "")%string && negb (st =? lifecycle_state a)%string
      then Some st else None
  | None => None
  end.

Definition policy_row (config : PolicyEngine.PolicyConfig) (clock : Clock)
  (a : SponsoredAccount) : SponsoredAccount :=
  if policy_candidate a then
    match policy_change config clock a with
    | Some st => set_lifecycle_state st a
    | None => a
    end
  else a.

(** What makes a row safe to reclaim under a configuration. *)
Definition whitelisted (config : PolicyEngine.PolicyConfig) (a : SponsoredAccount)
  : bool :=
  match PolicyEngine.whitelist config with
  | Some w => PolicyEngine.includes w (account_pubkey a)
  | None => false
  end.

Definition no_data (a : SponsoredAccount) : Prop :=
  match data_len a with
  | Some d => d <= 0
  | None => True
  end.

(** The age rule: with a positive minimum age, the row carries a last-check
    text, and that text is either a date at least that many days back or
    no date at all. *)
Definition old_enough (config : PolicyEngine.PolicyConfig) (clock : Clock)
  (a : SponsoredAccount) : Prop :=
  match PolicyEngine.minAgeDays config with
  | Some days =>
      0 < days ->
      exists checked,
        last_lifecycle_check a = Some checked /\ checked <> "" /\
        match Date_getTime clock checked with
        | Some lastCheck =>
            days * PolicyEngine.MS_PER_DAY <= now_ms clock - lastCheck
        | None => True
        end
  | None => True
  end.

Definition safe_to_reclaim (config : PolicyEngine.PolicyConfig) (clock : Clock)
  (a : SponsoredAccount) : Prop :=
  whitelisted config a = false /\
  owner_program a = Some SYSTEM_PROGRAM_ID /\
  (exists balance,
      lamports a = Some balance /\ 0 < balance /\
      PolicyEngine.or_zero (PolicyEngine.minLamports config) <= balance) /\
  no_data a /\
  old_enough config clock a.

(** The event [updateState] writes for a row that changes state, without
    its id and timestamp. *)
Definition policy_events (config : PolicyEngine.PolicyConfig) (clock : Clock)
  (a : SponsoredAccount) : list (string * string * string * string) :=
  match policy_change config clock a with
  | Some st =>
      [(account_pubkey a, lifecycle_state a, st,
        ("Policy: "
         ++ PolicyEngine.reason (PolicyEngine.checkEligibility config clock a))%string)]
  | None => []
  end.

Definition event_summary (e : LifecycleEvent)
  : string * string * string * string :=
  (event_account e, old_state e, new_state e, trigger_reason e).

Definition policy_step (config : PolicyEngine.PolicyConfig) (clock : Clock)
  (db : Ledger) (account : SponsoredAccount) : Ledger :=
  match policy_change config clock account with
  | Some st =>
      PolicyEngine.updateState config clock (account_pubkey account)
        (lifecycle_state account) st
        (PolicyEngine.reason (PolicyEngine.checkEligibility config clock account))
        db
  | None => db
  end.

(** ** What the indexer discovers *)

(** A row as the indexer inserts it: the columns of the INSERT, the
    defaults of the schema for the others. *)
Definition discovered_row (config : Indexer.IndexerConfig) (a : SponsoredAccount)
  : Prop :=
  operator_pubkey a = Indexer.operator config /\
  lifecycle_state a = "DISCOVERED" /\
  lamports a = None /\ data_len a = None /\ owner_program a = None /\
  last_lifecycle_check a = None /\ processing_lock a = None.

(** [db'] holds the rows of [db], unchanged and in place, followed by rows
    the indexer inserted; the events are those of [db]. *)
Definition discovers (config : Indexer.IndexerConfig) (db db' : Ledger) : Prop :=
  (exists added,
      sponsored_accounts db' = sponsored_accounts db ++ added /\
      Forall (discovered_row config) added) /\
  lifecycle_events db' = lifecycle_events db /\
  event_seq db' = event_seq db /\
  (NoDup (map account_pubkey (sponsored_accounts db)) ->
   NoDup (map account_pubkey (sponsored_accounts db'))).

(** A transaction in which the operator, as signing fee payer, creates
    [newAccount] through the System Program. *)
Definition sponsors (config : Indexer.IndexerConfig) (tx : Indexer.Transaction)
  (newAccount : string) : Prop :=
  (exists feePayer rest,
      Indexer.accountKeys tx = feePayer :: rest /\
      Indexer.signer feePayer = true /\
      Indexer.pubkey feePayer = Indexer.operator config) /\
  Indexer.signatures tx <> [] /\
  exists instruction p,
    In instruction (Indexer.instructions tx) /\
    Indexer.parsed instruction = Some p /\
    Indexer.programId instruction = SYSTEM_PROGRAM_ID /\
    Indexer.type p = "createAccount" /\
    Indexer.from (Indexer.info p) = Indexer.operator config /\
    Indexer.newAccount (Indexer.info p) = newAccount.

(** A chain that answers every request of a scan. *)
Definition responsive (chain : Indexer.Chain) : Prop :=
  (forall call, Indexer.signatures_fail chain call = false) /\
  forall sig,
    match Indexer.getParsedTransaction chain sig with
    | Indexer.TxThrows => False
    | Indexer.TxNull => True
    | Indexer.TxOk tx => Indexer.accountKeys tx <> []
    end.

(** The signatures a request with [before] can still return. *)
Definition older (chain : Indexer.Chain) (before : option string) : list string :=
  match before with
  | Some b => Indexer.after_signature b (Indexer.history chain)
  | None => Indexer.history chain
  end.

Definition has_account (k : string) (db : Ledger) : Prop :=
  In k (map account_pubkey (sponsored_accounts db)).

(** ** Batching

    The stages cut a list into batches with
    [for (let i = 0; i < l.length; i += size) l.slice(i, i + size)]. *)

Section Slices.
Variable A : Type.

(** The position [Array.prototype.slice] gives an integer argument: a
    negative one counts from the end, and both ends are clamped. *)
Definition relative_index (len i : Z) : Z :=
  if i <? 0 then Z.max (len + i) 0 else Z.min i len.

Definition slice (l : list A) (start stop : Z) : list A :=
  let len := Z.of_nat (List.length l) in
  let k := relative_index len start in
  let final := relative_index len stop in
  firstn (Z.to_nat (final - k)) (skipn (Z.to_nat k) l).

End Slices.

(** [x || fallback] on an optional number. *)
Definition or_default (x : option Z) (fallback : Z) : Z :=
  match x with
  | Some z => if z =? 0 then fallback else z
  | None => fallback
  end.

(** ** The planner ([core/reclaimer/planner.ts]) *)

Module ReclaimerPlanner.

Record ReclaimBatch := {
  id : string;
  accounts : list ReclaimerVerifier.VerifiedAccount
}.

Definition MAX_INSTRUCTIONS_PER_TX : Z := 10.

(** The [for] loop from index [i] on, with [batchId] batches made so far;
    [now n] is what [Date.now()] returns when batch [n] is made.  Each round
    takes at least one account, so [accounts.length] rounds are enough. *)
Fixpoint plan_loop (fuel : nat) (now : nat -> Z)
  (accounts : list ReclaimerVerifier.VerifiedAccount) (i : Z) (batchId : nat)
  : list ReclaimBatch :=
  match fuel with
  | O => []
  | S fuel' =>
      if i <? Z.of_nat (List.length accounts) then
        let chunk := slice accounts i (i + MAX_INSTRUCTIONS_PER_TX) in
        {| id := ("batch-" ++ decimal (now batchId) ++ "-"
                  ++ decimal (Z.of_nat batchId))%string;
           accounts := chunk |}
        :: plan_loop fuel' now accounts (i + MAX_INSTRUCTIONS_PER_TX) (S batchId)
      else []
  end.

(** [plan(accounts).batches] *)
Definition plan (now : nat -> Z)
  (accounts : list ReclaimerVerifier.VerifiedAccount) : list ReclaimBatch :=
  plan_loop (List.length accounts) now accounts 0 0.

End ReclaimerPlanner.

(** ** Statements that can fail

    [lifecycle_events.account_pubkey] references [sponsored_accounts], and
    the connection runs with [foreign_keys = ON]: inserting an event for a
    pubkey that has no row throws. *)

Definition has_row (pubkey : string) (db : Ledger) : bool :=
  existsb (fun a => (account_pubkey a =? pubkey)%string) (sponsored_accounts db).

Definition insert_event_checked (clock : Clock)
  (pubkey oldState newState reason : string) (evidence : option string)
  (db : Ledger) : option Ledger :=
  if has_row pubkey db
  then Some (insert_event clock pubkey oldState newState reason evidence db)
  else None.

(** The message of the error SQLite raises then. *)
Definition FOREIGN_KEY_MESSAGE : string := "FOREIGN KEY constraint failed".

(** [JSON.stringify({ timestamp: Date.now() })] *)
Definition timestamp_payload (clock : Clock) : string :=
  JSON_stringify (JObj [("timestamp", JNum (now_ms clock))]).

Definition set_lamports (balance : option Z) (a : SponsoredAccount)
  : SponsoredAccount :=
  {| account_pubkey := account_pubkey a;
     creation_signature := creation_signature a;
     slot := slot a;
     discovered_at := discovered_at a;
     operator_pubkey := operator_pubkey a;
     lifecycle_state := lifecycle_state a;
     lamports := balance;
     data_len := data_len a;
     owner_program := owner_program a;
     last_lifecycle_check := last_lifecycle_check a;
     processing_lock := processing_lock a |}.

(** ** Unlocking ([core/reclaimer/fetch.ts]) *)

(** [unlock(pubkeys)]: one transaction that sets [processing_lock = NULL]
    on each row named. *)
Definition unlock (pubkeys : list string) (db : Ledger) : Ledger :=
  match pubkeys with
  | [] => db
  | _ =>
      fold_left
        (fun db pubkey => update_account (set_processing_lock None) pubkey db)
        pubkeys db
  end.

(** ** The reporter ([core/reclaimer/reporter.ts]) *)

Module ReclaimerReporter.

Record Metrics := {
  total_accounts_seen : Z;
  total_reclaimable : Z;
  total_reclaimed : Z;
  total_lamports_recovered : Z;
  failed_transactions : Z;
  skipped_accounts : Z
}.

(** [Partial<Metrics>] *)
Record Update := {
  seen : option Z;
  reclaimable : option Z;
  reclaimed : option Z;
  recovered : option Z;
  failed : option Z;
  skipped : option Z
}.

Definition zero : Metrics :=
  {| total_accounts_seen := 0; total_reclaimable := 0; total_reclaimed := 0;
     total_lamports_recovered := 0; failed_transactions := 0;
     skipped_accounts := 0 |}.

Definition recordMetrics (update : Update) (m : Metrics) : Metrics :=
  {| total_accounts_seen := total_accounts_seen m + or_default (seen update) 0;
     total_reclaimable := total_reclaimable m + or_default (reclaimable update) 0;
     total_reclaimed := total_reclaimed m + or_default (reclaimed update) 0;
     total_lamports_recovered :=
       total_lamports_recovered m + or_default (recovered update) 0;
     failed_transactions := failed_transactions m + or_default (failed update) 0;
     skipped_accounts := skipped_accounts m + or_default (skipped update) 0 |}.

(** The reporter: its database and the metrics of the session. *)
Record t := { db : Ledger; metrics : Metrics }.

(** [SET lifecycle_state = ?, processing_lock = NULL] *)
Definition release (state : string) (a : SponsoredAccount) : SponsoredAccount :=
  set_processing_lock None (set_lifecycle_state state a).

(** [SET lifecycle_state = 'RECLAIMED', lamports = 0, processing_lock = NULL] *)
Definition settle (a : SponsoredAccount) : SponsoredAccount :=
  set_processing_lock None (set_lamports (Some 0) (set_lifecycle_state "RECLAIMED" a)).

(** [recordSkip]: two statements outside any transaction; a throw of the
    second is caught, and leaves the first done and the metrics as they
    were. *)
Definition recordSkip (clock : Clock) (pubkey reason status : string) (r : t) : t :=
  let db1 := update_account (release status) pubkey (db r) in
  match insert_event_checked clock pubkey "RECLAIMABLE" status reason
          (Some (timestamp_payload clock)) db1 with
  | Some db2 =>
      {| db := db2;
         metrics :=
           recordMetrics
             {| seen := None; reclaimable := None; reclaimed := None;
                recovered := None; failed := None; skipped := Some 1 |}
             (metrics r) |}
  | None => {| db := db1; metrics := metrics r |}
  end.

(** The body of a transaction over [pubkeys]: [None] when a statement
    throws, which rolls the transaction back. *)
Fixpoint for_each (step : string -> Ledger -> option Ledger)
  (pubkeys : list string) (db : Ledger) : option Ledger :=
  match pubkeys with
  | [] => Some db
  | pubkey :: rest =>
      match step pubkey db with
      | Some db' => for_each step rest db'
      | None => None
      end
  end.

(** [JSON.stringify({ signature, batchTotal: lamports })] *)
Definition success_payload (signature : string) (lamports : Z) : string :=
  JSON_stringify (JObj [("signature", JStr signature); ("batchTotal", JNum lamports)]).

Definition recordSuccess (clock : Clock) (pubkeys : list string)
  (signature : string) (lamports : Z) (r : t) : t :=
  match
    for_each
      (fun pubkey db =>
         insert_event_checked clock pubkey "RECLAIMABLE" "RECLAIMED"
           "Reclamation Success" (Some (success_payload signature lamports))
           (update_account settle pubkey db))
      pubkeys (db r)
  with
  | Some db' =>
      {| db := db';
         metrics :=
           recordMetrics
             {| seen := None; reclaimable := None;
                reclaimed := Some (Z.of_nat (List.length pubkeys));
                recovered := Some lamports; failed := None; skipped := None |}
             (metrics r) |}
  | None => r
  end.

Definition recordFailure (clock : Clock) (pubkeys : list string)
  (error : string) (r : t) : t :=
  match
    for_each
      (fun pubkey db =>
         insert_event_checked clock pubkey "RECLAIMABLE" "FAILED"
           ("Tx Error: " ++ error)%string (Some (timestamp_payload clock))
           (update_account (release "FAILED") pubkey db))
      pubkeys (db r)
  with
  | Some db' =>
      {| db := db';
         metrics :=
           recordMetrics
             {| seen := None; reclaimable := None; reclaimed := None;
                recovered := None; failed := Some 1; skipped := None |}
             (metrics r) |}
  | None => r
  end.

End ReclaimerReporter.

(** ** The network, as the reclaim stages use it

    [getMultipleAccountsInfo] answers a list of addresses with one entry
    for each ([None]: the request throws); [sendAndConfirmTransaction]
    answers the transfers of a transaction with its signature or with the
    message of the error it throws. *)

Record Rpc := {
  getMultipleAccountsInfo :
    list string -> option (list (option ReclaimerVerifier.AccountInfo));
  sendAndConfirmTransaction : list (string * Z) -> string + string;
  (** the message of the error [new PublicKey] throws *)
  invalid_key_message : string
}.

(** ** The executor ([core/reclaimer/executor.ts]) *)

Module ReclaimerExecutor.

Record ExecutionResult := {
  batchId : string;
  signature : option string;
  error : option string;
  success : bool;
  accountsProcessed : Z;
  lamportsRecovered : Z
}.

Definition transfer_of (acc : ReclaimerVerifier.VerifiedAccount) : string * Z :=
  (ReclaimerVerifier.account_pubkey acc, ReclaimerVerifier.verifiedLamports acc).

Definition executeBatch (rpc : Rpc) (dryRun : bool)
  (batch : ReclaimerPlanner.ReclaimBatch) : ExecutionResult :=
  let accounts := ReclaimerPlanner.accounts batch in
  match accounts with
  | [] =>
      {| batchId := ReclaimerPlanner.id batch; signature := None; error := None;
         success := true; accountsProcessed := 0; lamportsRecovered := 0 |}
  | _ =>
      let recoveredLamports :=
        fold_left (fun sum acc => sum + ReclaimerVerifier.verifiedLamports acc)
          accounts 0 in
      let failure message :=
        {| batchId := ReclaimerPlanner.id batch; signature := None;
           error := Some message; success := false;
           accountsProcessed := 0; lamportsRecovered := 0 |} in
      if dryRun then
        {| batchId := ReclaimerPlanner.id batch;
           signature := Some "dry-run-signature"; error := None;
           success := true;
           accountsProcessed := Z.of_nat (List.length accounts);
           lamportsRecovered := recoveredLamports |}
      else if forallb (fun acc => valid_pubkey (ReclaimerVerifier.account_pubkey acc))
                accounts
      then
        match sendAndConfirmTransaction rpc (map transfer_of accounts) with
        | inl signature =>
            {| batchId := ReclaimerPlanner.id batch;
               signature := Some signature; error := None; success := true;
               accountsProcessed := Z.of_nat (List.length accounts);
               lamportsRecovered := recoveredLamports |}
        | inr message => failure message
        end
      else failure (invalid_key_message rpc)
  end.

End ReclaimerExecutor.

(** ** The orchestrator ([core/reclaimer/index.ts]) *)

Module ReclaimerOrchestrator.

Record ReclaimerConfig := {
  dbPath : string;
  rpcUrl : string;
  dryRun : bool;
  operatorKeypair : option Keypair;
  batchSize : option Z
}.

(** [result.signature || 'dry-run'] and [result.error || 'Unknown Error'] *)
Definition text_or (o : option string) (fallback : string) : string :=
  match o with
  | Some EmptyString | None => fallback
  | Some s => s
  end.

Definition report_batch (rpc : Rpc) (config : ReclaimerConfig) (clock : Clock)
  (r : ReclaimerReporter.t) (batch : ReclaimerPlanner.ReclaimBatch)
  : ReclaimerReporter.t :=
  let result := ReclaimerExecutor.executeBatch rpc (dryRun config) batch in
  let pubkeys :=
    map ReclaimerVerifier.account_pubkey (ReclaimerPlanner.accounts batch) in
  if ReclaimerExecutor.success result then
    ReclaimerReporter.recordSuccess clock pubkeys
      (text_or (ReclaimerExecutor.signature result) "dry-run")
      (ReclaimerExecutor.lamportsRecovered result) r
  else
    ReclaimerReporter.recordFailure clock pubkeys
      (text_or (ReclaimerExecutor.error result) "Unknown Error") r.

(** How one round of the [while] loop ends. *)
Inductive Round :=
| NoMore (r : ReclaimerReporter.t)
| Again (r : ReclaimerReporter.t)
| Thrown (r : ReclaimerReporter.t).

(** The body of the loop, for the worker [workerId]. *)
Definition round (rpc : Rpc) (config : ReclaimerConfig) (clock : Clock)
  (now : nat -> Z) (workerId : string) (r : ReclaimerReporter.t) : Round :=
  let BATCH_SIZE := or_default (batchSize config) 100 in
  let (candidates, db1) :=
    ReclaimerFetcher.fetchAndLock BATCH_SIZE workerId (ReclaimerReporter.db r) in
  let r1 := {| ReclaimerReporter.db := db1;
               ReclaimerReporter.metrics := ReclaimerReporter.metrics r |} in
  match candidates with
  | [] => NoMore r1
  | _ =>
      let r2 :=
        {| ReclaimerReporter.db := db1;
           ReclaimerReporter.metrics :=
             ReclaimerReporter.recordMetrics
               {| ReclaimerReporter.seen := Some (Z.of_nat (List.length candidates));
                  ReclaimerReporter.reclaimable := None;
                  ReclaimerReporter.reclaimed := None;
                  ReclaimerReporter.recovered := None;
                  ReclaimerReporter.failed := None;
                  ReclaimerReporter.skipped := None |}
               (ReclaimerReporter.metrics r) |} in
      if negb (forallb (fun c => valid_pubkey (ReclaimerFetcher.account_pubkey c))
                 candidates)
      then Thrown r2
      else
        match getMultipleAccountsInfo rpc
                (map ReclaimerFetcher.account_pubkey candidates) with
        | None => Thrown r2
        | Some accountInfos =>
            match ReclaimerVerifier.verify candidates accountInfos with
            | None => Thrown r2
            | Some verdict =>
                let r3 :=
                  fold_left
                    (fun r inv =>
                       ReclaimerReporter.recordSkip clock
                         (ReclaimerVerifier.pubkey inv)
                         (ReclaimerVerifier.reason inv)
                         (ReclaimerVerifier.status inv) r)
                    (ReclaimerVerifier.invalid verdict) r2 in
                match ReclaimerVerifier.valid verdict with
                | [] => Again r3
                | valid =>
                    let batches := ReclaimerPlanner.plan now valid in
                    let r4 :=
                      {| ReclaimerReporter.db := ReclaimerReporter.db r3;
                         ReclaimerReporter.metrics :=
                           ReclaimerReporter.recordMetrics
                             {| ReclaimerReporter.seen := None;
                                ReclaimerReporter.reclaimable :=
                                  Some (Z.of_nat (List.length valid));
                                ReclaimerReporter.reclaimed := None;
                                ReclaimerReporter.recovered := None;
                                ReclaimerReporter.failed := None;
                                ReclaimerReporter.skipped := None |}
                             (ReclaimerReporter.metrics r3) |} in
                    Again (fold_left (report_batch rpc config clock) batches r4)
                end
            end
        end
  end.

(** [execute()]: whether it returned ([true]) or threw, and the reporter it
    leaves; [None] when the loop has not ended after [fuel] rounds. *)
Fixpoint loop (fuel : nat) (rpc : Rpc) (config : ReclaimerConfig) (clock : Clock)
  (now : nat -> Z) (workerId : string) (r : ReclaimerReporter.t)
  : option (bool * ReclaimerReporter.t) :=
  match fuel with
  | O => None
  | S fuel' =>
      match round rpc config clock now workerId r with
      | NoMore r' => Some (true, r')
      | Thrown r' => Some (false, r')
      | Again r' => loop fuel' rpc config clock now workerId r'
      end
  end.

Definition execute (fuel : nat) (rpc : Rpc) (config : ReclaimerConfig)
  (clock : Clock) (now : nat -> Z) (uuid : string) (db : Ledger)
  : option (bool * ReclaimerReporter.t) :=
  let r := {| ReclaimerReporter.db := db;
              ReclaimerReporter.metrics := ReclaimerReporter.zero |} in
  if negb (dryRun config)
     && match operatorKeypair config with Some _ => false | None => true end
  then Some (false, r)
  else loop fuel rpc config clock now ("worker-" ++ uuid)%string r.

End ReclaimerOrchestrator.

(** ** The rows and the events of a statement *)

Definition named (pubkeys : list string) (a : SponsoredAccount) : bool :=
  existsb (fun k => (account_pubkey a =? k)%string) pubkeys.

Definition event_record (e : LifecycleEvent)
  : string * string * string * string * option string :=
  (event_account e, old_state e, new_state e, trigger_reason e,
   evidence_payload e).

(** ** What a run of the orchestrator does to a row *)

(** A chain that answers every batched query, address by address. *)
Definition answers (rpc : Rpc)
  (chain : string -> option ReclaimerVerifier.AccountInfo) : Prop :=
  forall addresses,
    getMultipleAccountsInfo rpc addresses = Some (map chain addresses).

(** The row [a'] a run leaves for a row [a] it fetched, given what the
    chain says of the account: skipped under the status the JIT rules give,
    or settled as reclaimed; in a live run also failed. *)
Definition processed (dry : bool)
  (chain : string -> option ReclaimerVerifier.AccountInfo)
  (a a' : SponsoredAccount) : Prop :=
  match jit_rules (chain (account_pubkey a)) with
  | jit_closed_zero => a' = ReclaimerReporter.release "closed_zero" a
  | jit_SKIPPED => a' = ReclaimerReporter.release "SKIPPED" a
  | jit_verified _ =>
      a' = ReclaimerReporter.settle a
      \/ (dry = false /\ a' = ReclaimerReporter.release "FAILED" a)
  end.

Definition reclaim_row (dry : bool)
  (chain : string -> option ReclaimerVerifier.AccountInfo)
  (a a' : SponsoredAccount) : Prop :=
  if ReclaimerFetcher.is_candidate a then processed dry chain a a' else a' = a.

(** The rows a run can fetch. *)
Definition candidate_rows (db : Ledger) : list SponsoredAccount :=
  filter ReclaimerFetcher.is_candidate (sponsored_accounts db).

(** Updates of rows by pubkey, applied in order to one row. *)
Definition row_update : Type := string * (SponsoredAccount -> SponsoredAccount).

Definition apply_updates (updates : list row_update) (a : SponsoredAccount)
  : SponsoredAccount :=
  fold_left
    (fun a' (u : row_update) =>
       if (account_pubkey a' =? fst u)%string then snd u a' else a')
    updates a.

Definition keeps_key (u : row_update) : Prop :=
  forall a, account_pubkey (snd u a) = account_pubkey a.

Definition rows (r : ReclaimerReporter.t) : list SponsoredAccount :=
  sponsored_accounts (ReclaimerReporter.db r).

Definition skip_updates (invalid : list ReclaimerVerifier.InvalidAccount)
  : list row_update :=
  map (fun inv => (ReclaimerVerifier.pubkey inv,
                   ReclaimerReporter.release (ReclaimerVerifier.status inv)))
    invalid.

(** The update a batch ends with: settled, or in a live run failed. *)
Definition batch_outcome (dry : bool) (g : SponsoredAccount -> SponsoredAccount)
  : Prop :=
  g = ReclaimerReporter.settle
  \/ (dry = false /\ g = ReclaimerReporter.release "FAILED").

Definition batch_pubkeys (batch : ReclaimerPlanner.ReclaimBatch) : list string :=
  map ReclaimerVerifier.account_pubkey (ReclaimerPlanner.accounts batch).

Definition paired_with (chain : string -> option ReclaimerVerifier.AccountInfo)
  (cands : list ReclaimerFetcher.ReclaimableAccount) :=
  map (fun c => (c, chain (ReclaimerFetcher.account_pubkey c))) cands.

(** The rows a round fetches. *)
Definition fetched_rows (config : ReclaimerOrchestrator.ReclaimerConfig)
  (db : Ledger) : list SponsoredAccount :=
  ReclaimerFetcher.sql_limit
    (or_default (ReclaimerOrchestrator.batchSize config) 100)
    (candidate_rows db).

(** The counters of the session that count accounts: seen, skipped and
    found reclaimable. *)
Definition seen (r : ReclaimerReporter.t) : Z :=
  ReclaimerReporter.total_accounts_seen (ReclaimerReporter.metrics r).

Definition skipped (r : ReclaimerReporter.t) : Z :=
  ReclaimerReporter.skipped_accounts (ReclaimerReporter.metrics r).

Definition reclaimable (r : ReclaimerReporter.t) : Z :=
  ReclaimerReporter.total_reclaimable (ReclaimerReporter.metrics r).

(** ** The lifecycle engine ([core/lifecycle.ts])

    The node is an oracle: [getMultipleAccountsInfo] answers a list of
    addresses with a list of entries ([None]: the request throws) and
    [getMinimumBalanceForRentExemption] a data length with a balance.
    [scan] reads the table once; a statement that throws inside
    [processBatch] ends the batch and leaves what the batch had written. *)

Module LifecycleEngine.

Record LifecycleConfig := {
  rpcUrl : string;
  dbPath : string;
  dryRun : bool;
  batchSize : option Z
}.

(** What the node says of an account: the fields the verifier reads too,
    and [rentEpoch], which may be missing. *)
Record ChainAccount := {
  account : ReclaimerVerifier.AccountInfo;
  rentEpoch : option Z
}.

Record Node := {
  getMultipleAccountsInfo : list string -> option (list (option ChainAccount));
  getMinimumBalanceForRentExemption : Z -> option Z
}.

(** The [evidence] object: of an account that does not exist, and of one
    that does, given the minimum balance the node answered. *)
Definition missing : JSValue := JObj [("exists", JBool false)].

Definition evidence (info : ChainAccount) (rentExemptMin : Z) : JSValue :=
  JObj
    ([("exists", JBool true);
      ("lamports", JNum (ReclaimerVerifier.info_lamports (account info)));
      ("dataLen", JNum (ReclaimerVerifier.info_data_length (account info)));
      ("owner", JStr (ReclaimerVerifier.info_owner (account info)));
      ("executable", JBool (ReclaimerVerifier.info_executable (account info)))]
     ++ match rentEpoch info with
        | Some epoch => [("rentEpoch", JNum epoch)]
        | None => []
        end
     ++ [("rentExemptMin", JNum rentExemptMin);
         ("isRentExempt",
          JBool (rentExemptMin <=? ReclaimerVerifier.info_lamports (account info)))]).

(** The columns the UPDATE sets: [evidence.lamports || 0],
    [evidence.dataLen || 0], [evidence.owner || null] and
    [CURRENT_TIMESTAMP]. *)
Definition observe (state : string) (info : option ChainAccount) (clock : Clock)
  (a : SponsoredAccount) : SponsoredAccount :=
  {| account_pubkey := account_pubkey a;
     creation_signature := creation_signature a;
     slot := slot a;
     discovered_at := discovered_at a;
     operator_pubkey := operator_pubkey a;
     lifecycle_state := state;
     lamports :=
       Some match info with
            | Some i => ReclaimerVerifier.info_lamports (account i)
            | None => 0
            end;
     data_len :=
       Some match info with
            | Some i => ReclaimerVerifier.info_data_length (account i)
            | None => 0
            end;
     owner_program :=
       match info with
       | Some i =>
           if (ReclaimerVerifier.info_owner (account i) =? "")%string then None
           else Some (ReclaimerVerifier.info_owner (account i))
       | None => None
       end;
     last_lifecycle_check := Some (current_timestamp clock);
     processing_lock := processing_lock a |}.

Definition updateAccountData (config : LifecycleConfig) (clock : Clock)
  (pubkey state : string) (info : option ChainAccount) (db : Ledger) : Ledger :=
  if dryRun config then db
  else update_account (observe state info clock) pubkey db.

(** [recordEvent]; [None] when the INSERT throws. *)
Definition recordEvent (clock : Clock) (pubkey oldState newState reason : string)
  (evidence : JSValue) (db : Ledger) : option Ledger :=
  insert_event_checked clock pubkey oldState newState reason
    (Some (JSON_stringify evidence)) db.

(** How a call ends, and the ledger it leaves. *)
Inductive Outcome :=
| Done (db : Ledger)
| Threw (db : Ledger).

(** The end of [evaluateAccount], from the UPDATE on. *)
Definition persist (config : LifecycleConfig) (clock : Clock)
  (pubkeyStr currentState newState reason : string)
  (info : option ChainAccount) (evidence : JSValue) (db : Ledger) : Outcome :=
  let db1 := updateAccountData config clock pubkeyStr newState info db in
  if negb (newState =? currentState)%string then
    if dryRun config then Done db1
    else
      match recordEvent clock pubkeyStr currentState newState reason evidence db1 with
      | Some db2 => Done db2
      | None => Threw db1
      end
  else Done db1.

Definition evaluateAccount (config : LifecycleConfig) (clock : Clock)
  (node : Node) (pubkeyStr currentState : string) (info : option ChainAccount)
  (db : Ledger) : Outcome :=
  match info with
  | None =>
      persist config clock pubkeyStr currentState "CLOSED"
        "Account info is null (does not exist)." None missing db
  | Some i =>
      match getMinimumBalanceForRentExemption node
              (ReclaimerVerifier.info_data_length (account i)) with
      | None => Threw db
      | Some rentExemptMin =>
          let reason :=
            if (currentState =? "CLOSED")%string
            then "Account re-appeared on-chain (re-initialized)."
            else "Account exists on-chain." in
          persist config clock pubkeyStr currentState "ACTIVE" reason
            (Some i) (evidence i rentExemptMin) db
      end
  end.

(** The loop of [processBatch] over the rows of the batch and the entries
    of the answer; an answer that is too short gives [undefined], and
    reading a field of it throws. *)
Fixpoint evaluate_each (config : LifecycleConfig) (clock : Clock) (node : Node)
  (batch : list (string * string)) (infos : list (option ChainAccount))
  (db : Ledger) : Ledger :=
  match batch with
  | [] => db
  | (pubkey, state) :: rest =>
      match infos with
      | [] => db
      | info :: infos' =>
          match evaluateAccount config clock node pubkey state info db with
          | Done db' => evaluate_each config clock node rest infos' db'
          | Threw db' => db'
          end
      end
  end.

(** [processBatch]: [None] when [new PublicKey] throws, which nothing
    catches; what is thrown inside the [try] is caught and logged. *)
Definition processBatch (config : LifecycleConfig) (clock : Clock) (node : Node)
  (batch : list (string * string)) (db : Ledger) : option Ledger :=
  if forallb (fun a => valid_pubkey (fst a)) batch then
    match getMultipleAccountsInfo node (map fst batch) with
    | Some infos => Some (evaluate_each config clock node batch infos db)
    | None => Some db
    end
  else None.

(** The [for] loop of [scan] from index [i] on. *)
Fixpoint scan_loop (fuel : nat) (config : LifecycleConfig) (clock : Clock)
  (node : Node) (accounts : list (string * string)) (batchSize i : Z)
  (db : Ledger) : option (bool * Ledger) :=
  if i <? Z.of_nat (List.length accounts) then
    match fuel with
    | O => None
    | S fuel' =>
        match processBatch config clock node
                (slice accounts i (i + batchSize)) db with
        | Some db' =>
            scan_loop fuel' config clock node accounts batchSize (i + batchSize) db'
        | None => Some (false, db)
        end
    end
  else Some (true, db).

(** [scan()]: whether it returned ([true]) or threw, and the ledger it
    leaves; [None] when the loop has not ended after [fuel] batches. *)
Definition scan (fuel : nat) (config : LifecycleConfig) (clock : Clock)
  (node : Node) (db : Ledger) : option (bool * Ledger) :=
  let accounts :=
    map (fun a => (account_pubkey a, lifecycle_state a)) (sponsored_accounts db) in
  scan_loop fuel config clock node accounts (or_default (batchSize config) 100) 0 db.

End LifecycleEngine.

(** *** What a scan makes of a row *)







(** ** Flat payloads

    The evidence the stages write is an object of scalars. *)

Definition scalar (v : JSValue) : bool :=
  match v with
  | JNull | JBool _ | JNum _ | JStr _ => true
  | JFloat _ | JArr _ | JObj _ => false
  end.

(** The object [JSON.parse] builds from the members it reads, in order. *)
Definition assign_all (o acc : JSObject) : JSObject :=
  fold_left (fun acc p => define_prop acc (fst p) (snd p)) o acc.

(** The texts of the members of an object, as [JSON.stringify] joins
    them. *)
Fixpoint member_texts (o : JSObject) : list string :=
  match o with
  | [] => []
  | (k, x) :: rest => (quote k ++ ":" ++ JSON_stringify x)%string :: member_texts rest
  end.

(** The number a run of digits denotes after the digits read as [acc]. *)
Fixpoint uint_value (d : Decimal.uint) (acc : Z) : Z :=
  match d with
  | Decimal.Nil => acc
  | Decimal.D0 d => uint_value d (acc * 10 + 0)
  | Decimal.D1 d => uint_value d (acc * 10 + 1)
  | Decimal.D2 d => uint_value d (acc * 10 + 2)
  | Decimal.D3 d => uint_value d (acc * 10 + 3)
  | Decimal.D4 d => uint_value d (acc * 10 + 4)
  | Decimal.D5 d => uint_value d (acc * 10 + 5)
  | Decimal.D6 d => uint_value d (acc * 10 + 6)
  | Decimal.D7 d => uint_value d (acc * 10 + 7)
  | Decimal.D8 d => uint_value d (acc * 10 + 8)
  | Decimal.D9 d => uint_value d (acc * 10 + 9)
  end.

(** The number a list of digits denotes after those read as [acc]. *)
Definition digits_value (l : list ascii) (acc : Z) : Z :=
  fold_left (fun a c => a * 10 + (JSON.code c - 48)) l acc.

(** What may follow a run of digits: not a digit. *)
Definition no_digit (rest : list ascii) : bool :=
  match rest with
  | [] => true
  | x :: _ => negb (JSON.is_digit x)
  end.

(** What may follow a number: not a digit, a point or an exponent. *)
Definition ends_number (rest : list ascii) : bool :=
  match rest with
  | [] => true
  | x :: _ =>
      negb (JSON.is_digit x || Ascii.eqb x "." || Ascii.eqb x "e" || Ascii.eqb x "E")
  end.

(** What follows a member: a comma or a closing brace. *)
Definition ends_member (rest : list ascii) : bool :=
  match rest with
  | x :: _ => Ascii.eqb x "," || Ascii.eqb x "}"
  | [] => false
  end.

(** What [JSON.parse] reads of a scalar that [JSON.stringify] wrote: the
    scalar, when it is not a number beyond the safe integers. *)
Definition reads_as (v v' : JSValue) : Prop :=
  match v with
  | JNum z => Double.safe z = true -> v' = v
  | _ => v' = v
  end.

Definition member_reads_as (q q' : string * JSValue) : Prop :=
  fst q' = fst q /\ reads_as (snd q) (snd q').

(** ** The single-class reclaimer ([core/reclaimer.ts])

    The stage as one class, with the configuration of the orchestrator.
    Its statements run outside any transaction: one that throws leaves what
    was written before it. *)

Module Reclaimer.

(** How a call ends, and the ledger it leaves. *)
Inductive Outcome :=
| Done (db : Ledger)
| Threw (db : Ledger).

Definition ledger_of (o : Outcome) : Ledger :=
  match o with
  | Done db | Threw db => db
  end.

Definition markOutcome (config : ReclaimerOrchestrator.ReclaimerConfig)
  (clock : Clock) (pubkey state reason : string) (db : Ledger) : Outcome :=
  if ReclaimerOrchestrator.dryRun config then Done db
  else
    let db1 := update_account (set_lifecycle_state state) pubkey db in
    match insert_event_checked clock pubkey "RECLAIMABLE" state reason
            (Some (timestamp_payload clock)) db1 with
    | Some db2 => Done db2
    | None => Threw db1
    end.

(** [JSON.stringify({ signature, amount, slot: 'confirmed' })] *)
Definition reclaim_payload (signature : string) (amount : Z) : string :=
  JSON_stringify
    (JObj [("signature", JStr signature); ("amount", JNum amount);
           ("slot", JStr "confirmed")]).

(** [SET lifecycle_state = 'RECLAIMED', lamports = 0] *)
Definition reclaimed (a : SponsoredAccount) : SponsoredAccount :=
  set_lamports (Some 0) (set_lifecycle_state "RECLAIMED" a).

Definition recordReclaimSuccess (config : ReclaimerOrchestrator.ReclaimerConfig)
  (clock : Clock) (pubkey signature : string) (amount : Z) (db : Ledger)
  : Outcome :=
  if ReclaimerOrchestrator.dryRun config then Done db
  else
    let db1 := update_account reclaimed pubkey db in
    match insert_event_checked clock pubkey "RECLAIMABLE" "RECLAIMED"
            "Reclamation Success" (Some (reclaim_payload signature amount)) db1 with
    | Some db2 => Done db2
    | None => Threw db1
    end.

(** A [for] loop of calls that may throw. *)
Fixpoint for_each (A : Type) (step : A -> Ledger -> Outcome) (l : list A)
  (db : Ledger) : Outcome :=
  match l with
  | [] => Done db
  | x :: rest =>
      match step x db with
      | Done db' => for_each step rest db'
      | Threw db' => Threw db'
      end
  end.

(** The verification loop of [processBatch] over the rows of the batch and
    the entries of the answer ([accountInfos[i]] past the end is
    [undefined]); [valid] holds the accounts to transfer from, with their
    balances on chain. *)
Fixpoint verify_each (config : ReclaimerOrchestrator.ReclaimerConfig)
  (clock : Clock) (accounts : list SponsoredAccount)
  (accountInfos : list (option ReclaimerVerifier.AccountInfo))
  (validAccounts : list (string * Z)) (db : Ledger)
  : Outcome * list (string * Z) :=
  match accounts with
  | [] => (Done db, validAccounts)
  | acc :: rest =>
      let mark state reason :=
        match markOutcome config clock (account_pubkey acc) state reason db with
        | Done db' => verify_each config clock rest (tl accountInfos) validAccounts db'
        | Threw db' => (Threw db', validAccounts)
        end in
      match hd None accountInfos with
      | None => mark "closed_zero" "JIT: Account not found"
      | Some info =>
          if ReclaimerVerifier.info_lamports info =? 0 then
            mark "closed_zero" "JIT: 0 Lamports"
          else if negb (ReclaimerVerifier.info_owner info =? SYSTEM_PROGRAM_ID)%string
          then
            mark "SKIPPED"
              ("JIT: Owner Changed to " ++ ReclaimerVerifier.info_owner info)%string
          else if ReclaimerVerifier.info_data_length info >? 0 then
            mark "SKIPPED"
              ("JIT: Data len " ++ decimal (ReclaimerVerifier.info_data_length info)
               ++ " > 0")%string
          else if ReclaimerOrchestrator.dryRun config then
            verify_each config clock rest (tl accountInfos) validAccounts db
          else
            verify_each config clock rest (tl accountInfos)
              (validAccounts
               ++ [(account_pubkey acc, ReclaimerVerifier.info_lamports info)])
              db
      end
  end.

Definition mark_failed (config : ReclaimerOrchestrator.ReclaimerConfig)
  (clock : Clock) (message : string) (validAccounts : list (string * Z))
  (db : Ledger) : Outcome :=
  for_each
    (fun acc => markOutcome config clock (fst acc) "FAILED"
                  ("Tx Error: " ++ message)%string)
    validAccounts db.

Definition processBatch (rpc : Rpc)
  (config : ReclaimerOrchestrator.ReclaimerConfig) (clock : Clock)
  (accounts : list SponsoredAccount) (db : Ledger) : Outcome :=
  if forallb (fun a => valid_pubkey (account_pubkey a)) accounts then
    match getMultipleAccountsInfo rpc (map account_pubkey accounts) with
    | None => Threw db
    | Some accountInfos =>
        match verify_each config clock accounts accountInfos [] db with
        | (Threw db', _) => Threw db'
        | (Done db1, validAccounts) =>
            if ReclaimerOrchestrator.dryRun config then Done db1
            else
              match validAccounts with
              | [] => Done db1
              | _ =>
                  match sendAndConfirmTransaction rpc validAccounts with
                  | inl signature =>
                      match
                        for_each
                          (fun acc =>
                             recordReclaimSuccess config clock (fst acc)
                               signature (snd acc))
                          validAccounts db1
                      with
                      | Done db2 => Done db2
                      | Threw db2 =>
                          mark_failed config clock FOREIGN_KEY_MESSAGE
                            validAccounts db2
                      end
                  | inr message =>
                      mark_failed config clock message validAccounts db1
                  end
              end
        end
    end
  else Threw db.

(** The [for] loop of [execute] from index [i] on. *)
Fixpoint batches (fuel : nat) (rpc : Rpc)
  (config : ReclaimerOrchestrator.ReclaimerConfig) (clock : Clock)
  (targets : list SponsoredAccount) (BATCH_SIZE i : Z) (db : Ledger)
  : option Outcome :=
  if i <? Z.of_nat (List.length targets) then
    match fuel with
    | O => None
    | S fuel' =>
        match processBatch rpc config clock
                (slice targets i (i + BATCH_SIZE)) db with
        | Done db' => batches fuel' rpc config clock targets BATCH_SIZE
                        (i + BATCH_SIZE) db'
        | Threw db' => Some (Threw db')
        end
    end
  else Some (Done db).

(** [execute()]; [None] when the loop has not ended after [fuel]
    batches. *)
Definition execute (fuel : nat) (rpc : Rpc)
  (config : ReclaimerOrchestrator.ReclaimerConfig) (clock : Clock)
  (db : Ledger) : option Outcome :=
  if negb (ReclaimerOrchestrator.dryRun config)
     && match ReclaimerOrchestrator.operatorKeypair config with
        | Some _ => false
        | None => true
        end
  then Some (Threw db)
  else
    let targets :=
      filter (fun a => (lifecycle_state a =? "RECLAIMABLE")%string)
        (sponsored_accounts db) in
    match targets with
    | [] => Some (Done db)
    | _ => batches fuel rpc config clock targets
             (or_default (ReclaimerOrchestrator.batchSize config) 10) 0 db
    end.

End Reclaimer.

(** ** Events that moved an account *)

(** No event of [db] moved one of [pubkeys] to [state]. *)
Definition never_moved (state : string) (pubkeys : list string) (db : Ledger)
  : Prop :=
  forall e,
    In e (lifecycle_events db) -> In (event_account e) pubkeys ->
    new_state e <> state.

(** The signature the attestation records: none for the empty text. *)
Definition recorded_signature (signature : string) : list JSValue :=
  if (signature =? "")%string then [] else [JStr signature].

(** ** What a live run of the single-class reclaimer does to a row *)




Definition jit_transfer (chain : string -> option ReclaimerVerifier.AccountInfo)
  (a : SponsoredAccount) : list (string * Z) :=
  match jit_rules (chain (account_pubkey a)) with
  | jit_verified n => [(account_pubkey a, n)]
  | _ => []
  end.

(** The transfers of the transaction of a batch: its verified accounts, in
    order, each with its balance on chain. *)
Definition batch_transfers (chain : string -> option ReclaimerVerifier.AccountInfo)
  (batch : list SponsoredAccount) : list (string * Z) :=
  flat_map (jit_transfer chain) batch.

(** What the run makes of the row of [pubkey], processed in [batch]: the
    mark of the JIT rule that rejects the account or, for a verified
    account, RECLAIMED with no lamports when the transaction of the batch
    is confirmed and FAILED when it is not. *)
Definition settle (rpc : Rpc) (chain : string -> option ReclaimerVerifier.AccountInfo)
  (batch : list SponsoredAccount) (pubkey : string)
  : SponsoredAccount -> SponsoredAccount :=
  match jit_rules (chain pubkey) with
  | jit_closed_zero => set_lifecycle_state "closed_zero"
  | jit_SKIPPED => set_lifecycle_state "SKIPPED"
  | jit_verified _ =>
      match sendAndConfirmTransaction rpc (batch_transfers chain batch) with
      | inl _ => Reclaimer.reclaimed
      | inr _ => set_lifecycle_state "FAILED"
      end
  end.



(** ** Further inputs of the examples *)

(** The seeded ledger with the rows of its tables in the opposite order,
    and another key-value store. *)
Definition seeded_ledger_reversed : Ledger :=
  {| sponsored_accounts := rev (sponsored_accounts seeded_ledger);
     lifecycle_events := rev (lifecycle_events seeded_ledger);
     system_kv_store := [("discovery_cursor_last_signature", "sig101")];
     event_seq := 2 |}.

Definition dry_policy : PolicyEngine.PolicyConfig :=
  {| PolicyEngine.dbPath := "kora-rent-devnet.db";
     PolicyEngine.dryRun := true;
     PolicyEngine.minLamports := Some 0;
     PolicyEngine.minAgeDays := Some 0;
     PolicyEngine.whitelist := Some [] |}.

(** A history of two transactions; in the older one the operator creates
    an account. *)
Definition sponsoring_transaction : Indexer.Transaction :=
  {| Indexer.accountKeys :=
       [{| Indexer.signer := true;
           Indexer.pubkey := "OperatorKey1111111111111111111111111111111111" |};
        {| Indexer.signer := true;
           Indexer.pubkey := "Stake11111111111111111111111111111111111111" |}];
     Indexer.instructions :=
       [{| Indexer.programId := SYSTEM_PROGRAM_ID;
           Indexer.parsed :=
             Some {| Indexer.type := "createAccount";
                     Indexer.info :=
                       {| Indexer.from :=
                            "OperatorKey1111111111111111111111111111111111";
                          Indexer.newAccount :=
                            "Stake11111111111111111111111111111111111111" |} |} |}];
     Indexer.signatures := ["sig1"];
     Indexer.tx_slot := 5 |}.

Definition sponsoring_chain : Indexer.Chain :=
  {| Indexer.history := ["sig2"; "sig1"];
     Indexer.signatures_fail := fun _ => false;
     Indexer.getParsedTransaction :=
       fun sig => if (sig =? "sig1")%string then Indexer.TxOk sponsoring_transaction
                  else Indexer.TxNull |}.

Definition dry_scan_config : Indexer.IndexerConfig :=
  {| Indexer.operator := "OperatorKey1111111111111111111111111111111111";
     Indexer.rpcUrl := "https://api.devnet.solana.com";
     Indexer.dbPath := "kora-rent-devnet.db";
     Indexer.dryRun := true |}.

(** The chain behind [jit_answers], address by address. *)
Definition jit_chain (pubkey : string) : option ReclaimerVerifier.AccountInfo :=
  match find (fun p => (fst p =? pubkey)%string)
          (combine (map ReclaimerFetcher.account_pubkey jit_batch) jit_answers) with
  | Some (_, info) => info
  | None => None
  end.

Definition jit_rpc : Rpc :=
  {| getMultipleAccountsInfo := fun addresses => Some (map jit_chain addresses);
     sendAndConfirmTransaction := fun _ => inr "Blockhash not found";
     invalid_key_message := "Invalid public key input" |}.

(** A node that answers no request. *)
Definition down_rpc : Rpc :=
  {| getMultipleAccountsInfo := fun _ => None;
     sendAndConfirmTransaction := fun _ => inr "fetch failed";
     invalid_key_message := "Invalid public key input" |}.

(** The accounts of [jit_batch], all RECLAIMABLE and unlocked. *)
Definition jit_ledger : Ledger :=
  {| sponsored_accounts :=
       map (fun c => seeded_account (ReclaimerFetcher.account_pubkey c)
                       "RECLAIMABLE" 2000000)
         jit_batch;
     lifecycle_events := [];
     system_kv_store := [];
     event_seq := 0 |}.

Definition dry_reclaim : ReclaimerOrchestrator.ReclaimerConfig :=
  {| ReclaimerOrchestrator.dbPath := "kora-rent-devnet.db";
     ReclaimerOrchestrator.rpcUrl := "https://api.devnet.solana.com";
     ReclaimerOrchestrator.dryRun := true;
     ReclaimerOrchestrator.operatorKeypair := None;
     ReclaimerOrchestrator.batchSize := Some 2 |}.

Definition batch_clock (i : nat) : Z := 1700000000000 + Z.of_nat i.

Definition fresh_reporter (db : Ledger) : ReclaimerReporter.t :=
  {| ReclaimerReporter.db := db;
     ReclaimerReporter.metrics := ReclaimerReporter.zero |}.



Definition down_node : LifecycleEngine.Node :=
  {| LifecycleEngine.getMultipleAccountsInfo := fun _ => None;
     LifecycleEngine.getMinimumBalanceForRentExemption := fun _ => None |}.

Definition live_lifecycle : LifecycleEngine.LifecycleConfig :=
  {| LifecycleEngine.rpcUrl := "https://api.devnet.solana.com";
     LifecycleEngine.dbPath := "kora-rent-devnet.db";
     LifecycleEngine.dryRun := false;
     LifecycleEngine.batchSize := Some 2 |}.


Definition live_reclaim : ReclaimerOrchestrator.ReclaimerConfig :=
  {| ReclaimerOrchestrator.dbPath := "kora-rent-devnet.db";
     ReclaimerOrchestrator.rpcUrl := "https://api.devnet.solana.com";
     ReclaimerOrchestrator.dryRun := false;
     ReclaimerOrchestrator.operatorKeypair := Some operator_keypair;
     ReclaimerOrchestrator.batchSize := None |}.

(** A node like [jit_rpc] that confirms the transaction it is sent. *)
Definition paying_rpc : Rpc :=
  {| getMultipleAccountsInfo := fun addresses => Some (map jit_chain addresses);
     sendAndConfirmTransaction := fun _ => inl "tx_paid";
     invalid_key_message := "Invalid public key input" |}.

(** A live run in batches of two. *)
Definition live_pairs : ReclaimerOrchestrator.ReclaimerConfig :=
  {| ReclaimerOrchestrator.dbPath := "kora-rent-devnet.db";
     ReclaimerOrchestrator.rpcUrl := "https://api.devnet.solana.com";
     ReclaimerOrchestrator.dryRun := false;
     ReclaimerOrchestrator.operatorKeypair := Some operator_keypair;
     ReclaimerOrchestrator.batchSize := Some 2 |}.

(** A clock that reads two dates: the second of January 2023, and the day
    before [now_ms]. *)
Definition dated_clock : Clock :=
  {| now_ms := 1700000000000;
     current_timestamp := "2023-11-14 22:13:20";
     Date_getTime :=
       fun text =>
         if (text =? "2023-01-02 00:00:00")%string then Some 1672617600000
         else if (text =? "2023-11-13 22:13:20")%string then Some 1699913600000
         else None |}.

(** A policy with a dust threshold and a minimum age of 30 days. *)
Definition month_policy : PolicyEngine.PolicyConfig :=
  {| PolicyEngine.dbPath := "kora-rent-devnet.db";
     PolicyEngine.dryRun := false;
     PolicyEngine.minLamports := Some 1000;
     PolicyEngine.minAgeDays := Some 30;
     PolicyEngine.whitelist := Some [] |}.

Definition set_last_lifecycle_check (checked : option string) (a : SponsoredAccount)
  : SponsoredAccount :=
  {| account_pubkey := account_pubkey a;
     creation_signature := creation_signature a;
     slot := slot a;
     discovered_at := discovered_at a;
     operator_pubkey := operator_pubkey a;
     lifecycle_state := lifecycle_state a;
     lamports := lamports a;
     data_len := data_len a;
     owner_program := owner_program a;
     last_lifecycle_check := checked;
     processing_lock := processing_lock a |}.

(** Three funded accounts: checked in January, checked yesterday, and with
    a last-check text that is no date. *)
Definition aged_ledger : Ledger :=
  {| sponsored_accounts :=
       [seeded_account "A" "ACTIVE" 5000000;
        set_last_lifecycle_check (Some "2023-11-13 22:13:20")
          (seeded_account "B" "ACTIVE" 5000000);
        set_last_lifecycle_check (Some "yesterday")
          (seeded_account "C" "ACTIVE" 5000000)];
     lifecycle_events := [];
     system_kv_store := [];
     event_seq := 0 |}.

(** The account of [twice_reclaimed], back in state ACTIVE: its RECLAIMED
    event is still in the ledger. *)
Definition reactivated_ledger : Ledger :=
  {| sponsored_accounts :=
       [seeded_account "TestAccount111111111111111111111111111111111"
          "ACTIVE" 900000];
     lifecycle_events := lifecycle_events twice_reclaimed;
     system_kv_store := [];
     event_seq := 2 |}.

(** A ledger with one reclaimed account, whose event carries the
    evidence [text]. *)
Definition ledger_with_evidence (text : string) : Ledger :=
  {| sponsored_accounts := [reclaimed_account];
     lifecycle_events :=
       [{| event_id := 1;
           event_account := "TestAccount111111111111111111111111111111111";
           old_state := "RECLAIMABLE";
           new_state := "RECLAIMED";
           trigger_reason := "Reclamation Success";
           evidence_payload := Some text;
           event_timestamp := "2023-01-02 00:00:00" |}];
     system_kv_store := [];
     event_seq := 1 |}.

(** Evidence texts: an amount and a half, and an amount of 2^53 + 1. *)
Definition fraction_evidence : string :=
  JSON_stringify (JObj [("amount", JFloat (Dyadic 3 (-1)))]).

Definition unsafe_evidence : string :=
  "{" ++ quote "amount" ++ ":9007199254740993}".

(** * Proofs *)

(** ** SHA-256 on the FIPS 180-4 examples *)

Example sha256_examples :
  sha256_hex (utf8 "abc")
  = "ba7816bf8f01cfea414140de5dae2223b00361a396177a9cb410ff61f20015ad" /\
  sha256_hex (utf8 "abcdbcdecdefdefgefghfghighijhijkijkljklmklmnlmnomnopnopq")
  = "248d6a61d20638b8e5c026930c3e6039a33ce45964ff2167f6ecedd419db06c1" /\
  sha256_hex (utf8 "")
  = "e3b0c44298fc1c149afbf4c8996fb92427ae41e4649b934ca495991b7852b855".
Proof. vm_compute. repeat split. Qed.

(** ** Induction over nested values *)

Section JSValue_induction.
Variable P : JSValue -> Prop.
Hypothesis Hnull : P JNull.
Hypothesis Hbool : forall b, P (JBool b).
Hypothesis Hnum : forall z, P (JNum z).
Hypothesis Hfloat : forall x, P (JFloat x).
Hypothesis Hstr : forall s, P (JStr s).
Hypothesis Harr : forall items, Forall P items -> P (JArr items).
Hypothesis Hobj :
  forall props, Forall (fun kv => P (snd kv)) props -> P (JObj props).

Fixpoint JSValue_nested_ind (v : JSValue) : P v :=
  match v with
  | JNull => Hnull
  | JBool b => Hbool b
  | JNum z => Hnum z
  | JFloat x => Hfloat x
  | JStr s => Hstr s
  | JArr items =>
      Harr ((fix all (l : list JSValue) : Forall P l :=
               match l with
               | [] => Forall_nil _
               | x :: r => Forall_cons _ (JSValue_nested_ind x) (all r)
               end) items)
  | JObj props =>
      Hobj ((fix all (o : JSObject) : Forall (fun kv => P (snd kv)) o :=
               match o with
               | [] => Forall_nil _
               | kv :: r => Forall_cons _ (JSValue_nested_ind (snd kv)) (all r)
               end) props)
  end.
End JSValue_induction.

(** ** Property lookup and update *)

Lemma canonicalize_obj (props : JSObject) :
  canonicalize (JObj props) =
  JObj (fold_left (canon_step (canon_props props))
          (sort_strings (Object_keys props)) []).
Proof. reflexivity. Qed.

Lemma get_prop_canon_props (k : string) (o : JSObject) :
  get_prop k (canon_props o) = option_map canonicalize (get_prop k o).
Proof.
  induction o as [|[k' x] rest IH]; simpl; [reflexivity|].
  destruct (k' =? k)%string; [reflexivity | exact IH].
Qed.

Lemma get_prop_in_keys (k : string) (o : JSObject) :
  In k (Object_keys o) <-> get_prop k o <> None.
Proof.
  induction o as [|[k' x] rest IH]; simpl.
  - split; [tauto | congruence].
  - destruct (String.eqb_spec k' k) as [->|Hne].
    + split; [discriminate | auto].
    + rewrite <- IH. split; [intros [H|H]; [contradiction | exact H] | auto].
Qed.

Lemma get_prop_In (k : string) (x : JSValue) (o : JSObject) :
  get_prop k o = Some x -> In (k, x) o.
Proof.
  induction o as [|[k' y] rest IH]; simpl; [discriminate|].
  destruct (String.eqb_spec k' k) as [->|Hne].
  - intros [= ->]. now left.
  - intros H. right. now apply IH.
Qed.

Lemma has_prop_true (k : string) (o : JSObject) :
  has_prop k o = true <-> In k (Object_keys o).
Proof.
  unfold has_prop. rewrite get_prop_in_keys.
  destruct (get_prop k o); split; congruence.
Qed.

Lemma has_prop_false (k : string) (o : JSObject) :
  has_prop k o = false <-> ~ In k (Object_keys o).
Proof.
  rewrite <- has_prop_true. destruct (has_prop k o); split; congruence.
Qed.

Lemma keys_replace_prop (k : string) (x : JSValue) (o : JSObject) :
  Object_keys (replace_prop k x o) = Object_keys o.
Proof.
  induction o as [|[k' y] rest IH]; simpl; [reflexivity|].
  destruct (k' =? k)%string; simpl; [reflexivity | now rewrite IH].
Qed.

Lemma get_replace_prop (k k' : string) (x : JSValue) (o : JSObject) :
  In k (Object_keys o) ->
  get_prop k' (replace_prop k x o) =
  if (k =? k')%string then Some x else get_prop k' o.
Proof.
  induction o as [|[k0 y] rest IH]; simpl; [tauto|].
  intros Hin.
  destruct (String.eqb_spec k0 k) as [->|Hne]; simpl.
  - destruct (k =? k')%string; reflexivity.
  - destruct Hin as [H|H]; [contradiction|].
    rewrite (IH H).
    destruct (String.eqb_spec k0 k') as [->|Hne'].
    + destruct (String.eqb_spec k k') as [->|_]; [contradiction | reflexivity].
    + reflexivity.
Qed.

Lemma get_prop_app (k : string) (o1 o2 : JSObject) :
  get_prop k (o1 ++ o2) =
  match get_prop k o1 with Some x => Some x | None => get_prop k o2 end.
Proof.
  induction o1 as [|[k' y] rest IH]; simpl; [reflexivity|].
  destruct (k' =? k)%string; [reflexivity | exact IH].
Qed.

Lemma keys_insert_index (n : Z) (k k' : string) (x : JSValue) (o : JSObject) :
  In k' (Object_keys (insert_index n k x o)) <-> k' = k \/ In k' (Object_keys o).
Proof.
  induction o as [|[k0 y] rest IH]; simpl.
  - intuition.
  - destruct (array_index k0) as [m|]; [destruct (n <? m)|]; simpl;
      try rewrite IH; intuition.
Qed.

Lemma get_insert_index (n : Z) (k k' : string) (x : JSValue) (o : JSObject) :
  ~ In k (Object_keys o) ->
  get_prop k' (insert_index n k x o) =
  if (k =? k')%string then Some x else get_prop k' o.
Proof.
  induction o as [|[k0 y] rest IH]; simpl; intros Hnin.
  - reflexivity.
  - assert (Hne : k0 <> k) by tauto.
    assert (Hrest : ~ In k (Object_keys rest)) by tauto.
    destruct (array_index k0) as [m|]; [destruct (n <? m)|]; simpl;
      try reflexivity.
    rewrite (IH Hrest).
    destruct (String.eqb_spec k0 k') as [->|_]; [|reflexivity].
    destruct (String.eqb_spec k k') as [->|_]; [contradiction | reflexivity].
Qed.

Lemma get_define_prop (o : JSObject) (k k' : string) (x : JSValue) :
  get_prop k' (define_prop o k x) =
  if (k =? k')%string then Some x else get_prop k' o.
Proof.
  unfold define_prop. destruct (has_prop k o) eqn:Hhas.
  - apply get_replace_prop. now apply has_prop_true.
  - apply has_prop_false in Hhas.
    destruct (array_index k) as [n|].
    + now apply get_insert_index.
    + rewrite get_prop_app. simpl.
      destruct (String.eqb_spec k k') as [->|Hne].
      * destruct (get_prop k' o) eqn:E; [|reflexivity].
        exfalso. apply Hhas. apply get_prop_in_keys. congruence.
      * destruct (get_prop k' o); reflexivity.
Qed.

(** An assignment is seen under its key when it takes effect, and under
    no other key. *)
Lemma get_set_prop (o : JSObject) (k k' : string) (x : JSValue) :
  get_prop k' (set_prop o k x) =
  if assigns o k && (k =? k')%string then Some x else get_prop k' o.
Proof.
  unfold set_prop. destruct (assigns o k); [|reflexivity].
  apply get_define_prop.
Qed.

Lemma assigns_other (o : JSObject) (k : string) :
  k <> "__proto__" -> assigns o k = true.
Proof.
  intros Hk. unfold assigns.
  destruct (String.eqb_spec k "__proto__"); [contradiction|].
  apply orb_true_r.
Qed.

(** ** The order on keys *)

Lemma ltb_lt (a b : string) : String.ltb a b = true <-> String_as_OT.lt a b.
Proof.
  rewrite <- String_as_OT.cmp_lt. unfold String.ltb, String_as_OT.cmp.
  destruct (String.compare a b); split; congruence.
Qed.

Lemma compare_refl (a : string) : String.compare a a = Eq.
Proof. now apply String_as_OT.cmp_eq. Qed.

Lemma ltb_irrefl (a : string) : String.ltb a a = false.
Proof. unfold String.ltb. now rewrite compare_refl. Qed.

Lemma ltb_trans (a b c : string) :
  String.ltb a b = true -> String.ltb b c = true -> String.ltb a c = true.
Proof. rewrite !ltb_lt. apply String_as_OT.lt_trans. Qed.

Lemma leb_cases (a b : string) :
  String.leb a b = true <-> a = b \/ String.ltb a b = true.
Proof.
  unfold String.leb, String.ltb.
  destruct (String.compare a b) eqn:E.
  - apply String.compare_eq_iff in E. intuition.
  - intuition.
  - split; [discriminate|]. intros [->|H]; [|discriminate].
    rewrite compare_refl in E. discriminate.
Qed.

Lemma leb_trans (a b c : string) :
  String.leb a b = true -> String.leb b c = true -> String.leb a c = true.
Proof.
  rewrite !leb_cases. intros [->|H1] [->|H2]; auto.
  right. eapply ltb_trans; eassumption.
Qed.

Lemma leb_false_leb (a b : string) :
  String.leb a b = false -> String.leb b a = true.
Proof.
  intros H. destruct (String.leb_total a b) as [H'|H']; congruence.
Qed.

Lemma array_index_decimal (k : string) (n : Z) :
  array_index k = Some n -> k = decimal n.
Proof.
  unfold array_index. destruct (NilZero.uint_of_string k) as [d|]; [|discriminate].
  destruct (String.eqb_spec (decimal (Z.of_uint d)) k) as [E|_]; simpl;
    [|discriminate].
  destruct (Z.of_uint d <? 4294967295); [|discriminate].
  intros [= <-]. now symmetry.
Qed.

Lemma key_lt_irrefl (k : string) : ~ key_lt k k.
Proof.
  unfold key_lt. destruct (array_index k); [lia|].
  rewrite ltb_irrefl. discriminate.
Qed.

Lemma key_lt_trans (a b c : string) : key_lt a b -> key_lt b c -> key_lt a c.
Proof.
  unfold key_lt.
  destruct (array_index a), (array_index b), (array_index c);
    try tauto; try lia.
  apply ltb_trans.
Qed.

(** Two strictly ascending lists with the same elements are the same list. *)
Lemma sorted_unique (l1 l2 : list string) :
  StronglySorted key_lt l1 -> StronglySorted key_lt l2 ->
  (forall k, In k l1 <-> In k l2) -> l1 = l2.
Proof.
  intros S1. revert l2.
  induction S1 as [|a l1 S1 IH Ha]; intros l2 S2 Hin.
  - destruct l2 as [|b l2]; [reflexivity|].
    exfalso. apply (Hin b). now left.
  - destruct S2 as [|b l2 S2 Hb].
    + exfalso. apply (Hin a). now left.
    + rewrite Forall_forall in Ha, Hb.
      assert (Hab : a = b).
      { destruct (proj1 (Hin a) (or_introl eq_refl)) as [E|Hia]; [now symmetry|].
        destruct (proj2 (Hin b) (or_introl eq_refl)) as [E|Hib]; [exact E|].
        exfalso. apply (@key_lt_irrefl a).
        eapply key_lt_trans; [apply Ha, Hib | apply Hb, Hia]. }
      subst b. f_equal. apply IH; [exact S2|].
      intros k. split; intros Hk.
      * destruct (proj1 (Hin k) (or_intror Hk)) as [E|H]; [|exact H].
        subst k. exfalso. apply (@key_lt_irrefl a). now apply Ha.
      * destruct (proj2 (Hin k) (or_intror Hk)) as [E|H]; [|exact H].
        subst k. exfalso. apply (@key_lt_irrefl a). now apply Hb.
Qed.

(** An object is determined by its keys, in order, and their values. *)
Lemma object_ext (o1 o2 : JSObject) :
  NoDup (Object_keys o1) ->
  Object_keys o1 = Object_keys o2 ->
  (forall k, get_prop k o1 = get_prop k o2) -> o1 = o2.
Proof.
  revert o2. induction o1 as [|[k x] r1 IH]; intros [|[k' y] r2]; simpl;
    try discriminate; [reflexivity|].
  intros Hnd [= <- Hk] Hget. inversion Hnd as [|? ? Hnin Hnd']; subst.
  pose proof (Hget k) as Hx. rewrite String.eqb_refl in Hx.
  injection Hx as <-. f_equal. apply IH; [exact Hnd' | exact Hk |].
  intros k0. pose proof (Hget k0) as Hget0.
  destruct (String.eqb_spec k k0) as [E|_]; [|exact Hget0].
  subst k0. clear Hget0.
  destruct (get_prop k r1) eqn:E1.
  - exfalso. apply Hnin. apply get_prop_in_keys. congruence.
  - destruct (get_prop k r2) eqn:E2; [|reflexivity].
    exfalso. apply Hnin. rewrite Hk. apply get_prop_in_keys. congruence.
Qed.

Lemma sorted_NoDup (l : list string) : StronglySorted key_lt l -> NoDup l.
Proof.
  induction 1 as [|a l S IH Ha]; constructor; [|exact IH].
  intros Hin. rewrite Forall_forall in Ha.
  apply (@key_lt_irrefl a). now apply Ha.
Qed.

(** The canonical form of a mapping is unique. *)
Lemma canonical_object_unique (o1 o2 : JSObject) :
  canonical_object o1 -> canonical_object o2 ->
  (forall k, get_prop k o1 = get_prop k o2) -> o1 = o2.
Proof.
  intros C1 C2 Hget.
  assert (Hk : Object_keys o1 = Object_keys o2).
  { apply sorted_unique; [exact C1 | exact C2 |].
    intros k. rewrite !get_prop_in_keys. now rewrite Hget. }
  apply object_ext; [now apply sorted_NoDup | exact Hk | exact Hget].
Qed.

(** ** Sorting *)

Section SortFacts.
Variable A : Type.
Variable le : A -> A -> bool.
Hypothesis le_total : forall a b, le a b = false -> le b a = true.
Hypothesis le_trans : forall a b c, le a b = true -> le b c = true -> le a c = true.

Let le_rel (a b : A) : Prop := le a b = true.

Lemma insert_by_perm (x : A) (l : list A) :
  Permutation (x :: l) (insert_by le x l).
Proof.
  induction l as [|h t IH]; simpl; [reflexivity|].
  destruct (le x h); [reflexivity|].
  rewrite perm_swap. now constructor.
Qed.

Lemma sort_by_perm (l : list A) : Permutation l (sort_by le l).
Proof.
  induction l as [|h t IH]; simpl; [constructor|].
  rewrite <- insert_by_perm. now constructor.
Qed.

Lemma In_sort_by (x : A) (l : list A) : In x (sort_by le l) <-> In x l.
Proof.
  split; apply Permutation_in;
    [apply Permutation_sym|]; apply sort_by_perm.
Qed.

Lemma insert_by_sorted (x : A) (l : list A) :
  StronglySorted le_rel l -> StronglySorted le_rel (insert_by le x l).
Proof.
  induction 1 as [|h t S IH Hh]; simpl.
  - repeat constructor.
  - destruct (le x h) eqn:E.
    + constructor; [now constructor|].
      constructor; [exact E|].
      eapply Forall_impl; [|exact Hh].
      intros a Ha. eapply le_trans; eassumption.
    + constructor; [exact IH|].
      apply Forall_forall. intros a Ha.
      apply (Permutation_in _ (Permutation_sym (insert_by_perm x t))) in Ha.
      destruct Ha as [<-|Ha].
      * now apply le_total.
      * rewrite Forall_forall in Hh. now apply Hh.
Qed.

Lemma sort_by_sorted (l : list A) : StronglySorted le_rel (sort_by le l).
Proof.
  induction l as [|h t IH]; simpl; [constructor|].
  now apply insert_by_sorted.
Qed.
End SortFacts.

Lemma In_sort_strings (x : string) (l : list string) :
  In x (sort_strings l) <-> In x l.
Proof. apply In_sort_by. Qed.

Lemma sort_strings_sorted (l : list string) :
  StronglySorted leb_rel (sort_strings l).
Proof. apply sort_by_sorted; [exact leb_false_leb | exact leb_trans]. Qed.

(** ** The object built by the [reduce] is canonical *)

Lemma sorted_snoc (l : list string) (k : string) :
  StronglySorted key_lt l -> Forall (fun a => key_lt a k) l ->
  StronglySorted key_lt (l ++ [k]).
Proof.
  induction 1 as [|a l S IH Ha]; simpl; intros Hk.
  - repeat constructor.
  - inversion Hk as [|? ? Hak Hk']; subst.
    constructor; [now apply IH|].
    apply Forall_app. split; [exact Ha | now constructor].
Qed.

Lemma Object_keys_app (o1 o2 : JSObject) :
  Object_keys (o1 ++ o2) = Object_keys o1 ++ Object_keys o2.
Proof. apply map_app. Qed.

Lemma insert_index_sorted (n : Z) (k : string) (x : JSValue) (o : JSObject) :
  array_index k = Some n -> ~ In k (Object_keys o) ->
  canonical_object o -> canonical_object (insert_index n k x o).
Proof.
  unfold canonical_object. intros Hk.
  induction o as [|[k0 y] rest IH]; simpl; intros Hnin S.
  - repeat constructor.
  - inversion S as [|? ? S' H0]; subst.
    assert (Hne : k0 <> k) by tauto.
    assert (Hlt : forall a, key_lt k k0 -> In a (Object_keys rest) -> key_lt k a).
    { intros a Hkk0 Ha. rewrite Forall_forall in H0.
      eapply key_lt_trans; [exact Hkk0 | now apply H0]. }
    destruct (array_index k0) as [m|] eqn:Hk0.
    + destruct (n <? m) eqn:Hnm.
      * assert (Hkk0 : key_lt k k0).
        { unfold key_lt. rewrite Hk, Hk0. now apply Z.ltb_lt. }
        simpl. constructor; [exact S|].
        constructor; [exact Hkk0|]. apply Forall_forall. intros a Ha. now apply Hlt.
      * simpl. constructor; [apply IH; [tauto | exact S']|].
        apply Forall_forall. intros a Ha.
        apply keys_insert_index in Ha. destruct Ha as [->|Ha].
        -- unfold key_lt. rewrite Hk, Hk0.
           apply Z.ltb_ge in Hnm.
           assert (m <> n).
           { intros ->. apply Hne.
             now rewrite (array_index_decimal _ Hk), (array_index_decimal _ Hk0). }
           lia.
        -- rewrite Forall_forall in H0. now apply H0.
    + assert (Hkk0 : key_lt k k0).
      { unfold key_lt. now rewrite Hk, Hk0. }
      simpl. constructor; [exact S|].
      constructor; [exact Hkk0|]. apply Forall_forall. intros a Ha. now apply Hlt.
Qed.

Lemma keys_set_prop (o : JSObject) (k k' : string) (x : JSValue) :
  In k' (Object_keys (set_prop o k x))
  <-> (assigns o k = true /\ k' = k) \/ In k' (Object_keys o).
Proof.
  rewrite !get_prop_in_keys, get_set_prop.
  destruct (assigns o k); cbn [andb].
  - destruct (String.eqb_spec k k') as [->|Hne].
    + split; [auto | discriminate].
    + split; [auto | intros [[_ E]|H]; [congruence | exact H]].
  - split; [auto | intros [[E _]|H]; [discriminate | exact H]].
Qed.

Lemma define_prop_canonical (o : JSObject) (k : string) (x : JSValue) :
  canonical_object o ->
  (forall k', In k' (Object_keys o) -> array_index k' = None ->
              String.leb k' k = true) ->
  canonical_object (define_prop o k x).
Proof.
  intros C Hle. unfold define_prop.
  destruct (has_prop k o) eqn:Hhas.
  - unfold canonical_object. now rewrite keys_replace_prop.
  - apply has_prop_false in Hhas.
    destruct (array_index k) as [n|] eqn:Hk.
    + now apply insert_index_sorted.
    + unfold canonical_object. rewrite Object_keys_app. simpl.
      apply sorted_snoc; [exact C|].
      apply Forall_forall. intros a Ha. unfold key_lt. rewrite Hk.
      destruct (array_index a) eqn:Hxa; [exact I|].
      destruct (proj1 (leb_cases a k) (Hle a Ha Hxa)) as [->|H];
        [contradiction | exact H].
Qed.

Lemma set_prop_canonical (o : JSObject) (k : string) (x : JSValue) :
  canonical_object o ->
  (forall k', In k' (Object_keys o) -> array_index k' = None ->
              String.leb k' k = true) ->
  canonical_object (set_prop o k x).
Proof.
  intros C Hle. unfold set_prop.
  destruct (assigns o k); [now apply define_prop_canonical | exact C].
Qed.

Lemma fold_canon_step_canonical (cobj : JSObject) (keys : list string) :
  StronglySorted leb_rel keys ->
  forall acc,
    canonical_object acc ->
    (forall k' k, In k' (Object_keys acc) -> In k keys ->
                  array_index k' = None -> String.leb k' k = true) ->
    canonical_object (fold_left (canon_step cobj) keys acc).
Proof.
  induction 1 as [|k rest S IH Hk]; simpl; intros acc C Hle; [exact C|].
  rewrite Forall_forall in Hk.
  apply IH.
  - unfold canon_step. destruct (get_prop k cobj); [|exact C].
    apply set_prop_canonical; [exact C|].
    intros k' Hk' Hx. apply Hle; auto.
  - intros k' k2 Hk' Hk2 Hx. unfold canon_step in Hk'.
    destruct (get_prop k cobj).
    + apply keys_set_prop in Hk'. destruct Hk' as [[_ ->]|Hk'].
      * now apply Hk.
      * apply Hle; auto.
    + apply Hle; auto.
Qed.

Lemma get_canon_step (cobj acc : JSObject) (h k : string) :
  get_prop k (canon_step cobj acc h) =
  if string_dec h k
  then match get_prop k cobj with
       | Some x => if assigns acc k then Some x else get_prop k acc
       | None => get_prop k acc
       end
  else get_prop k acc.
Proof.
  unfold canon_step. destruct (string_dec h k) as [->|Hne].
  - destruct (get_prop k cobj); [|reflexivity].
    now rewrite get_set_prop, String.eqb_refl, andb_true_r.
  - destruct (get_prop h cobj); [|reflexivity].
    rewrite get_set_prop.
    destruct (String.eqb_spec h k); [contradiction|].
    now rewrite andb_false_r.
Qed.

Lemma get_fold_canon_step (cobj : JSObject) (k : string) (keys : list string) :
  k <> "__proto__" ->
  forall acc,
    get_prop k (fold_left (canon_step cobj) keys acc) =
    match (if in_dec string_dec k keys then get_prop k cobj else None) with
    | Some x => Some x
    | None => get_prop k acc
    end.
Proof.
  intros Hk.
  induction keys as [|h t IH]; simpl; intros acc; [reflexivity|].
  rewrite IH, get_canon_step, (assigns_other _ Hk).
  destruct (in_dec string_dec k t), (string_dec h k), (get_prop k cobj);
    reflexivity.
Qed.

(** The [reduce] never gives its accumulator a property [__proto__]. *)
Lemma get_fold_canon_step_proto (cobj : JSObject) (keys : list string) :
  forall acc,
    get_prop "__proto__" acc = None ->
    get_prop "__proto__" (fold_left (canon_step cobj) keys acc) = None.
Proof.
  induction keys as [|h t IH]; simpl; intros acc Hacc; [exact Hacc|].
  apply IH. rewrite get_canon_step.
  destruct (string_dec h "__proto__"); [|exact Hacc].
  destruct (get_prop "__proto__" cobj); [|exact Hacc].
  unfold assigns, has_prop. rewrite Hacc. reflexivity.
Qed.

(** What [canonicalize] returns for an object: the canonical object that
    binds every key of the argument but [__proto__] to the canonical form
    of its value. *)
Lemma canonicalize_obj_spec (props : JSObject) :
  exists c,
    canonicalize (JObj props) = JObj c /\
    canonical_object c /\
    forall k, get_prop k c = canonical_value props k.
Proof.
  eexists. split; [apply canonicalize_obj|]. split.
  - apply fold_canon_step_canonical.
    + apply sort_strings_sorted.
    + constructor.
    + intros k' k [].
  - intros k. unfold canonical_value.
    destruct (String.eqb_spec k "__proto__") as [->|Hk].
    + now apply get_fold_canon_step_proto.
    + rewrite get_fold_canon_step by exact Hk. simpl.
      rewrite get_prop_canon_props.
      destruct (in_dec string_dec k (sort_strings (Object_keys props)))
        as [Hin|Hnin].
      * destruct (get_prop k props); reflexivity.
      * rewrite In_sort_strings, get_prop_in_keys in Hnin.
        destruct (get_prop k props); [|reflexivity].
        exfalso. apply Hnin. discriminate.
Qed.

(** ** Canonicalization: idempotence and insensitivity to insertion order *)

Lemma canonicalize_idempotent (v : JSValue) :
  canonicalize (canonicalize v) = canonicalize v.
Proof.
  induction v as [| | | | |items IH|props IH] using JSValue_nested_ind; try reflexivity.
  - simpl. f_equal. rewrite map_map. apply map_ext_in.
    intros x Hx. rewrite Forall_forall in IH. now apply IH.
  - destruct (canonicalize_obj_spec props) as (c & Hc & Cc & Hget).
    rewrite Hc.
    destruct (canonicalize_obj_spec c) as (c' & Hc' & Cc' & Hget').
    rewrite Hc'. f_equal.
    apply canonical_object_unique; [exact Cc' | exact Cc |].
    intros k. rewrite Hget'. unfold canonical_value at 1. rewrite Hget.
    unfold canonical_value.
    destruct (k =? "__proto__")%string; [reflexivity|].
    destruct (get_prop k props) as [x|] eqn:E; [simpl|reflexivity].
    f_equal. rewrite Forall_forall in IH.
    apply (IH (k, x)). now apply get_prop_In.
Qed.

Lemma canonicalize_equivalent (v1 : JSValue) :
  forall v2, equivalent v1 v2 -> canonicalize v1 = canonicalize v2.
Proof.
  induction v1 as [| | | | |items IH|props IH] using JSValue_nested_ind; intros v2 H;
    inversion H; subst; try reflexivity.
  - simpl. f_equal.
    match goal with HF : Forall2 _ _ _ |- _ => induction HF as [|x y l l' Hxy HF IHF] end;
      [reflexivity|].
    inversion IH as [|? ? Hx IH']; subst. simpl. f_equal.
    + now apply Hx.
    + apply IHF; [exact IH' | now constructor].
  - destruct (canonicalize_obj_spec props) as (c1 & Hc1 & Cc1 & Hget1).
    destruct (canonicalize_obj_spec o2) as (c2 & Hc2 & Cc2 & Hget2).
    rewrite Hc1, Hc2. f_equal.
    apply canonical_object_unique; [exact Cc1 | exact Cc2 |].
    intros k. rewrite Hget1, Hget2. unfold canonical_value.
    destruct (k =? "__proto__")%string; [reflexivity|].
    match goal with HO : forall _, opt_rel _ _ _ |- _ => specialize (HO k) end.
    destruct (get_prop k props) as [x|] eqn:E1;
      match goal with HO : opt_rel _ _ _ |- _ => inversion HO; subst end;
      [simpl|reflexivity].
    f_equal. rewrite Forall_forall in IH.
    apply (IH (k, x)); [now apply get_prop_In | assumption].
Qed.

(** Objects that differ only in the order of their properties are
    equivalent. *)
Lemma equivalent_refl (v : JSValue) : equivalent v v.
Proof.
  induction v as [| | | | |items IH|props IH] using JSValue_nested_ind; try constructor.
  - induction IH; constructor; assumption.
  - intros k. destruct (get_prop k props) as [x|] eqn:E; constructor.
    rewrite Forall_forall in IH. apply (IH (k, x)). now apply get_prop_In.
Qed.

Lemma get_prop_permutation (o1 o2 : JSObject) :
  Permutation o1 o2 -> NoDup (Object_keys o1) ->
  forall k, get_prop k o1 = get_prop k o2.
Proof.
  induction 1 as [|[k0 x] l l' HP IH|[k0 x] [k1 y] l|l l' l'' HP1 IH1 HP2 IH2];
    intros Hnd k; simpl in *.
  - reflexivity.
  - inversion Hnd; subst. destruct (k0 =? k)%string; auto.
  - inversion Hnd as [|? ? Hnin _]; subst.
    destruct (String.eqb_spec k0 k) as [->|_], (String.eqb_spec k1 k) as [->|_];
      try reflexivity.
    exfalso. apply Hnin. now left.
  - rewrite IH1 by exact Hnd. apply IH2.
    eapply Permutation_NoDup; [|exact Hnd].
    unfold Object_keys. now apply Permutation_map.
Qed.

Lemma equivalent_permutation (o1 o2 : JSObject) :
  Permutation o1 o2 -> NoDup (Object_keys o1) ->
  equivalent (JObj o1) (JObj o2).
Proof.
  intros HP Hnd. constructor. intros k.
  rewrite <- (get_prop_permutation HP Hnd k).
  destruct (get_prop k o1); constructor. apply equivalent_refl.
Qed.

(** C4.  [canonicalize] is idempotent, and two structurally equivalent
    values (the same keys bound to equivalent values, whatever the order in
    which the properties were inserted) have canonical forms that
    [JSON.stringify] serializes to the same bytes. *)
Theorem canonicalize_idempotent_and_order_insensitive :
  (forall v, canonicalize (canonicalize v) = canonicalize v) /\
  (forall v1 v2,
      equivalent v1 v2 ->
      utf8 (JSON_stringify (canonicalize v1)) =
      utf8 (JSON_stringify (canonicalize v2))).
Proof.
  split.
  - exact canonicalize_idempotent.
  - intros v1 v2 H. now rewrite (canonicalize_equivalent H).
Qed.

Ltac split_on_key k :=
  repeat match goal with
         | |- context [String.eqb ?a k] =>
             destruct (String.eqb_spec a k); [subst k; cbv|cbn [get_prop]]
         end.

Ltac show_equivalent :=
  lazymatch goal with
  | |- equivalent (JObj _) (JObj _) =>
      constructor; let k := fresh "k" in
      intros k; cbn [get_prop]; split_on_key k; show_equivalent
  | |- equivalent (JArr _) (JArr _) => constructor; show_equivalent
  | |- opt_rel _ (Some _) (Some _) => constructor; show_equivalent
  | |- Forall2 _ (_ :: _) (_ :: _) => constructor; show_equivalent
  | |- _ => constructor
  end.

Lemma canonicalize_order_insensitive_witness :
  equivalent order_sample_1 order_sample_2 /\
  utf8 (JSON_stringify (canonicalize order_sample_1)) =
  utf8 (JSON_stringify (canonicalize order_sample_2)).
Proof.
  assert (H : equivalent order_sample_1 order_sample_2).
  { unfold order_sample_1, order_sample_2. show_equivalent. }
  split; [exact H|].
  exact (proj2 canonicalize_idempotent_and_order_insensitive _ _ H).
Defined.

(** ** The state hash *)

Lemma fold_left_feed (rows : list JSValue) (fed : bytes) :
  fold_left (fun fed row => fed ++ sha256 (utf8 (JSON_stringify (canonicalize row))))
    rows fed
  = fed ++ List.concat (map row_hash rows).
Proof.
  revert fed. induction rows as [|r rest IH]; intros fed;
    cbn [fold_left map List.concat].
  - now rewrite app_nil_r.
  - rewrite IH. unfold row_hash at 2. now rewrite <- app_assoc.
Qed.

Lemma hashTable_digest (tableName : string) (rows : list JSValue) :
  StateHasher.hashTable tableName rows = to_hex (table_digest tableName rows).
Proof.
  unfold StateHasher.hashTable, table_digest, sha256_hex.
  destruct rows as [|r rest]; [reflexivity|].
  now rewrite fold_left_feed.
Qed.

Lemma pubkey_leb_total (a b : SponsoredAccount) :
  pubkey_leb a b = false -> pubkey_leb b a = true.
Proof. apply leb_false_leb. Qed.

Lemma pubkey_leb_trans (a b c : SponsoredAccount) :
  pubkey_leb a b = true -> pubkey_leb b c = true -> pubkey_leb a c = true.
Proof. apply leb_trans. Qed.

Lemma id_leb_total (a b : LifecycleEvent) :
  id_leb a b = false -> id_leb b a = true.
Proof. unfold id_leb. lia. Qed.

Lemma id_leb_trans (a b c : LifecycleEvent) :
  id_leb a b = true -> id_leb b c = true -> id_leb a c = true.
Proof. unfold id_leb. lia. Qed.

(** The code's root digest, on the empty ledger, is not the digest of the
    two raw 32-byte table digests. *)
Lemma computeStateHash_empty_not_raw :
  StateHasher.computeStateHash empty_ledger <>
  sha256_hex (sha256 (utf8 "sponsored_accounts:empty")
              ++ sha256 (utf8 "lifecycle_events:empty")).
Proof. vm_compute. discriminate. Qed.

(** C1 (amended).  For every ledger, [computeStateHash] is the SHA-256, in
    hex, of the concatenated hexadecimal text of the two per-table digests;
    the accounts are hashed in ascending [account_pubkey] order and the
    events in ascending [id] order; on the empty ledger the result is
    SHA256(hex(SHA256("sponsored_accounts:empty")) ||
           hex(SHA256("lifecycle_events:empty"))). *)
Theorem computeStateHash_hex_of_table_digests :
  (forall db,
      StateHasher.computeStateHash db = root_of_hex_digests db /\
      Permutation (sponsored_accounts db) (accounts_by_pubkey db) /\
      StronglySorted (fun a b => String.leb (account_pubkey a) (account_pubkey b) = true)
        (accounts_by_pubkey db) /\
      Permutation (lifecycle_events db) (events_by_id db) /\
      StronglySorted (fun a b => event_id a <= event_id b) (events_by_id db)) /\
  StateHasher.computeStateHash empty_ledger =
  sha256_hex (utf8 (sha256_hex (utf8 "sponsored_accounts:empty"))
              ++ utf8 (sha256_hex (utf8 "lifecycle_events:empty"))).
Proof.
  split; [|vm_compute; reflexivity].
  intros db. repeat split.
  - unfold StateHasher.computeStateHash, root_of_hex_digests.
    now rewrite !hashTable_digest.
  - apply sort_by_perm.
  - exact (@sort_by_sorted _ pubkey_leb pubkey_leb_total pubkey_leb_trans _).
  - apply sort_by_perm.
  - pose proof (@sort_by_sorted _ id_leb id_leb_total id_leb_trans
                  (lifecycle_events db)) as H.
    unfold events_by_id.
    induction H as [|e l S IH He]; constructor; [exact IH|].
    eapply Forall_impl; [|exact He].
    intros b Hb. unfold id_leb in Hb. lia.
Qed.

(** The state hash and the attestation hash of the seeded ledger. *)
Example seeded_hashes :
  StateHasher.computeStateHash seeded_ledger
  = "e526b5e0dca08a763fe6e33fbb0ba20596f34d888f35df59fae9e56fcbb37ddb" /\
  option_map attestation_hash
    (AttestationService.generate stand_in seeded_ledger "devnet" seeded_config
       None "unknown")
  = Some "ec66aa12f8b4a69ccbd0acfe971b2fdb9362b26bd0968142eebc46e61b3293cb".
Proof. vm_compute. split; reflexivity. Qed.

(** ** The policy engine on a reclaimed account *)

(** C2 (the code at the failing input).  An account in state RECLAIMED is a
    candidate of [evaluate]: the query excludes 'reclaimed', in lower case.
    With the default configuration the account moves to SKIPPED and a
    second LifecycleEvent is appended for it. *)
Theorem evaluate_moves_reclaimed_account :
  let db := PolicyEngine.evaluate default_policy test_clock reclaimed_ledger in
  map lifecycle_state (sponsored_accounts db) = ["SKIPPED"] /\
  map (fun e => (event_id e, event_account e, old_state e, new_state e,
                 trigger_reason e))
    (lifecycle_events db)
  = [(1, "TestAccount111111111111111111111111111111111",
      "RECLAIMABLE", "RECLAIMED", "Reclamation Success");
     (2, "TestAccount111111111111111111111111111111111",
      "RECLAIMED", "SKIPPED", "Policy: 0 Balance")].
Proof. vm_compute. split; reflexivity. Qed.

(** ** The indexer leaves an existing cursor alone *)

Lemma storeSponsoredAccount_kv (config : Indexer.IndexerConfig) (clock : Clock)
  (pubkey creation : string) (slot : Z) (db : Ledger) :
  system_kv_store
    (Indexer.storeSponsoredAccount config clock pubkey creation slot db)
  = system_kv_store db.
Proof.
  unfold Indexer.storeSponsoredAccount.
  destruct (Indexer.dryRun config); [reflexivity|].
  destruct (find_account pubkey db); reflexivity.
Qed.

Lemma visit_instructions_kv (config : Indexer.IndexerConfig) (clock : Clock)
  (tx : Indexer.Transaction) (l : list Indexer.Instruction) :
  forall acc,
    system_kv_store
      (snd (fold_left (Indexer.visit_instruction config clock tx) l acc))
    = system_kv_store (snd acc).
Proof.
  induction l as [|i l IH]; intros acc; [reflexivity|].
  cbn [fold_left]. rewrite IH. unfold Indexer.visit_instruction.
  destruct (Indexer.parsed i) as [p|]; [|reflexivity].
  destruct (_ && _); [|reflexivity]. cbn [snd].
  destruct (Indexer.signatures tx); [reflexivity|].
  apply storeSponsoredAccount_kv.
Qed.

Lemma parseTransaction_kv (config : Indexer.IndexerConfig) (clock : Clock)
  (tx : Indexer.Transaction) (db : Ledger) (r : bool * Ledger) :
  Indexer.parseTransaction config clock tx db = Some r ->
  system_kv_store (snd r) = system_kv_store db.
Proof.
  unfold Indexer.parseTransaction.
  destruct (Indexer.accountKeys tx) as [|feePayer rest]; [discriminate|].
  destruct (_ || _); intros [= <-]; [reflexivity|].
  apply visit_instructions_kv.
Qed.

Lemma process_page_kv (chain : Indexer.Chain) (config : Indexer.IndexerConfig)
  (clock : Clock) (page : list string) :
  forall db,
    system_kv_store (snd (Indexer.process_page chain config clock page db))
    = system_kv_store db.
Proof.
  induction page as [|sig rest IH]; intros db; [reflexivity|].
  cbn [Indexer.process_page].
  destruct (Indexer.getParsedTransaction chain sig) as [| |tx];
    [reflexivity | apply IH |].
  destruct (Indexer.parseTransaction config clock tx db) as [[found db']|] eqn:E;
    [|reflexivity].
  rewrite IH. apply (parseTransaction_kv _ _ _ _ E).
Qed.

Lemma run_loop_keeps_cursor (chain : Indexer.Chain)
  (config : Indexer.IndexerConfig) (clock : Clock) (untilSignature : option string)
  (fuel : nat) :
  Indexer.truthy untilSignature = true ->
  forall beforeSignature call st st',
    Indexer.run_loop fuel chain config clock untilSignature beforeSignature
      call st = Some st' ->
    Indexer.cursor_writes st' = Indexer.cursor_writes st /\
    system_kv_store (Indexer.ledger st')
    = system_kv_store (Indexer.ledger st).
Proof.
  intros Hcursor.
  induction fuel as [|fuel IH]; intros beforeSignature call st st';
    [discriminate|].
  cbn [Indexer.run_loop].
  destruct (Indexer.signatures_fail chain call); [now intros [= <-]|].
  destruct (Indexer.getSignaturesForAddress chain Indexer.SIGNATURE_FETCH_LIMIT
              untilSignature beforeSignature) as [|latest page];
    [now intros [= <-]|].
  rewrite Hcursor. cbn [negb]. intros H.
  match type of H with
  | context [Indexer.process_page ?c ?cfg ?cl ?pg ?l] =>
      pose proof (process_page_kv c cfg cl pg l) as Hkv;
      destruct (Indexer.process_page c cfg cl pg l) as [ok db']
  end.
  cbn [snd] in Hkv. destruct ok.
  - apply IH in H. cbn [Indexer.cursor_writes Indexer.ledger] in H.
    destruct H as [Hw Hk]. split; [exact Hw | now rewrite Hk].
  - injection H as <-. cbn [Indexer.cursor_writes Indexer.ledger]. now split.
Qed.

(** On a run that finds a cursor, the cursor key is never written and
    keeps its value. *)
Lemma run_keeps_existing_cursor (chain : Indexer.Chain)
  (config : Indexer.IndexerConfig) (clock : Clock) (db : Ledger)
  (st : Indexer.RunState) :
  Indexer.truthy (Indexer.getCursor db) = true ->
  Indexer.run chain config clock db = Some st ->
  Indexer.cursor_writes st = [] /\
  Indexer.getCursor (Indexer.ledger st) = Indexer.getCursor db.
Proof.
  intros Hcursor Hrun. unfold Indexer.run in Hrun.
  apply (run_loop_keeps_cursor _ _ _ _ _ Hcursor) in Hrun.
  destruct Hrun as [Hw Hk]. split; [exact Hw|].
  unfold Indexer.getCursor. now rewrite Hk.
Qed.

(** ** The indexer on a history of two pages *)

(** C3 (the code at the failing input).  On a first run over 101 signatures
    the cursor is written after each of the two pages: first to [sig101],
    the newest signature of the first page, then to [sig1], the newest of
    the second page, where it stays. *)
Theorem run_writes_cursor_on_every_page :
  option_map Indexer.cursor_writes
    (Indexer.run two_page_chain scan_config test_clock empty_ledger)
  = Some ["sig101"; "sig1"] /\
  option_map (fun st => Indexer.getCursor (Indexer.ledger st))
    (Indexer.run two_page_chain scan_config test_clock empty_ledger)
  = Some (Some "sig1").
Proof. vm_compute. split; reflexivity. Qed.

(** ** Numbers pass through the canonicalizer unchanged *)


(** What is found in a canonical form is the canonical form of what is
    found, at the same position, in the value. *)
Lemma at_path_canonical (p : list PathStep) :
  forall v x,
    at_path p (canonicalize v) = Some x ->
    exists y, at_path p v = Some y /\ x = canonicalize y.
Proof.
  induction p as [|[k|i] rest IH]; intros v x.
  - intros [= <-]. now exists v.
  - destruct v as [| | | | |items|props]; try discriminate.
    destruct (canonicalize_obj_spec props) as (c & Hc & _ & Hget).
    rewrite Hc. cbn [at_path]. rewrite Hget. unfold canonical_value.
    destruct (k =? "__proto__")%string; [discriminate|].
    destruct (get_prop k props) as [y|]; [|discriminate].
    cbn [option_map]. apply IH.
  - destruct v as [| | | | |items|props]; try discriminate.
    cbn [canonicalize at_path]. rewrite nth_error_map.
    destruct (nth_error items i) as [y|]; [|discriminate].
    cbn [option_map]. apply IH.
Qed.





Lemma Forall_firstn (A : Type) (P : A -> Prop) (n : nat) (l : list A) :
  Forall P l -> Forall P (firstn n l).
Proof.
  intros H. revert n. induction H as [|x l Hx Hl IH]; intros [|n]; cbn;
    constructor; auto.
Qed.

Lemma Forall_skipn (A : Type) (P : A -> Prop) (n : nat) (l : list A) :
  Forall P l -> Forall P (skipn n l).
Proof.
  intros H. revert n. induction H as [|x l Hx Hl IH]; intros [|n]; cbn; auto.
Qed.





(** The one member the canonicalizer does not keep: assigning to the key
    [__proto__] of the object it builds creates no property, so a member
    of that name is left out of the canonical form, with all it holds. *)
Lemma canonicalize_drops_proto_member :
  canonicalize (JObj [("b", JNum 2); ("__proto__", JNum 1); ("a", JNum 3)])
  = JObj [("a", JNum 3); ("b", JNum 2)].
Proof. reflexivity. Qed.



(** ** Fetch and lock *)

Lemma firstn_incl (A : Type) (n : nat) (l : list A) (x : A) :
  In x (firstn n l) -> In x l.
Proof.
  revert l. induction n as [|n IH]; intros [|h t]; simpl; try tauto.
  intros [H|H]; [now left | right; now apply IH].
Qed.

Lemma sql_limit_In (A : Type) (limit : Z) (rows : list A) (x : A) :
  In x (ReclaimerFetcher.sql_limit limit rows) -> In x rows.
Proof.
  unfold ReclaimerFetcher.sql_limit. destruct (limit <? 0); [auto|].
  apply firstn_incl.
Qed.

Lemma select_candidates_In (limit : Z) (db : Ledger)
  (r : ReclaimerFetcher.ReclaimableAccount) :
  In r (ReclaimerFetcher.select_candidates limit db) ->
  exists a, In a (sponsored_accounts db) /\
            ReclaimerFetcher.is_candidate a = true /\
            account_pubkey a = ReclaimerFetcher.account_pubkey r /\
            lamports a = ReclaimerFetcher.lamports r.
Proof.
  unfold ReclaimerFetcher.select_candidates. rewrite in_map_iff.
  intros (a & <- & Ha). apply sql_limit_In, filter_In in Ha.
  exists a. simpl. tauto.
Qed.

Lemma lock_fold (workerId : string) (pubkeys : list string) :
  forall db,
    sponsored_accounts
      (fold_left
         (fun db pubkey =>
            update_account (set_processing_lock (Some workerId)) pubkey db)
         pubkeys db)
    = lock_rows workerId pubkeys (sponsored_accounts db).
Proof.
  unfold lock_rows.
  induction pubkeys as [|k rest IH]; intros db; simpl.
  - symmetry. apply map_id.
  - rewrite IH. simpl. rewrite map_map. apply map_ext. intros a.
    destruct (String.eqb_spec (account_pubkey a) k); simpl.
    + destruct (existsb _ rest); reflexivity.
    + reflexivity.
Qed.

Lemma fetchAndLock_accounts (limit : Z) (workerId : string) (db : Ledger) :
  sponsored_accounts (snd (ReclaimerFetcher.fetchAndLock limit workerId db))
  = lock_rows workerId
      (map ReclaimerFetcher.account_pubkey
         (fst (ReclaimerFetcher.fetchAndLock limit workerId db)))
      (sponsored_accounts db).
Proof.
  unfold ReclaimerFetcher.fetchAndLock.
  destruct (ReclaimerFetcher.select_candidates limit db) as [|c cs] eqn:E.
  - simpl. unfold lock_rows. symmetry. apply map_id.
  - cbn [fst snd]. apply lock_fold.
Qed.

Lemma fetchAndLock_returned (limit : Z) (workerId : string) (db : Ledger) :
  fst (ReclaimerFetcher.fetchAndLock limit workerId db)
  = ReclaimerFetcher.select_candidates limit db.
Proof.
  unfold ReclaimerFetcher.fetchAndLock.
  destruct (ReclaimerFetcher.select_candidates limit db); reflexivity.
Qed.

Lemma existsb_pubkey (k : string) (pubkeys : list string) :
  existsb (fun k' => (k =? k')%string) pubkeys = true <-> In k pubkeys.
Proof.
  rewrite existsb_exists. split.
  - intros (x & Hx & E). apply String.eqb_eq in E. now subst.
  - intros H. exists k. split; [exact H | apply String.eqb_refl].
Qed.

(** With an empty worker id the lock is no lock: the next worker is handed
    the same account. *)
Lemma fetchAndLock_empty_worker_id_shares :
  let first := ReclaimerFetcher.fetchAndLock 100 "" one_reclaimable in
  let second := ReclaimerFetcher.fetchAndLock 100 "worker-2" (snd first) in
  map ReclaimerFetcher.account_pubkey (fst first)
  = ["TestAccount111111111111111111111111111111111"] /\
  map ReclaimerFetcher.account_pubkey (fst second)
  = ["TestAccount111111111111111111111111111111111"].
Proof. vm_compute. split; reflexivity. Qed.

(** C9 (amended).  For every ledger and every non-empty worker id,
    [fetchAndLock] returns only rows that were RECLAIMABLE with a null or
    empty [processing_lock], leaves [processing_lock = workerId] on every
    returned row, in the one ledger transaction the function is, and a
    later [fetchAndLock], whatever its worker id and limit, returns no
    account of the first call. *)
Theorem fetchAndLock_exclusive (limit limit' : Z) (workerId workerId' : string)
  (db : Ledger) (Hid : workerId <> "") :
  let first := ReclaimerFetcher.fetchAndLock limit workerId db in
  let second := ReclaimerFetcher.fetchAndLock limit' workerId' (snd first) in
  (forall r, In r (fst first) ->
     exists a, In a (sponsored_accounts db) /\
               account_pubkey a = ReclaimerFetcher.account_pubkey r /\
               lamports a = ReclaimerFetcher.lamports r /\
               lifecycle_state a = "RECLAIMABLE" /\
               (processing_lock a = None \/ processing_lock a = Some "")) /\
  (forall a, In a (sponsored_accounts (snd first)) ->
     In (account_pubkey a) (map ReclaimerFetcher.account_pubkey (fst first)) ->
     processing_lock a = Some workerId) /\
  (forall k, In k (map ReclaimerFetcher.account_pubkey (fst first)) ->
     ~ In k (map ReclaimerFetcher.account_pubkey (fst second))).
Proof.
  intros first second. repeat split.
  - intros r Hr. subst first. rewrite fetchAndLock_returned in Hr.
    apply select_candidates_In in Hr.
    destruct Hr as (a & Ha & Hc & Hk & Hl).
    exists a. repeat split; try assumption.
    + unfold ReclaimerFetcher.is_candidate in Hc.
      apply andb_true_iff in Hc. now apply String.eqb_eq.
    + unfold ReclaimerFetcher.is_candidate, ReclaimerFetcher.unlocked in Hc.
      apply andb_true_iff in Hc. destruct Hc as [_ Hc].
      destruct (processing_lock a) as [l|]; [right | now left].
      apply String.eqb_eq in Hc. now subst.
  - intros a Ha Hk. subst first. rewrite fetchAndLock_accounts in Ha.
    unfold lock_rows in Ha. apply in_map_iff in Ha.
    destruct Ha as (a0 & <- & _).
    destruct (existsb _ _) eqn:E; [reflexivity|].
    exfalso. simpl in Hk.
    assert (existsb (fun k => (account_pubkey a0 =? k)%string)
              (map ReclaimerFetcher.account_pubkey
                 (fst (ReclaimerFetcher.fetchAndLock limit workerId db))) = true)
      by now apply existsb_pubkey.
    congruence.
  - intros k Hk Hk'. subst second. rewrite fetchAndLock_returned in Hk'.
    apply in_map_iff in Hk'. destruct Hk' as (r & <- & Hr).
    apply select_candidates_In in Hr.
    destruct Hr as (a & Ha & Hc & Hka & _).
    subst first. rewrite fetchAndLock_accounts in Ha.
    unfold lock_rows in Ha. apply in_map_iff in Ha.
    destruct Ha as (a0 & <- & _).
    destruct (existsb _ _) eqn:E.
    + unfold ReclaimerFetcher.is_candidate, ReclaimerFetcher.unlocked in Hc.
      simpl in Hc. apply andb_true_iff in Hc. destruct Hc as [_ Hc].
      apply String.eqb_eq in Hc. contradiction.
    + rewrite <- Hka in Hk. apply existsb_pubkey in Hk. congruence.
Qed.

Lemma fetchAndLock_exclusive_witness :
  "worker-1" <> "" /\
  forall k,
    In k (map ReclaimerFetcher.account_pubkey
            (fst (ReclaimerFetcher.fetchAndLock 100 "worker-1" one_reclaimable))) ->
    ~ In k (map ReclaimerFetcher.account_pubkey
              (fst (ReclaimerFetcher.fetchAndLock 100 "worker-2"
                      (snd (ReclaimerFetcher.fetchAndLock 100 "worker-1"
                              one_reclaimable))))).
Proof.
  assert (H : "worker-1" <> "") by discriminate.
  split; [exact H|].
  exact (proj2 (proj2 (@fetchAndLock_exclusive 100 100 "worker-1" "worker-2"
                         one_reclaimable H))).
Defined.

(** ** The database singleton *)

Lemma getInstance_set (openable : string -> bool) (c : AppDatabase.Connection)
  (dbPath : string) (verbose : bool) (st : AppDatabase.Static) :
  AppDatabase.instance st = Some c ->
  AppDatabase.getInstance openable dbPath verbose st = (st, Some c).
Proof. unfold AppDatabase.getInstance. now intros ->. Qed.

Lemma returned_set (openable : string -> bool) (c : AppDatabase.Connection)
  (calls : list AppDatabase.Call) :
  forall st,
    AppDatabase.instance st = Some c ->
    Forall (fun r => r = Some c) (AppDatabase.returned openable calls st).
Proof.
  induction calls as [|[p v|] rest IH]; intros st Hst; simpl.
  - constructor.
  - rewrite (getInstance_set openable p v st Hst).
    constructor; [reflexivity | now apply IH].
  - apply IH. unfold AppDatabase.close. now rewrite Hst.
Qed.

(** C10.  Once a first [getInstance] has opened a connection, every later
    call returns that connection, opened on the first call's path, whatever
    path it is given and whether or not [close] was called in between. *)
Theorem getInstance_ignores_later_paths (openable : string -> bool)
  (dbPath : string) (verbose : bool) (st : AppDatabase.Static)
  (c : AppDatabase.Connection) (calls : list AppDatabase.Call)
  (Hfirst : AppDatabase.getInstance openable dbPath verbose AppDatabase.initial
            = (st, Some c)) :
  AppDatabase.path c = dbPath /\
  Forall (fun r => r = Some c) (AppDatabase.returned openable calls st).
Proof.
  unfold AppDatabase.getInstance in Hfirst. simpl in Hfirst.
  destruct (openable dbPath); [|discriminate].
  injection Hfirst as <- <-. split; [reflexivity|].
  now apply returned_set.
Qed.

Lemma getInstance_ignores_later_paths_witness :
  AppDatabase.getInstance (fun _ => true) "kora-rent-devnet.db" false
    AppDatabase.initial
  = (devnet_static, Some devnet_connection) /\
  Forall (fun r => r = Some devnet_connection)
    (AppDatabase.returned (fun _ => true)
       [AppDatabase.GetInstance "kora-rent-mainnet.db" false;
        AppDatabase.Close;
        AppDatabase.GetInstance "" true]
       devnet_static).
Proof.
  split; [reflexivity|].
  exact (proj2 (@getInstance_ignores_later_paths (fun _ => true)
                  "kora-rent-devnet.db" false devnet_static devnet_connection
                  [AppDatabase.GetInstance "kora-rent-mainnet.db" false;
                   AppDatabase.Close;
                   AppDatabase.GetInstance "" true]
                  eq_refl)).
Defined.

(** ** Positional notation *)

Section RadixFacts.
Variable B : Z.
Hypothesis HB : 1 < B.

Let in_range (d : Z) : Prop := 0 <= d < B.

Lemma to_digits_acc (fuel : nat) :
  forall n acc,
    Radix.to_digits B fuel n acc = Radix.to_digits B fuel n [] ++ acc.
Proof.
  induction fuel as [|k IH]; intros n acc; simpl; [reflexivity|].
  destruct (n =? 0); [reflexivity|].
  rewrite IH, (IH _ [n mod B]), <- app_assoc. reflexivity.
Qed.

Lemma of_digits_snoc (l : list Z) (d : Z) :
  Radix.of_digits B (l ++ [d]) = Radix.of_digits B l * B + d.
Proof. unfold Radix.of_digits. now rewrite fold_left_app. Qed.

Lemma of_to_digits (fuel : nat) :
  forall n, 0 <= n < B ^ Z.of_nat fuel ->
            Radix.of_digits B (Radix.to_digits B fuel n []) = n.
Proof.
  induction fuel as [|k IH]; intros n Hn.
  - simpl in *. unfold Radix.of_digits. simpl. lia.
  - rewrite Nat2Z.inj_succ, Z.pow_succ_r in Hn by lia.
    simpl. destruct (Z.eqb_spec n 0) as [->|Hne]; [reflexivity|].
    rewrite to_digits_acc, of_digits_snoc, IH.
    + pose proof (Z.div_mod n B). lia.
    + split; [apply Z.div_pos; lia|].
      apply Z.div_lt_upper_bound; lia.
Qed.

Lemma to_digits_range (fuel : nat) :
  forall n acc, Forall in_range acc ->
                Forall in_range (Radix.to_digits B fuel n acc).
Proof.
  induction fuel as [|k IH]; intros n acc Hacc; simpl; [exact Hacc|].
  destruct (n =? 0); [exact Hacc|].
  apply IH. constructor; [|exact Hacc].
  unfold in_range. apply Z.mod_pos_bound. lia.
Qed.

Lemma to_digits_head (fuel : nat) :
  forall n acc, 0 <= n < B ^ Z.of_nat fuel -> n <> 0 ->
                exists d rest, Radix.to_digits B fuel n acc = d :: rest /\ d <> 0.
Proof.
  induction fuel as [|k IH]; intros n acc Hn Hne.
  - simpl in Hn. lia.
  - rewrite Nat2Z.inj_succ, Z.pow_succ_r in Hn by lia.
    simpl. destruct (Z.eqb_spec n 0) as [|_]; [contradiction|].
    destruct (Z.eq_dec (n / B) 0) as [Hq|Hq].
    + exists (n mod B), acc. split.
      * rewrite Hq. destruct k; simpl; reflexivity.
      * pose proof (Z.div_mod n B). lia.
    + apply IH; [|exact Hq].
      split; [apply Z.div_pos; lia|].
      apply Z.div_lt_upper_bound; lia.
Qed.

Lemma to_digits_no_leading_zero (fuel : nat) (n : Z) :
  0 <= n < B ^ Z.of_nat fuel ->
  Radix.leading_zeros (Radix.to_digits B fuel n []) = O.
Proof.
  intros Hn. destruct (Z.eq_dec n 0) as [->|Hne].
  - destruct fuel; reflexivity.
  - destruct (to_digits_head fuel [] Hn Hne) as (d & rest & -> & Hd).
    simpl. destruct (Z.eqb_spec d 0); [contradiction | reflexivity].
Qed.

Lemma of_digits_bound (l : list Z) :
  Forall in_range l -> 0 <= Radix.of_digits B l < B ^ Z.of_nat (List.length l).
Proof.
  induction l as [|d l IH] using rev_ind; intros Hl.
  - unfold Radix.of_digits. simpl. lia.
  - apply Forall_app in Hl. destruct Hl as [Hl Hd].
    inversion Hd as [|? ? Hd' _]; subst. unfold in_range in Hd'.
    specialize (IH Hl).
    rewrite of_digits_snoc, length_app, Nat.add_1_r.
    rewrite Nat2Z.inj_succ, Z.pow_succ_r by lia. nia.
Qed.

Lemma of_digits_positive (d : Z) (l : list Z) :
  Forall in_range (d :: l) -> d <> 0 -> 0 < Radix.of_digits B (d :: l).
Proof.
  induction l as [|x l IH] using rev_ind; intros Hl Hd.
  - inversion Hl as [|? ? Hd' _]; subst. unfold in_range in Hd'.
    unfold Radix.of_digits. simpl. lia.
  - rewrite app_comm_cons in Hl. apply Forall_app in Hl.
    destruct Hl as [Hl Hx]. inversion Hx as [|? ? Hx' _]; subst.
    unfold in_range in Hx'. specialize (IH Hl Hd).
    rewrite app_comm_cons, of_digits_snoc. nia.
Qed.

Lemma to_digits_zero (fuel : nat) (acc : list Z) :
  Radix.to_digits B fuel 0 acc = acc.
Proof. destruct fuel; reflexivity. Qed.

Lemma leading_zeros_snoc (l : list Z) (x : Z) :
  l <> [] -> Radix.leading_zeros (l ++ [x]) = O -> Radix.leading_zeros l = O.
Proof.
  destruct l as [|d l]; [congruence|]. simpl.
  destruct (d =? 0); [discriminate | reflexivity].
Qed.

Lemma to_of_digits (l : list Z) :
  Forall in_range l -> Radix.leading_zeros l = O ->
  forall fuel, (List.length l <= fuel)%nat ->
               Radix.to_digits B fuel (Radix.of_digits B l) [] = l.
Proof.
  induction l as [|x l IH] using rev_ind; intros Hl Hz fuel Hfuel.
  - apply to_digits_zero.
  - apply Forall_app in Hl. destruct Hl as [Hl Hx].
    inversion Hx as [|? ? Hx' _]; subst. unfold in_range in Hx'.
    rewrite length_app, Nat.add_1_r in Hfuel.
    destruct fuel as [|k]; [lia|].
    rewrite of_digits_snoc. simpl.
    assert (Hq : (Radix.of_digits B l * B + x) / B = Radix.of_digits B l).
    { rewrite Z.div_add_l by lia. rewrite Z.div_small by lia. lia. }
    assert (Hr : (Radix.of_digits B l * B + x) mod B = x).
    { rewrite Z.add_comm, Z.mod_add by lia. apply Z.mod_small. lia. }
    assert (Hne : Radix.of_digits B l * B + x <> 0).
    { destruct l as [|d l'].
      - simpl in Hz. unfold Radix.of_digits. simpl.
        destruct (Z.eqb_spec x 0); [discriminate | lia].
      - assert (Hd : d <> 0).
        { simpl in Hz. destruct (Z.eqb_spec d 0); [discriminate | assumption]. }
        pose proof (of_digits_positive Hl Hd). nia. }
    destruct (Z.eqb_spec (Radix.of_digits B l * B + x) 0); [contradiction|].
    rewrite Hq, Hr, to_digits_acc. f_equal.
    destruct l as [|d l'].
    + apply to_digits_zero.
    + apply IH; [exact Hl | | lia].
      apply (@leading_zeros_snoc _ x); [discriminate | exact Hz].
Qed.

Lemma to_digits_fuel (fuel : nat) :
  forall fuel' n acc,
    0 <= n < B ^ Z.of_nat fuel -> n < B ^ Z.of_nat fuel' ->
    Radix.to_digits B fuel n acc = Radix.to_digits B fuel' n acc.
Proof.
  induction fuel as [|k IH]; intros fuel' n acc Hn Hn'.
  - simpl in Hn. assert (n = 0) by lia. subst.
    now rewrite !to_digits_zero.
  - destruct (Z.eq_dec n 0) as [->|Hne]; [now rewrite !to_digits_zero|].
    destruct fuel' as [|k']; [simpl in Hn'; lia|].
    rewrite Nat2Z.inj_succ, Z.pow_succ_r in Hn, Hn' by lia.
    simpl. destruct (Z.eqb_spec n 0); [contradiction|].
    apply IH.
    + split; [apply Z.div_pos; lia|]. apply Z.div_lt_upper_bound; lia.
    + apply Z.div_lt_upper_bound; lia.
Qed.

Lemma of_digits_leading_zeros (z : nat) (l : list Z) :
  Radix.of_digits B (repeat 0 z ++ l) = Radix.of_digits B l.
Proof.
  unfold Radix.of_digits. rewrite fold_left_app. f_equal.
  induction z as [|z IH]; simpl; [reflexivity | exact IH].
Qed.

End RadixFacts.

Lemma leading_zeros_repeat (z : nat) (l : list Z) :
  Radix.leading_zeros l = O ->
  Radix.leading_zeros (repeat 0 z ++ l) = z.
Proof.
  intros Hl. induction z as [|z IH]; simpl; [exact Hl | now rewrite IH].
Qed.

Lemma leading_zeros_split (l : list Z) :
  exists rest,
    l = repeat 0 (Radix.leading_zeros l) ++ rest /\
    Radix.leading_zeros rest = O.
Proof.
  induction l as [|d l (rest & IH & Hz)]; simpl.
  - exists []. split; reflexivity.
  - destruct (Z.eqb_spec d 0) as [->|Hd].
    + exists rest. simpl. split; [now rewrite <- IH | exact Hz].
    + exists (d :: l). simpl. split; [reflexivity|].
      destruct (Z.eqb_spec d 0); [contradiction | reflexivity].
Qed.

(** ** Bytes *)

Lemma byte_of_Z_of_byte (b : byte) : byte_of_Z (Z_of_byte b) = b.
Proof. destruct b; reflexivity. Qed.

Lemma Z_of_byte_range (b : byte) : 0 <= Z_of_byte b < 256.
Proof.
  unfold Z_of_byte. pose proof (Byte.to_N_bounded b) as H. lia.
Qed.

Lemma map_byte_of_Z_of_byte (b : bytes) : map byte_of_Z (map Z_of_byte b) = b.
Proof.
  rewrite map_map. rewrite <- (map_id b) at 2.
  apply map_ext. exact byte_of_Z_of_byte.
Qed.

Lemma bytes_range (b : bytes) :
  Forall (fun d => 0 <= d < 256) (map Z_of_byte b).
Proof.
  apply Forall_forall. intros d Hd. apply in_map_iff in Hd.
  destruct Hd as (x & <- & _). apply Z_of_byte_range.
Qed.

Lemma below_cases (n : nat) (P : Z -> Prop) :
  (forall k, (k < n)%nat -> P (Z.of_nat k)) ->
  forall d, 0 <= d < Z.of_nat n -> P d.
Proof.
  intros H d Hd. rewrite <- (Z2Nat.id d) by lia. apply H. lia.
Qed.

(** ** Base58 round trip *)

Lemma bs58_digit_of_char_of_digit (d : Z) :
  0 <= d < 58 -> bs58.digit_of_char (bs58.char_of_digit d) = Some d.
Proof.
  revert d. apply (@below_cases 58). intros k Hk.
  do 58 (destruct k as [|k]; [reflexivity|]). lia.
Qed.

Lemma bs58_digits_of_chars (ds : list Z) :
  Forall (fun d => 0 <= d < 58) ds ->
  bs58.digits_of_chars (map bs58.char_of_digit ds) = Some ds.
Proof.
  induction 1 as [|d ds Hd _ IH]; [reflexivity|].
  cbn [map bs58.digits_of_chars].
  now rewrite (bs58_digit_of_char_of_digit Hd), IH.
Qed.

Lemma pow_256_le_58 (k : nat) :
  256 ^ Z.of_nat k <= 58 ^ Z.of_nat (2 * k).
Proof.
  rewrite Nat2Z.inj_mul, Z.pow_mul_r by lia.
  change (58 ^ Z.of_nat 2) with 3364.
  apply Z.pow_le_mono_l. lia.
Qed.

(** [bs58.decode] inverts [bs58.encode] on every byte string. *)
Lemma bs58_decode_encode (b : bytes) : bs58.decode (bs58.encode b) = Some b.
Proof.
  unfold bs58.decode, bs58.encode.
  set (zs := map Z_of_byte b).
  assert (Hzs : Forall (fun d => 0 <= d < 256) zs) by apply bytes_range.
  destruct (leading_zeros_split zs) as (rest & Hsplit & Hrest).
  set (z := Radix.leading_zeros zs) in *.
  assert (Hrr : Forall (fun d => 0 <= d < 256) rest).
  { rewrite Hsplit in Hzs. now apply Forall_app in Hzs. }
  set (n := Radix.of_digits 256 zs).
  assert (Hn : n = Radix.of_digits 256 rest).
  { unfold n. rewrite Hsplit. apply of_digits_leading_zeros. }
  assert (Hn256 : 0 <= n < 256 ^ Z.of_nat (List.length rest)).
  { rewrite Hn. apply of_digits_bound; [lia | exact Hrr]. }
  assert (Hlen : (List.length rest <= List.length b)%nat).
  { assert (E : List.length zs = List.length b) by apply length_map.
    rewrite <- E, Hsplit, length_app. lia. }
  assert (Hn58 : 0 <= n < 58 ^ Z.of_nat (2 * List.length b)).
  { split; [lia|].
    eapply Z.lt_le_trans; [apply Hn256|].
    eapply Z.le_trans; [|apply pow_256_le_58].
    apply Z.pow_le_mono_r; lia. }
  set (T := Radix.to_digits 58 (2 * List.length b) n []).
  assert (HT : Forall (fun d => 0 <= d < 58) T).
  { apply to_digits_range; [lia | constructor]. }
  assert (HD : Forall (fun d => 0 <= d < 58) (repeat 0 z ++ T)).
  { apply Forall_app. split; [|exact HT].
    apply Forall_forall. intros d Hd. apply repeat_spec in Hd. lia. }
  rewrite list_ascii_of_string_of_list_ascii, (bs58_digits_of_chars HD).
  f_equal.
  rewrite leading_zeros_repeat
    by (apply to_digits_no_leading_zero; [lia | exact Hn58]).
  rewrite of_digits_leading_zeros.
  assert (ET : Radix.of_digits 58 T = n).
  { unfold T. apply of_to_digits; [lia | exact Hn58]. }
  rewrite ET.
  assert (HnD : n < 256 ^ Z.of_nat (List.length (repeat 0 z ++ T))).
  { assert (H58 : 0 <= Radix.of_digits 58 T < 58 ^ Z.of_nat (List.length T)).
    { apply of_digits_bound; [lia | exact HT]. }
    rewrite ET in H58.
    eapply Z.lt_le_trans; [apply H58|].
    eapply Z.le_trans; [apply Z.pow_le_mono_l with (b := 256); lia|].
    apply Z.pow_le_mono_r; [lia|]. rewrite length_app. lia. }
  rewrite (@to_digits_fuel 256 ltac:(lia) _ (List.length rest) n [])
    by (lia || (split; [lia | exact HnD])).
  rewrite Hn, to_of_digits by (lia || assumption).
  rewrite <- Hsplit. apply map_byte_of_Z_of_byte.
Qed.

(** ** Base64 round trip *)

Lemma base64_sextet_of_char_of_sextet (d : Z) :
  0 <= d < 64 ->
  base64.sextets (base64.char_of_sextet d :: []) = [d] .
Proof.
  revert d. apply (@below_cases 64). intros k Hk.
  do 64 (destruct k as [|k]; [reflexivity|]). lia.
Qed.

Lemma base64_sextets_cons (d : Z) (rest : list ascii) :
  0 <= d < 64 ->
  base64.sextets (base64.char_of_sextet d :: rest) = d :: base64.sextets rest.
Proof.
  intros Hd. pose proof (base64_sextet_of_char_of_sextet Hd) as H.
  cbn [base64.sextets] in *.
  destruct (Ascii.eqb (base64.char_of_sextet d) "="); [discriminate|].
  destruct (base64.sextet_of_char (base64.char_of_sextet d)); [|discriminate].
  now injection H as ->.
Qed.

Section Triples.
Variable P : list Z -> Prop.
Hypothesis P0 : P [].
Hypothesis P1 : forall a, P [a].
Hypothesis P2 : forall a b, P [a; b].
Hypothesis P3 : forall a b c rest, P rest -> P (a :: b :: c :: rest).

Fixpoint list_ind_by_three (l : list Z) : P l :=
  match l with
  | [] => P0
  | [a] => P1 a
  | [a; b] => P2 a b
  | a :: b :: c :: rest => P3 a b c (list_ind_by_three rest)
  end.
End Triples.

Ltac sextet_range :=
  match goal with
  | |- 0 <= _ < 64 => Z.div_mod_to_equations; lia
  end.

Lemma base64_groups (l : list Z) :
  Forall (fun d => 0 <= d < 256) l ->
  base64.decode_groups (base64.sextets (base64.encode_groups l)) = l.
Proof.
  induction l as [|a|a b|a b c rest IH] using list_ind_by_three; intros Hl.
  - reflexivity.
  - inversion Hl as [|? ? Ha _]; subst.
    cbn [base64.encode_groups].
    rewrite !base64_sextets_cons by sextet_range.
    cbn [base64.sextets Ascii.eqb Bool.eqb base64.decode_groups].
    f_equal. Z.div_mod_to_equations. lia.
  - inversion Hl as [|? ? Ha Hl']; subst.
    inversion Hl' as [|? ? Hb _]; subst.
    cbn [base64.encode_groups].
    rewrite !base64_sextets_cons by sextet_range.
    cbn [base64.sextets Ascii.eqb Bool.eqb base64.decode_groups].
    f_equal; [|f_equal]; Z.div_mod_to_equations; lia.
  - inversion Hl as [|? ? Ha Hl']; subst.
    inversion Hl' as [|? ? Hb Hl'']; subst.
    inversion Hl'' as [|? ? Hc Hrest]; subst.
    cbn [base64.encode_groups].
    rewrite !base64_sextets_cons by sextet_range.
    cbn [base64.decode_groups]. rewrite (IH Hrest).
    f_equal; [|f_equal; [|f_equal]]; Z.div_mod_to_equations; lia.
Qed.

(** [Buffer.from(text, 'base64')] inverts [toString('base64')]. *)
Lemma base64_decode_encode (b : bytes) : base64.decode (base64.encode b) = b.
Proof.
  unfold base64.decode, base64.encode.
  rewrite list_ascii_of_string_of_list_ascii, base64_groups by apply bytes_range.
  apply map_byte_of_Z_of_byte.
Qed.

(** ** Just-in-time verification *)

Lemma check_outcome (acc : ReclaimerFetcher.ReclaimableAccount)
  (info : option ReclaimerVerifier.AccountInfo)
  (r : ReclaimerVerifier.VerificationResult) :
  ReclaimerVerifier.valid (ReclaimerVerifier.check acc info r)
  = ReclaimerVerifier.valid r ++ verified_of (acc, info) /\
  map (fun x => (ReclaimerVerifier.pubkey x, ReclaimerVerifier.status x))
    (ReclaimerVerifier.invalid (ReclaimerVerifier.check acc info r))
  = map (fun x => (ReclaimerVerifier.pubkey x, ReclaimerVerifier.status x))
      (ReclaimerVerifier.invalid r) ++ outcome_of (acc, info).
Proof.
  unfold ReclaimerVerifier.check, verified_of, outcome_of, jit_rules.
  cbn [fst snd].
  destruct info as [i|]; cbn [ReclaimerVerifier.push_invalid
                                ReclaimerVerifier.valid ReclaimerVerifier.invalid].
  - destruct (ReclaimerVerifier.info_lamports i =? 0);
      [|destruct (negb _); [|destruct (ReclaimerVerifier.info_data_length i >? 0)]];
      cbn [ReclaimerVerifier.push_invalid ReclaimerVerifier.push_valid
             ReclaimerVerifier.valid ReclaimerVerifier.invalid
             ReclaimerVerifier.pubkey ReclaimerVerifier.status];
      rewrite ?map_app, ?app_nil_r; split; reflexivity.
  - rewrite map_app, app_nil_r. split; reflexivity.
Qed.

Lemma loop_outcome (accounts : list ReclaimerFetcher.ReclaimableAccount)
  (accountInfos : list (option ReclaimerVerifier.AccountInfo)) :
  forall i r,
    ReclaimerVerifier.valid (ReclaimerVerifier.loop accounts i accountInfos r)
    = ReclaimerVerifier.valid r
      ++ flat_map verified_of (paired accounts i accountInfos) /\
    map (fun x => (ReclaimerVerifier.pubkey x, ReclaimerVerifier.status x))
      (ReclaimerVerifier.invalid
         (ReclaimerVerifier.loop accounts i accountInfos r))
    = map (fun x => (ReclaimerVerifier.pubkey x, ReclaimerVerifier.status x))
        (ReclaimerVerifier.invalid r)
      ++ flat_map outcome_of (paired accounts i accountInfos).
Proof.
  induction accounts as [|acc rest IH]; intros i r.
  - simpl. now rewrite !app_nil_r.
  - cbn [ReclaimerVerifier.loop paired flat_map].
    destruct (IH (S i)
                (ReclaimerVerifier.check acc
                   (ReclaimerVerifier.info_at accountInfos i) r)) as [Hv Hi].
    destruct (check_outcome acc (ReclaimerVerifier.info_at accountInfos i) r)
      as [Hcv Hci].
    rewrite Hv, Hi, Hcv, Hci, <- !app_assoc. split; reflexivity.
Qed.

Lemma info_at_skipn (accountInfos : list (option ReclaimerVerifier.AccountInfo))
  (i : nat) :
  ReclaimerVerifier.info_at accountInfos i
  = hd None (skipn i accountInfos ++ [None]).
Proof.
  unfold ReclaimerVerifier.info_at.
  revert accountInfos. induction i as [|i IH]; intros [|x l]; try reflexivity.
  - cbn [nth_error skipn]. rewrite IH. reflexivity.
Qed.

(** Padding beyond the length of the batch does not show. *)
Lemma combine_padded (A B : Type) (none : B) (l : list A) :
  forall (l' : list B) (n m : nat),
    (List.length l <= n)%nat -> (List.length l <= m)%nat ->
    combine l (l' ++ repeat none n) = combine l (l' ++ repeat none m).
Proof.
  induction l as [|a l IH]; intros l' n m Hn Hm; [reflexivity|].
  cbn [List.length] in Hn, Hm. destruct l' as [|y l'].
  - destruct n as [|n]; [lia|]. destruct m as [|m]; [lia|].
    cbn [app repeat combine]. f_equal.
    apply (IH [] n m); lia.
  - cbn [app combine]. f_equal. apply IH; lia.
Qed.

(** The loop pairs the accounts with the answer position by position. *)
Lemma paired_combine (accounts : list ReclaimerFetcher.ReclaimableAccount)
  (accountInfos : list (option ReclaimerVerifier.AccountInfo)) :
  forall i,
    paired accounts i accountInfos
    = combine accounts
        (skipn i accountInfos ++ repeat None (List.length accounts)).
Proof.
  induction accounts as [|acc rest IH]; intros i; [reflexivity|].
  cbn [paired List.length]. rewrite IH, info_at_skipn.
  destruct (skipn i accountInfos) as [|x l] eqn:E.
  - assert (E' : skipn (S i) accountInfos = []).
    { apply skipn_all2. apply (f_equal (@List.length _)) in E.
      rewrite length_skipn in E. cbn [List.length] in E. lia. }
    rewrite E'. reflexivity.
  - assert (E' : skipn (S i) accountInfos = l).
    { replace (S i) with (1 + i)%nat by reflexivity.
      rewrite <- skipn_skipn, E. reflexivity. }
    rewrite E'. cbn [app hd combine]. f_equal.
    apply combine_padded; lia.
Qed.

(** C6.  For every batch whose addresses are public keys and every answer
    of the chain, [verify] returns, and judges each account by the entry of
    the answer at the account's own position (an account past the end of
    the answer counts as absent), under the first JIT rule that applies:
    absent, then zero lamports (closed_zero); foreign owner, then data
    (SKIPPED); otherwise verified.  The verified accounts, in batch order,
    carry the on-chain lamports as [verifiedLamports]. *)
Theorem verify_applies_jit_rules
  (accounts : list ReclaimerFetcher.ReclaimableAccount)
  (accountInfos : list (option ReclaimerVerifier.AccountInfo))
  (Hkeys : Forall (fun a => valid_pubkey (ReclaimerFetcher.account_pubkey a) = true)
             accounts) :
  exists r,
    ReclaimerVerifier.verify accounts accountInfos = Some r /\
    ReclaimerVerifier.valid r
    = flat_map verified_of (answered accounts accountInfos) /\
    map (fun x => (ReclaimerVerifier.pubkey x, ReclaimerVerifier.status x))
      (ReclaimerVerifier.invalid r)
    = flat_map outcome_of (answered accounts accountInfos).
Proof.
  unfold ReclaimerVerifier.verify, answered.
  destruct accounts as [|acc rest].
  - eexists. split; [reflexivity|]. split; reflexivity.
  - rewrite Forall_forall in Hkeys.
    assert (E : forallb
                  (fun a => valid_pubkey (ReclaimerFetcher.account_pubkey a))
                  (acc :: rest) = true).
    { apply forallb_forall. exact Hkeys. }
    rewrite E. eexists. split; [reflexivity|].
    destruct (loop_outcome (acc :: rest) accountInfos 0
                {| ReclaimerVerifier.valid := [];
                   ReclaimerVerifier.invalid := [] |}) as [Hv Hi].
    rewrite paired_combine in Hv, Hi. cbn [skipn] in Hv, Hi.
    split; [exact Hv | exact Hi].
Qed.

Lemma verify_applies_jit_rules_witness :
  Forall (fun a => valid_pubkey (ReclaimerFetcher.account_pubkey a) = true)
    jit_batch /\
  exists r,
    ReclaimerVerifier.verify jit_batch jit_answers = Some r /\
    ReclaimerVerifier.valid r
    = flat_map verified_of (answered jit_batch jit_answers) /\
    map (fun x => (ReclaimerVerifier.pubkey x, ReclaimerVerifier.status x))
      (ReclaimerVerifier.invalid r)
    = flat_map outcome_of (answered jit_batch jit_answers).
Proof.
  assert (H : Forall
                (fun a => valid_pubkey (ReclaimerFetcher.account_pubkey a) = true)
                jit_batch).
  { repeat (constructor; [vm_compute; reflexivity|]). constructor. }
  split; [exact H|].
  exact (verify_applies_jit_rules jit_answers H).
Defined.

Example verify_jit_batch :
  option_map
    (fun r =>
       (map (fun v => (ReclaimerVerifier.account_pubkey v,
                       ReclaimerVerifier.lamports v,
                       ReclaimerVerifier.verifiedLamports v))
          (ReclaimerVerifier.valid r),
        map (fun x => (ReclaimerVerifier.pubkey x, ReclaimerVerifier.status x))
          (ReclaimerVerifier.invalid r)))
    (ReclaimerVerifier.verify jit_batch jit_answers)
  = Some
      ([("Stake11111111111111111111111111111111111111", Some 2000000, 1500000)],
       [("So11111111111111111111111111111111111111112", "closed_zero");
        ("TokenkegQfeZyiNwAJbNbGKPFXCWuBvf9Ss623VQ5DA", "closed_zero");
        ("SysvarRent111111111111111111111111111111111", "SKIPPED");
        ("Vote111111111111111111111111111111111111111", "SKIPPED")]).
Proof. vm_compute. reflexivity. Qed.

(** ** The result digest of the attestation service *)

Lemma scan_row_effect (db : Ledger) (b : ResultBuilder.t) (row : SponsoredAccount) :
  AttestationService.scan_row db b row =
  match amount_of (AttestationService.first_event db (account_pubkey row)
                     "RECLAIMED") with
  | None => None
  | Some z =>
      Some
        {| ResultBuilder.builder_accounts :=
             set_prop (ResultBuilder.builder_accounts b) (account_pubkey row)
               (JStr (lifecycle_state row));
           ResultBuilder.totalLamports := ResultBuilder.totalLamports b + z;
           ResultBuilder.signatures :=
             ResultBuilder.signatures b
             ++ signature_of (AttestationService.first_event db
                                (account_pubkey row) "RECLAIMED");
           ResultBuilder.builder_failures :=
             ResultBuilder.builder_failures
               (if (lifecycle_state row =? "FAILED")%string
                then ResultBuilder.addFailure (account_pubkey row)
                       match AttestationService.first_event db
                               (account_pubkey row) "FAILED" with
                       | Some failEvent =>
                           if negb (trigger_reason failEvent =? "")%string
                           then trigger_reason failEvent else "Unknown error"
                       | None => "Unknown error"
                       end b
                else b) |}
  end.
Proof.
  unfold AttestationService.scan_row, amount_of, signature_of, evidence.
  destruct (AttestationService.first_event db (account_pubkey row) "RECLAIMED")
    as [event|];
    [destruct (evidence_payload event) as [text|];
     [destruct (String.eqb_spec text "") as [->|Hne]|]|].
  2: {
    cbn [negb]. unfold AttestationService.read_payload.
    destruct (JSON.parse text) as [[| | | | |items|o]|];
      cbn [AttestationService.field];
      try (cbn [BigInt ResultBuilder.addResult]; rewrite Z.add_0_r, app_nil_r;
           destruct (lifecycle_state row =? "FAILED")%string; reflexivity).
    destruct (get_prop "amount" o) as [amount|];
      [destruct (truthy amount)|];
      (destruct (get_prop "signature" o) as [sig|];
       [destruct (truthy sig)|]);
      unfold ResultBuilder.addResult;
      cbn [BigInt ResultBuilder.addSignature ResultBuilder.signatures
             ResultBuilder.totalLamports ResultBuilder.builder_accounts
             ResultBuilder.builder_failures];
      try (destruct (BigInt amount) as [z|]; [|reflexivity]);
      rewrite ?Z.add_0_r, ?app_nil_r;
      destruct (lifecycle_state row =? "FAILED")%string; reflexivity. }
  all: change (JSON.parse "") with (@None JSValue);
    cbn [negb BigInt ResultBuilder.addResult]; rewrite Z.add_0_r, app_nil_r;
    destruct (lifecycle_state row =? "FAILED")%string; reflexivity.
Qed.

Lemma lowest_id_none (events : list LifecycleEvent) :
  lowest_id events = None -> events = [].
Proof.
  destruct events as [|h rest]; [reflexivity|]. cbn [lowest_id].
  destruct (lowest_id rest); [destruct (_ <=? _)|]; discriminate.
Qed.

(** The event of the lowest id is one of the events, and none has a lower
    id. *)
Lemma lowest_id_spec (events : list LifecycleEvent) (e : LifecycleEvent) :
  lowest_id events = Some e ->
  In e events /\ forall x, In x events -> event_id e <= event_id x.
Proof.
  revert e. induction events as [|h rest IH]; intros e; [discriminate|].
  cbn [lowest_id]. destruct (lowest_id rest) as [e'|] eqn:El.
  - destruct (IH e' eq_refl) as [Hin Hmin].
    destruct (event_id h <=? event_id e') eqn:Hle; intros E;
      injection E as <-.
    + apply Z.leb_le in Hle. split; [now left|].
      intros x [<-|Hx]; [lia|]. specialize (Hmin x Hx). lia.
    + apply Z.leb_gt in Hle. split; [now right|].
      intros x [<-|Hx]; [lia | now apply Hmin].
  - intros E. injection E as <-. apply lowest_id_none in El. subst rest.
    split; [now left|]. intros x [<-|[]]. lia.
Qed.

(** In a sorted list, the first element that passes a test comes before
    the others that pass it. *)
Lemma find_sorted (A : Type) (R : A -> A -> Prop) (f : A -> bool) (l : list A)
  (e : A) :
  StronglySorted R l -> find f l = Some e ->
  forall x, In x l -> f x = true -> x = e \/ R e x.
Proof.
  induction 1 as [|h rest S IH Hh]; [discriminate|].
  cbn [find]. destruct (f h) eqn:Fh.
  - intros E x [<-|Hx] _; injection E as <-; [now left|].
    right. rewrite Forall_forall in Hh. now apply Hh.
  - intros E x [<-|Hx] Fx; [congruence|]. now apply IH.
Qed.

Lemma NoDup_map_inj (A B : Type) (f : A -> B) (l : list A) (a b : A) :
  NoDup (map f l) -> In a l -> In b l -> f a = f b -> a = b.
Proof.
  induction l as [|x rest IH]; simpl; [tauto|].
  intros Hnd Ha Hb E. inversion Hnd as [|? ? Hnin Hnd']; subst.
  destruct Ha as [->|Ha], Hb as [->|Hb].
  - reflexivity.
  - exfalso. apply Hnin. rewrite E. now apply in_map.
  - exfalso. apply Hnin. rewrite <- E. now apply in_map.
  - now apply IH.
Qed.

(** The row the query without ORDER BY returns is the RECLAIMED event of
    the account with the lowest id. *)
Lemma first_event_lowest (db : Ledger) (pubkey : string) :
  NoDup (map event_id (lifecycle_events db)) ->
  AttestationService.first_event db pubkey "RECLAIMED"
  = lowest_id (reclaimed_events db pubkey).
Proof.
  intros Hids. unfold AttestationService.first_event, reclaimed_events.
  set (f := fun e : LifecycleEvent =>
              (event_account e =? pubkey)%string
              && (new_state e =? "RECLAIMED")%string).
  destruct (find f (events_by_id db)) as [e|] eqn:Ef;
    destruct (lowest_id (filter f (lifecycle_events db))) as [e'|] eqn:El.
  - f_equal.
    pose proof (find_some _ _ Ef) as [Hin Hf].
    unfold events_by_id in Hin. apply In_sort_by in Hin.
    destruct (lowest_id_spec _ El) as [Hin' Hmin].
    apply filter_In in Hin'. destruct Hin' as [Hin' Hf'].
    assert (Hle : event_id e' <= event_id e).
    { apply Hmin. apply filter_In. now split. }
    destruct (@find_sorted _ _ f _ e
                (@sort_by_sorted _ id_leb id_leb_total id_leb_trans
                   (lifecycle_events db)) Ef e') as [E|Hge].
    + apply In_sort_by. exact Hin'.
    + exact Hf'.
    + now symmetry.
    + unfold id_leb in Hge. apply Z.leb_le in Hge.
      apply (@NoDup_map_inj _ _ event_id (lifecycle_events db)); auto. lia.
  - exfalso. apply lowest_id_none in El.
    pose proof (find_some _ _ Ef) as [Hin Hf].
    unfold events_by_id in Hin. apply In_sort_by in Hin.
    assert (H : In e (filter f (lifecycle_events db)))
      by (apply filter_In; now split).
    now rewrite El in H.
  - exfalso. destruct (lowest_id_spec _ El) as [Hin' _].
    apply filter_In in Hin'. destruct Hin' as [Hin' Hf'].
    assert (H : In e' (events_by_id db))
      by (unfold events_by_id; now apply In_sort_by).
    pose proof (find_none _ _ Ef e' H) as Hn. congruence.
  - reflexivity.
Qed.


(** An amount that is no integer stops the scan: [BigInt] throws. *)
Lemma scan_throws (db : Ledger) (rows : list SponsoredAccount) :
  NoDup (map event_id (lifecycle_events db)) ->
  Exists (fun a => reclaimed_amount db a = None) rows ->
  forall b, AttestationService.scan db rows b = None.
Proof.
  intros Hids. induction 1 as [row rest Hrow|row rest _ IH]; intros b;
    cbn [AttestationService.scan];
    rewrite scan_row_effect, (@first_event_lowest db (account_pubkey row) Hids);
    fold (reclaimed_amount db row).
  - now rewrite Hrow.
  - destruct (reclaimed_amount db row); [apply IH | reflexivity].
Qed.

Lemma text_leb_total (a b : JSValue) :
  ResultBuilder.text_leb a b = false -> ResultBuilder.text_leb b a = true.
Proof. apply leb_false_leb. Qed.

Lemma text_leb_trans (a b c : JSValue) :
  ResultBuilder.text_leb a b = true -> ResultBuilder.text_leb b c = true ->
  ResultBuilder.text_leb a c = true.
Proof. apply leb_trans. Qed.


(** The lookup of the event is not guarded by the state of the account:
    an account that is ACTIVE again still adds what its RECLAIMED event
    recorded. *)
Example generate_counts_account_in_another_state :
  option_map
    (fun doc => (accounts (result_digest doc),
                 total_lamports_reclaimed (result_digest doc),
                 transaction_signatures (result_digest doc)))
    (AttestationService.generate stand_in reactivated_ledger "devnet"
       seeded_config None "unknown")
  = Some ([("TestAccount111111111111111111111111111111111", JStr "ACTIVE")],
          "5", [JStr "tx_old"]).
Proof. vm_compute. reflexivity. Qed.

(** An amount with a fraction is read as such, and [BigInt] throws on it;
    an amount above 2^53 is read as the nearest double. *)
Example generate_on_amounts_that_are_no_safe_integers :
  fraction_evidence = ("{" ++ quote "amount" ++ ":1.5}")%string /\
  AttestationService.generate stand_in (ledger_with_evidence fraction_evidence)
    "devnet" seeded_config None "unknown" = None /\
  option_map (fun doc => total_lamports_reclaimed (result_digest doc))
    (AttestationService.generate stand_in (ledger_with_evidence unsafe_evidence)
       "devnet" seeded_config None "unknown")
  = Some "9007199254740992".
Proof. vm_compute. repeat split. Qed.

(** When the amount of some account is no integer, [generate] throws. *)
Lemma generate_throws_on_amount (P : Platform) (db : Ledger) (network : string)
  (config : JSValue) (operatorKeypair : option Keypair) (rpcEndpoint : string) :
  NoDup (map event_id (lifecycle_events db)) ->
  Exists (fun a => reclaimed_amount db a = None) (sponsored_accounts db) ->
  AttestationService.generate P db network config operatorKeypair rpcEndpoint
  = None.
Proof.
  intros Hids Hbad. unfold AttestationService.generate.
  now rewrite (@scan_throws db _ Hids Hbad).
Qed.


(** ** The stand-in platform meets the laws *)

Lemma sha256_length (m : bytes) : List.length (sha256 m) = 32%nat.
Proof.
  unfold sha256, SHA256.digest, SHA256.output.
  rewrite length_map.
  generalize (SHA256.absorb
                (List.length (SHA256.pad (map Z_of_byte m))) SHA256.initial
                (SHA256.pad (map Z_of_byte m))).
  intros st. reflexivity.
Qed.

Lemma bytes_eqb_refl (b : bytes) : bytes_eqb b b = true.
Proof.
  induction b as [|x b IH]; [reflexivity|]. simpl.
  now rewrite (Byte.byte_dec_lb (eq_refl x)), IH.
Qed.

Lemma stand_in_ed25519 : Ed25519Laws stand_in.
Proof.
  constructor; cbn [stand_in nacl_sign_detached nacl_sign_detached_verify
                      keypair_publicKey].
  - intros m sk. unfold stand_in_sign, stand_in_publicKey.
    now rewrite length_app, !sha256_length.
  - intros sk. apply sha256_length.
  - intros m sk. apply bytes_eqb_refl.
Qed.



(** ** The seeded ledger of the first scenario *)

Example unsigned_attestation_of_seeded_ledger :
  option_map
    (fun doc =>
       (total_lamports_reclaimed (result_digest doc),
        transaction_signatures (result_digest doc),
        failures (result_digest doc),
        signature doc,
        Attestor.verify stand_in doc))
    (AttestationService.generate stand_in seeded_ledger "devnet" seeded_config
       None "unknown")
  = Some ("2000000", [JStr "tx_B"],
          [{| failure_pubkey := "C"; failure_reason := "simulation failed" |}],
          None, true).
Proof. vm_compute. reflexivity. Qed.


(** ** Attestation round trip *)

Lemma check_signature_of_signer (P : Platform) (HP : Ed25519Laws P)
  (hash : bytes) (kp : Keypair) :
  Attestor.check_signature P hash
    (base64.encode (nacl_sign_detached P hash (secretKey kp)))
    (bs58.encode (keypair_publicKey P (secretKey kp))) = true.
Proof.
  unfold Attestor.check_signature.
  rewrite bs58_decode_encode, base64_decode_encode.
  rewrite (signature_size HP), (publicKey_size HP). cbn [Nat.eqb negb].
  apply (verify_signed HP).
Qed.

(** Signed by a keypair that the manifest does not name, a generated
    document fails verification. *)
Lemma verify_rejects_foreign_operator :
  Attestor.verify stand_in
    (Attestor.generate stand_in foreign_manifest seeded_digest
       (Some operator_keypair))
  = false.
Proof. vm_compute. reflexivity. Qed.

Lemma base64_encode_nonempty (b : bytes) :
  b <> [] -> Attestor.nonempty (Some (base64.encode b)) = true.
Proof.
  destruct b as [|x [|y [|z rest]]]; [congruence| | |]; intros _; reflexivity.
Qed.

(** The rejection owes nothing to the stand-in: under any Ed25519, a signed
    document whose manifest names the operator in text that is not Base58
    fails, because [bs58.decode] throws. *)
Lemma foreign_operator_fails_on_any_platform (P : Platform)
  (m : ExecutionManifest) (resultDigest : ExecutionResultDigest) (kp : Keypair) :
  Ed25519Laws P ->
  manifest_operator_pubkey m = Some "0OIl" ->
  Attestor.verify P (Attestor.generate P m resultDigest (Some kp)) = false.
Proof.
  intros HP Hop.
  unfold Attestor.verify, Attestor.generate.
  cbn [manifest doc_db_state_hash result_digest attestation_hash signature].
  rewrite !String.eqb_refl. cbn [negb andb]. rewrite andb_false_r, Hop.
  rewrite base64_encode_nonempty.
  - reflexivity.
  - intros E. pose proof (signature_size HP
      (Attestor.hash_bytes (stringifyManifest m) (db_state_hash m)
         (stringifyResult resultDigest)) (secretKey kp)) as Hlen.
    rewrite E in Hlen. discriminate.
Qed.

(** C7 (amended).  For every manifest, result digest and optional keypair
    such that, when there is a keypair, the manifest names no operator or
    the Base58 address of that keypair, [verify (generate ...)] is true. *)
Theorem verify_generate (P : Platform) (m : ExecutionManifest)
  (resultDigest : ExecutionResultDigest) (operatorKeypair : option Keypair)
  (HP : Ed25519Laws P)
  (Hsigner : signer_matches P m operatorKeypair) :
  Attestor.verify P (Attestor.generate P m resultDigest operatorKeypair) = true.
Proof.
  unfold Attestor.verify, Attestor.generate.
  cbn [manifest doc_db_state_hash result_digest attestation_hash signature].
  rewrite !String.eqb_refl. cbn [negb andb].
  rewrite andb_false_r.
  destruct operatorKeypair as [kp|]; [|reflexivity].
  destruct (manifest_operator_pubkey m) as [op|] eqn:Eop;
    [|now rewrite andb_false_r].
  destruct (Hsigner kp op eq_refl Eop) as [->| ->].
  - now rewrite andb_false_r.
  - destruct (Attestor.nonempty _ && Attestor.nonempty _); [|reflexivity].
    now apply check_signature_of_signer.
Qed.

Lemma Some_inj (A : Type) (a b : A) : Some a = Some b -> a = b.
Proof. now intros [= ->]. Qed.

Lemma verify_generate_witness :
  signer_matches stand_in signed_manifest (Some operator_keypair) /\
  Attestor.verify stand_in
    (Attestor.generate stand_in signed_manifest seeded_digest
       (Some operator_keypair))
  = true.
Proof.
  assert (H : signer_matches stand_in signed_manifest (Some operator_keypair)).
  { intros kp op Hkp Hop. right.
    apply Some_inj in Hkp. subst kp.
    apply Some_inj. symmetry. exact Hop. }
  split; [exact H|].
  exact (@verify_generate stand_in signed_manifest seeded_digest
           (Some operator_keypair) stand_in_ed25519 H).
Defined.

Example signed_attestation_verifies :
  Attestor.verify stand_in
    (Attestor.generate stand_in signed_manifest seeded_digest
       (Some operator_keypair))
  = true /\
  Attestor.nonempty
    (signature (Attestor.generate stand_in signed_manifest seeded_digest
                  (Some operator_keypair)))
  = true.
Proof. vm_compute. split; reflexivity. Qed.

(** ** Strictly ascending lists *)

Section StrictOrder.
Variable A : Type.
Variable lt : A -> A -> Prop.
Hypothesis lt_irrefl : forall a, ~ lt a a.
Hypothesis lt_trans : forall a b c, lt a b -> lt b c -> lt a c.

Lemma strictly_sorted_unique (l1 l2 : list A) :
  StronglySorted lt l1 -> StronglySorted lt l2 ->
  (forall k, In k l1 <-> In k l2) -> l1 = l2.
Proof.
  intros S1. revert l2.
  induction S1 as [|a l1 S1 IH Ha]; intros l2 S2 Hin.
  - destruct l2 as [|b l2]; [reflexivity|].
    exfalso. apply (Hin b). now left.
  - destruct S2 as [|b l2 S2 Hb].
    + exfalso. apply (Hin a). now left.
    + rewrite Forall_forall in Ha, Hb.
      assert (Hab : a = b).
      { destruct (proj1 (Hin a) (or_introl eq_refl)) as [E|Hia]; [now symmetry|].
        destruct (proj2 (Hin b) (or_introl eq_refl)) as [E|Hib]; [exact E|].
        exfalso. apply (lt_irrefl (a := a)).
        eapply lt_trans; [apply Ha, Hib | apply Hb, Hia]. }
      subst b. f_equal. apply IH; [exact S2|].
      intros k. split; intros Hk.
      * destruct (proj1 (Hin k) (or_intror Hk)) as [E|H]; [|exact H].
        subst k. exfalso. apply (lt_irrefl (a := a)). now apply Ha.
      * destruct (proj2 (Hin k) (or_intror Hk)) as [E|H]; [|exact H].
        subst k. exfalso. apply (lt_irrefl (a := a)). now apply Hb.
Qed.
End StrictOrder.

(** A sorted list without repetition is strictly ascending. *)
Lemma sorted_NoDup_strict (l : list string) :
  StronglySorted leb_rel l -> NoDup l ->
  StronglySorted (fun a b => String.ltb a b = true) l.
Proof.
  induction 1 as [|a l S IH Ha]; intros Hnd; constructor.
  - apply IH. now inversion Hnd.
  - inversion Hnd as [|? ? Hnin _]; subst.
    rewrite Forall_forall in *. intros b Hb.
    destruct (proj1 (leb_cases a b) (Ha b Hb)) as [->|H]; [contradiction | exact H].
Qed.

(** ** The manifest builder *)

Lemma unique_spec (l : list string) :
  forall seen,
    NoDup (ManifestBuilder.unique seen l) /\
    forall k, In k (ManifestBuilder.unique seen l) <-> (In k l /\ ~ In k seen).
Proof.
  induction l as [|x rest IH]; intros seen; simpl.
  - split; [constructor | tauto].
  - destruct (existsb (fun y => (y =? x)%string) seen) eqn:E.
    + destruct (IH seen) as [Hnd Hin]. split; [exact Hnd|].
      intros k. rewrite Hin.
      apply existsb_exists in E. destruct E as (y & Hy & Hyx).
      apply String.eqb_eq in Hyx. subst y.
      split; [tauto|]. intros [[->|H] Hn]; [contradiction | tauto].
    + destruct (IH (x :: seen)) as [Hnd Hin]. split.
      * constructor; [|exact Hnd]. rewrite Hin. simpl. tauto.
      * intros k. simpl. rewrite Hin. simpl.
        assert (Hx : ~ In x seen).
        { intros Hx. apply not_true_iff_false in E. apply E.
          apply existsb_exists. exists x. split; [exact Hx | apply String.eqb_refl]. }
        destruct (string_dec x k) as [->|Hne]; [tauto|]. tauto.
Qed.

(** X1.  [ManifestBuilder.build] lists the candidates in strictly ascending
    order, each once, whatever the order and the repetitions in which they
    were added; so two builders given the same set of candidates build the
    same manifest. *)
Theorem build_candidates_sorted_and_unique (P : Platform) (network : string)
  (config : JSValue) (operatorPubkey : option string)
  (rpcEndpoint dbStateHash : string) (added added' : list string)
  (Hconfig : config <> JNull)
  (Hsame : forall k, In k added <-> In k added') :
  exists m,
    ManifestBuilder.build P network config operatorPubkey rpcEndpoint
      dbStateHash added = Some m /\
    StronglySorted (fun a b => String.ltb a b = true) (candidates m) /\
    (forall k, In k (candidates m) <-> In k added) /\
    ManifestBuilder.build P network config operatorPubkey rpcEndpoint
      dbStateHash added' = Some m.
Proof.
  assert (Hsorted : forall l,
             StronglySorted (fun a b => String.ltb a b = true)
               (sort_strings (ManifestBuilder.unique [] l))).
  { intros l. apply sorted_NoDup_strict; [apply sort_strings_sorted|].
    eapply Permutation_NoDup; [apply sort_by_perm|].
    apply (unique_spec l []). }
  assert (Hmem : forall l k,
             In k (sort_strings (ManifestBuilder.unique [] l)) <-> In k l).
  { intros l k. rewrite In_sort_strings.
    rewrite (proj2 (unique_spec l [])). simpl. tauto. }
  assert (Heq : sort_strings (ManifestBuilder.unique [] added)
                = sort_strings (ManifestBuilder.unique [] added')).
  { apply (@strictly_sorted_unique _ (fun a b => String.ltb a b = true)).
    - intros a H. rewrite ltb_irrefl in H. discriminate.
    - apply ltb_trans.
    - apply Hsorted.
    - apply Hsorted.
    - intros k. now rewrite !Hmem. }
  unfold ManifestBuilder.build.
  destruct config; try contradiction;
    (eexists; split; [reflexivity|]; cbn [candidates];
     split; [apply Hsorted|]; split; [apply Hmem|]; now rewrite Heq).
Qed.

Lemma build_candidates_sorted_and_unique_witness :
  JObj [] <> JNull /\
  (forall k, In k ["b"; "a"; "b"] <-> In k ["a"; "b"]) /\
  exists m,
    ManifestBuilder.build stand_in "devnet" (JObj []) None "unknown" ""
      ["b"; "a"; "b"] = Some m /\
    StronglySorted (fun a b => String.ltb a b = true) (candidates m) /\
    (forall k, In k (candidates m) <-> In k ["b"; "a"; "b"]) /\
    ManifestBuilder.build stand_in "devnet" (JObj []) None "unknown" ""
      ["a"; "b"] = Some m.
Proof.
  assert (H1 : JObj [] <> JNull) by discriminate.
  assert (H2 : forall k, In k ["b"; "a"; "b"] <-> In k ["a"; "b"]).
  { intros k. simpl. tauto. }
  split; [exact H1|]. split; [exact H2|].
  exact (@build_candidates_sorted_and_unique stand_in "devnet" (JObj []) None
           "unknown" "" ["b"; "a"; "b"] ["a"; "b"] H1 H2).
Defined.

(** ** The canonicalizer sorts at every depth *)

(** X2.  Every object inside the value [canonicalize] returns, at whatever
    depth and also inside arrays, lists its keys without repetition in the
    order an object enumerates sorted keys: array indices first, by value,
    then the other keys in ascending order. *)
Theorem canonicalize_sorts_every_object (v : JSValue) (p : list PathStep)
  (o : JSObject) (Hat : at_path p (canonicalize v) = Some (JObj o)) :
  canonical_object o /\ NoDup (Object_keys o).
Proof.
  destruct (@at_path_canonical p v (JObj o) Hat) as (x & _ & Hx).
  assert (C : canonical_object o).
  { destruct x as [| | | | |items|props]; try discriminate.
    destruct (canonicalize_obj_spec props) as (c & Hc & Cc & _).
    rewrite Hc in Hx. now injection Hx as ->. }
  split; [exact C | now apply sorted_NoDup].
Qed.

Lemma canonicalize_sorts_every_object_witness :
  at_path [Index 0; Key "z"]
    (canonicalize (JArr [JObj [("z", JObj [("b", JNull); ("10", JNull);
                                           ("a", JNull); ("9", JNull)])]]))
  = Some (JObj [("9", JNull); ("10", JNull); ("a", JNull); ("b", JNull)]) /\
  canonical_object [("9", JNull); ("10", JNull); ("a", JNull); ("b", JNull)].
Proof.
  assert (H : at_path [Index 0; Key "z"]
                (canonicalize (JArr [JObj [("z", JObj [("b", JNull); ("10", JNull);
                                                       ("a", JNull); ("9", JNull)])]]))
              = Some (JObj [("9", JNull); ("10", JNull); ("a", JNull); ("b", JNull)])).
  { vm_compute. reflexivity. }
  split; [exact H|].
  exact (proj1 (canonicalize_sorts_every_object _ _ H)).
Defined.

(** ** Sorting a permutation *)

Section SortedPermutation.
Variable A : Type.
Variable le : A -> A -> bool.

Lemma sorted_permutation_unique (l1 : list A) :
  forall l2,
    (forall a b, In a l1 -> In b l1 -> le a b = true -> le b a = true -> a = b) ->
    StronglySorted (fun a b => le a b = true) l1 ->
    StronglySorted (fun a b => le a b = true) l2 ->
    Permutation l1 l2 -> l1 = l2.
Proof.
  induction l1 as [|a t1 IH]; intros l2 Hanti S1 S2 HP.
  - apply Permutation_nil in HP. now subst.
  - destruct l2 as [|b t2].
    + apply Permutation_sym, Permutation_nil in HP. discriminate.
    + inversion S1 as [|? ? S1' Ha]; subst. inversion S2 as [|? ? S2' Hb]; subst.
      rewrite Forall_forall in Ha, Hb.
      assert (Hab : a = b).
      { assert (Hb1 : In b (a :: t1)).
        { apply (Permutation_in _ (Permutation_sym HP)). now left. }
        assert (Ha2 : In a (b :: t2)).
        { apply (Permutation_in _ HP). now left. }
        destruct Hb1 as [E|Hb1]; [exact E|].
        destruct Ha2 as [E|Ha2]; [now symmetry|].
        apply Hanti; [now left | now right | now apply Ha | now apply Hb]. }
      subst b. f_equal. apply IH.
      * intros x y Hx Hy. apply Hanti; now right.
      * exact S1'.
      * exact S2'.
      * now apply Permutation_cons_inv in HP.
Qed.

Hypothesis le_total : forall a b, le a b = false -> le b a = true.
Hypothesis le_trans : forall a b c, le a b = true -> le b c = true -> le a c = true.

Lemma sort_by_permutation (l1 l2 : list A) :
  (forall a b, In a l1 -> In b l1 -> le a b = true -> le b a = true -> a = b) ->
  Permutation l1 l2 -> sort_by le l1 = sort_by le l2.
Proof.
  intros Hanti HP. apply sorted_permutation_unique.
  - intros a b Ha Hb. apply Hanti; now apply (In_sort_by le).
  - now apply sort_by_sorted.
  - now apply sort_by_sorted.
  - rewrite <- (sort_by_perm le l1), <- (sort_by_perm le l2). exact HP.
Qed.
End SortedPermutation.

Lemma leb_antisym (a b : string) :
  String.leb a b = true -> String.leb b a = true -> a = b.
Proof.
  rewrite !leb_cases. intros [E|H1] [E'|H2]; auto.
  exfalso. pose proof (ltb_trans _ _ _ H1 H2) as H.
  rewrite ltb_irrefl in H. discriminate.
Qed.

(** ** The result builder *)

Lemma insert_index_keys_perm (n : Z) (k : string) (x : JSValue) (o : JSObject) :
  Permutation (k :: Object_keys o) (Object_keys (insert_index n k x o)).
Proof.
  induction o as [|[k0 y] rest IH]; simpl; [reflexivity|].
  destruct (array_index k0) as [m|]; [destruct (n <? m)|]; simpl; try reflexivity.
  rewrite perm_swap. now constructor.
Qed.

Lemma define_prop_keys_NoDup (o : JSObject) (k : string) (x : JSValue) :
  NoDup (Object_keys o) -> NoDup (Object_keys (define_prop o k x)).
Proof.
  intros Hnd. unfold define_prop. destruct (has_prop k o) eqn:Hhas.
  - now rewrite keys_replace_prop.
  - apply has_prop_false in Hhas.
    destruct (array_index k) as [n|].
    + eapply Permutation_NoDup; [apply insert_index_keys_perm|].
      now constructor.
    + rewrite Object_keys_app. simpl.
      eapply Permutation_NoDup; [apply Permutation_cons_append|].
      now constructor.
Qed.

Lemma set_prop_keys_NoDup (o : JSObject) (k : string) (x : JSValue) :
  NoDup (Object_keys o) -> NoDup (Object_keys (set_prop o k x)).
Proof.
  intros Hnd. unfold set_prop.
  destruct (assigns o k); [now apply define_prop_keys_NoDup | exact Hnd].
Qed.

Lemma recorded_assigns (o : JSObject) (k : string) :
  get_prop "__proto__" o = None -> assigns o k = recorded k.
Proof.
  intros Ho. unfold assigns, recorded, has_prop.
  destruct (String.eqb_spec k "__proto__") as [->|_]; [now rewrite Ho|].
  apply orb_true_r.
Qed.

Lemma addResults_spec (calls : list (string * string * Z)) :
  forall b,
    NoDup (Object_keys (ResultBuilder.builder_accounts b)) ->
    get_prop "__proto__" (ResultBuilder.builder_accounts b) = None ->
    exists b',
      addResults calls b = Some b' /\
      NoDup (Object_keys (ResultBuilder.builder_accounts b')) /\
      (forall k, In k (Object_keys (ResultBuilder.builder_accounts b')) <->
                 In k (filter recorded (map call_pubkey calls))
                 \/ In k (Object_keys (ResultBuilder.builder_accounts b))) /\
      ResultBuilder.totalLamports b'
      = ResultBuilder.totalLamports b + sum (map call_amount calls) /\
      (forall k, get_prop k (ResultBuilder.builder_accounts b')
                 = match (if recorded k then last_state k calls else None) with
                   | Some s => Some (JStr s)
                   | None => get_prop k (ResultBuilder.builder_accounts b)
                   end).
Proof.
  induction calls as [|[[pubkey state] amount] rest IH]; intros b Hnd Hproto.
  - exists b. simpl. repeat split; try tauto.
    + unfold sum. simpl. lia.
    + intros k. now destruct (recorded k).
  - cbn [addResults]. unfold ResultBuilder.addResult. cbn [BigInt].
    pose proof (fun k => @recorded_assigns (ResultBuilder.builder_accounts b) k
                           Hproto) as Hrec.
    match goal with
    | |- context [addResults rest ?b1] =>
        destruct (IH b1) as (b' & Hrun & Hnd' & Hkeys & Htotal & Hget)
    end.
    { cbn [ResultBuilder.builder_accounts]. now apply set_prop_keys_NoDup. }
    { cbn [ResultBuilder.builder_accounts]. rewrite get_set_prop.
      rewrite Hrec. unfold recorded.
      destruct (String.eqb_spec pubkey "__proto__") as [->|Hne];
        [exact Hproto|].
      cbn [negb andb]. destruct (String.eqb_spec pubkey "__proto__");
        [contradiction | exact Hproto]. }
    cbn [ResultBuilder.builder_accounts ResultBuilder.totalLamports] in *.
    exists b'. split; [exact Hrun|]. split; [exact Hnd'|]. split; [|split].
    + intros k. rewrite Hkeys, keys_set_prop, Hrec.
      cbn [map filter].
      change (call_pubkey (pubkey, state, amount)) with pubkey.
      destruct (recorded pubkey); cbn [In].
      * split; [intros [H|[[_ ->]|H]]; auto | intros [[<-|H]|H]; auto].
      * split; [intros [H|[[E _]|H]]; [auto | discriminate E | auto]
               | intros [H|H]; auto].
    + rewrite Htotal. unfold sum, call_amount. simpl. lia.
    + intros k. rewrite Hget. cbn [last_state].
      destruct (recorded k) eqn:Ek.
      * destruct (last_state k rest); [reflexivity|].
        rewrite get_set_prop, Hrec.
        unfold call_pubkey, call_state. cbn [fst snd].
        destruct (String.eqb_spec pubkey k) as [->|_].
        -- now rewrite Ek.
        -- now rewrite andb_false_r.
      * rewrite get_set_prop, Hrec.
        destruct (String.eqb_spec pubkey k) as [->|_].
        -- now rewrite Ek.
        -- now rewrite andb_false_r.
Qed.

(** X3.  However often [addResult] is called for a pubkey, the digest counts
    the pubkey once in [evaluated_count] and reports the state of the last
    call for it; the one exception is the pubkey [__proto__], which the
    digest neither counts nor reports, since assigning to that key creates
    no property.  [total_lamports_reclaimed] is the decimal sum of the
    amounts of all the calls, those for [__proto__] included. *)
Theorem addResult_counts_each_account_once (P : Platform)
  (calls : list (string * string * Z)) :
  exists b,
    addResults calls ResultBuilder.empty = Some b /\
    evaluated_count (ResultBuilder.build P b)
    = Z.of_nat (List.length
                  (nodup string_dec (filter recorded (map call_pubkey calls)))) /\
    total_lamports_reclaimed (ResultBuilder.build P b)
    = decimal (sum (map call_amount calls)) /\
    forall k, get_prop k (accounts (ResultBuilder.build P b))
              = if recorded k then option_map JStr (last_state k calls)
                else None.
Proof.
  destruct (@addResults_spec calls ResultBuilder.empty)
    as (b & Hrun & Hnd & Hkeys & Htotal & Hget); [constructor | reflexivity|].
  exists b. split; [exact Hrun|].
  cbn [ResultBuilder.build evaluated_count total_lamports_reclaimed accounts].
  split; [|split].
  - f_equal. apply Permutation_length. apply NoDup_Permutation.
    + exact Hnd.
    + apply NoDup_nodup.
    + intros k. rewrite Hkeys, nodup_In. simpl. tauto.
  - rewrite Htotal. reflexivity.
  - intros k. rewrite Hget. simpl.
    destruct (recorded k); [|reflexivity].
    destruct (last_state k calls); reflexivity.
Qed.

(** Two calls for [__proto__] between two calls for [A]: one account is
    counted, and the four amounts are added. *)
Example addResult_skips_proto :
  option_map
    (fun b => (evaluated_count (ResultBuilder.build stand_in b),
               accounts (ResultBuilder.build stand_in b),
               total_lamports_reclaimed (ResultBuilder.build stand_in b)))
    (addResults [("A", "ACTIVE", 1); ("__proto__", "RECLAIMED", 10);
                 ("__proto__", "FAILED", 100); ("A", "RECLAIMED", 1000)]
       ResultBuilder.empty)
  = Some (1, [("A", JStr "RECLAIMED")], "1111").
Proof. reflexivity. Qed.

Lemma text_leb_antisym (l : list JSValue) :
  Forall is_text l ->
  forall a b, In a l -> In b l ->
    ResultBuilder.text_leb a b = true -> ResultBuilder.text_leb b a = true ->
    a = b.
Proof.
  intros Hl a b Ha Hb. rewrite Forall_forall in Hl.
  destruct (Hl a Ha) as [s ->], (Hl b Hb) as [s' ->].
  unfold ResultBuilder.text_leb. simpl. intros H1 H2.
  f_equal. now apply leb_antisym.
Qed.

(** X4.  The digest does not depend on the order in which text signatures
    were added: two builders that differ only by a permutation of their
    signatures build the same digest. *)
Theorem build_ignores_signature_order (P : Platform) (b : ResultBuilder.t)
  (sigs : list JSValue)
  (Htext : Forall is_text (ResultBuilder.signatures b))
  (Hperm : Permutation (ResultBuilder.signatures b) sigs) :
  ResultBuilder.build P (with_signatures sigs b) = ResultBuilder.build P b.
Proof.
  unfold ResultBuilder.build, with_signatures.
  cbn [ResultBuilder.builder_accounts ResultBuilder.totalLamports
       ResultBuilder.signatures ResultBuilder.builder_failures].
  f_equal. symmetry. apply sort_by_permutation.
  - exact text_leb_total.
  - exact text_leb_trans.
  - now apply text_leb_antisym.
  - exact Hperm.
Qed.

Lemma build_ignores_signature_order_witness :
  Forall is_text
    (ResultBuilder.signatures
       (ResultBuilder.addSignature (JStr "sigB")
          (ResultBuilder.addSignature (JStr "sigA") ResultBuilder.empty))) /\
  ResultBuilder.build stand_in
    (with_signatures [JStr "sigB"; JStr "sigA"]
       (ResultBuilder.addSignature (JStr "sigB")
          (ResultBuilder.addSignature (JStr "sigA") ResultBuilder.empty)))
  = ResultBuilder.build stand_in
      (ResultBuilder.addSignature (JStr "sigB")
         (ResultBuilder.addSignature (JStr "sigA") ResultBuilder.empty)).
Proof.
  assert (H : Forall is_text
                (ResultBuilder.signatures
                   (ResultBuilder.addSignature (JStr "sigB")
                      (ResultBuilder.addSignature (JStr "sigA")
                         ResultBuilder.empty)))).
  { simpl. repeat constructor; eexists; reflexivity. }
  split; [exact H|].
  apply (@build_ignores_signature_order stand_in _ [JStr "sigB"; JStr "sigA"] H).
  simpl. apply perm_swap.
Defined.

(** ** The attestor *)

(** X5.  [verify] checks a signature only when the document carries one: a
    document that verifies still verifies after its signature is removed. *)
Theorem verify_does_not_require_signature (P : Platform) (doc : AttestationDoc)
  (Hok : Attestor.verify P doc = true) :
  Attestor.verify P (strip_signature doc) = true.
Proof.
  unfold Attestor.verify, strip_signature in *.
  cbn [manifest doc_db_state_hash result_digest attestation_hash signature].
  destruct (negb _); [discriminate|].
  destruct (negb _ && negb _); [discriminate|].
  reflexivity.
Qed.

Lemma verify_does_not_require_signature_witness :
  Attestor.verify stand_in
    (Attestor.generate stand_in signed_manifest seeded_digest
       (Some operator_keypair)) = true /\
  Attestor.verify stand_in
    (strip_signature
       (Attestor.generate stand_in signed_manifest seeded_digest
          (Some operator_keypair))) = true.
Proof.
  assert (H : Attestor.verify stand_in
                (Attestor.generate stand_in signed_manifest seeded_digest
                   (Some operator_keypair)) = true).
  { vm_compute. reflexivity. }
  split; [exact H|].
  exact (verify_does_not_require_signature _ _ H).
Defined.

(** ** The state hash and the order of the rows *)

(** X6.  The state hash depends on the rows of [sponsored_accounts] and
    [lifecycle_events] only, not on the order in which the tables hold
    them, and on no other table: two ledgers whose accounts (distinct
    pubkeys) and events (distinct ids) are the same up to order have the
    same hash. *)
Theorem computeStateHash_ignores_row_order (db1 db2 : Ledger)
  (Hkeys : NoDup (map account_pubkey (sponsored_accounts db1)))
  (Hids : NoDup (map event_id (lifecycle_events db1)))
  (Haccounts : Permutation (sponsored_accounts db1) (sponsored_accounts db2))
  (Hevents : Permutation (lifecycle_events db1) (lifecycle_events db2)) :
  StateHasher.computeStateHash db1 = StateHasher.computeStateHash db2.
Proof.
  unfold StateHasher.computeStateHash, accounts_by_pubkey, events_by_id.
  rewrite (@sort_by_permutation _ pubkey_leb pubkey_leb_total pubkey_leb_trans
             (sponsored_accounts db1) (sponsored_accounts db2)).
  - rewrite (@sort_by_permutation _ id_leb id_leb_total id_leb_trans
               (lifecycle_events db1) (lifecycle_events db2)).
    + reflexivity.
    + intros a b Ha Hb H1 H2. apply (@NoDup_map_inj _ _ event_id _ a b Hids Ha Hb).
      unfold id_leb in *. lia.
    + exact Hevents.
  - intros a b Ha Hb H1 H2. apply (@NoDup_map_inj _ _ account_pubkey _ a b Hkeys Ha Hb).
    now apply leb_antisym.
  - exact Haccounts.
Qed.

(** X7.  [hashTable] does not depend on the order of the columns in the
    rows it is given: tables whose rows are equivalent one by one have the
    same digest. *)
Theorem hashTable_ignores_column_order (tableName : string)
  (rows1 rows2 : list JSValue) (Hrows : Forall2 equivalent rows1 rows2) :
  StateHasher.hashTable tableName rows1 = StateHasher.hashTable tableName rows2.
Proof.
  rewrite !hashTable_digest. f_equal. unfold table_digest.
  assert (E : map row_hash rows1 = map row_hash rows2).
  { induction Hrows as [|x y l l' Hxy _ IH]; [reflexivity|].
    cbn [map]. rewrite IH. unfold row_hash.
    now rewrite (canonicalize_equivalent Hxy). }
  destruct Hrows; [reflexivity|]. now rewrite E.
Qed.

(** ** The policy engine, row by row *)

Lemma set_lifecycle_state_same (a : SponsoredAccount) :
  set_lifecycle_state (lifecycle_state a) a = a.
Proof. now destruct a. Qed.

Lemma fold_left_pointwise (A B : Type) (f g : A -> B -> A) :
  (forall a b, f a b = g a b) ->
  forall l a, fold_left f l a = fold_left g l a.
Proof.
  intros H l. induction l as [|b rest IH]; intros a; [reflexivity|].
  cbn [fold_left]. now rewrite H, IH.
Qed.

Lemma fold_left_fixed (A B : Type) (f : A -> B -> A) (l : list B) (a : A) :
  (forall b, In b l -> forall x, f x b = x) -> fold_left f l a = a.
Proof.
  induction l as [|b rest IH]; intros H; [reflexivity|].
  cbn [fold_left]. rewrite (H b (or_introl eq_refl)).
  apply IH. intros b' Hb'. apply H. now right.
Qed.

Lemma evaluate_steps (config : PolicyEngine.PolicyConfig) (clock : Clock)
  (db : Ledger) :
  PolicyEngine.evaluate config clock db =
  fold_left (policy_step config clock) (PolicyEngine.candidates db) db.
Proof.
  unfold PolicyEngine.evaluate. apply fold_left_pointwise.
  intros d c. unfold policy_step, policy_change.
  destruct (PolicyEngine.newState _) as [st|]; [|reflexivity].
  destruct (negb _ && negb _); reflexivity.
Qed.

(** X8.  With [dryRun] set, [evaluate] writes nothing: the ledger it
    leaves is the ledger it found. *)
Theorem evaluate_dry_run_writes_nothing (config : PolicyEngine.PolicyConfig)
  (clock : Clock) (db : Ledger) (Hdry : PolicyEngine.dryRun config = true) :
  PolicyEngine.evaluate config clock db = db.
Proof.
  rewrite evaluate_steps.
  apply fold_left_fixed. intros c _ d.
  unfold policy_step, PolicyEngine.updateState.
  rewrite Hdry. now destruct (policy_change config clock c).
Qed.

Lemma find_by_pubkey_none (k : string) (l : list SponsoredAccount) :
  ~ In k (map account_pubkey l) ->
  find (fun c => (account_pubkey c =? k)%string) l = None.
Proof.
  induction l as [|c rest IH]; simpl; [reflexivity|].
  intros H. destruct (String.eqb_spec (account_pubkey c) k) as [E|_]; [tauto|].
  apply IH. tauto.
Qed.

Lemma policy_step_effect (config : PolicyEngine.PolicyConfig) (clock : Clock)
  (Hlive : PolicyEngine.dryRun config = false) (db : Ledger)
  (c : SponsoredAccount) :
  sponsored_accounts (policy_step config clock db c)
  = match policy_change config clock c with
    | Some st =>
        map (fun a => if (account_pubkey a =? account_pubkey c)%string
                      then set_lifecycle_state st a else a)
          (sponsored_accounts db)
    | None => sponsored_accounts db
    end /\
  (exists added,
      lifecycle_events (policy_step config clock db c)
      = lifecycle_events db ++ added /\
      map event_summary added = policy_events config clock c) /\
  system_kv_store (policy_step config clock db c) = system_kv_store db.
Proof.
  unfold policy_step, policy_events.
  destruct (policy_change config clock c) as [st|].
  - unfold PolicyEngine.updateState. rewrite Hlive.
    cbn [insert_event update_account sponsored_accounts lifecycle_events
         system_kv_store].
    split; [reflexivity|]. split; [|reflexivity].
    eexists. split; reflexivity.
  - split; [reflexivity|]. split; [|reflexivity].
    exists []. now rewrite app_nil_r.
Qed.

(** The accounts and the events after the loop over a list of candidates
    with distinct pubkeys. *)
Lemma policy_fold (config : PolicyEngine.PolicyConfig) (clock : Clock)
  (Hlive : PolicyEngine.dryRun config = false) (cs : list SponsoredAccount) :
  forall db,
    NoDup (map account_pubkey cs) ->
    sponsored_accounts (fold_left (policy_step config clock) cs db)
    = map (fun a =>
             match find (fun c => (account_pubkey c =? account_pubkey a)%string) cs with
             | Some c =>
                 match policy_change config clock c with
                 | Some st => set_lifecycle_state st a
                 | None => a
                 end
             | None => a
             end)
        (sponsored_accounts db) /\
    (exists added,
        lifecycle_events (fold_left (policy_step config clock) cs db)
        = lifecycle_events db ++ added /\
        map event_summary added = flat_map (policy_events config clock) cs) /\
    system_kv_store (fold_left (policy_step config clock) cs db)
    = system_kv_store db.
Proof.
  induction cs as [|c rest IH]; intros db Hnd.
  - cbn [fold_left find]. split; [now rewrite map_id|]. split; [|reflexivity].
    exists []. now rewrite app_nil_r.
  - inversion Hnd as [|? ? Hnin Hnd']; subst.
    cbn [fold_left].
    destruct (IH (policy_step config clock db c) Hnd')
      as (Hacc & (added & Hev & Hsum) & Hkv).
    destruct (@policy_step_effect config clock Hlive db c)
      as (Hacc1 & (added1 & Hev1 & Hsum1) & Hkv1).
    rewrite Hacc, Hev, Hkv, Hacc1, Hev1, Hkv1. clear Hacc Hev Hkv Hacc1 Hev1 Hkv1 IH.
    split; [|split; [|reflexivity]].
    + destruct (policy_change config clock c) as [st|] eqn:Ech.
      * rewrite map_map. apply map_ext. intros a. cbn [find].
        destruct (String.eqb_spec (account_pubkey a) (account_pubkey c)) as [E|Hne].
        -- cbn [set_lifecycle_state account_pubkey].
           rewrite E. rewrite find_by_pubkey_none by exact Hnin.
           rewrite String.eqb_refl. now rewrite Ech.
        -- destruct (String.eqb_spec (account_pubkey c) (account_pubkey a)) as [E|_];
             [congruence | reflexivity].
      * apply map_ext. intros a. cbn [find].
        destruct (String.eqb_spec (account_pubkey c) (account_pubkey a)) as [E|_];
          [|reflexivity].
        rewrite Ech.
        rewrite find_by_pubkey_none; [reflexivity|]. now rewrite <- E.
    + exists (added1 ++ added). rewrite app_assoc. split; [reflexivity|].
      rewrite map_app, Hsum1, Hsum. reflexivity.
Qed.

(** Selecting rows keeps their keys distinct. *)
Lemma NoDup_map_filter (Row Key : Type) (key : Row -> Key)
  (selected : Row -> bool) :
  forall rows : list Row,
    NoDup (map key rows) -> NoDup (map key (filter selected rows)).
Proof.
  intros rows Hrows. induction rows as [|r rows IH]; [exact Hrows|].
  cbn [map] in Hrows. apply NoDup_cons_iff in Hrows.
  destruct Hrows as [Hfresh Hrows]. cbn [filter].
  destruct (selected r); [|now apply IH].
  cbn [map]. apply NoDup_cons; [|now apply IH].
  intros Hin. apply Hfresh. apply in_map_iff in Hin.
  destruct Hin as (r' & <- & Hr'). apply in_map.
  apply filter_In in Hr'. tauto.
Qed.

Lemma candidates_In (db : Ledger) (c : SponsoredAccount) :
  In c (PolicyEngine.candidates db) <->
  In c (sponsored_accounts db) /\ policy_candidate c = true.
Proof.
  unfold PolicyEngine.candidates. rewrite In_sort_by, filter_In. reflexivity.
Qed.

Lemma candidates_NoDup (db : Ledger) :
  NoDup (map account_pubkey (sponsored_accounts db)) ->
  NoDup (map account_pubkey (PolicyEngine.candidates db)).
Proof.
  intros Hnd. unfold PolicyEngine.candidates.
  eapply Permutation_NoDup.
  - apply Permutation_map. apply sort_by_perm.
  - now apply NoDup_map_filter.
Qed.

(** On a ledger with distinct pubkeys, a live [evaluate] treats every row
    by itself. *)
Lemma evaluate_rows (config : PolicyEngine.PolicyConfig) (clock : Clock)
  (db : Ledger) :
  PolicyEngine.dryRun config = false ->
  NoDup (map account_pubkey (sponsored_accounts db)) ->
  sponsored_accounts (PolicyEngine.evaluate config clock db)
  = map (policy_row config clock) (sponsored_accounts db).
Proof.
  intros Hlive Hnd. rewrite evaluate_steps.
  rewrite (proj1 (@policy_fold config clock Hlive (PolicyEngine.candidates db) db
                    (@candidates_NoDup db Hnd))).
  apply map_ext_in. intros a Ha. unfold policy_row.
  destruct (find _ (PolicyEngine.candidates db)) as [c|] eqn:Ef.
  - apply find_some in Ef. destruct Ef as [Hc Hk].
    apply String.eqb_eq in Hk. apply candidates_In in Hc.
    destruct Hc as [Hc Hcand].
    assert (E : c = a) by exact (@NoDup_map_inj _ _ account_pubkey _ c a Hnd Hc Ha Hk).
    subst c. now rewrite Hcand.
  - destruct (policy_candidate a) eqn:Hcand; [|reflexivity].
    exfalso.
    assert (Hc : In a (PolicyEngine.candidates db)) by now apply candidates_In.
    apply (find_none _ _ Ef) in Hc. simpl in Hc.
    now rewrite String.eqb_refl in Hc.
Qed.

Lemma evaluate_dry_run (config : PolicyEngine.PolicyConfig) (clock : Clock)
  (db : Ledger) :
  PolicyEngine.dryRun config = true -> PolicyEngine.evaluate config clock db = db.
Proof.
  intros Hdry. rewrite evaluate_steps.
  generalize (PolicyEngine.candidates db). intros l.
  induction l as [|c rest IH]; [reflexivity|].
  cbn [fold_left]. unfold policy_step at 2, PolicyEngine.updateState.
  rewrite Hdry. destruct (policy_change config clock c); exact IH.
Qed.

Lemma js_positive (d : Z) : negb (d =? 0) && (d >? 0) = (0 <? d).
Proof.
  rewrite Z.gtb_ltb.
  destruct (Z.eqb_spec d 0), (Z.ltb_spec 0 d); simpl; try reflexivity; lia.
Qed.

Lemma checkEligibility_reclaimable (config : PolicyEngine.PolicyConfig)
  (clock : Clock) (a : SponsoredAccount) :
  PolicyEngine.newState (PolicyEngine.checkEligibility config clock a)
  = Some "RECLAIMABLE" ->
  safe_to_reclaim config clock a.
Proof.
  unfold PolicyEngine.checkEligibility, safe_to_reclaim, whitelisted, no_data,
    old_enough.
  destruct (match PolicyEngine.whitelist config with
            | Some w => PolicyEngine.includes w (account_pubkey a)
            | None => false
            end); [discriminate|].
  destruct (lamports a) as [lam|]; [|destruct (owner_program a); discriminate].
  destruct (owner_program a) as [owner|]; [|discriminate].
  destruct (String.eqb_spec owner SYSTEM_PROGRAM_ID) as [->|_]; [|discriminate].
  cbn [negb]. rewrite ?js_positive.
  destruct (data_len a) as [d|].
  - rewrite ?js_positive. destruct (0 <? d) eqn:Ed; [discriminate|].
    destruct (lam <? _) eqn:E1; [discriminate|].
    destruct (lam <=? 0) eqn:E2; [discriminate|].
    intros H. split; [reflexivity|]. split; [reflexivity|].
    split; [exists lam; repeat split; lia|]. split; [lia|].
    revert H. destruct (PolicyEngine.minAgeDays config) as [days|]; [|trivial].
    intros H Hdays.
    rewrite js_positive in H. replace (0 <? days) with true in H by lia.
    destruct (last_lifecycle_check a) as [[|ch rest]|]; try discriminate.
    eexists. split; [reflexivity|]. split; [discriminate|].
    destruct (Date_getTime clock (String ch rest)) as [lastCheck|]; [|exact I].
    cbn zeta in H.
    destruct (now_ms clock - lastCheck <? days * PolicyEngine.MS_PER_DAY) eqn:E3;
      [discriminate | lia].
  - destruct (lam <? _) eqn:E1; [discriminate|].
    destruct (lam <=? 0) eqn:E2; [discriminate|].
    intros H. split; [reflexivity|]. split; [reflexivity|].
    split; [exists lam; repeat split; lia|]. split; [exact I|].
    revert H. destruct (PolicyEngine.minAgeDays config) as [days|]; [|trivial].
    intros H Hdays.
    rewrite js_positive in H. replace (0 <? days) with true in H by lia.
    destruct (last_lifecycle_check a) as [[|ch rest]|]; try discriminate.
    eexists. split; [reflexivity|]. split; [discriminate|].
    destruct (Date_getTime clock (String ch rest)) as [lastCheck|]; [|exact I].
    cbn zeta in H.
    destruct (now_ms clock - lastCheck <? days * PolicyEngine.MS_PER_DAY) eqn:E3;
      [discriminate | lia].
Qed.

(** X9.  [evaluate] marks a row RECLAIMABLE only when the row is safe: a
    row that is RECLAIMABLE afterwards either was so before, or is not
    whitelisted, is owned by the System Program, holds no data, has a
    positive balance of at least [minLamports] and, when a positive minimum
    age is set, carries a last-check text that is a date at least that many
    days back or is no date at all (an unreadable date passes the age
    rule); its other columns are unchanged. *)
Theorem evaluate_reclaims_only_safe_rows (config : PolicyEngine.PolicyConfig)
  (clock : Clock) (db : Ledger) (a' : SponsoredAccount)
  (Hkeys : NoDup (map account_pubkey (sponsored_accounts db)))
  (Hin : In a' (sponsored_accounts (PolicyEngine.evaluate config clock db)))
  (Hstate : lifecycle_state a' = "RECLAIMABLE") :
  exists a,
    In a (sponsored_accounts db) /\
    a' = set_lifecycle_state "RECLAIMABLE" a /\
    (lifecycle_state a = "RECLAIMABLE" \/ safe_to_reclaim config clock a).
Proof.
  destruct (PolicyEngine.dryRun config) eqn:Hdry.
  - rewrite evaluate_dry_run in Hin by exact Hdry.
    exists a'. split; [exact Hin|]. split; [|now left].
    now rewrite <- Hstate, set_lifecycle_state_same.
  - rewrite evaluate_rows in Hin by assumption.
    apply in_map_iff in Hin. destruct Hin as (a & Ha' & Ha).
    exists a. split; [exact Ha|].
    unfold policy_row in Ha'.
    assert (Hsame : a' = a -> a' = set_lifecycle_state "RECLAIMABLE" a /\
                              (lifecycle_state a = "RECLAIMABLE"
                               \/ safe_to_reclaim config clock a)).
    { intros ->. split; [|now left].
      now rewrite <- Hstate, set_lifecycle_state_same. }
    destruct (policy_candidate a); [|now apply Hsame].
    destruct (policy_change config clock a) as [st|] eqn:Ech;
      [|now apply Hsame].
    subst a'. cbn [set_lifecycle_state lifecycle_state] in Hstate. subst st.
    split; [reflexivity|]. right.
    apply checkEligibility_reclaimable.
    unfold policy_change in Ech.
    destruct (PolicyEngine.newState _) as [st|]; [|discriminate].
    destruct (negb _ && negb _); [|discriminate]. exact Ech.
Qed.

Lemma policy_change_settled (config : PolicyEngine.PolicyConfig) (clock : Clock)
  (a : SponsoredAccount) :
  policy_change config clock (policy_row config clock a) = None
  \/ policy_candidate (policy_row config clock a) = false.
Proof.
  unfold policy_row.
  destruct (policy_candidate a) eqn:Hcand; [|now right].
  destruct (policy_change config clock a) as [st|] eqn:Ech; [|now left].
  left. unfold policy_change in *.
  change (PolicyEngine.checkEligibility config clock (set_lifecycle_state st a))
    with (PolicyEngine.checkEligibility config clock a).
  destruct (PolicyEngine.newState _) as [st0|]; [|reflexivity].
  destruct (negb (st0 =? "")%string && negb (st0 =? lifecycle_state a)%string);
    [|discriminate].
  injection Ech as ->. cbn [set_lifecycle_state lifecycle_state].
  rewrite String.eqb_refl. cbn [negb]. now rewrite andb_false_r.
Qed.

(** X10.  At a given clock and configuration, [evaluate] is idempotent on a
    ledger with distinct pubkeys: a second evaluation changes no row and
    writes no event. *)
Theorem evaluate_idempotent (config : PolicyEngine.PolicyConfig) (clock : Clock)
  (db : Ledger) (Hkeys : NoDup (map account_pubkey (sponsored_accounts db))) :
  PolicyEngine.evaluate config clock (PolicyEngine.evaluate config clock db)
  = PolicyEngine.evaluate config clock db.
Proof.
  destruct (PolicyEngine.dryRun config) eqn:Hdry.
  - now rewrite !evaluate_dry_run.
  - rewrite (evaluate_steps config clock (PolicyEngine.evaluate config clock db)).
    apply fold_left_fixed. intros c Hc d.
    apply candidates_In in Hc. destruct Hc as [Hc Hcand].
    rewrite evaluate_rows in Hc by assumption.
    apply in_map_iff in Hc. destruct Hc as (a & <- & _).
    unfold policy_step.
    destruct (policy_change_settled config clock a) as [E|E];
      [now rewrite E | congruence].
Qed.



(** ** The indexer only appends *)

Lemma discovers_refl (config : Indexer.IndexerConfig) (db : Ledger) :
  discovers config db db.
Proof.
  split; [exists []; split; [now rewrite app_nil_r | constructor]|].
  repeat split; auto.
Qed.

Lemma discovers_trans (config : Indexer.IndexerConfig) (db1 db2 db3 : Ledger) :
  discovers config db1 db2 -> discovers config db2 db3 ->
  discovers config db1 db3.
Proof.
  intros ((a1 & H1 & F1) & E1 & S1 & N1) ((a2 & H2 & F2) & E2 & S2 & N2).
  split; [exists (a1 ++ a2); split|].
  - now rewrite H2, H1, app_assoc.
  - apply Forall_app. now split.
  - repeat split; try congruence. auto.
Qed.

Lemma find_account_none (pubkey : string) (db : Ledger) :
  find_account pubkey db = None ->
  ~ In pubkey (map account_pubkey (sponsored_accounts db)).
Proof.
  unfold find_account. intros Hf Hin.
  apply in_map_iff in Hin. destruct Hin as (a & Ha & Hin).
  apply (find_none _ _ Hf) in Hin. simpl in Hin.
  rewrite Ha, String.eqb_refl in Hin. discriminate.
Qed.

Lemma storeSponsoredAccount_discovers (config : Indexer.IndexerConfig)
  (clock : Clock) (pubkey creation : string) (slot : Z) (db : Ledger) :
  discovers config db
    (Indexer.storeSponsoredAccount config clock pubkey creation slot db).
Proof.
  unfold Indexer.storeSponsoredAccount.
  destruct (Indexer.dryRun config); [apply discovers_refl|].
  destruct (find_account pubkey db) eqn:Ef; [apply discovers_refl|].
  split; [eexists; split; [reflexivity|]|].
  - constructor; [|constructor]. repeat split.
  - cbn [sponsored_accounts lifecycle_events event_seq].
    repeat split. intros Hnd. rewrite map_app. cbn [map account_pubkey].
    eapply Permutation_NoDup; [apply Permutation_cons_append|].
    constructor; [now apply find_account_none | exact Hnd].
Qed.

Lemma visit_instruction_discovers (config : Indexer.IndexerConfig)
  (clock : Clock) (tx : Indexer.Transaction) (acc : bool * Ledger)
  (instruction : Indexer.Instruction) :
  discovers config (snd acc)
    (snd (Indexer.visit_instruction config clock tx acc instruction)).
Proof.
  unfold Indexer.visit_instruction.
  destruct (Indexer.parsed instruction) as [p|]; [|apply discovers_refl].
  destruct (_ && _ && _); [|apply discovers_refl].
  cbn [snd]. destruct (Indexer.signatures tx); [apply discovers_refl|].
  apply storeSponsoredAccount_discovers.
Qed.

Lemma visit_instructions_discover (config : Indexer.IndexerConfig)
  (clock : Clock) (tx : Indexer.Transaction) (l : list Indexer.Instruction) :
  forall acc,
    discovers config (snd acc)
      (snd (fold_left (Indexer.visit_instruction config clock tx) l acc)).
Proof.
  induction l as [|i rest IH]; intros acc; [apply discovers_refl|].
  cbn [fold_left]. eapply discovers_trans; [|apply IH].
  apply visit_instruction_discovers.
Qed.

Lemma parseTransaction_discovers (config : Indexer.IndexerConfig)
  (clock : Clock) (tx : Indexer.Transaction) (db db' : Ledger) (found : bool) :
  Indexer.parseTransaction config clock tx db = Some (found, db') ->
  discovers config db db'.
Proof.
  unfold Indexer.parseTransaction.
  destruct (Indexer.accountKeys tx) as [|feePayer rest]; [discriminate|].
  destruct (_ || _).
  - intros [= _ <-]. apply discovers_refl.
  - intros H.
    pose proof (visit_instructions_discover config clock tx
                  (Indexer.instructions tx) (false, db)) as Hd.
    injection H as H. rewrite H in Hd. exact Hd.
Qed.

Lemma process_page_discovers (chain : Indexer.Chain)
  (config : Indexer.IndexerConfig) (clock : Clock) (page : list string) :
  forall db, discovers config db (snd (Indexer.process_page chain config clock page db)).
Proof.
  induction page as [|sig rest IH]; intros db; cbn [Indexer.process_page].
  - apply discovers_refl.
  - destruct (Indexer.getParsedTransaction chain sig) as [| |tx].
    + apply discovers_refl.
    + apply IH.
    + destruct (Indexer.parseTransaction config clock tx db) as [[found db']|] eqn:E.
      * eapply discovers_trans; [|apply IH].
        eapply parseTransaction_discovers. exact E.
      * apply discovers_refl.
Qed.

Lemma saveCursor_discovers (config : Indexer.IndexerConfig) (signature : string)
  (st : Indexer.RunState) (db : Ledger) :
  discovers config db (Indexer.ledger st) ->
  discovers config db (Indexer.ledger (Indexer.saveCursor config signature st)).
Proof.
  unfold Indexer.saveCursor. destruct (Indexer.dryRun config); [auto|].
  cbn [Indexer.ledger]. intros H. exact H.
Qed.

Lemma run_loop_discovers (chain : Indexer.Chain) (config : Indexer.IndexerConfig)
  (clock : Clock) (untilSignature : option string) (db : Ledger) (fuel : nat) :
  forall beforeSignature call st st',
    discovers config db (Indexer.ledger st) ->
    Indexer.run_loop fuel chain config clock untilSignature beforeSignature
      call st = Some st' ->
    discovers config db (Indexer.ledger st').
Proof.
  induction fuel as [|fuel IH]; intros before call st st' Hd; [discriminate|].
  cbn [Indexer.run_loop].
  destruct (Indexer.signatures_fail chain call); [now intros [= <-]|].
  destruct (Indexer.getSignaturesForAddress _ _ _ _) as [|latest tl] eqn:Epage;
    [now intros [= <-]|].
  pose proof (process_page_discovers chain config clock (latest :: tl)
                (Indexer.ledger st)) as Hp.
  destruct (Indexer.process_page chain config clock (latest :: tl)
              (Indexer.ledger st)) as [ok db1].
  cbn [snd] in Hp.
  assert (Hd1 : discovers config db db1) by (eapply discovers_trans; eassumption).
  destruct ok.
  - apply IH.
    destruct (negb (Indexer.truthy untilSignature)).
    + apply saveCursor_discovers. exact Hd1.
    + exact Hd1.
  - now intros [= <-].
Qed.

(** ** The scan ends *)

Lemma after_signature_found (x : string) (pre post : list string) :
  ~ In x pre -> Indexer.after_signature x (pre ++ x :: post) = post.
Proof.
  induction pre as [|y pre IH]; simpl; intros Hnin.
  - now rewrite String.eqb_refl.
  - destruct (String.eqb_spec y x) as [E|_]; [tauto|]. apply IH. tauto.
Qed.

Lemma after_signature_suffix (b : string) (l : list string) :
  exists pre, l = pre ++ Indexer.after_signature b l.
Proof.
  induction l as [|y rest [pre IH]]; simpl.
  - now exists [].
  - destruct (y =? b)%string.
    + now exists [y].
    + exists (y :: pre). simpl. now rewrite <- IH.
Qed.

Lemma up_to_signature_prefix (u : string) (l : list string) :
  exists rest, l = Indexer.up_to_signature u l ++ rest.
Proof.
  induction l as [|y l [rest IH]]; simpl.
  - now exists [].
  - destruct (y =? u)%string.
    + now exists (y :: l).
    + exists rest. simpl. now rewrite <- IH.
Qed.

Lemma older_suffix (chain : Indexer.Chain) (before : option string) :
  exists pre, Indexer.history chain = pre ++ older chain before.
Proof.
  destruct before as [b|]; simpl.
  - apply after_signature_suffix.
  - now exists [].
Qed.

Lemma page_prefix (chain : Indexer.Chain) (limit : nat)
  (until before : option string) :
  exists rest,
    older chain before
    = Indexer.getSignaturesForAddress chain limit until before ++ rest.
Proof.
  unfold Indexer.getSignaturesForAddress. fold (older chain before).
  destruct until as [u|].
  - destruct (up_to_signature_prefix u (older chain before)) as [rest Hrest].
    exists (skipn limit (Indexer.up_to_signature u (older chain before)) ++ rest).
    now rewrite app_assoc, firstn_skipn.
  - exists (skipn limit (older chain before)). now rewrite firstn_skipn.
Qed.

(** After a page, the requests continue strictly after it. *)
Lemma older_after_page (chain : Indexer.Chain) (limit : nat)
  (until before : option string) (latest : string) (tl rest : list string) :
  NoDup (Indexer.history chain) ->
  Indexer.getSignaturesForAddress chain limit until before = latest :: tl ->
  older chain before = (latest :: tl) ++ rest ->
  older chain (Some (last (latest :: tl) latest)) = rest.
Proof.
  intros Hnd Hpage Hrest.
  destruct (older_suffix chain before) as [pre Hpre].
  assert (Hsplit : latest :: tl
                   = removelast (latest :: tl) ++ [last (latest :: tl) latest]).
  { apply app_removelast_last. discriminate. }
  assert (E : Indexer.history chain
              = (pre ++ removelast (latest :: tl))
                ++ last (latest :: tl) latest :: rest).
  { rewrite Hpre, Hrest. rewrite Hsplit at 1.
    rewrite <- !app_assoc. reflexivity. }
  unfold older. rewrite E. apply after_signature_found.
  rewrite E in Hnd. apply NoDup_remove_2 in Hnd.
  intros Hin. apply Hnd. apply in_or_app. now left.
Qed.

Lemma run_loop_returns (chain : Indexer.Chain) (config : Indexer.IndexerConfig)
  (clock : Clock) (untilSignature : option string) :
  NoDup (Indexer.history chain) ->
  forall fuel beforeSignature call st,
    (List.length (older chain beforeSignature) < fuel)%nat ->
    exists st',
      Indexer.run_loop fuel chain config clock untilSignature beforeSignature
        call st = Some st'.
Proof.
  intros Hnd. induction fuel as [|fuel IH]; intros before call st Hlen; [lia|].
  cbn [Indexer.run_loop].
  destruct (Indexer.signatures_fail chain call); [eauto|].
  destruct (Indexer.getSignaturesForAddress _ _ _ _) as [|latest tl] eqn:Epage;
    [eauto|].
  destruct (Indexer.process_page _ _ _ _ _) as [ok db1].
  destruct ok; [|eauto].
  apply IH.
  destruct (page_prefix chain Indexer.SIGNATURE_FETCH_LIMIT untilSignature before)
    as [rest Hrest].
  rewrite Epage in Hrest.
  rewrite (@older_after_page chain _ _ _ _ _ _ Hnd Epage Hrest).
  rewrite Hrest in Hlen. rewrite length_app in Hlen. simpl in Hlen. lia.
Qed.

Lemma run_returns (chain : Indexer.Chain) (config : Indexer.IndexerConfig)
  (clock : Clock) (db : Ledger) :
  NoDup (Indexer.history chain) ->
  exists st, Indexer.run chain config clock db = Some st.
Proof.
  intros Hnd. unfold Indexer.run. apply run_loop_returns; [exact Hnd|].
  simpl. lia.
Qed.

(** X12.  On a history without repeated signatures the scan returns, and
    what it leaves is the ledger it found with rows appended: no existing
    row is modified or removed, no event is written, every added row is in
    state DISCOVERED under the configured operator with the lifecycle
    columns null, and distinct pubkeys stay distinct. *)
Theorem run_only_appends_discovered_rows (chain : Indexer.Chain)
  (config : Indexer.IndexerConfig) (clock : Clock) (db : Ledger)
  (Hhistory : NoDup (Indexer.history chain)) :
  exists st,
    Indexer.run chain config clock db = Some st /\
    discovers config db (Indexer.ledger st).
Proof.
  destruct (@run_returns chain config clock db Hhistory) as [st Hrun].
  exists st. split; [exact Hrun|].
  unfold Indexer.run in Hrun.
  eapply run_loop_discovers; [|exact Hrun]. apply discovers_refl.
Qed.

(** ** A dry run of the scan *)

Lemma process_page_dry_run (chain : Indexer.Chain)
  (config : Indexer.IndexerConfig) (clock : Clock) (page : list string) :
  Indexer.dryRun config = true ->
  forall db, snd (Indexer.process_page chain config clock page db) = db.
Proof.
  intros Hdry.
  assert (Hvisit : forall tx l acc,
             snd (fold_left (Indexer.visit_instruction config clock tx) l acc)
             = snd acc).
  { intros tx l. induction l as [|i rest IH]; intros acc; [reflexivity|].
    cbn [fold_left]. rewrite IH. unfold Indexer.visit_instruction.
    destruct (Indexer.parsed i); [|reflexivity].
    destruct (_ && _ && _); [|reflexivity].
    cbn [snd]. destruct (Indexer.signatures tx); [reflexivity|].
    unfold Indexer.storeSponsoredAccount. now rewrite Hdry. }
  induction page as [|sig rest IH]; intros db; cbn [Indexer.process_page];
    [reflexivity|].
  destruct (Indexer.getParsedTransaction chain sig) as [| |tx];
    [reflexivity | apply IH |].
  destruct (Indexer.parseTransaction config clock tx db) as [[found db']|] eqn:E;
    [|reflexivity].
  rewrite IH. unfold Indexer.parseTransaction in E.
  destruct (Indexer.accountKeys tx); [discriminate|].
  destruct (_ || _); [now injection E|].
  injection E as E. pose proof (Hvisit tx (Indexer.instructions tx) (false, db)) as H.
  now rewrite E in H.
Qed.

Lemma run_loop_dry_run (chain : Indexer.Chain) (config : Indexer.IndexerConfig)
  (clock : Clock) (untilSignature : option string) (fuel : nat) :
  Indexer.dryRun config = true ->
  forall beforeSignature call st st',
    Indexer.run_loop fuel chain config clock untilSignature beforeSignature
      call st = Some st' ->
    st' = st.
Proof.
  intros Hdry. induction fuel as [|fuel IH]; intros before call st st';
    [discriminate|].
  cbn [Indexer.run_loop].
  destruct (Indexer.signatures_fail chain call); [now intros [= <-]|].
  destruct (Indexer.getSignaturesForAddress _ _ _ _) as [|latest tl];
    [now intros [= <-]|].
  pose proof (@process_page_dry_run chain config clock (latest :: tl) Hdry
                (Indexer.ledger st)) as Hp.
  destruct (Indexer.process_page _ _ _ _ _) as [ok db1].
  cbn [snd] in Hp. subst db1.
  assert (Est : {| Indexer.ledger := Indexer.ledger st;
                   Indexer.cursor_writes := Indexer.cursor_writes st |} = st)
    by now destruct st.
  rewrite Est. unfold Indexer.saveCursor. rewrite Hdry.
  destruct ok; [|now intros [= <-]].
  destruct (negb _); apply IH.
Qed.

(** X13.  With [dryRun] set, a scan over a history without repeated
    signatures returns and has written nothing: no row, no cursor. *)
Theorem run_dry_run_writes_nothing (chain : Indexer.Chain)
  (config : Indexer.IndexerConfig) (clock : Clock) (db : Ledger)
  (Hhistory : NoDup (Indexer.history chain))
  (Hdry : Indexer.dryRun config = true) :
  Indexer.run chain config clock db
  = Some {| Indexer.ledger := db; Indexer.cursor_writes := [] |}.
Proof.
  destruct (@run_returns chain config clock db Hhistory) as [st Hrun].
  rewrite Hrun. f_equal. unfold Indexer.run in Hrun.
  now apply (@run_loop_dry_run chain config clock _ _ Hdry) in Hrun.
Qed.

(** ** A first scan finds every sponsored account *)

Lemma discovers_has_account (config : Indexer.IndexerConfig) (db db' : Ledger)
  (k : string) :
  discovers config db db' -> has_account k db -> has_account k db'.
Proof.
  intros ((added & Hacc & _) & _) H. unfold has_account in *.
  rewrite Hacc, map_app. apply in_or_app. now left.
Qed.

Lemma storeSponsoredAccount_stores (config : Indexer.IndexerConfig)
  (clock : Clock) (pubkey creation : string) (slot : Z) (db : Ledger) :
  Indexer.dryRun config = false ->
  has_account pubkey
    (Indexer.storeSponsoredAccount config clock pubkey creation slot db).
Proof.
  intros Hlive. unfold Indexer.storeSponsoredAccount, has_account.
  rewrite Hlive. destruct (find_account pubkey db) as [a|] eqn:Ef.
  - unfold find_account in Ef. apply find_some in Ef. destruct Ef as [Ha Hk].
    apply String.eqb_eq in Hk. rewrite <- Hk. now apply in_map.
  - cbn [sponsored_accounts]. rewrite map_app. apply in_or_app. right.
    now left.
Qed.

Lemma parseTransaction_stores (config : Indexer.IndexerConfig) (clock : Clock)
  (tx : Indexer.Transaction) (db : Ledger) (k : string) :
  Indexer.dryRun config = false ->
  sponsors config tx k ->
  exists found db',
    Indexer.parseTransaction config clock tx db = Some (found, db') /\
    has_account k db'.
Proof.
  intros Hlive ((feePayer & rest & Hkeys & Hsigner & Hpayer) & Hsigs
                & instruction & p & Hin & Hp & Hprog & Htype & Hfrom & Hnew).
  unfold Indexer.parseTransaction. rewrite Hkeys, Hsigner, Hpayer.
  rewrite String.eqb_refl. cbn [negb orb].
  destruct (fold_left _ _ _) as [found db'] eqn:Efold.
  exists found, db'. split; [reflexivity|].
  change db' with (snd (found, db')). rewrite <- Efold. clear Efold.
  generalize (false, db). revert Hin.
  induction (Indexer.instructions tx) as [|i l IH]; intros Hin acc; [contradiction|].
  cbn [fold_left]. destruct Hin as [->|Hin]; [|now apply IH].
  eapply discovers_has_account; [apply visit_instructions_discover|].
  unfold Indexer.visit_instruction.
  rewrite Hp, Hprog, Htype, Hfrom, !String.eqb_refl. cbn [andb snd].
  destruct (Indexer.signatures tx) as [|sig sigs]; [contradiction|].
  rewrite Hnew. now apply storeSponsoredAccount_stores.
Qed.

Lemma process_page_stores (chain : Indexer.Chain)
  (config : Indexer.IndexerConfig) (clock : Clock) :
  Indexer.dryRun config = false ->
  responsive chain ->
  forall page db,
    fst (Indexer.process_page chain config clock page db) = true /\
    forall sig tx k,
      In sig page ->
      Indexer.getParsedTransaction chain sig = Indexer.TxOk tx ->
      sponsors config tx k ->
      has_account k (snd (Indexer.process_page chain config clock page db)).
Proof.
  intros Hlive [_ Hresp].
  induction page as [|s rest IH]; intros db; cbn [Indexer.process_page].
  - split; [reflexivity | contradiction].
  - pose proof (Hresp s) as Hs.
    destruct (Indexer.getParsedTransaction chain s) as [| |tx] eqn:Etx;
      [contradiction | |].
    + destruct (IH db) as [Hok Hall]. split; [exact Hok|].
      intros sig tx k [->|Hin] Hsig Hsp; [congruence|].
      now apply (Hall sig tx k).
    + destruct (Indexer.parseTransaction config clock tx db)
        as [[found db']|] eqn:Eparse.
      * destruct (IH db') as [Hok Hall]. split; [exact Hok|].
        intros sig tx' k [->|Hin] Hsig Hsp; [|now apply (Hall sig tx' k)].
        rewrite Etx in Hsig. injection Hsig as <-.
        destruct (@parseTransaction_stores config clock tx db k Hlive Hsp)
          as (found' & db'' & Hp & Hhas).
        rewrite Eparse in Hp. injection Hp as _ <-.
        eapply discovers_has_account; [apply process_page_discovers|].
        exact Hhas.
      * exfalso. unfold Indexer.parseTransaction in Eparse.
        destruct (Indexer.accountKeys tx); [contradiction|].
        destruct (_ || _); discriminate.
Qed.

Lemma run_loop_stores (chain : Indexer.Chain) (config : Indexer.IndexerConfig)
  (clock : Clock) :
  Indexer.dryRun config = false ->
  responsive chain ->
  NoDup (Indexer.history chain) ->
  forall fuel beforeSignature call st st',
    Indexer.run_loop fuel chain config clock None beforeSignature call st
    = Some st' ->
    forall sig tx k,
      In sig (older chain beforeSignature) ->
      Indexer.getParsedTransaction chain sig = Indexer.TxOk tx ->
      sponsors config tx k ->
      has_account k (Indexer.ledger st').
Proof.
  intros Hlive Hresp Hnd.
  induction fuel as [|fuel IH]; intros before call st st'; [discriminate|].
  cbn [Indexer.run_loop]. rewrite (proj1 Hresp call).
  destruct (page_prefix chain Indexer.SIGNATURE_FETCH_LIMIT None before)
    as [rest Hrest].
  destruct (Indexer.getSignaturesForAddress _ _ _ _) as [|latest tl] eqn:Epage.
  - intros _ sig tx k Hin. exfalso.
    unfold Indexer.getSignaturesForAddress in Epage. fold (older chain before) in Epage.
    destruct (older chain before); [contradiction | discriminate].
  - destruct (@process_page_stores chain config clock Hlive Hresp (latest :: tl)
                (Indexer.ledger st)) as [Hok Hall].
    destruct (Indexer.process_page _ _ _ _ _) as [ok db1].
    cbn [fst snd] in Hok, Hall. subst ok. cbn [Indexer.truthy negb].
    intros Hrun sig tx k Hin Hsig Hsp.
    rewrite Hrest in Hin. apply in_app_or in Hin. destruct Hin as [Hin|Hin].
    + eapply discovers_has_account.
      * eapply run_loop_discovers; [|exact Hrun].
        apply saveCursor_discovers. cbn [Indexer.ledger]. apply discovers_refl.
      * now apply (Hall sig tx k).
    + apply (IH _ _ _ _ Hrun sig tx k); [|exact Hsig | exact Hsp].
      now rewrite (@older_after_page chain _ _ _ _ _ _ Hnd Epage Hrest).
Qed.

(** X14.  A first live scan (no cursor stored) of a history without repeated
    signatures, on a chain that answers every request, returns with a row
    for every account the history shows the operator to have sponsored:
    for each transaction of the history in which the operator, as signing
    fee payer, creates an account through the System Program, the ledger
    holds that account. *)
Theorem run_discovers_every_sponsored_account (chain : Indexer.Chain)
  (config : Indexer.IndexerConfig) (clock : Clock) (db : Ledger)
  (sig newAccount : string) (tx : Indexer.Transaction)
  (Hhistory : NoDup (Indexer.history chain))
  (Hchain : responsive chain)
  (Hlive : Indexer.dryRun config = false)
  (Hfirst : Indexer.getCursor db = None)
  (Hsig : In sig (Indexer.history chain))
  (Htx : Indexer.getParsedTransaction chain sig = Indexer.TxOk tx)
  (Hsponsored : sponsors config tx newAccount) :
  exists st,
    Indexer.run chain config clock db = Some st /\
    In newAccount (map account_pubkey (sponsored_accounts (Indexer.ledger st))).
Proof.
  destruct (@run_returns chain config clock db Hhistory) as [st Hrun].
  exists st. split; [exact Hrun|].
  unfold Indexer.run in Hrun. rewrite Hfirst in Hrun.
  exact (@run_loop_stores chain config clock Hlive Hchain Hhistory _ _ _ _ _ Hrun
           sig tx newAccount Hsig Htx Hsponsored).
Qed.

(** ** The planner *)

Lemma slice_forward (A : Type) (l : list A) (k size : nat) :
  (0 < size)%nat ->
  slice l (Z.of_nat k) (Z.of_nat k + Z.of_nat size)
  = firstn size (skipn k l).
Proof.
  intros Hsize. unfold slice, relative_index.
  rewrite (proj2 (Z.ltb_ge (Z.of_nat k) 0)) by lia.
  rewrite (proj2 (Z.ltb_ge (Z.of_nat k + Z.of_nat size) 0)) by lia.
  destruct (Nat.le_gt_cases (List.length l) k) as [Hout|Hin].
  - rewrite !skipn_all2; [now rewrite !firstn_nil | exact Hout | lia].
  - replace (Z.to_nat (Z.min (Z.of_nat k) (Z.of_nat (List.length l)))) with k by lia.
    destruct (Nat.le_gt_cases (k + size) (List.length l)) as [Hfull|Hshort].
    + f_equal. lia.
    + rewrite !firstn_all2; [reflexivity | |]; rewrite length_skipn; lia.
Qed.

Lemma plan_loop_spec (now : nat -> Z)
  (accounts : list ReclaimerVerifier.VerifiedAccount) (fuel : nat) :
  forall k batchId,
    (List.length accounts - k <= fuel)%nat ->
    let batches :=
      ReclaimerPlanner.plan_loop fuel now accounts (Z.of_nat k) batchId in
    List.concat (map ReclaimerPlanner.accounts batches) = skipn k accounts /\
    Forall (fun b => (1 <= List.length (ReclaimerPlanner.accounts b) <= 10)%nat)
      batches /\
    (List.length accounts - k <= 10 * List.length batches
     < List.length accounts - k + 10)%nat.
Proof.
  induction fuel as [|fuel IH]; intros k batchId Hfuel; cbn zeta.
  - cbn [ReclaimerPlanner.plan_loop map List.concat List.length].
    rewrite skipn_all2 by lia. repeat split; [constructor | lia | lia].
  - cbn [ReclaimerPlanner.plan_loop].
    destruct (Z.of_nat k <? Z.of_nat (List.length accounts)) eqn:Ek.
    + assert (Hk : (k < List.length accounts)%nat) by lia.
      change ReclaimerPlanner.MAX_INSTRUCTIONS_PER_TX with (Z.of_nat 10).
      rewrite slice_forward by lia.
      rewrite <- Nat2Z.inj_add.
      destruct (IH (k + 10)%nat (S batchId)) as (Hcat & Hsizes & Hcount); [lia|].
      cbn [map List.concat ReclaimerPlanner.accounts List.length].
      rewrite Hcat. split; [|split].
      * rewrite <- (firstn_skipn 10 (skipn k accounts)) at 2.
        now rewrite skipn_skipn, (Nat.add_comm 10 k).
      * constructor; [|exact Hsizes]. cbn [ReclaimerPlanner.accounts].
        rewrite length_firstn, length_skipn. lia.
      * lia.
    + cbn [map List.concat List.length].
      rewrite skipn_all2 by lia. repeat split; [constructor | lia | lia].
Qed.

(** X15.  [plan] cuts the verified accounts into consecutive batches that
    lose and repeat nothing: the batches concatenated are the accounts, in
    order; every batch holds between 1 and 10 accounts; and there are as
    many batches as tens in the number of accounts, rounded up. *)
Theorem plan_partitions_accounts (now : nat -> Z)
  (accounts : list ReclaimerVerifier.VerifiedAccount) :
  List.concat (map ReclaimerPlanner.accounts (ReclaimerPlanner.plan now accounts))
  = accounts /\
  Forall (fun b => (1 <= List.length (ReclaimerPlanner.accounts b) <= 10)%nat)
    (ReclaimerPlanner.plan now accounts) /\
  (List.length accounts
   <= 10 * List.length (ReclaimerPlanner.plan now accounts)
   < List.length accounts + 10)%nat.
Proof.
  unfold ReclaimerPlanner.plan.
  destruct (@plan_loop_spec now accounts (List.length accounts) 0%nat 0%nat)
    as (Hcat & Hsizes & Hcount); [lia|].
  cbn zeta in *. change (Z.of_nat 0) with 0 in *.
  rewrite Nat.sub_0_r in Hcount. now rewrite skipn_O in Hcat.
Qed.

(** ** Statements on rows *)

Lemma update_account_rows (f : SponsoredAccount -> SponsoredAccount)
  (pubkey : string) (db : Ledger) :
  sponsored_accounts (update_account f pubkey db)
  = map (fun a => if (account_pubkey a =? pubkey)%string then f a else a)
      (sponsored_accounts db).
Proof. reflexivity. Qed.

Lemma named_In (pubkeys : list string) (a : SponsoredAccount) :
  named pubkeys a = true <-> In (account_pubkey a) pubkeys.
Proof. apply existsb_pubkey. Qed.

(** Updating the rows named one by one updates each row named once, when
    the update is idempotent and keeps the pubkey. *)
Lemma update_fold (f : SponsoredAccount -> SponsoredAccount)
  (Hkey : forall a, account_pubkey (f a) = account_pubkey a)
  (Hidem : forall a, f (f a) = f a) (pubkeys : list string) :
  forall db,
    let db' := fold_left (fun db k => update_account f k db) pubkeys db in
    sponsored_accounts db'
    = map (fun a => if named pubkeys a then f a else a) (sponsored_accounts db) /\
    lifecycle_events db' = lifecycle_events db /\
    system_kv_store db' = system_kv_store db /\
    event_seq db' = event_seq db.
Proof.
  induction pubkeys as [|k rest IH]; intros db; cbn zeta.
  - cbn [fold_left named existsb]. now rewrite map_id.
  - cbn [fold_left]. destruct (IH (update_account f k db)) as (Hr & He & Hk & Hs).
    cbn zeta in *. rewrite Hr, He, Hk, Hs. repeat split.
    rewrite update_account_rows, map_map. apply map_ext. intros a.
    unfold named. cbn [existsb].
    destruct (String.eqb_spec (account_pubkey a) k) as [E|Hne]; cbn [orb].
    + fold (named rest (f a)). fold (named rest a).
      destruct (named rest (f a)); [now rewrite Hidem | reflexivity].
    + reflexivity.
Qed.

Lemma filter_map_commute (A : Type) (p : A -> bool) (h : A -> A) (l : list A) :
  (forall a, In a l -> p (h a) = p a) ->
  filter p (map h l) = map h (filter p l).
Proof.
  induction l as [|x rest IH]; intros H; [reflexivity|].
  cbn [map filter]. rewrite (H x (or_introl eq_refl)).
  rewrite IH by (intros a Ha; apply H; now right).
  now destruct (p x).
Qed.

Lemma sql_limit_map (A B : Type) (h : A -> B) (limit : Z) (l : list A) :
  ReclaimerFetcher.sql_limit limit (map h l)
  = map h (ReclaimerFetcher.sql_limit limit l).
Proof.
  unfold ReclaimerFetcher.sql_limit. destruct (limit <? 0); [reflexivity|].
  apply firstn_map.
Qed.

(** ** Unlocking what was fetched *)

(** X16.  On a ledger with distinct pubkeys, [unlock] of the accounts a
    [fetchAndLock] returned undoes the fetch: afterwards the ledger differs
    from the one before the fetch in no column but [processing_lock], the
    events are untouched, and every query for candidates returns what it
    returned before. *)
Theorem unlock_undoes_fetchAndLock (limit limit' : Z) (workerId : string)
  (db : Ledger) (Hkeys : NoDup (map account_pubkey (sponsored_accounts db))) :
  let fetched := ReclaimerFetcher.fetchAndLock limit workerId db in
  let db' := unlock (map ReclaimerFetcher.account_pubkey (fst fetched))
               (snd fetched) in
  ReclaimerFetcher.select_candidates limit' db'
  = ReclaimerFetcher.select_candidates limit' db /\
  map (set_processing_lock None) (sponsored_accounts db')
  = map (set_processing_lock None) (sponsored_accounts db) /\
  lifecycle_events db' = lifecycle_events db.
Proof.
  intros fetched db'.
  pose proof (fetchAndLock_accounts limit workerId db) as Hlock.
  pose proof (fetchAndLock_returned limit workerId db) as Hgot.
  assert (Hev1 : lifecycle_events (snd fetched) = lifecycle_events db).
  { unfold fetched, ReclaimerFetcher.fetchAndLock.
    destruct (ReclaimerFetcher.select_candidates limit db); [reflexivity|].
    cbn [snd].
    apply (update_fold (set_processing_lock (Some workerId))); reflexivity. }
  change (ReclaimerFetcher.fetchAndLock limit workerId db) with fetched
    in Hlock, Hgot.
  clearbody fetched.
  set (got := map ReclaimerFetcher.account_pubkey (fst fetched)) in *.
  assert (Hfold : forall d,
             sponsored_accounts (unlock got d)
             = map (fun a => if named got a then set_processing_lock None a
                             else a)
                 (sponsored_accounts d) /\
             lifecycle_events (unlock got d) = lifecycle_events d).
  { intros d. unfold unlock.
    destruct (@update_fold (set_processing_lock None)
                (fun a => eq_refl) (fun a => eq_refl) got d) as (Hr & He & _).
    cbn zeta in Hr, He.
    destruct got; [split; [now rewrite map_id | reflexivity]|]. now split. }
  assert (Hrows : sponsored_accounts db'
                  = map (fun a => if named got a then set_processing_lock None a
                                  else a)
                      (sponsored_accounts db)).
  { subst db'. rewrite (proj1 (Hfold _)), Hlock.
    unfold lock_rows. rewrite map_map.
    apply map_ext. intros a. fold (named got a).
    destruct (named got a) eqn:En; [|now rewrite En].
    unfold named in *. cbn [set_processing_lock account_pubkey].
    now rewrite En. }
  split; [|split].
  - unfold ReclaimerFetcher.select_candidates. rewrite Hrows.
    rewrite filter_map_commute.
    + rewrite sql_limit_map, map_map. apply map_ext. intros a.
      unfold row_pubkey, row_lamports. now destruct (named got a).
    + intros a Ha. destruct (named got a) eqn:En; [|reflexivity].
      apply named_In in En. subst got.
      rewrite Hgot in En. apply in_map_iff in En.
      destruct En as (r & Hr & Hin). apply select_candidates_In in Hin.
      destruct Hin as (c & Hc & Hcand & Hk & _).
      assert (E : c = a).
      { apply (@NoDup_map_inj _ _ account_pubkey _ c a Hkeys Hc Ha). congruence. }
      subst c. rewrite Hcand.
      unfold ReclaimerFetcher.is_candidate, ReclaimerFetcher.unlocked in *.
      cbn [set_processing_lock lifecycle_state processing_lock].
      apply andb_true_iff in Hcand. destruct Hcand as [-> _]. reflexivity.
  - rewrite Hrows, map_map. apply map_ext. intros a.
    now destruct (named got a).
  - subst db'. now rewrite (proj2 (Hfold _)).
Qed.

(** ** Transactions over the rows named *)

Lemma has_row_update (f : SponsoredAccount -> SponsoredAccount)
  (Hkey : forall a, account_pubkey (f a) = account_pubkey a)
  (k pubkey : string) (db : Ledger) :
  has_row k (update_account f pubkey db) = has_row k db.
Proof.
  unfold has_row. rewrite update_account_rows.
  induction (sponsored_accounts db) as [|a rest IH]; [reflexivity|].
  cbn [map existsb]. rewrite IH. f_equal.
  destruct (account_pubkey a =? pubkey)%string; [now rewrite Hkey | reflexivity].
Qed.

Lemma has_row_In (k : string) (db : Ledger) :
  has_row k db = true <-> In k (map account_pubkey (sponsored_accounts db)).
Proof.
  unfold has_row. rewrite existsb_exists, in_map_iff.
  split; intros (a & H1 & H2).
  - apply String.eqb_eq in H2. now exists a.
  - exists a. split; [exact H2 | now apply String.eqb_eq].
Qed.

Lemma forallb_pointwise (A : Type) (p q : A -> bool) (l : list A) :
  (forall a, p a = q a) -> forallb p l = forallb q l.
Proof.
  intros H. induction l as [|a rest IH]; [reflexivity|].
  cbn [forallb]. now rewrite H, IH.
Qed.

Section ForEach.
Variable clock : Clock.
Variable f : SponsoredAccount -> SponsoredAccount.
Hypothesis f_key : forall a, account_pubkey (f a) = account_pubkey a.
Hypothesis f_idem : forall a, f (f a) = f a.
Variables oldState newState reason : string.
Variable payload : option string.

Let step (pubkey : string) (db : Ledger) : option Ledger :=
  insert_event_checked clock pubkey oldState newState reason payload
    (update_account f pubkey db).

Lemma for_each_done (pubkeys : list string) :
  forall db,
    forallb (fun k => has_row k db) pubkeys = true ->
    exists db',
      ReclaimerReporter.for_each step pubkeys db = Some db' /\
      sponsored_accounts db'
      = map (fun a => if named pubkeys a then f a else a) (sponsored_accounts db) /\
      (exists added,
          lifecycle_events db' = lifecycle_events db ++ added /\
          map event_record added
          = map (fun k => (k, oldState, newState, reason, payload)) pubkeys) /\
      system_kv_store db' = system_kv_store db.
Proof.
  induction pubkeys as [|k rest IH]; intros db Hrows.
  - exists db. cbn [ReclaimerReporter.for_each named existsb map].
    split; [reflexivity|]. split; [now rewrite map_id|].
    split; [|reflexivity]. exists []. now rewrite app_nil_r.
  - cbn [forallb] in Hrows. apply andb_true_iff in Hrows.
    destruct Hrows as [Hk Hrest].
    cbn [ReclaimerReporter.for_each]. unfold step at 1, insert_event_checked.
    rewrite has_row_update by exact f_key. rewrite Hk.
    destruct (IH (insert_event clock k oldState newState reason payload
                    (update_account f k db)))
      as (db' & Hrun & Hacc & (added & Hev & Hrec) & Hkv).
    { rewrite <- Hrest. apply forallb_pointwise. intros k'.
      unfold has_row at 1. cbn [insert_event sponsored_accounts].
      now apply has_row_update. }
    exists db'. split; [exact Hrun|].
    cbn [insert_event sponsored_accounts lifecycle_events system_kv_store] in *.
    rewrite Hacc, Hev, Hkv. split; [|split; [|reflexivity]].
    + rewrite update_account_rows, map_map. apply map_ext. intros a.
      unfold named. cbn [existsb].
      destruct (String.eqb_spec (account_pubkey a) k) as [E|Hne]; cbn [orb].
      * fold (named rest (f a)). fold (named rest a).
        unfold named. rewrite f_key. fold (named rest a).
        destruct (named rest a); [now rewrite f_idem | reflexivity].
      * reflexivity.
    + eexists. rewrite <- app_assoc. split; [reflexivity|].
      cbn [app map event_record event_account old_state new_state
           trigger_reason evidence_payload]. now rewrite Hrec.
Qed.

End ForEach.

Lemma settle_key (a : SponsoredAccount) :
  account_pubkey (ReclaimerReporter.settle a) = account_pubkey a.
Proof. reflexivity. Qed.

Lemma release_key (state : string) (a : SponsoredAccount) :
  account_pubkey (ReclaimerReporter.release state a) = account_pubkey a.
Proof. reflexivity. Qed.


(** ** Updates of one row *)

Lemma apply_updates_app (u1 u2 : list row_update) (a : SponsoredAccount) :
  apply_updates (u1 ++ u2) a = apply_updates u2 (apply_updates u1 a).
Proof. apply fold_left_app. Qed.

Lemma apply_updates_key (us : list row_update) :
  Forall keeps_key us ->
  forall a, account_pubkey (apply_updates us a) = account_pubkey a.
Proof.
  induction 1 as [|u us Hu _ IH]; intros a; [reflexivity|].
  cbn [apply_updates fold_left]. fold (apply_updates us).
  rewrite IH. destruct (account_pubkey a =? fst u)%string; [apply Hu | reflexivity].
Qed.

Lemma apply_updates_none (us : list row_update) (a : SponsoredAccount) :
  ~ In (account_pubkey a) (map fst us) -> apply_updates us a = a.
Proof.
  revert a. induction us as [|u us IH]; intros a Hnin; [reflexivity|].
  cbn [apply_updates fold_left]. fold (apply_updates us).
  cbn [map] in Hnin.
  destruct (String.eqb_spec (account_pubkey a) (fst u)) as [E|_].
  - exfalso. apply Hnin. left. now symmetry.
  - apply IH. intros H. apply Hnin. now right.
Qed.

Lemma apply_updates_found (us : list row_update) :
  Forall keeps_key us -> NoDup (map fst us) ->
  forall a h, In (account_pubkey a, h) us -> apply_updates us a = h a.
Proof.
  induction 1 as [|u us Hu Hus IH]; intros Hnd a h Hin; [contradiction|].
  cbn [map] in Hnd. inversion Hnd as [|? ? Hnin Hnd']; subst.
  cbn [apply_updates fold_left]. fold (apply_updates us).
  destruct Hin as [->|Hin].
  - cbn [fst snd]. rewrite String.eqb_refl.
    apply apply_updates_none. cbn [fst] in Hnin.
    pose proof (Hu a) as E. cbn [snd] in E. now rewrite E.
  - destruct (String.eqb_spec (account_pubkey a) (fst u)) as [E|_].
    + exfalso. apply Hnin. rewrite <- E.
      change (account_pubkey a) with (fst (account_pubkey a, h)).
      now apply in_map.
    + now apply IH.
Qed.

Lemma named_updates (f : SponsoredAccount -> SponsoredAccount)
  (Hkey : forall a, account_pubkey (f a) = account_pubkey a)
  (Hidem : forall a, f (f a) = f a) (ks : list string) :
  forall a,
    apply_updates (map (fun k => (k, f)) ks) a
    = if named ks a then f a else a.
Proof.
  induction ks as [|k rest IH]; intros a; [reflexivity|].
  cbn [map apply_updates fold_left fst snd]. fold (apply_updates (map (fun k => (k, f)) rest)).
  unfold named. cbn [existsb].
  destruct (String.eqb_spec (account_pubkey a) k) as [E|_]; cbn [orb].
  - rewrite IH. unfold named. rewrite Hkey.
    destruct (existsb _ rest); [apply Hidem | reflexivity].
  - rewrite IH. reflexivity.
Qed.

(** ** The reporter, on rows *)

Lemma recordSkip_rows (clock : Clock) (pubkey reason status : string)
  (r : ReclaimerReporter.t) :
  rows (ReclaimerReporter.recordSkip clock pubkey reason status r)
  = map (apply_updates [(pubkey, ReclaimerReporter.release status)]) (rows r).
Proof.
  unfold rows, ReclaimerReporter.recordSkip, insert_event_checked.
  destruct (has_row _ _); reflexivity.
Qed.

Lemma recordSkips_rows (clock : Clock)
  (invalid : list ReclaimerVerifier.InvalidAccount) :
  forall r,
    rows (fold_left
            (fun r inv =>
               ReclaimerReporter.recordSkip clock (ReclaimerVerifier.pubkey inv)
                 (ReclaimerVerifier.reason inv) (ReclaimerVerifier.status inv) r)
            invalid r)
    = map (apply_updates (skip_updates invalid)) (rows r).
Proof.
  induction invalid as [|inv rest IH]; intros r.
  - cbn [fold_left skip_updates map]. symmetry. apply map_id.
  - cbn [fold_left]. rewrite IH, recordSkip_rows, map_map.
    apply map_ext. intros a. reflexivity.
Qed.

Lemma rows_keys (us : list row_update) (l : list SponsoredAccount) :
  Forall keeps_key us ->
  map account_pubkey (map (apply_updates us) l) = map account_pubkey l.
Proof.
  intros H. rewrite map_map. apply map_ext. intros a.
  now apply apply_updates_key.
Qed.

Lemma batch_outcome_keeps_key (dry : bool)
  (g : SponsoredAccount -> SponsoredAccount) :
  batch_outcome dry g -> forall a, account_pubkey (g a) = account_pubkey a.
Proof. intros [->|[_ ->]] a; reflexivity. Qed.

Lemma recordSuccess_rows (clock : Clock) (pubkeys : list string)
  (signature : string) (lamports : Z) (r : ReclaimerReporter.t) :
  Forall (fun k => In k (map account_pubkey (rows r))) pubkeys ->
  rows (ReclaimerReporter.recordSuccess clock pubkeys signature lamports r)
  = map (apply_updates (map (fun k => (k, ReclaimerReporter.settle)) pubkeys))
      (rows r).
Proof.
  intros Hall. unfold rows, ReclaimerReporter.recordSuccess.
  destruct (@for_each_done clock ReclaimerReporter.settle settle_key
              (fun a => eq_refl) "RECLAIMABLE" "RECLAIMED" "Reclamation Success"
              (Some (ReclaimerReporter.success_payload signature lamports))
              pubkeys (ReclaimerReporter.db r))
    as (db' & Hrun & Hacc & _).
  { apply forallb_forall. rewrite Forall_forall in Hall.
    intros k Hk. apply has_row_In. now apply Hall. }
  rewrite Hrun. cbn [ReclaimerReporter.db]. rewrite Hacc.
  apply map_ext. intros a. symmetry. now apply named_updates.
Qed.

Lemma recordFailure_rows (clock : Clock) (pubkeys : list string)
  (error : string) (r : ReclaimerReporter.t) :
  Forall (fun k => In k (map account_pubkey (rows r))) pubkeys ->
  rows (ReclaimerReporter.recordFailure clock pubkeys error r)
  = map (apply_updates
           (map (fun k => (k, ReclaimerReporter.release "FAILED")) pubkeys))
      (rows r).
Proof.
  intros Hall. unfold rows, ReclaimerReporter.recordFailure.
  destruct (@for_each_done clock (ReclaimerReporter.release "FAILED")
              (release_key "FAILED") (fun a => eq_refl)
              "RECLAIMABLE" "FAILED" ("Tx Error: " ++ error)%string
              (Some (timestamp_payload clock))
              pubkeys (ReclaimerReporter.db r))
    as (db' & Hrun & Hacc & _).
  { apply forallb_forall. rewrite Forall_forall in Hall.
    intros k Hk. apply has_row_In. now apply Hall. }
  rewrite Hrun. cbn [ReclaimerReporter.db]. rewrite Hacc.
  apply map_ext. intros a. symmetry. now apply named_updates.
Qed.

Lemma executeBatch_dry_run (rpc : Rpc) (batch : ReclaimerPlanner.ReclaimBatch) :
  ReclaimerExecutor.success (ReclaimerExecutor.executeBatch rpc true batch) = true.
Proof.
  unfold ReclaimerExecutor.executeBatch.
  now destruct (ReclaimerPlanner.accounts batch).
Qed.

Lemma report_batch_rows (rpc : Rpc)
  (config : ReclaimerOrchestrator.ReclaimerConfig) (clock : Clock)
  (r : ReclaimerReporter.t) (batch : ReclaimerPlanner.ReclaimBatch) :
  Forall (fun k => In k (map account_pubkey (rows r))) (batch_pubkeys batch) ->
  exists g,
    batch_outcome (ReclaimerOrchestrator.dryRun config) g /\
    rows (ReclaimerOrchestrator.report_batch rpc config clock r batch)
    = map (apply_updates (map (fun k => (k, g)) (batch_pubkeys batch))) (rows r).
Proof.
  intros Hall. unfold ReclaimerOrchestrator.report_batch.
  fold (batch_pubkeys batch).
  destruct (ReclaimerExecutor.success _) eqn:Es.
  - exists ReclaimerReporter.settle. split; [now left|].
    now apply recordSuccess_rows.
  - exists (ReclaimerReporter.release "FAILED"). split.
    + right. split; [|reflexivity].
      destruct (ReclaimerOrchestrator.dryRun config); [|reflexivity].
      now rewrite executeBatch_dry_run in Es.
    + now apply recordFailure_rows.
Qed.

Lemma report_batches_rows (rpc : Rpc)
  (config : ReclaimerOrchestrator.ReclaimerConfig) (clock : Clock)
  (batches : list ReclaimerPlanner.ReclaimBatch) :
  forall r,
    Forall (fun k => In k (map account_pubkey (rows r)))
      (flat_map batch_pubkeys batches) ->
    exists us,
      map fst us = flat_map batch_pubkeys batches /\
      Forall (fun u => batch_outcome (ReclaimerOrchestrator.dryRun config) (snd u))
        us /\
      rows (fold_left (ReclaimerOrchestrator.report_batch rpc config clock)
              batches r)
      = map (apply_updates us) (rows r).
Proof.
  induction batches as [|batch rest IH]; intros r Hall.
  - exists []. cbn [fold_left flat_map map]. split; [reflexivity|].
    split; [constructor|]. symmetry. apply map_id.
  - cbn [flat_map] in Hall. apply Forall_app in Hall. destruct Hall as [H1 H2].
    destruct (report_batch_rows rpc config clock r batch H1) as (g & Hg & Hrows).
    assert (Hkeys : Forall keeps_key (map (fun k => (k, g)) (batch_pubkeys batch))).
    { apply Forall_forall. intros u Hu. apply in_map_iff in Hu.
      destruct Hu as (k & <- & _). intros a. cbn [snd].
      now apply (batch_outcome_keeps_key Hg). }
    destruct (IH (ReclaimerOrchestrator.report_batch rpc config clock r batch))
      as (us & Hfst & Hout & Hrest).
    { rewrite Hrows, rows_keys by exact Hkeys. exact H2. }
    exists (map (fun k => (k, g)) (batch_pubkeys batch) ++ us).
    split; [|split].
    + rewrite map_app, map_map, Hfst. cbn [fst flat_map]. now rewrite map_id.
    + apply Forall_app. split; [|exact Hout].
      apply Forall_forall. intros u Hu. apply in_map_iff in Hu.
      destruct Hu as (k & <- & _). exact Hg.
    + cbn [fold_left]. rewrite Hrest, Hrows, map_map.
      apply map_ext. intros a. now rewrite apply_updates_app.
Qed.

(** ** One round of the orchestrator *)

Lemma batch_pubkeys_concat (l : list ReclaimerPlanner.ReclaimBatch) :
  flat_map batch_pubkeys l
  = map ReclaimerVerifier.account_pubkey
      (List.concat (map ReclaimerPlanner.accounts l)).
Proof.
  induction l as [|b rest IH]; [reflexivity|].
  cbn [flat_map map List.concat]. now rewrite map_app, IH.
Qed.

Lemma plan_concat (now : nat -> Z)
  (accounts : list ReclaimerVerifier.VerifiedAccount) :
  flat_map batch_pubkeys (ReclaimerPlanner.plan now accounts)
  = map ReclaimerVerifier.account_pubkey accounts.
Proof.
  rewrite batch_pubkeys_concat. f_equal.
  unfold ReclaimerPlanner.plan.
  destruct (@plan_loop_spec now accounts (List.length accounts) 0%nat 0%nat)
    as (Hcat & _); [lia|].
  cbn zeta in Hcat. change (Z.of_nat 0) with 0 in Hcat.
  now rewrite skipn_O in Hcat.
Qed.

Lemma paired_answers (chain : string -> option ReclaimerVerifier.AccountInfo)
  (cands : list ReclaimerFetcher.ReclaimableAccount) :
  forall pre,
    paired cands (List.length pre)
      (pre ++ map chain (map ReclaimerFetcher.account_pubkey cands))
    = paired_with chain cands.
Proof.
  induction cands as [|c rest IH]; intros pre; [reflexivity|].
  cbn [paired paired_with map]. f_equal.
  - f_equal. unfold ReclaimerVerifier.info_at.
    rewrite nth_error_app2 by lia. now rewrite Nat.sub_diag.
  - specialize (IH (pre ++ [chain (ReclaimerFetcher.account_pubkey c)])).
    rewrite length_app, Nat.add_1_r, <- app_assoc in IH. exact IH.
Qed.

Lemma jit_partition
  (pairs : list (ReclaimerFetcher.ReclaimableAccount
                 * option ReclaimerVerifier.AccountInfo)) :
  Permutation
    (map fst (flat_map outcome_of pairs)
     ++ map ReclaimerVerifier.account_pubkey (flat_map verified_of pairs))
    (map (fun p => ReclaimerFetcher.account_pubkey (fst p)) pairs).
Proof.
  induction pairs as [|p rest IH]; [constructor|].
  cbn [flat_map map]. rewrite !map_app.
  unfold outcome_of at 1, verified_of at 1.
  destruct (jit_rules (snd p)); cbn [map app fst ReclaimerVerifier.account_pubkey].
  - now constructor.
  - now constructor.
  - apply Permutation_sym, Permutation_cons_app, Permutation_sym. exact IH.
Qed.

Lemma jit_partition_with
  (chain : string -> option ReclaimerVerifier.AccountInfo)
  (cands : list ReclaimerFetcher.ReclaimableAccount) :
  Permutation
    (map fst (flat_map outcome_of (paired_with chain cands))
     ++ map ReclaimerVerifier.account_pubkey
          (flat_map verified_of (paired_with chain cands)))
    (map ReclaimerFetcher.account_pubkey cands).
Proof.
  rewrite jit_partition. unfold paired_with. rewrite map_map. reflexivity.
Qed.

Lemma NoDup_firstn (A : Type) (n : nat) (l : list A) :
  NoDup l -> NoDup (firstn n l).
Proof.
  intros H. rewrite <- (firstn_skipn n l) in H.
  now apply NoDup_app_remove_r in H.
Qed.

Lemma sql_limit_nonempty (A : Type) (limit : Z) (l : list A) :
  limit <> 0 -> l <> [] -> ReclaimerFetcher.sql_limit limit l <> [].
Proof.
  intros Hl Hne. unfold ReclaimerFetcher.sql_limit.
  destruct (limit <? 0) eqn:E; [exact Hne|].
  destruct l as [|x rest]; [contradiction|].
  destruct (Z.to_nat limit) eqn:En; [lia | discriminate].
Qed.

Lemma or_default_nonzero (x : option Z) (fallback : Z) :
  fallback <> 0 -> or_default x fallback <> 0.
Proof.
  intros H. unfold or_default. destruct x as [z|]; [|exact H].
  destruct (Z.eqb_spec z 0); [exact H | assumption].
Qed.

Lemma verify_nonempty (accounts : list ReclaimerFetcher.ReclaimableAccount)
  (accountInfos : list (option ReclaimerVerifier.AccountInfo)) :
  accounts <> [] ->
  forallb (fun a => valid_pubkey (ReclaimerFetcher.account_pubkey a)) accounts
  = true ->
  ReclaimerVerifier.verify accounts accountInfos
  = Some (ReclaimerVerifier.loop accounts 0 accountInfos
            {| ReclaimerVerifier.valid := []; ReclaimerVerifier.invalid := [] |}).
Proof.
  intros Hne Hv. unfold ReclaimerVerifier.verify.
  destruct accounts; [contradiction|]. now rewrite Hv.
Qed.

Lemma round_rows (rpc : Rpc) (config : ReclaimerOrchestrator.ReclaimerConfig)
  (clock : Clock) (now : nat -> Z) (workerId : string)
  (chain : string -> option ReclaimerVerifier.AccountInfo)
  (r : ReclaimerReporter.t) :
  answers rpc chain ->
  NoDup (map account_pubkey (rows r)) ->
  Forall (fun a => valid_pubkey (account_pubkey a) = true)
    (candidate_rows (ReclaimerReporter.db r)) ->
  candidate_rows (ReclaimerReporter.db r) <> [] ->
  exists r' us,
    ReclaimerOrchestrator.round rpc config clock now workerId r
    = ReclaimerOrchestrator.Again r' /\
    rows r' = map (apply_updates us) (rows r) /\
    Forall keeps_key us /\
    forall a,
      In a (rows r) ->
      if named (map account_pubkey
                  (fetched_rows config (ReclaimerReporter.db r))) a
      then processed (ReclaimerOrchestrator.dryRun config) chain a
             (apply_updates us a)
      else apply_updates us a = a.
Proof.
  intros Hrpc Hnd Hvalid Hsome.
  set (fetched := fetched_rows config (ReclaimerReporter.db r)).
  set (C := map account_pubkey fetched).
  assert (Hfetched : forall a, In a fetched ->
                               In a (rows r) /\ ReclaimerFetcher.is_candidate a = true).
  { intros a Ha. apply sql_limit_In in Ha. unfold candidate_rows in Ha.
    now apply filter_In in Ha. }
  assert (HC : forall a, In a (rows r) -> In (account_pubkey a) C ->
                         In a fetched).
  { intros a Ha Hk. apply in_map_iff in Hk. destruct Hk as (c & Hk & Hc).
    destruct (Hfetched c Hc) as [Hc' _].
    now rewrite <- (@NoDup_map_inj _ _ account_pubkey _ c a Hnd Hc' Ha Hk). }
  assert (HCnd : NoDup C).
  { unfold C, fetched, fetched_rows, ReclaimerFetcher.sql_limit.
    assert (H : NoDup (map account_pubkey
                         (candidate_rows (ReclaimerReporter.db r))))
      by now apply NoDup_map_filter.
    destruct (_ <? 0); [exact H|]. rewrite <- firstn_map. now apply NoDup_firstn. }
  assert (HCrows : Forall (fun k => In k (map account_pubkey (rows r))) C).
  { apply Forall_forall. intros k Hk. apply in_map_iff in Hk.
    destruct Hk as (c & <- & Hc). apply in_map. now apply Hfetched. }
  assert (Hne : fetched <> []).
  { apply sql_limit_nonempty; [now apply or_default_nonzero | exact Hsome]. }
  pose (cands := map (fun a => {| ReclaimerFetcher.account_pubkey := row_pubkey a;
                                 ReclaimerFetcher.lamports := row_lamports a |})
                   fetched).
  assert (Hcands : map ReclaimerFetcher.account_pubkey cands = C).
  { unfold cands, C. rewrite map_map. reflexivity. }
  unfold ReclaimerOrchestrator.round.
  pose proof (fetchAndLock_returned
                (or_default (ReclaimerOrchestrator.batchSize config) 100)
                workerId (ReclaimerReporter.db r)) as Hgot.
  pose proof (fetchAndLock_accounts
                (or_default (ReclaimerOrchestrator.batchSize config) 100)
                workerId (ReclaimerReporter.db r)) as Hlock.
  destruct (ReclaimerFetcher.fetchAndLock _ workerId (ReclaimerReporter.db r))
    as [got db1].
  cbn [fst snd] in Hgot, Hlock.
  change (ReclaimerFetcher.select_candidates
            (or_default (ReclaimerOrchestrator.batchSize config) 100)
            (ReclaimerReporter.db r)) with cands in Hgot.
  subst got. rewrite Hcands in Hlock.
  destruct cands as [|c0 crest] eqn:Ecands.
  { exfalso. unfold cands in Ecands. destruct fetched; [now apply Hne | discriminate]. }
  rewrite <- Ecands in *. clear c0 crest Ecands.
  (* the addresses are public keys *)
  assert (Hv : forallb (fun c => valid_pubkey (ReclaimerFetcher.account_pubkey c))
                 cands = true).
  { apply forallb_forall. intros c Hc. unfold cands in Hc.
    apply in_map_iff in Hc. destruct Hc as (a & <- & Ha).
    cbn [ReclaimerFetcher.account_pubkey]. unfold row_pubkey.
    rewrite Forall_forall in Hvalid. apply Hvalid.
    apply sql_limit_In in Ha. exact Ha. }
  assert (Hcne : cands <> []).
  { unfold cands. destruct fetched; [now elim Hne | discriminate]. }
  destruct cands as [|c0 crest] eqn:Ecands; [now elim Hcne|].
  rewrite <- Ecands in *. rewrite Hv. cbn [negb].
  rewrite Hcands, (Hrpc C).
  rewrite (verify_nonempty (map chain C) Hcne Hv).
  destruct (loop_outcome cands (map chain C) 0
              {| ReclaimerVerifier.valid := []; ReclaimerVerifier.invalid := [] |})
    as [Hval Hinv].
  cbn [ReclaimerVerifier.valid ReclaimerVerifier.invalid map app] in Hval, Hinv.
  rewrite <- Hcands in Hval, Hinv.
  pose proof (paired_answers chain cands []) as Hpairs.
  cbn [List.length app] in Hpairs. rewrite Hpairs in Hval, Hinv. clear Hpairs.
  rewrite Hcands in *.
  set (verdict := ReclaimerVerifier.loop cands 0 (map chain C) _) in *.
  clearbody verdict.
  pose proof (jit_partition_with chain cands) as Hpart.
  rewrite Hcands in Hpart.
  (* the updates of the round *)
  set (lock_us := map (fun k => (k, set_processing_lock (Some workerId))) C
                  : list row_update).
  set (r2 := {| ReclaimerReporter.db := db1; ReclaimerReporter.metrics := _ |}).
  assert (Hr2 : rows r2 = map (apply_updates lock_us) (rows r)).
  { unfold rows at 1. cbn [ReclaimerReporter.db r2]. rewrite Hlock.
    unfold lock_rows. apply map_ext. intros a. symmetry.
    apply (named_updates (set_processing_lock (Some workerId)));
      intros; reflexivity. }
  assert (Hlock_keys : Forall keeps_key lock_us).
  { apply Forall_forall. intros u Hu. apply in_map_iff in Hu.
    destruct Hu as (k & <- & _). intros a. reflexivity. }
  assert (Hskip_keys : Forall keeps_key
                         (skip_updates (ReclaimerVerifier.invalid verdict))).
  { apply Forall_forall. intros u Hu. apply in_map_iff in Hu.
    destruct Hu as (k & <- & _). intros a. reflexivity. }
  pose proof (recordSkips_rows clock (ReclaimerVerifier.invalid verdict) r2) as Hr3.
  set (r3 := fold_left _ (ReclaimerVerifier.invalid verdict) r2) in *.
  (* the batches *)
  match goal with
  | |- exists r' us, ?T = _ /\ _ =>
      assert (Hbatches :
                exists us,
                  map fst us
                  = map ReclaimerVerifier.account_pubkey
                      (ReclaimerVerifier.valid verdict) /\
                  Forall (fun u =>
                            batch_outcome (ReclaimerOrchestrator.dryRun config)
                              (snd u)) us /\
                  exists r',
                    T = ReclaimerOrchestrator.Again r' /\
                    rows r' = map (apply_updates us) (rows r3))
  end.
  { destruct (ReclaimerVerifier.valid verdict) as [|v vs] eqn:Ev.
    - exists []. split; [reflexivity|]. split; [constructor|].
      exists r3. split; [reflexivity|]. symmetry. apply map_id.
    - match goal with
      | |- context [fold_left (ReclaimerOrchestrator.report_batch _ _ _) _ ?x] =>
          set (r4 := x)
      end.
      destruct (report_batches_rows rpc config clock
                  (ReclaimerPlanner.plan now (v :: vs)) r4)
        as (us & Hfst & Hout & Hrows).
      { rewrite plan_concat, Hval.
        change (rows r4) with (rows r3). rewrite Hr3, Hr2.
        rewrite !rows_keys by assumption.
        apply Forall_forall. intros k Hk.
        rewrite Forall_forall in HCrows. apply HCrows.
        apply (Permutation_in k Hpart). apply in_or_app. now right. }
      exists us. split; [now rewrite Hfst, plan_concat|]. split; [exact Hout|].
      eexists. split; [reflexivity|]. exact Hrows. }
  destruct Hbatches as (us & Hfst & Hout & r' & Hround & Hrows).
  exists r', (lock_us ++ skip_updates (ReclaimerVerifier.invalid verdict) ++ us).
  split; [exact Hround|].
  assert (Hus_keys : Forall keeps_key us).
  { apply Forall_forall. intros u Hu. rewrite Forall_forall in Hout.
    intros a. now apply (batch_outcome_keeps_key (Hout u Hu)). }
  split; [|split].
  - rewrite Hrows, Hr3, Hr2, !map_map. apply map_ext. intros a.
    now rewrite !apply_updates_app.
  - repeat (apply Forall_app; split); assumption.
  - intros a Ha.
    set (rest := skip_updates (ReclaimerVerifier.invalid verdict) ++ us).
    assert (Hrest_keys : map fst rest
                         = map fst (flat_map outcome_of (paired_with chain cands))
                           ++ map ReclaimerVerifier.account_pubkey
                                (flat_map verified_of (paired_with chain cands))).
    { unfold rest. rewrite map_app. f_equal.
      - unfold skip_updates. rewrite map_map. cbn [fst].
        rewrite <- Hinv, map_map. reflexivity.
      - rewrite <- Hval. exact Hfst. }
    assert (Hperm : Permutation (map fst rest) C).
    { rewrite Hrest_keys. exact Hpart. }
    rewrite apply_updates_app. fold rest.
    destruct (named C a) eqn:En.
    + apply named_In in En.
      assert (Hlocked : apply_updates lock_us a
                        = set_processing_lock (Some workerId) a).
      { unfold lock_us.
        rewrite (named_updates (set_processing_lock (Some workerId)))
          by (intros; reflexivity).
        now rewrite (proj2 (named_In C a) En). }
      rewrite Hlocked.
      assert (Hin_pairs : In ({| ReclaimerFetcher.account_pubkey := row_pubkey a;
                                 ReclaimerFetcher.lamports := row_lamports a |},
                              chain (account_pubkey a))
                            (paired_with chain cands)).
      { unfold paired_with. apply in_map_iff.
        exists {| ReclaimerFetcher.account_pubkey := row_pubkey a;
                  ReclaimerFetcher.lamports := row_lamports a |}.
        split; [reflexivity|].
        apply (in_map (fun a0 => {| ReclaimerFetcher.account_pubkey := row_pubkey a0;
                                    ReclaimerFetcher.lamports := row_lamports a0 |})
                 fetched a).
        now apply HC. }
      assert (Hfound : forall h,
                 In (account_pubkey a, h) rest ->
                 apply_updates rest (set_processing_lock (Some workerId) a)
                 = h (set_processing_lock (Some workerId) a)).
      { intros h Hh. apply apply_updates_found.
        - apply Forall_app. now split.
        - eapply Permutation_NoDup; [apply Permutation_sym, Hperm | exact HCnd].
        - exact Hh. }
      unfold processed.
      destruct (jit_rules (chain (account_pubkey a))) as [| |n] eqn:Ejit.
      * assert (Hi : In (account_pubkey a, "closed_zero")
                       (flat_map outcome_of (paired_with chain cands))).
        { apply in_flat_map. eexists. split; [exact Hin_pairs|].
          unfold outcome_of. cbn [fst snd ReclaimerFetcher.account_pubkey].
          rewrite Ejit. now left. }
        rewrite <- Hinv in Hi. apply in_map_iff in Hi.
        destruct Hi as (inv & Hi & Hinv_in).
        injection Hi as Hk Hs.
        rewrite (Hfound (ReclaimerReporter.release "closed_zero")); [reflexivity|].
        unfold rest. apply in_or_app. left. unfold skip_updates.
        apply in_map_iff. exists inv. split; [|exact Hinv_in].
        now rewrite Hk, Hs.
      * assert (Hi : In (account_pubkey a, "SKIPPED")
                       (flat_map outcome_of (paired_with chain cands))).
        { apply in_flat_map. eexists. split; [exact Hin_pairs|].
          unfold outcome_of. cbn [fst snd ReclaimerFetcher.account_pubkey].
          rewrite Ejit. now left. }
        rewrite <- Hinv in Hi. apply in_map_iff in Hi.
        destruct Hi as (inv & Hi & Hinv_in).
        injection Hi as Hk Hs.
        rewrite (Hfound (ReclaimerReporter.release "SKIPPED")); [reflexivity|].
        unfold rest. apply in_or_app. left. unfold skip_updates.
        apply in_map_iff. exists inv. split; [|exact Hinv_in].
        now rewrite Hk, Hs.
      * assert (Hi : In (account_pubkey a) (map fst us)).
        { rewrite Hfst, Hval. apply in_map_iff.
          eexists. split; [|apply in_flat_map; eexists; split; [exact Hin_pairs|]].
          2:{ unfold verified_of. cbn [fst snd]. rewrite Ejit. now left. }
          reflexivity. }
        apply in_map_iff in Hi. destruct Hi as ([k g] & Hk & Hu).
        cbn [fst] in Hk. subst k.
        rewrite (Hfound g) by (unfold rest; apply in_or_app; now right).
        rewrite Forall_forall in Hout.
        destruct (Hout _ Hu) as [E|[Hd E]]; cbn [snd] in E; subst g.
        -- now left.
        -- right. now split.
    + assert (Hnot : ~ In (account_pubkey a) C).
      { intros H. apply named_In in H. congruence. }
      rewrite (@apply_updates_none lock_us a).
      * apply apply_updates_none. intros H. apply Hnot.
        now apply (Permutation_in _ Hperm).
      * unfold lock_us. rewrite map_map. cbn [fst]. now rewrite map_id.
Qed.

(** *** The counters of a round *)

Lemma or_default_zero (z : Z) : or_default (Some z) 0 = z.
Proof.
  unfold or_default. destruct (Z.eqb_spec z 0) as [->|_]; reflexivity.
Qed.

Lemma recordSkip_counts (clock : Clock) (pubkey reason status : string)
  (r : ReclaimerReporter.t) :
  has_row pubkey (ReclaimerReporter.db r) = true ->
  let r' := ReclaimerReporter.recordSkip clock pubkey reason status r in
  seen r' = seen r /\ skipped r' = skipped r + 1 /\
  reclaimable r' = reclaimable r.
Proof.
  intros Hrow. unfold ReclaimerReporter.recordSkip, insert_event_checked.
  rewrite has_row_update by reflexivity. rewrite Hrow.
  unfold seen, skipped, reclaimable. cbn. repeat split; lia.
Qed.

Lemma recordSkips_counts (clock : Clock)
  (invalid : list ReclaimerVerifier.InvalidAccount) :
  forall r,
    Forall (fun inv => In (ReclaimerVerifier.pubkey inv)
                         (map account_pubkey (rows r))) invalid ->
    let r' :=
      fold_left
        (fun r inv =>
           ReclaimerReporter.recordSkip clock (ReclaimerVerifier.pubkey inv)
             (ReclaimerVerifier.reason inv) (ReclaimerVerifier.status inv) r)
        invalid r in
    seen r' = seen r /\
    skipped r' = skipped r + Z.of_nat (List.length invalid) /\
    reclaimable r' = reclaimable r.
Proof.
  induction invalid as [|inv rest IH]; intros r Hall.
  - cbn [fold_left List.length]. repeat split; lia.
  - inversion Hall as [|? ? Hinv Hrest]; subst. cbn [fold_left].
    destruct (@recordSkip_counts clock (ReclaimerVerifier.pubkey inv)
                (ReclaimerVerifier.reason inv) (ReclaimerVerifier.status inv) r)
      as (H1 & H2 & H3).
    { now apply has_row_In. }
    destruct (IH (ReclaimerReporter.recordSkip clock (ReclaimerVerifier.pubkey inv)
                    (ReclaimerVerifier.reason inv) (ReclaimerVerifier.status inv)
                    r))
      as (H1' & H2' & H3').
    { rewrite recordSkip_rows, rows_keys; [exact Hrest|].
      constructor; [|constructor]. intros a. reflexivity. }
    cbn zeta in *. rewrite H1', H2', H3', H1, H2, H3.
    cbn [List.length]. repeat split; lia.
Qed.

Lemma report_batch_counts (rpc : Rpc)
  (config : ReclaimerOrchestrator.ReclaimerConfig) (clock : Clock)
  (r : ReclaimerReporter.t) (batch : ReclaimerPlanner.ReclaimBatch) :
  let r' := ReclaimerOrchestrator.report_batch rpc config clock r batch in
  seen r' = seen r /\ skipped r' = skipped r /\ reclaimable r' = reclaimable r.
Proof.
  unfold ReclaimerOrchestrator.report_batch, ReclaimerReporter.recordSuccess,
    ReclaimerReporter.recordFailure.
  destruct (ReclaimerExecutor.success _);
    destruct (ReclaimerReporter.for_each _ _ _);
    unfold seen, skipped, reclaimable; cbn; repeat split; lia.
Qed.

Lemma report_batches_counts (rpc : Rpc)
  (config : ReclaimerOrchestrator.ReclaimerConfig) (clock : Clock)
  (batches : list ReclaimerPlanner.ReclaimBatch) :
  forall r,
    let r' := fold_left (ReclaimerOrchestrator.report_batch rpc config clock)
                batches r in
    seen r' = seen r /\ skipped r' = skipped r /\ reclaimable r' = reclaimable r.
Proof.
  induction batches as [|batch rest IH]; intros r; [now repeat split|].
  cbn [fold_left].
  destruct (report_batch_counts rpc config clock r batch) as (H1 & H2 & H3).
  destruct (IH (ReclaimerOrchestrator.report_batch rpc config clock r batch))
    as (H1' & H2' & H3').
  cbn zeta in *. rewrite H1', H2', H3'. now repeat split.
Qed.

(** A round counts every account it fetched once as seen, and once as
    skipped or as reclaimable. *)
Lemma round_counts (rpc : Rpc) (config : ReclaimerOrchestrator.ReclaimerConfig)
  (clock : Clock) (now : nat -> Z) (workerId : string)
  (chain : string -> option ReclaimerVerifier.AccountInfo)
  (r : ReclaimerReporter.t) :
  answers rpc chain ->
  Forall (fun a => valid_pubkey (account_pubkey a) = true)
    (candidate_rows (ReclaimerReporter.db r)) ->
  candidate_rows (ReclaimerReporter.db r) <> [] ->
  exists r',
    ReclaimerOrchestrator.round rpc config clock now workerId r
    = ReclaimerOrchestrator.Again r' /\
    seen r'
    = seen r
      + Z.of_nat (List.length (fetched_rows config (ReclaimerReporter.db r))) /\
    skipped r' + reclaimable r'
    = skipped r + reclaimable r
      + Z.of_nat (List.length (fetched_rows config (ReclaimerReporter.db r))).
Proof.
  intros Hrpc Hvalid Hsome.
  set (fetched := fetched_rows config (ReclaimerReporter.db r)).
  set (C := map account_pubkey fetched).
  assert (Hfetched : forall a, In a fetched -> In a (rows r)).
  { intros a Ha. apply sql_limit_In in Ha. unfold candidate_rows in Ha.
    now apply filter_In in Ha. }
  assert (HCrows : forall k, In k C -> In k (map account_pubkey (rows r))).
  { intros k Hk. apply in_map_iff in Hk.
    destruct Hk as (c & <- & Hc). apply in_map. now apply Hfetched. }
  assert (Hne : fetched <> []).
  { apply sql_limit_nonempty; [now apply or_default_nonzero | exact Hsome]. }
  pose (cands := map (fun a => {| ReclaimerFetcher.account_pubkey := row_pubkey a;
                                 ReclaimerFetcher.lamports := row_lamports a |})
                   fetched).
  assert (Hcands : map ReclaimerFetcher.account_pubkey cands = C).
  { unfold cands, C. rewrite map_map. reflexivity. }
  assert (Hlen : List.length cands = List.length fetched).
  { unfold cands. apply length_map. }
  unfold ReclaimerOrchestrator.round.
  pose proof (fetchAndLock_returned
                (or_default (ReclaimerOrchestrator.batchSize config) 100)
                workerId (ReclaimerReporter.db r)) as Hgot.
  pose proof (fetchAndLock_accounts
                (or_default (ReclaimerOrchestrator.batchSize config) 100)
                workerId (ReclaimerReporter.db r)) as Hlock.
  destruct (ReclaimerFetcher.fetchAndLock _ workerId (ReclaimerReporter.db r))
    as [got db1].
  cbn [fst snd] in Hgot, Hlock.
  change (ReclaimerFetcher.select_candidates
            (or_default (ReclaimerOrchestrator.batchSize config) 100)
            (ReclaimerReporter.db r)) with cands in Hgot.
  subst got. rewrite Hcands in Hlock.
  assert (Hv : forallb (fun c => valid_pubkey (ReclaimerFetcher.account_pubkey c))
                 cands = true).
  { apply forallb_forall. intros c Hc. unfold cands in Hc.
    apply in_map_iff in Hc. destruct Hc as (a & <- & Ha).
    cbn [ReclaimerFetcher.account_pubkey]. unfold row_pubkey.
    rewrite Forall_forall in Hvalid. apply Hvalid.
    apply sql_limit_In in Ha. exact Ha. }
  assert (Hcne : cands <> []).
  { unfold cands. destruct fetched; [now elim Hne | discriminate]. }
  destruct cands as [|c0 crest] eqn:Ecands; [now elim Hcne|].
  rewrite <- Ecands in *. rewrite Hv. cbn [negb].
  rewrite Hcands, (Hrpc C).
  rewrite (verify_nonempty (map chain C) Hcne Hv).
  destruct (loop_outcome cands (map chain C) 0
              {| ReclaimerVerifier.valid := []; ReclaimerVerifier.invalid := [] |})
    as [Hval Hinv].
  cbn [ReclaimerVerifier.valid ReclaimerVerifier.invalid map app] in Hval, Hinv.
  rewrite <- Hcands in Hval, Hinv.
  pose proof (paired_answers chain cands []) as Hpairs.
  cbn [List.length app] in Hpairs. rewrite Hpairs in Hval, Hinv. clear Hpairs.
  rewrite Hcands in *.
  set (verdict := ReclaimerVerifier.loop cands 0 (map chain C) _) in *.
  clearbody verdict.
  pose proof (jit_partition_with chain cands) as Hpart.
  rewrite Hcands in Hpart.
  (* every account fetched is either invalid or valid *)
  assert (Hsum : (List.length (ReclaimerVerifier.invalid verdict)
                  + List.length (ReclaimerVerifier.valid verdict)
                  = List.length fetched)%nat).
  { apply Permutation_length in Hpart.
    rewrite length_app, !length_map in Hpart. fold C in Hpart.
    rewrite <- Hval in Hpart.
    rewrite <- (length_map (fun x => (ReclaimerVerifier.pubkey x,
                                        ReclaimerVerifier.status x))
                  (ReclaimerVerifier.invalid verdict)), Hinv.
    unfold C in Hpart. rewrite length_map in Hpart. exact Hpart. }
  set (r2 := {| ReclaimerReporter.db := db1; ReclaimerReporter.metrics := _ |}).
  assert (Hr2 : map account_pubkey (rows r2) = map account_pubkey (rows r)).
  { unfold rows at 1. cbn [ReclaimerReporter.db r2]. rewrite Hlock.
    unfold lock_rows. rewrite map_map. apply map_ext. intros a.
    now destruct (existsb _ C). }
  assert (Hseen2 : seen r2 = seen r + Z.of_nat (List.length fetched)
                   /\ skipped r2 = skipped r /\ reclaimable r2 = reclaimable r).
  { unfold seen, skipped, reclaimable, r2.
    cbn [ReclaimerReporter.metrics ReclaimerReporter.recordMetrics
         ReclaimerReporter.total_accounts_seen ReclaimerReporter.skipped_accounts
         ReclaimerReporter.total_reclaimable ReclaimerReporter.seen
         ReclaimerReporter.skipped ReclaimerReporter.reclaimable].
    rewrite or_default_zero, Ecands. rewrite <- Ecands, Hlen.
    cbn [or_default]. repeat split; lia. }
  destruct (@recordSkips_counts clock (ReclaimerVerifier.invalid verdict) r2)
    as (Hs1 & Hs2 & Hs3).
  { apply Forall_forall. intros inv Hin. rewrite Hr2. apply HCrows.
    apply (Permutation_in _ Hpart). apply in_or_app. left.
    rewrite <- Hinv, map_map. cbn [fst].
    now apply (in_map ReclaimerVerifier.pubkey). }
  cbn zeta in Hs1, Hs2, Hs3.
  set (r3 := fold_left _ (ReclaimerVerifier.invalid verdict) r2) in *.
  destruct Hseen2 as (Hn1 & Hn2 & Hn3).
  destruct (ReclaimerVerifier.valid verdict) as [|v vs] eqn:Ev.
  - exists r3. split; [reflexivity|]. cbn [List.length] in Hsum. lia.
  - match goal with
    | |- context [fold_left (ReclaimerOrchestrator.report_batch _ _ _) _ ?x] =>
        set (r4 := x)
    end.
    destruct (report_batches_counts rpc config clock
                (ReclaimerPlanner.plan now (v :: vs)) r4) as (Hb1 & Hb2 & Hb3).
    cbn zeta in Hb1, Hb2, Hb3.
    eexists. split; [reflexivity|]. rewrite Hb1, Hb2, Hb3.
    assert (H4 : seen r4 = seen r3 /\ skipped r4 = skipped r3
                 /\ reclaimable r4
                    = reclaimable r3 + Z.of_nat (List.length (v :: vs))).
    { unfold seen, skipped, reclaimable, r4.
      cbn [ReclaimerReporter.metrics ReclaimerReporter.recordMetrics
           ReclaimerReporter.total_accounts_seen
           ReclaimerReporter.skipped_accounts
           ReclaimerReporter.total_reclaimable ReclaimerReporter.seen
           ReclaimerReporter.skipped ReclaimerReporter.reclaimable].
      rewrite or_default_zero. cbn [or_default]. repeat split; lia. }
    destruct H4 as (H41 & H42 & H43). lia.
Qed.

(** The rows named by the keys of a prefix are the prefix, when keys are
    distinct. *)
Lemma filter_named_firstn (n : nat) :
  forall l : list SponsoredAccount,
    NoDup (map account_pubkey l) ->
    filter (named (map account_pubkey (firstn n l))) l = firstn n l.
Proof.
  induction n as [|n IH]; intros l Hnd.
  - cbn [firstn map]. induction l as [|a l IHl]; [reflexivity|].
    cbn [filter named existsb]. apply IHl.
    cbn [map] in Hnd. now apply NoDup_cons_iff in Hnd.
  - destruct l as [|a l]; [reflexivity|].
    cbn [map] in Hnd. apply NoDup_cons_iff in Hnd. destruct Hnd as [Hfresh Hnd].
    cbn [firstn map filter]. unfold named at 1. cbn [existsb].
    rewrite String.eqb_refl. cbn [orb]. f_equal.
    rewrite <- (IH l Hnd) at 2. apply filter_ext_in. intros x Hx.
    unfold named. cbn [existsb].
    destruct (String.eqb_spec (account_pubkey x) (account_pubkey a)) as [E|_];
      [|reflexivity].
    exfalso. apply Hfresh. rewrite <- E. now apply in_map.
Qed.

Lemma filter_named_fetched (limit : Z) (l : list SponsoredAccount) :
  NoDup (map account_pubkey l) ->
  filter (named (map account_pubkey (ReclaimerFetcher.sql_limit limit l))) l
  = ReclaimerFetcher.sql_limit limit l.
Proof.
  intros Hnd. unfold ReclaimerFetcher.sql_limit.
  destruct (limit <? 0); [|now apply filter_named_firstn].
  pose proof (@filter_named_firstn (List.length l) l Hnd) as H.
  now rewrite firstn_all in H.
Qed.

Lemma filter_map_length (A : Type) (p q : A -> bool) (F : A -> A) (l : list A) :
  (forall a, In a l -> p (F a) = q a) ->
  List.length (filter p (map F l)) = List.length (filter q l).
Proof.
  induction l as [|x l IH]; intros H; [reflexivity|].
  cbn [map filter]. rewrite (H x (or_introl eq_refl)).
  specialize (IH (fun a Ha => H a (or_intror Ha))).
  destruct (q x); cbn [List.length]; now rewrite IH.
Qed.

Lemma filter_both (A : Type) (p q : A -> bool) (l : list A) :
  filter (fun a => p a && q a) l = filter q (filter p l).
Proof.
  induction l as [|x l IH]; [reflexivity|]. cbn [filter].
  destruct (p x); cbn [andb filter]; [|exact IH].
  destruct (q x); now rewrite IH.
Qed.

(** A round takes the rows it fetches, and no others, out of the
    candidates. *)
Lemma candidates_after_round (config : ReclaimerOrchestrator.ReclaimerConfig)
  (db : Ledger) (F : SponsoredAccount -> SponsoredAccount) :
  NoDup (map account_pubkey (sponsored_accounts db)) ->
  (forall a, In a (sponsored_accounts db) ->
             if named (map account_pubkey (fetched_rows config db)) a
             then ReclaimerFetcher.is_candidate (F a) = false
             else F a = a) ->
  (List.length (filter ReclaimerFetcher.is_candidate
                  (map F (sponsored_accounts db)))
   + List.length (fetched_rows config db)
   = List.length (candidate_rows db))%nat.
Proof.
  intros Hnd Hrow.
  set (C := map account_pubkey (fetched_rows config db)) in *.
  rewrite (@filter_map_length _ ReclaimerFetcher.is_candidate
             (fun a => ReclaimerFetcher.is_candidate a && negb (named C a)) F).
  - rewrite filter_both. fold (candidate_rows db).
    assert (Hf : fetched_rows config db = filter (named C) (candidate_rows db)).
    { unfold C, fetched_rows. symmetry. apply filter_named_fetched.
      now apply NoDup_map_filter. }
    rewrite Hf.
    pose proof (filter_length (named C) (candidate_rows db)) as H. lia.
  - intros a Ha. specialize (Hrow a Ha). destruct (named C a).
    + rewrite Hrow. now rewrite andb_false_r.
    + rewrite Hrow. now rewrite andb_true_r.
Qed.

(** A row a round has processed is no candidate any more. *)
Lemma processed_not_candidate (dry : bool)
  (chain : string -> option ReclaimerVerifier.AccountInfo)
  (a a' : SponsoredAccount) :
  processed dry chain a a' -> ReclaimerFetcher.is_candidate a' = false.
Proof.
  unfold processed.
  destruct (jit_rules (chain (account_pubkey a)));
    [intros -> | intros -> | intros [->|[_ ->]]]; reflexivity.
Qed.

Lemma sql_limit_nil (A : Type) (limit : Z) :
  ReclaimerFetcher.sql_limit limit (@nil A) = [].
Proof.
  unfold ReclaimerFetcher.sql_limit. destruct (limit <? 0); [reflexivity|].
  apply firstn_nil.
Qed.

(** With no candidate left, the round ends the loop and changes no row. *)
Lemma round_done (rpc : Rpc) (config : ReclaimerOrchestrator.ReclaimerConfig)
  (clock : Clock) (now : nat -> Z) (workerId : string) (r : ReclaimerReporter.t) :
  candidate_rows (ReclaimerReporter.db r) = [] ->
  exists r',
    ReclaimerOrchestrator.round rpc config clock now workerId r
    = ReclaimerOrchestrator.NoMore r' /\
    rows r' = rows r /\
    ReclaimerReporter.metrics r' = ReclaimerReporter.metrics r.
Proof.
  intros Hnone.
  unfold ReclaimerOrchestrator.round, ReclaimerFetcher.fetchAndLock,
    ReclaimerFetcher.select_candidates.
  fold (candidate_rows (ReclaimerReporter.db r)).
  rewrite Hnone, sql_limit_nil. cbn [map].
  eexists. repeat split; reflexivity.
Qed.

(** The rows a round fetches are candidates. *)
Lemma fetched_candidate (config : ReclaimerOrchestrator.ReclaimerConfig)
  (db : Ledger) (a : SponsoredAccount) :
  NoDup (map account_pubkey (sponsored_accounts db)) ->
  In a (sponsored_accounts db) ->
  named (map account_pubkey (fetched_rows config db)) a = true ->
  ReclaimerFetcher.is_candidate a = true.
Proof.
  intros Hnd Ha Hn. apply named_In in Hn. apply in_map_iff in Hn.
  destruct Hn as (c & Hk & Hc). unfold fetched_rows in Hc.
  apply sql_limit_In in Hc. unfold candidate_rows in Hc.
  apply filter_In in Hc. destruct Hc as [Hc Hcand].
  now rewrite <- (@NoDup_map_inj _ _ account_pubkey _ c a Hnd Hc Ha Hk).
Qed.

Section FilterLength.

Variables (A : Type) (p : A -> bool) (F : A -> A).

Lemma filter_map_length_le (l : list A) :
  (forall a, In a l -> p (F a) = true -> p a = true) ->
  (List.length (filter p (map F l)) <= List.length (filter p l))%nat.
Proof.
  induction l as [|x l IH]; intros H; [apply Nat.le_refl|].
  cbn [map filter].
  assert (IH' := IH (fun a Ha => H a (or_intror Ha))).
  destruct (p (F x)) eqn:E.
  - rewrite (H x (or_introl eq_refl) E). cbn [List.length]. lia.
  - destruct (p x); cbn [List.length]; lia.
Qed.

Lemma filter_map_length_lt (l : list A) (x : A) :
  (forall a, In a l -> p (F a) = true -> p a = true) ->
  In x l -> p x = true -> p (F x) = false ->
  (List.length (filter p (map F l)) < List.length (filter p l))%nat.
Proof.
  induction l as [|y l IH]; intros H Hx Hp Hq; [contradiction|].
  cbn [map filter].
  assert (Hle := @filter_map_length_le l (fun a Ha => H a (or_intror Ha))).
  destruct Hx as [->|Hx].
  - rewrite Hp, Hq. cbn [List.length]. lia.
  - assert (IH' := IH (fun a Ha => H a (or_intror Ha)) Hx Hp Hq).
    destruct (p (F y)) eqn:E.
    + rewrite (H y (or_introl eq_refl) E). cbn [List.length]. lia.
    + destruct (p y); cbn [List.length]; lia.
Qed.

End FilterLength.

(** The loop ends once no candidate is left, and by then each row has been
    processed at most once. *)
Lemma loop_rows (rpc : Rpc) (config : ReclaimerOrchestrator.ReclaimerConfig)
  (clock : Clock) (now : nat -> Z) (workerId : string)
  (chain : string -> option ReclaimerVerifier.AccountInfo) :
  answers rpc chain ->
  forall (fuel : nat) (r : ReclaimerReporter.t),
    (List.length (candidate_rows (ReclaimerReporter.db r)) < fuel)%nat ->
    NoDup (map account_pubkey (rows r)) ->
    Forall (fun a => valid_pubkey (account_pubkey a) = true)
      (candidate_rows (ReclaimerReporter.db r)) ->
    exists r' G,
      ReclaimerOrchestrator.loop fuel rpc config clock now workerId r
      = Some (true, r') /\
      rows r' = map G (rows r) /\
      (forall a, In a (rows r) ->
                 reclaim_row (ReclaimerOrchestrator.dryRun config) chain a (G a)) /\
      seen r'
      = seen r
        + Z.of_nat (List.length (candidate_rows (ReclaimerReporter.db r))) /\
      skipped r' + reclaimable r'
      = skipped r + reclaimable r
        + Z.of_nat (List.length (candidate_rows (ReclaimerReporter.db r))).
Proof.
  intros Hrpc. induction fuel as [|fuel IH]; intros r Hfuel Hnd Hvalid; [lia|].
  cbn [ReclaimerOrchestrator.loop].
  destruct (candidate_rows (ReclaimerReporter.db r)) as [|c0 cs] eqn:Ec.
  - destruct (@round_done rpc config clock now workerId r Ec)
      as (r' & -> & Hrows & Hmetrics).
    exists r', (fun a => a). split; [reflexivity|].
    split; [now rewrite map_id|].
    split; [|unfold seen, skipped, reclaimable; rewrite Hmetrics;
             cbn [List.length]; lia].
    intros a Ha. unfold reclaim_row.
    destruct (ReclaimerFetcher.is_candidate a) eqn:E; [|reflexivity].
    assert (Hin : In a (candidate_rows (ReclaimerReporter.db r)))
      by (apply filter_In; now split).
    rewrite Ec in Hin. contradiction.
  - assert (Hsome : candidate_rows (ReclaimerReporter.db r) <> [])
      by (rewrite Ec; discriminate).
    rewrite <- Ec in Hvalid, Hfuel |- *.
    destruct (@round_counts rpc config clock now workerId chain r
                Hrpc Hvalid Hsome) as (r1' & Hround & Hseen & Hcount).
    destruct (@round_rows rpc config clock now workerId chain r
                Hrpc Hnd Hvalid Hsome) as (r1 & us & Hround' & Hrows & Hkeys & Hrow).
    rewrite Hround' in Hround |- *. injection Hround as <-.
    set (C := map account_pubkey (fetched_rows config (ReclaimerReporter.db r)))
      in *.
    set (F := apply_updates us) in *.
    assert (Hstay : forall a, In a (rows r) ->
                      ReclaimerFetcher.is_candidate (F a) = true ->
                      ReclaimerFetcher.is_candidate a = true /\ F a = a).
    { intros a Ha Hc. specialize (Hrow a Ha).
      destruct (named C a).
      - apply processed_not_candidate in Hrow. congruence.
      - rewrite Hrow in Hc. now split. }
    assert (Hcands1 : candidate_rows (ReclaimerReporter.db r1)
                      = filter ReclaimerFetcher.is_candidate (map F (rows r)))
      by (unfold candidate_rows; fold (rows r1); now rewrite Hrows).
    assert (Hless : (List.length (candidate_rows (ReclaimerReporter.db r1))
                     + List.length (fetched_rows config (ReclaimerReporter.db r))
                     = List.length (candidate_rows (ReclaimerReporter.db r)))%nat).
    { rewrite Hcands1. apply candidates_after_round; [exact Hnd|].
      intros a Ha. specialize (Hrow a Ha). fold C.
      destruct (named C a); [|exact Hrow].
      now apply processed_not_candidate in Hrow. }
    destruct (IH r1) as (r' & G & Hloop & Hrows' & Hrow' & Hseen' & Hcount').
    + (* one candidate fewer, at least *)
      rewrite Hcands1.
      assert (Hne : fetched_rows config (ReclaimerReporter.db r) <> []).
      { apply sql_limit_nonempty; [now apply or_default_nonzero | exact Hsome]. }
      destruct (fetched_rows config (ReclaimerReporter.db r)) as [|x xs] eqn:Ef;
        [now elim Hne|].
      assert (Hx : In x (rows r) /\ ReclaimerFetcher.is_candidate x = true).
      { assert (Hin : In x (fetched_rows config (ReclaimerReporter.db r)))
          by (rewrite Ef; now left).
        apply sql_limit_In in Hin. now apply filter_In in Hin. }
      destruct Hx as [Hx Hxc].
      assert (Hxn : named C x = true).
      { apply named_In. unfold C. cbn [map]. now left. }
      assert (Hlt := @filter_map_length_lt _ ReclaimerFetcher.is_candidate F
                       (rows r) x
                       (fun a Ha Hc => proj1 (Hstay a Ha Hc)) Hx Hxc).
      assert (Hxf : ReclaimerFetcher.is_candidate (F x) = false).
      { specialize (Hrow x Hx). rewrite Hxn in Hrow.
        now apply processed_not_candidate in Hrow. }
      specialize (Hlt Hxf). unfold candidate_rows in Hfuel. fold (rows r) in Hfuel.
      lia.
    + rewrite Hrows. unfold F. now rewrite rows_keys.
    + rewrite Hcands1. apply Forall_forall. intros a' Ha'.
      apply filter_In in Ha'. destruct Ha' as [Ha' Hc].
      apply in_map_iff in Ha'. destruct Ha' as (a & <- & Ha).
      destruct (Hstay a Ha Hc) as [Hca ->].
      rewrite Forall_forall in Hvalid. apply Hvalid.
      apply filter_In. now split.
    + exists r', (fun a => G (F a)). split; [exact Hloop|].
      split; [now rewrite Hrows', Hrows, map_map|].
      split; [|lia].
      intros a Ha.
      assert (HFa : In (F a) (rows r1)) by (rewrite Hrows; now apply in_map).
      specialize (Hrow' (F a) HFa). specialize (Hrow a Ha).
      unfold reclaim_row in *.
      destruct (named C a) eqn:En.
      * rewrite (@fetched_candidate config (ReclaimerReporter.db r) a Hnd Ha En).
        rewrite (@processed_not_candidate _ chain a (F a) Hrow) in Hrow'.
        now rewrite Hrow'.
      * rewrite Hrow in Hrow' |- *. exact Hrow'.
Qed.


Lemma fetchAndLock_events (limit : Z) (workerId : string) (db : Ledger) :
  lifecycle_events (snd (ReclaimerFetcher.fetchAndLock limit workerId db))
  = lifecycle_events db.
Proof.
  unfold ReclaimerFetcher.fetchAndLock.
  destruct (ReclaimerFetcher.select_candidates limit db) as [|c cs];
    [reflexivity|].
  cbn [snd].
  generalize (map ReclaimerFetcher.account_pubkey (c :: cs)). intros ks.
  revert db. induction ks as [|k ks IH]; intros db; [reflexivity|].
  cbn [fold_left]. now rewrite IH.
Qed.

(** A row locked by a worker with a name is no candidate. *)
Lemma locked_not_candidate (workerId : string) (a : SponsoredAccount) :
  workerId <> "" ->
  ReclaimerFetcher.is_candidate (set_processing_lock (Some workerId) a) = false.
Proof.
  intros Hw. unfold ReclaimerFetcher.is_candidate, ReclaimerFetcher.unlocked.
  cbn [processing_lock set_processing_lock].
  destruct (String.eqb_spec workerId ""); [contradiction|]. apply andb_false_r.
Qed.

(** X19.  When the node answers no query while candidates exist,
    [execute] throws in its first round and never unlocks: the rows it
    fetched stay locked by the worker in the state they had, no event is
    written, and none of them is a candidate any more. *)
Theorem execute_failure_leaves_rows_locked (rpc : Rpc)
  (config : ReclaimerOrchestrator.ReclaimerConfig) (clock : Clock)
  (now : nat -> Z) (uuid : string) (db : Ledger) (fuel : nat)
  (Hdown : forall addresses, getMultipleAccountsInfo rpc addresses = None)
  (Hsome : candidate_rows db <> [])
  (Hmode : ReclaimerOrchestrator.dryRun config = true
           \/ ReclaimerOrchestrator.operatorKeypair config <> None) :
  exists r',
    ReclaimerOrchestrator.execute (S fuel) rpc config clock now uuid db
    = Some (false, r') /\
    sponsored_accounts (ReclaimerReporter.db r')
    = lock_rows ("worker-" ++ uuid)
        (map account_pubkey (fetched_rows config db)) (sponsored_accounts db) /\
    lifecycle_events (ReclaimerReporter.db r') = lifecycle_events db /\
    forall a, In a (fetched_rows config db) ->
              ~ In (account_pubkey a)
                  (map account_pubkey (candidate_rows (ReclaimerReporter.db r'))).
Proof.
  unfold ReclaimerOrchestrator.execute.
  assert (Hgo : negb (ReclaimerOrchestrator.dryRun config)
                && match ReclaimerOrchestrator.operatorKeypair config with
                   | Some _ => false
                   | None => true
                   end = false).
  { destruct Hmode as [->|Hk]; [reflexivity|].
    destruct (ReclaimerOrchestrator.operatorKeypair config);
      [apply andb_false_r | now elim Hk]. }
  rewrite Hgo. cbn [ReclaimerOrchestrator.loop].
  set (workerId := ("worker-" ++ uuid)%string).
  set (r := {| ReclaimerReporter.db := db;
               ReclaimerReporter.metrics := ReclaimerReporter.zero |}).
  unfold ReclaimerOrchestrator.round.
  set (limit := or_default (ReclaimerOrchestrator.batchSize config) 100).
  pose proof (fetchAndLock_returned limit workerId db) as Hgot.
  pose proof (fetchAndLock_accounts limit workerId db) as Hlock.
  pose proof (fetchAndLock_events limit workerId db) as Hev.
  cbn [ReclaimerReporter.db r].
  destruct (ReclaimerFetcher.fetchAndLock limit workerId db) as [got db1].
  cbn [fst snd] in Hgot, Hlock, Hev.
  assert (Hkeys : map ReclaimerFetcher.account_pubkey got
                  = map account_pubkey (fetched_rows config db)).
  { rewrite Hgot. unfold ReclaimerFetcher.select_candidates.
    now rewrite map_map. }
  assert (Hne : got <> []).
  { rewrite Hgot. unfold ReclaimerFetcher.select_candidates.
    intros E. apply map_eq_nil in E. revert E.
    apply sql_limit_nonempty; [now apply or_default_nonzero | exact Hsome]. }
  rewrite Hkeys in Hlock.
  assert (Hend : forall r2,
             ReclaimerReporter.db r2 = db1 ->
             sponsored_accounts (ReclaimerReporter.db r2)
             = lock_rows workerId (map account_pubkey (fetched_rows config db))
                 (sponsored_accounts db) /\
             lifecycle_events (ReclaimerReporter.db r2) = lifecycle_events db /\
             forall a, In a (fetched_rows config db) ->
                       ~ In (account_pubkey a)
                           (map account_pubkey
                              (candidate_rows (ReclaimerReporter.db r2)))).
  { intros r2 ->. split; [exact Hlock|]. split; [exact Hev|].
    intros a Ha Hin. apply in_map_iff in Hin. destruct Hin as (c & Hk & Hc).
    unfold candidate_rows in Hc. apply filter_In in Hc. destruct Hc as [Hc Hcand].
    rewrite Hlock in Hc. unfold lock_rows in Hc. apply in_map_iff in Hc.
    destruct Hc as (c0 & Hc0 & _).
    assert (Hnamed : named (map account_pubkey (fetched_rows config db)) c0 = true).
    { apply named_In.
      assert (E : account_pubkey c0 = account_pubkey c).
      { rewrite <- Hc0.
        destruct (existsb _ _); reflexivity. }
      rewrite E, Hk. now apply in_map. }
    unfold named in Hnamed. rewrite Hnamed in Hc0. subst c.
    rewrite locked_not_candidate in Hcand; [discriminate|].
    unfold workerId. discriminate. }
  destruct got as [|g gs]; [now elim Hne|].
  rewrite (Hdown _).
  destruct (negb (forallb _ _)); eexists; (split; [reflexivity|]); now apply Hend.
Qed.

(** X26.  On a ledger with distinct pubkeys whose candidates carry valid
    addresses, against a node that answers every query, the summary of the
    session adds up when [execute] returns: [total_accounts_seen] is the
    number of candidates the ledger held at the start, and every one of them
    was counted once more, as skipped or as reclaimable. *)
Theorem execute_counts_every_candidate (rpc : Rpc)
  (config : ReclaimerOrchestrator.ReclaimerConfig) (clock : Clock)
  (now : nat -> Z) (uuid : string)
  (chain : string -> option ReclaimerVerifier.AccountInfo) (db : Ledger)
  (fuel : nat)
  (Hrpc : answers rpc chain)
  (Hkeys : NoDup (map account_pubkey (sponsored_accounts db)))
  (Hvalid : Forall (fun a => valid_pubkey (account_pubkey a) = true)
              (candidate_rows db))
  (Hmode : ReclaimerOrchestrator.dryRun config = true
           \/ ReclaimerOrchestrator.operatorKeypair config <> None)
  (Hfuel : (List.length (candidate_rows db) < fuel)%nat) :
  exists r',
    ReclaimerOrchestrator.execute fuel rpc config clock now uuid db
    = Some (true, r') /\
    ReclaimerReporter.total_accounts_seen (ReclaimerReporter.metrics r')
    = Z.of_nat (List.length (candidate_rows db)) /\
    ReclaimerReporter.skipped_accounts (ReclaimerReporter.metrics r')
    + ReclaimerReporter.total_reclaimable (ReclaimerReporter.metrics r')
    = ReclaimerReporter.total_accounts_seen (ReclaimerReporter.metrics r').
Proof.
  unfold ReclaimerOrchestrator.execute.
  assert (Hgo : negb (ReclaimerOrchestrator.dryRun config)
                && match ReclaimerOrchestrator.operatorKeypair config with
                   | Some _ => false
                   | None => true
                   end = false).
  { destruct Hmode as [->|Hk]; [reflexivity|].
    destruct (ReclaimerOrchestrator.operatorKeypair config);
      [apply andb_false_r | now elim Hk]. }
  rewrite Hgo.
  set (r := {| ReclaimerReporter.db := db;
               ReclaimerReporter.metrics := ReclaimerReporter.zero |}).
  destruct (@loop_rows rpc config clock now ("worker-" ++ uuid)%string chain
              Hrpc fuel r Hfuel Hkeys Hvalid)
    as (r' & _ & Hloop & _ & _ & Hseen & Hcount).
  exists r'. split; [exact Hloop|].
  unfold seen, skipped, reclaimable in Hseen, Hcount.
  cbn [r ReclaimerReporter.db ReclaimerReporter.metrics ReclaimerReporter.zero
       ReclaimerReporter.total_accounts_seen ReclaimerReporter.skipped_accounts
       ReclaimerReporter.total_reclaimable] in Hseen, Hcount.
  split; lia.
Qed.

(** ** The lifecycle engine *)

Lemma slice_In (A : Type) (l : list A) (start stop : Z) (x : A) :
  In x (slice l start stop) -> In x l.
Proof.
  unfold slice. intros H. apply firstn_incl in H.
  rewrite <- (firstn_skipn (Z.to_nat (relative_index (Z.of_nat (List.length l)) start)) l).
  apply in_or_app. now right.
Qed.




(** X21.  A node that answers no [getMultipleAccountsInfo] does not make
    a [scan] fail: on a ledger with valid pubkeys every batch catches its
    error, and the scan returns having changed no row and written no
    event. *)
Theorem scan_swallows_node_failure (fuel : nat)
  (config : LifecycleEngine.LifecycleConfig) (clock : Clock)
  (node : LifecycleEngine.Node) (db : Ledger)
  (Hdown : forall addresses,
      LifecycleEngine.getMultipleAccountsInfo node addresses = None)
  (Hvalid : Forall (fun a => valid_pubkey (account_pubkey a) = true)
              (sponsored_accounts db))
  (Hsize : 0 < or_default (LifecycleEngine.batchSize config) 100)
  (Hfuel : (List.length (sponsored_accounts db) <= fuel)%nat) :
  LifecycleEngine.scan fuel config clock node db = Some (true, db).
Proof.
  unfold LifecycleEngine.scan.
  set (accounts := map _ (sponsored_accounts db)).
  set (size := or_default _ 100) in *.
  assert (Hacc : Forall (fun r => valid_pubkey (fst r) = true) accounts).
  { unfold accounts. apply Forall_forall. intros r Hr. apply in_map_iff in Hr.
    destruct Hr as (a & <- & Ha). rewrite Forall_forall in Hvalid.
    now apply Hvalid. }
  assert (Hlen : Z.of_nat (List.length accounts) <= 0 + Z.of_nat fuel).
  { unfold accounts. rewrite length_map. lia. }
  revert Hlen. generalize 0. clear Hfuel.
  induction fuel as [|fuel IH]; intros i Hlen.
  - cbn [LifecycleEngine.scan_loop]. now rewrite (proj2 (Z.ltb_ge _ _)) by lia.
  - cbn [LifecycleEngine.scan_loop].
    destruct (i <? Z.of_nat (List.length accounts)); [|reflexivity].
    unfold LifecycleEngine.processBatch.
    assert (Hslice : forallb (fun a => valid_pubkey (fst a))
                       (slice accounts i (i + size)) = true).
    { apply forallb_forall. intros r Hr. apply slice_In in Hr.
      rewrite Forall_forall in Hacc. now apply Hacc. }
    rewrite Hslice, Hdown. apply IH. lia.
Qed.

(** *** A live scan, batch by batch *)











(** ** [JSON.parse] reads back what [JSON.stringify] writes of a flat object *)

Lemma chars_app (a b : string) :
  list_ascii_of_string (a ++ b) = list_ascii_of_string a ++ list_ascii_of_string b.
Proof. induction a as [|c a IH]; [reflexivity|]. cbn. now rewrite IH. Qed.

(** One escaped character reads back as the character. *)
Lemma parse_string_escape_char (c : ascii) (l acc : list ascii) :
  JSON.parse_string (list_ascii_of_string (escape_char c) ++ l) acc
  = JSON.parse_string l (c :: acc).
Proof.
  destruct c as [[] [] [] [] [] [] [] []]; reflexivity.
Qed.

Lemma parse_string_escape (s : string) (rest : list ascii) :
  forall acc,
    JSON.parse_string (list_ascii_of_string (escape s) ++ dquote :: rest) acc
    = Some (string_of_list_ascii (rev acc ++ list_ascii_of_string s), rest).
Proof.
  induction s as [|c s IH]; intros acc.
  - cbn. now rewrite app_nil_r.
  - cbn [escape]. rewrite chars_app, <- app_assoc, parse_string_escape_char, IH.
    cbn [rev list_ascii_of_string]. now rewrite <- app_assoc.
Qed.

Lemma parse_string_quote (s : string) (rest : list ascii) :
  JSON.parse_string (list_ascii_of_string (escape s) ++ dquote :: rest) []
  = Some (s, rest).
Proof.
  rewrite parse_string_escape. cbn [rev app].
  now rewrite string_of_list_ascii_of_string.
Qed.

(** Tests on a character that is known. *)
Ltac known_char c :=
  lazymatch c with
  | Ascii _ _ _ _ _ _ _ _ => idtac
  end.

Ltac head_char :=
  repeat
    (match goal with
     | |- context [JSON.is_digit ?c] =>
         known_char c;
         let v := eval vm_compute in (JSON.is_digit c) in
         change (JSON.is_digit c) with v
     | |- context [JSON.is_ws ?c] =>
         known_char c;
         let v := eval vm_compute in (JSON.is_ws c) in
         change (JSON.is_ws c) with v
     | |- context [Ascii.eqb ?c ?c'] =>
         known_char c;
         let v := eval vm_compute in (Ascii.eqb c c') in
         change (Ascii.eqb c c') with v
     | |- context [JSON.code ?c =? 48] =>
         known_char c;
         let v := eval vm_compute in (JSON.code c =? 48) in
         change (JSON.code c =? 48) with v
     end; cbv iota).

(** *** Numbers *)

Lemma digits_value_app (l1 l2 : list ascii) (acc : Z) :
  digits_value (l1 ++ l2) acc = digits_value l2 (digits_value l1 acc).
Proof. apply fold_left_app. Qed.

Lemma scan_digits_all (l rest : list ascii) :
  Forall (fun c => JSON.is_digit c = true) l -> no_digit rest = true ->
  forall acc count,
    JSON.scan_digits (l ++ rest) acc count
    = (digits_value l acc, count + Z.of_nat (List.length l), rest).
Proof.
  intros Hl Hrest. induction Hl as [|c l Hc Hl IH]; intros acc count.
  - cbn [app digits_value fold_left List.length Z.of_nat]. rewrite Z.add_0_r.
    destruct rest as [|x rest]; [reflexivity|].
    cbn [JSON.scan_digits]. cbn [no_digit] in Hrest.
    destruct (JSON.is_digit x); [discriminate | reflexivity].
  - cbn [app JSON.scan_digits]. rewrite Hc, IH.
    cbn [digits_value fold_left List.length]. f_equal. f_equal. lia.
Qed.

Lemma uint_chars_digits (d : Decimal.uint) :
  Forall (fun c => JSON.is_digit c = true)
    (list_ascii_of_string (NilEmpty.string_of_uint d)).
Proof. induction d; cbn; constructor; (reflexivity || assumption). Qed.

Lemma digits_value_uint (d : Decimal.uint) :
  forall acc,
    digits_value (list_ascii_of_string (NilEmpty.string_of_uint d)) acc
    = uint_value d acc.
Proof.
  induction d; intros acc; [reflexivity| ..];
    cbn [NilEmpty.string_of_uint list_ascii_of_string uint_value];
    unfold digits_value; cbn [fold_left]; apply IHd.
Qed.

Lemma uint_value_acc (d : Decimal.uint) (acc : positive) :
  uint_value d (Zpos acc) = Zpos (Pos.of_uint_acc d acc).
Proof.
  revert acc. induction d; intros acc; cbn [uint_value Pos.of_uint_acc];
    [reflexivity | | | | | | | | | |];
    (etransitivity; [|apply IHd]); f_equal; lia.
Qed.

Lemma uint_value_of_uint (d : Decimal.uint) :
  uint_value d 0 = Z.of_N (Pos.of_uint d).
Proof.
  induction d; cbn [uint_value Pos.of_uint]; [reflexivity | exact IHd | ..];
    change (0 * 10 + _) with (Zpos _) || idtac; cbn [Z.mul Z.add];
    apply uint_value_acc.
Qed.

Lemma uint_value_to_uint (p : positive) :
  uint_value (Pos.to_uint p) 0 = Zpos p.
Proof. now rewrite uint_value_of_uint, DecimalPos.Unsigned.of_to. Qed.

(** The decimal text of a positive number starts with a digit that is not
    zero. *)
Lemma unorm_head (d : Decimal.uint) :
  Decimal.unorm d = Decimal.zero
  \/ match Decimal.unorm d with
     | Decimal.Nil | Decimal.D0 _ => False
     | _ => True
     end.
Proof. induction d; simpl; auto. Qed.

Lemma to_uint_head (p : positive) :
  match Pos.to_uint p with
  | Decimal.Nil | Decimal.D0 _ => False
  | _ => True
  end.
Proof.
  pose proof (DecimalPos.Unsigned.to_of (Pos.to_uint p)) as E.
  rewrite DecimalPos.Unsigned.of_to in E. cbn [N.to_uint] in E.
  destruct (unorm_head (Pos.to_uint p)) as [H|H].
  - rewrite <- E in H. now elim (DecimalPos.Unsigned.to_uint_nonzero p).
  - now rewrite <- E in H.
Qed.

(** The digits of a positive number: digits, the first of them not a
    zero, that denote the number. *)
Definition positive_digits (digits : list ascii) : Prop :=
  Forall (fun c => JSON.is_digit c = true) digits /\
  exists c l, digits = c :: l /\ (JSON.code c =? 48) = false.

Lemma pos_digits (p : positive) :
  positive_digits (list_ascii_of_string (NilEmpty.string_of_uint (Pos.to_uint p)))
  /\ digits_value
       (list_ascii_of_string (NilEmpty.string_of_uint (Pos.to_uint p))) 0
     = Zpos p.
Proof.
  split; [split|].
  - apply uint_chars_digits.
  - pose proof (to_uint_head p) as H.
    destruct (Pos.to_uint p); try contradiction;
      cbn [NilEmpty.string_of_uint list_ascii_of_string];
      eexists _, _; (split; [reflexivity|reflexivity]).
  - now rewrite digits_value_uint, uint_value_to_uint.
Qed.

Lemma digits_of_positive (s : Z) : positive_digits (Double.digits_of s).
Proof. apply pos_digits. Qed.

Lemma digits_of_value (s : Z) :
  0 < s -> digits_value (Double.digits_of s) 0 = s.
Proof.
  intros Hs. unfold Double.digits_of.
  rewrite (proj2 (pos_digits _)). now apply Z2Pos.id.
Qed.

Lemma zeros_digits (n : Z) :
  Forall (fun c => JSON.is_digit c = true) (Double.zeros n).
Proof.
  unfold Double.zeros. induction (Z.to_nat n) as [|k IH]; cbn; constructor;
    (reflexivity || assumption).
Qed.

Lemma zeros_length (n : Z) :
  0 <= n -> Z.of_nat (List.length (Double.zeros n)) = n.
Proof. intros Hn. unfold Double.zeros. rewrite repeat_length. lia. Qed.

Lemma digits_value_zeros (n : Z) (acc : Z) :
  0 <= n -> digits_value (Double.zeros n) acc = acc * 10 ^ n.
Proof.
  intros Hn. unfold Double.zeros.
  rewrite <- (Z2Nat.id n Hn) at 2. generalize (Z.to_nat n). clear.
  intros k. revert acc.
  induction k as [|k IH]; intros acc.
  - cbn. lia.
  - cbn [repeat]. unfold digits_value. cbn [fold_left].
    change (fold_left _ ?l ?a) with (digits_value l a).
    rewrite IH. change (JSON.code "0" - 48) with 0.
    rewrite Nat2Z.inj_succ, Z.pow_succ_r by lia. ring.
Qed.

Lemma ends_number_no_digit (rest : list ascii) :
  ends_number rest = true -> no_digit rest = true.
Proof.
  destruct rest as [|x rest]; [reflexivity|]. cbn [ends_number no_digit].
  destruct (JSON.is_digit x); [discriminate | reflexivity].
Qed.

(** After a number, nothing is a fraction or an exponent. *)
Lemma parse_fraction_none (int : Z) (rest : list ascii) :
  ends_number rest = true -> JSON.parse_fraction int rest = Some (int, 0, rest).
Proof.
  destruct rest as [|x rest]; [reflexivity|]. cbn [ends_number JSON.parse_fraction].
  destruct (JSON.is_digit x); [discriminate|].
  destruct (Ascii.eqb x "."); [discriminate | reflexivity].
Qed.

Lemma parse_exponent_none (rest : list ascii) :
  ends_number rest = true -> JSON.parse_exponent rest = Some (0, rest).
Proof.
  destruct rest as [|x rest]; [reflexivity|]. cbn [ends_number JSON.parse_exponent].
  destruct (JSON.is_digit x); [discriminate|].
  destruct (Ascii.eqb x "."); [discriminate|].
  destruct (Ascii.eqb x "e"); [discriminate|].
  destruct (Ascii.eqb x "E"); [discriminate | reflexivity].
Qed.

(** The integer part of a number that does not start with a zero. *)
Lemma parse_number_int (digits rest : list ascii) :
  positive_digits digits -> no_digit rest = true ->
  JSON.parse_number (digits ++ rest)
  = match JSON.parse_fraction (digits_value digits 0) rest with
    | Some (m, places, rest2) =>
        match JSON.parse_exponent rest2 with
        | Some (e, rest3) => Some (m, e - places, rest3)
        | None => None
        end
    | None => None
    end.
Proof.
  intros [Hd (c & l & -> & Hc)] Hrest.
  pose proof (@scan_digits_all (c :: l) rest Hd Hrest 0 0) as Hscan.
  cbn [app] in *. unfold JSON.parse_number.
  inversion Hd as [|? ? Hc' _]; subst. rewrite Hc', Hc, Hscan. reflexivity.
Qed.

(** An exponent reads back. *)
Lemma parse_exponent_layout (n : Z) (rest : list ascii) :
  n <> 0 -> no_digit rest = true ->
  JSON.parse_exponent
    ("e"%char :: (if n <? 0 then "-"%char else "+"%char)
     :: Double.digits_of (Z.abs n) ++ rest)
  = Some (n, rest).
Proof.
  intros Hn Hrest. unfold JSON.parse_exponent. head_char.
  pose proof (@scan_digits_all (Double.digits_of (Z.abs n)) rest
                (proj1 (digits_of_positive _)) Hrest 0 0) as Hscan.
  rewrite digits_of_value in Hscan by lia.
  destruct (digits_of_positive (Z.abs n)) as [_ (c & l & E & _)].
  assert (Hlen : (0 + Z.of_nat (List.length (Double.digits_of (Z.abs n))) =? 0) = false).
  { rewrite E. cbn [List.length]. apply Z.eqb_neq. lia. }
  destruct (n <? 0) eqn:Hneg; head_char; rewrite Hscan, Hlen.
  - apply Z.ltb_lt in Hneg. replace (- Z.abs n) with n by lia. reflexivity.
  - apply Z.ltb_ge in Hneg. replace (Z.abs n) with n by lia. reflexivity.
Qed.

(** What [JSON.parse] reads of the layout of some digits: the number
    they denote and the power of ten that places the point. *)
Lemma parse_number_layout (digits : list ascii) (n : Z) (rest : list ascii) :
  positive_digits digits -> ends_number rest = true ->
  JSON.parse_number (Double.layout digits n ++ rest)
  = Some (if (Z.of_nat (List.length digits) <=? n) && (n <=? 21)
          then (digits_value digits 0
                * 10 ^ (n - Z.of_nat (List.length digits)), 0)
          else (digits_value digits 0, n - Z.of_nat (List.length digits)),
          rest).
Proof.
  intros Hd Hrest. unfold Double.layout.
  set (k := Z.of_nat (List.length digits)).
  pose proof (ends_number_no_digit _ Hrest) as Hnd.
  destruct ((k <=? n) && (n <=? 21)) eqn:H1.
  { apply andb_true_iff in H1. destruct H1 as [Hk Hn]. apply Z.leb_le in Hk.
    assert (Hd' : positive_digits (digits ++ Double.zeros (n - k))).
    { destruct Hd as [Hall (c & l & -> & Hc)]. split.
      - apply Forall_app. split; [exact Hall | apply zeros_digits].
      - now exists c, (l ++ Double.zeros (n - k)). }
    rewrite (@parse_number_int _ _ Hd' Hnd), digits_value_app,
      digits_value_zeros by lia.
    rewrite parse_fraction_none, parse_exponent_none by exact Hrest.
    reflexivity. }
  destruct ((0 <? n) && (n <=? 21)) eqn:H2.
  { apply andb_true_iff in H2. destruct H2 as [Hpos Hn]. apply Z.ltb_lt in Hpos.
    apply andb_false_iff in H1. rewrite Hn in H1.
    destruct H1 as [H1|H1]; [|discriminate]. apply Z.leb_gt in H1.
    destruct Hd as [Hall (c & l & E & Hc)].
    assert (Hfirst : positive_digits (firstn (Z.to_nat n) digits)).
    { split; [now apply Forall_firstn|].
      rewrite E. destruct (Z.to_nat n) as [|n'] eqn:En; [lia|].
      now exists c, (firstn n' l). }
    rewrite <- app_assoc.
    rewrite (@parse_number_int _ (("."%char :: skipn (Z.to_nat n) digits) ++ rest)
               Hfirst eq_refl).
    cbn [app JSON.parse_fraction]. head_char.
    rewrite (@scan_digits_all (skipn (Z.to_nat n) digits) rest
               (@Forall_skipn _ _ _ _ Hall) Hnd).
    rewrite <- digits_value_app, firstn_skipn.
    rewrite length_skipn.
    assert (Hlen : 0 + Z.of_nat (List.length digits - Z.to_nat n) = k - n)
      by (unfold k in *; lia).
    rewrite Hlen.
    destruct (k - n =? 0) eqn:Hz; [apply Z.eqb_eq in Hz; lia|].
    rewrite parse_exponent_none by exact Hrest.
    f_equal. f_equal. f_equal. lia. }
  destruct ((-6 <? n) && (n <=? 0)) eqn:H3.
  { apply andb_true_iff in H3. destruct H3 as [_ Hn]. apply Z.leb_le in Hn.
    destruct Hd as [Hall (c & l & E & Hc)].
    cbn [app]. unfold JSON.parse_number. head_char.
    cbn [JSON.parse_fraction]. head_char.
    rewrite <- app_assoc.
    assert (Hz : Forall (fun c => JSON.is_digit c = true)
                   (Double.zeros (- n) ++ digits))
      by (apply Forall_app; split; [apply zeros_digits | exact Hall]).
    rewrite app_assoc, (@scan_digits_all _ rest Hz Hnd).
    rewrite digits_value_app, digits_value_zeros by lia.
    rewrite length_app, Nat2Z.inj_add, zeros_length by lia. fold k.
    destruct (0 + (- n + k) =? 0) eqn:Hzero.
    { apply Z.eqb_eq in Hzero. unfold k in Hzero. rewrite E in Hzero.
      cbn [List.length] in Hzero. lia. }
    rewrite parse_exponent_none by exact Hrest.
    f_equal. f_equal. f_equal. lia. }
  assert (Hn1 : n - 1 <> 0).
  { intros E. assert (n = 1) by lia. subst n. discriminate H2. }
  destruct Hd as [Hall (c & l & -> & Hc)].
  inversion Hall as [|? ? Hc' Hl]; subst.
  destruct l as [|c2 l2].
  - cbn [app]. 
    match goal with
    | |- JSON.parse_number (c :: ?tail) = _ =>
        change (JSON.parse_number (c :: tail))
          with (JSON.parse_number ([c] ++ tail));
        rewrite (@parse_number_int [c] tail
                   (conj Hall (ex_intro _ c (ex_intro _ [] (conj eq_refl Hc))))
                   eq_refl)
    end.
    cbn [JSON.parse_fraction]. head_char.
    rewrite (@parse_exponent_layout _ _ Hn1 Hnd).
    f_equal. f_equal. f_equal. unfold k. cbn [List.length]. lia.
  - set (tail := "e"%char :: (if n - 1 <? 0 then "-"%char else "+"%char)
                 :: Double.digits_of (Z.abs (n - 1))).
    replace ((c :: ("."%char :: c2 :: l2) ++ tail) ++ rest)
      with ([c] ++ "."%char :: (c2 :: l2) ++ (tail ++ rest))
      by (cbn [app]; now rewrite <- app_assoc).
    rewrite (@parse_number_int [c] ("."%char :: (c2 :: l2) ++ (tail ++ rest))
               (conj (Forall_cons _ Hc' (Forall_nil _))
                  (ex_intro _ c (ex_intro _ [] (conj eq_refl Hc)))) eq_refl).
    unfold JSON.parse_fraction. head_char.
    rewrite (@scan_digits_all (c2 :: l2) (tail ++ rest) Hl eq_refl).
    change (digits_value (c2 :: l2) (digits_value [c] 0))
      with (digits_value (c :: c2 :: l2) 0).
    destruct (0 + Z.of_nat (List.length (c2 :: l2)) =? 0) eqn:Hz.
    { apply Z.eqb_eq in Hz. cbn [List.length] in Hz. lia. }
    unfold tail. cbn [app]. rewrite (@parse_exponent_layout _ _ Hn1 Hnd).
    f_equal. f_equal. f_equal. unfold k. cbn [List.length]. lia.
Qed.

(** A number starts with a digit or with a minus sign. *)
Lemma parse_value_digit (c : ascii) (l : list ascii) (fuel : nat) :
  JSON.is_digit c = true ->
  JSON.parse_value (S fuel) (c :: l)
  = match JSON.parse_number (c :: l) with
    | Some (m, e10, rest) => Some (JSON.number false m e10, rest)
    | None => None
    end.
Proof.
  intros Hc.
  destruct c as [b0 b1 b2 b3 b4 b5 b6 b7].
  destruct b0, b1, b2, b3, b4, b5, b6, b7;
    try (vm_compute in Hc; discriminate Hc);
    cbn [JSON.parse_value JSON.skip_ws]; head_char; reflexivity.
Qed.

Lemma parse_value_minus (l : list ascii) (fuel : nat) :
  JSON.parse_value (S fuel) ("-"%char :: l)
  = match JSON.parse_number l with
    | Some (m, e10, rest) => Some (JSON.number true m e10, rest)
    | None => None
    end.
Proof. cbn [JSON.parse_value JSON.skip_ws]. head_char. reflexivity. Qed.

Lemma positive_digits_head (digits : list ascii) :
  positive_digits digits ->
  exists c l, digits = c :: l /\ JSON.is_digit c = true.
Proof.
  intros [Hall (c & l & -> & _)]. exists c, l. split; [reflexivity|].
  now inversion Hall.
Qed.

(** The layout of some digits, with a sign or none, reads back as the
    number the digits denote. *)
Lemma parse_value_layout (negative : bool) (digits : list ascii) (n : Z)
  (fuel : nat) (rest : list ascii) :
  positive_digits digits -> ends_number rest = true ->
  exists m e10,
    JSON.parse_number (Double.layout digits n ++ rest) = Some (m, e10, rest) /\
    JSON.parse_value (S fuel)
      (list_ascii_of_string (Double.signed negative (Double.layout digits n))
       ++ rest)
    = Some (JSON.number negative m e10, rest).
Proof.
  intros Hd Hrest.
  pose proof (@parse_number_layout digits n rest Hd Hrest) as Hparse.
  match type of Hparse with
  | _ = Some (?me, _) => destruct me as [m e10] eqn:Eme
  end.
  exists m, e10. split; [exact Hparse|].
  unfold Double.signed. rewrite list_ascii_of_string_of_list_ascii.
  destruct negative.
  - cbn [app]. now rewrite parse_value_minus, Hparse.
  - destruct (Double.layout digits n ++ rest) as [|c l] eqn:El;
      [discriminate Hparse|].
    assert (Hc : JSON.is_digit c = true).
    { unfold JSON.parse_number in Hparse.
      destruct (JSON.is_digit c); [reflexivity | discriminate]. }
    now rewrite (@parse_value_digit c l fuel Hc), Hparse.
Qed.

Lemma decimal_text (z : Z) :
  decimal z
  = match z with
    | Z0 => "0"
    | Zpos p => NilEmpty.string_of_uint (Pos.to_uint p)
    | Zneg p => String "-" (NilEmpty.string_of_uint (Pos.to_uint p))
    end.
Proof.
  unfold decimal, NilZero.string_of_int, NilZero.string_of_uint.
  destruct z as [|p|p]; cbn [Z.to_int]; [reflexivity | |];
    pose proof (DecimalPos.Unsigned.to_uint_nonnil p) as H;
    destruct (Pos.to_uint p); try reflexivity; now elim H.
Qed.

(** A literal without fraction or exponent that denotes a safe integer is
    read as that integer. *)
Lemma number_safe (negative : bool) (m : Z) :
  0 <= m -> Double.safe m = true ->
  JSON.number negative m 0 = JNum (if negative then - m else m).
Proof.
  intros Hm Hsafe. unfold JSON.number.
  destruct (m =? 0) eqn:Hz.
  - apply Z.eqb_eq in Hz. subst m. now destruct negative.
  - change (10 ^ 0) with 1. rewrite Z.mul_1_r, Hsafe. reflexivity.
Qed.

Lemma parse_number_positive (p : positive) (rest : list ascii) :
  ends_number rest = true ->
  JSON.parse_number
    (list_ascii_of_string (NilEmpty.string_of_uint (Pos.to_uint p)) ++ rest)
  = Some (Zpos p, 0, rest).
Proof.
  intros Hrest. destruct (pos_digits p) as [Hd Hv].
  rewrite (@parse_number_int _ _ Hd (ends_number_no_digit _ Hrest)), Hv.
  now rewrite parse_fraction_none, parse_exponent_none.
Qed.

(** A safe integer reads back, whatever the fuel. *)
Lemma parse_value_number (z : Z) (fuel : nat) (rest : list ascii) :
  Double.safe z = true -> ends_number rest = true ->
  JSON.parse_value (S fuel) (list_ascii_of_string (number_json z) ++ rest)
  = Some (JNum z, rest).
Proof.
  intros Hsafe Hrest. unfold number_json, Double.integer_text.
  rewrite Hsafe, decimal_text. destruct z as [|p|p].
  - cbn [list_ascii_of_string app].
    rewrite parse_value_digit by reflexivity.
    unfold JSON.parse_number. head_char.
    now rewrite parse_fraction_none, parse_exponent_none.
  - pose proof (@parse_number_positive p rest Hrest) as Hn.
    destruct (pos_digits p) as [Hd _].
    destruct (positive_digits_head Hd) as (c & l & E & Hc).
    rewrite E in *. cbn [app] in *.
    rewrite (@parse_value_digit c _ fuel Hc), Hn.
    now rewrite number_safe.
  - cbn [list_ascii_of_string app].
    rewrite parse_value_minus, parse_number_positive by exact Hrest.
    now rewrite number_safe.
Qed.

(** Every number [JSON.stringify] writes reads back as a number or as
    [null]. *)
Lemma parse_value_number_json (z : Z) (fuel : nat) (rest : list ascii) :
  ends_member rest = true ->
  exists v,
    JSON.parse_value (S fuel) (list_ascii_of_string (number_json z) ++ rest)
    = Some (v, rest).
Proof.
  intros Hrest.
  assert (Hrest' : ends_number rest = true).
  { destruct rest as [|x rest]; [discriminate|].
    cbn [ends_member ends_number] in *.
    apply orb_true_iff in Hrest.
    destruct Hrest as [H|H]; apply Ascii.eqb_eq in H; subst x; reflexivity. }
  destruct (Double.safe z) eqn:Hsafe.
  { eexists. now apply parse_value_number. }
  unfold number_json, Double.integer_text. rewrite Hsafe.
  destruct (Double.round (Z.abs z) 1) as [[m e]|].
  - unfold Double.text_of. destruct (Double.shortest _ _) as [s n].
    destruct (@parse_value_layout (z <? 0) (Double.digits_of s) n fuel rest
                (digits_of_positive s) Hrest') as (m' & e10 & _ & H).
    eexists. exact H.
  - exists JNull. destruct rest as [|x rest]; [discriminate|].
    cbn [list_ascii_of_string app JSON.parse_value JSON.skip_ws]. head_char.
    reflexivity.
Qed.

(** *** Scalars and members *)

Lemma ends_member_number (rest : list ascii) :
  ends_member rest = true -> ends_number rest = true.
Proof.
  destruct rest as [|x rest]; [discriminate|]. cbn [ends_member ends_number].
  intros H. apply orb_true_iff in H.
  destruct H as [H|H]; apply Ascii.eqb_eq in H; subst x; reflexivity.
Qed.

Lemma parse_value_scalar (v : JSValue) (fuel : nat) (rest : list ascii) :
  scalar v = true ->
  ends_member rest = true ->
  exists v',
    JSON.parse_value (S fuel) (list_ascii_of_string (JSON_stringify v) ++ rest)
    = Some (v', rest) /\
    reads_as v v'.
Proof.
  intros Hv Hrest. destruct v as [|[|]|z|x|s|items|props]; try discriminate.
  - exists JNull. split; reflexivity.
  - exists (JBool true). split; reflexivity.
  - exists (JBool false). split; reflexivity.
  - cbn [JSON_stringify reads_as].
    destruct (Double.safe z) eqn:Hsafe.
    + exists (JNum z). split; [|reflexivity].
      apply parse_value_number; [exact Hsafe | now apply ends_member_number].
    + destruct (@parse_value_number_json z fuel rest Hrest) as (v' & H).
      exists v'. split; [exact H | discriminate].
  - exists (JStr s). split; [|reflexivity].
    cbn [JSON_stringify]. unfold quote, dquote.
    cbn [list_ascii_of_string app JSON.parse_value JSON.skip_ws].
    head_char. rewrite chars_app, <- app_assoc.
    cbn [list_ascii_of_string app].
    pose proof (parse_string_quote s rest) as E. unfold dquote in E.
    now rewrite E.
Qed.

Lemma stringify_object (o : JSObject) :
  JSON_stringify (JObj o) = ("{" ++ join "," (member_texts o) ++ "}")%string.
Proof. reflexivity. Qed.

(** The characters of the members of an object, joined by commas. *)
Lemma chars_members (k : string) (x : JSValue) (o : JSObject) (rest : list ascii) :
  list_ascii_of_string (join "," (member_texts ((k, x) :: o))) ++ rest
  = dquote :: list_ascii_of_string (escape k)
    ++ dquote :: ":"%char :: list_ascii_of_string (JSON_stringify x)
    ++ match o with
       | [] => rest
       | p :: o' =>
           ","%char :: list_ascii_of_string (join "," (member_texts (p :: o')))
           ++ rest
       end.
Proof.
  assert (H : forall tail,
             list_ascii_of_string (quote k ++ ":" ++ JSON_stringify x) ++ tail
             = dquote :: list_ascii_of_string (escape k)
               ++ dquote :: ":"%char :: list_ascii_of_string (JSON_stringify x)
               ++ tail).
  { intros tail. unfold quote. cbn [append list_ascii_of_string app].
    rewrite !chars_app, <- !app_assoc. reflexivity. }
  destruct o as [|[k' x'] o'].
  - cbn [member_texts join]. apply H.
  - change (join "," (member_texts ((k, x) :: (k', x') :: o')))
      with ((quote k ++ ":" ++ JSON_stringify x)
            ++ "," ++ join "," (member_texts ((k', x') :: o')))%string.
    rewrite chars_app, <- app_assoc, H. cbn [append list_ascii_of_string app].
    reflexivity.
Qed.

Lemma parse_members_flat (o : JSObject) :
  forall (p : string * JSValue) (acc : JSObject) (fuel : nat) (rest : list ascii),
    forallb (fun q => scalar (snd q)) (p :: o) = true ->
    (List.length (p :: o) < fuel)%nat ->
    exists o',
      Forall2 member_reads_as (p :: o) o' /\
      JSON.parse_members fuel
        (list_ascii_of_string (join "," (member_texts (p :: o)))
         ++ "}"%char :: rest)
        acc
      = Some (JObj (assign_all o' acc), rest).
Proof.
  induction o as [|p' o IH]; intros [k x] acc fuel rest Hsc Hfuel;
    cbn [forallb snd] in Hsc; apply andb_true_iff in Hsc; destruct Hsc as [Hx Ho];
    (destruct fuel as [|fuel]; [cbn [List.length] in Hfuel; lia|]);
    rewrite chars_members; unfold dquote at 1;
    cbn [JSON.parse_members JSON.skip_ws]; head_char;
    rewrite (parse_string_quote k); cbn [JSON.skip_ws]; head_char;
    (destruct fuel as [|fuel]; [cbn [List.length] in Hfuel; lia|]).
  - destruct (@parse_value_scalar x fuel ("}"%char :: rest) Hx eq_refl)
      as (x' & Hparse & Hread).
    exists [(k, x')]. split.
    { constructor; [now split | constructor]. }
    rewrite Hparse. cbn [JSON.skip_ws]. head_char. reflexivity.
  - destruct (@parse_value_scalar x fuel
                (","%char
                 :: list_ascii_of_string (join "," (member_texts (p' :: o)))
                 ++ "}"%char :: rest) Hx eq_refl)
      as (x' & Hparse & Hread).
    destruct (IH p' (define_prop acc k x') (S fuel) rest Ho) as (o' & Hall & Hrec).
    { cbn [List.length] in *; lia. }
    exists ((k, x') :: o'). split.
    { constructor; [now split | exact Hall]. }
    rewrite Hparse. cbn [JSON.skip_ws]. head_char.
    rewrite Hrec. reflexivity.
Qed.

Lemma members_length (o : JSObject) :
  (List.length o
   <= List.length (list_ascii_of_string (join "," (member_texts o))))%nat.
Proof.
  induction o as [|[k x] o IH]; [apply Nat.le_refl|].
  pose proof (chars_members k x o []) as E. rewrite app_nil_r in E. rewrite E.
  cbn [List.length]. rewrite !length_app. cbn [List.length].
  rewrite !length_app.
  destruct o as [|p o']; cbn [List.length] in *; [lia|].
  rewrite app_nil_r. lia.
Qed.

(** A flat object with at least one member reads back as an object with
    the same keys in the same order, and with the same values but for the
    numbers beyond the safe integers. *)
Lemma parse_flat (p : string * JSValue) (o : JSObject) :
  forallb (fun q => scalar (snd q)) (p :: o) = true ->
  exists o',
    Forall2 member_reads_as (p :: o) o' /\
    JSON.parse (JSON_stringify (JObj (p :: o)))
    = Some (JObj (assign_all o' [])).
Proof.
  intros Hsc. unfold JSON.parse. rewrite stringify_object.
  set (body := join "," (member_texts (p :: o))).
  cbn [append list_ascii_of_string]. rewrite chars_app.
  cbn [list_ascii_of_string].
  set (l := list_ascii_of_string body ++ ["}"%char]).
  assert (Hlen : (List.length (p :: o) <= List.length l)%nat).
  { unfold l. rewrite length_app. pose proof (members_length (p :: o)).
    fold body in H. lia. }
  replace (4 * List.length ("{"%char :: l) + 4)%nat
    with (S (S (4 * List.length l + 6))) by (cbn [List.length]; lia).
  cbn [JSON.parse_value JSON.skip_ws]. head_char.
  assert (Hhead : exists tail, l = dquote :: tail).
  { unfold l, body. destruct p as [k x]. rewrite chars_members. now eexists. }
  destruct Hhead as (tail & Htail). rewrite Htail. unfold dquote at 1.
  cbn [JSON.skip_ws]. head_char. fold dquote. rewrite <- Htail.
  destruct (@parse_members_flat o p [] (S (4 * List.length l + 6)) [] Hsc)
    as (o' & Hall & Hparse); [lia|].
  exists o'. split; [exact Hall|].
  unfold l, body in *. rewrite Hparse. reflexivity.
Qed.

(** ** What the attestation reads of a reclaim *)

(** The first event that moved an account to a state is among the events
    added, when no earlier event did. *)
Lemma first_event_added (db db' : Ledger) (k state : string)
  (added : list LifecycleEvent) :
  lifecycle_events db' = lifecycle_events db ++ added ->
  never_moved state [k] db ->
  (exists e, In e added /\ event_account e = k /\ new_state e = state) ->
  exists e,
    AttestationService.first_event db' k state = Some e /\ In e added.
Proof.
  intros Hev Hold (e0 & Hin0 & Hk0 & Hs0).
  unfold AttestationService.first_event.
  destruct (find _ (events_by_id db')) as [e|] eqn:Ef.
  - apply find_some in Ef. destruct Ef as [Hin Hmatch].
    apply andb_true_iff in Hmatch. destruct Hmatch as [Hk Hs].
    apply String.eqb_eq in Hk, Hs.
    exists e. split; [reflexivity|].
    unfold events_by_id in Hin. apply In_sort_by in Hin.
    rewrite Hev in Hin. apply in_app_or in Hin. destruct Hin as [Hin|Hin];
      [|exact Hin].
    exfalso. apply (Hold e Hin); [left; now symmetry | exact Hs].
  - exfalso.
    assert (Hin : In e0 (events_by_id db')).
    { unfold events_by_id. apply In_sort_by. rewrite Hev.
      apply in_or_app. now right. }
    pose proof (find_none _ _ Ef e0 Hin) as H. cbn beta in H.
    rewrite Hk0, Hs0, !String.eqb_refl in H. discriminate.
Qed.

(** The row of the digest for an account whose first RECLAIMED event
    carries evidence that parses to an object. *)
Lemma scan_row_object (db : Ledger) (b : ResultBuilder.t) (row : SponsoredAccount)
  (e : LifecycleEvent) (text : string) (o : JSObject) :
  AttestationService.first_event db (account_pubkey row) "RECLAIMED" = Some e ->
  evidence_payload e = Some text ->
  JSON.parse text = Some (JObj o) ->
  forall (amount : Z) (sigs : list JSValue),
    match get_prop "amount" o with
    | Some v => if truthy v then BigInt v else Some 0
    | None => Some 0
    end = Some amount ->
    match get_prop "signature" o with
    | Some v => if truthy v then [v] else []
    | None => []
    end = sigs ->
    exists b',
      AttestationService.scan_row db b row = Some b' /\
      ResultBuilder.totalLamports b' = ResultBuilder.totalLamports b + amount /\
      ResultBuilder.signatures b' = ResultBuilder.signatures b ++ sigs.
Proof.
  intros Hfirst Hpayload Hparse amount sigs Hamount Hsigs.
  rewrite scan_row_effect.
  unfold amount_of, signature_of, evidence.
  rewrite Hfirst, Hpayload, Hparse.
  subst sigs.
  destruct (get_prop "signature" o) as [s|];
    [destruct (truthy s)|];
    (destruct (get_prop "amount" o) as [v|];
     [destruct (truthy v)|]; cbv iota beta;
     [rewrite Hamount | injection Hamount as <- ..];
     eexists; (split; [reflexivity|]); split; reflexivity).
Qed.

(** X23.  The evidence [ReclaimerReporter.recordSuccess] writes has no
    [amount]: for an account of the batch that no earlier event moved to
    RECLAIMED, the attestation service reads the signature from the event
    and adds nothing to the total of lamports reclaimed, whatever the batch
    recovered. *)
Theorem recordSuccess_evidence_carries_no_amount (clock : Clock)
  (pubkeys : list string) (signature : string) (lamports : Z)
  (r : ReclaimerReporter.t) (row : SponsoredAccount) (b : ResultBuilder.t)
  (Hrows : Forall (fun k => In k (map account_pubkey
                                    (sponsored_accounts (ReclaimerReporter.db r))))
             pubkeys)
  (Hnew : never_moved "RECLAIMED" pubkeys (ReclaimerReporter.db r))
  (Hrow : In (account_pubkey row) pubkeys) :
  exists b',
    AttestationService.scan_row
      (ReclaimerReporter.db
         (ReclaimerReporter.recordSuccess clock pubkeys signature lamports r))
      b row = Some b' /\
    ResultBuilder.totalLamports b' = ResultBuilder.totalLamports b /\
    ResultBuilder.signatures b'
    = ResultBuilder.signatures b ++ recorded_signature signature.
Proof.
  unfold ReclaimerReporter.recordSuccess.
  destruct (@for_each_done clock ReclaimerReporter.settle settle_key
              (fun a => eq_refl) "RECLAIMABLE" "RECLAIMED" "Reclamation Success"
              (Some (ReclaimerReporter.success_payload signature lamports))
              pubkeys (ReclaimerReporter.db r))
    as (db' & Hrun & _ & (added & Hev & Hrec) & _).
  { apply forallb_forall. rewrite Forall_forall in Hrows.
    intros k Hk. apply has_row_In. now apply Hrows. }
  rewrite Hrun. cbn [ReclaimerReporter.db].
  assert (Hadded : forall e, In e added ->
             In (event_account e) pubkeys /\ new_state e = "RECLAIMED" /\
             evidence_payload e
             = Some (ReclaimerReporter.success_payload signature lamports)).
  { intros e He. apply (in_map event_record) in He. rewrite Hrec in He.
    apply in_map_iff in He. destruct He as (k & E & Hk).
    unfold event_record in E. injection E as E1 _ E3 _ E5.
    rewrite <- E1, <- E3, <- E5. now repeat split. }
  destruct (@first_event_added (ReclaimerReporter.db r) db' (account_pubkey row)
              "RECLAIMED" added Hev) as (e & Hfirst & He).
  - intros e He [Hk|[]]. apply Hnew; [exact He | now rewrite <- Hk].
  - assert (Hin : In (account_pubkey row, "RECLAIMABLE", "RECLAIMED",
                      "Reclamation Success",
                      Some (ReclaimerReporter.success_payload signature lamports))
                    (map event_record added)).
    { rewrite Hrec.
      apply (in_map (fun k => (k, "RECLAIMABLE", "RECLAIMED",
                               "Reclamation Success",
                               Some (ReclaimerReporter.success_payload signature
                                       lamports))) pubkeys _ Hrow). }
    apply in_map_iff in Hin. destruct Hin as (e & E & He).
    unfold event_record in E. injection E as E1 _ E3 _ _.
    exists e. now repeat split.
  - destruct (Hadded e He) as (_ & _ & Hpayload).
    destruct (@parse_flat ("signature", JStr signature)
                [("batchTotal", JNum lamports)] eq_refl) as (o' & Hall & Hparse).
    inversion Hall as [|? [k1 v1] ? o1 [Hk1 Hv1] Hall1]; subst.
    inversion Hall1 as [|? [k2 v2] ? o2 [Hk2 _] Hall2]; subst.
    inversion Hall2; subst.
    cbn [fst snd reads_as] in Hk1, Hv1, Hk2. subst k1 v1 k2.
    destruct (@scan_row_object db' b row e _ _ Hfirst Hpayload Hparse
                0 (recorded_signature signature))
      as (b' & Hscan & Htotal & Hsigs).
    + reflexivity.
    + unfold recorded_signature. cbn.
      now destruct (signature =? "")%string.
    + exists b'. rewrite Z.add_0_r in Htotal. now repeat split.
Qed.

(** X24.  The evidence [Reclaimer.recordReclaimSuccess] writes is read
    back in full: for an account that no earlier event moved to RECLAIMED,
    the attestation service adds the recorded amount to the total of
    lamports reclaimed and records the signature. *)
Theorem recordReclaimSuccess_evidence_carries_amount
  (config : ReclaimerOrchestrator.ReclaimerConfig) (clock : Clock)
  (pubkey signature : string) (amount : Z) (db : Ledger)
  (row : SponsoredAccount) (b : ResultBuilder.t)
  (Hlive : ReclaimerOrchestrator.dryRun config = false)
  (Hsafe : Double.safe amount = true)
  (Hhas : In pubkey (map account_pubkey (sponsored_accounts db)))
  (Hnew : never_moved "RECLAIMED" [pubkey] db)
  (Hrow : account_pubkey row = pubkey) :
  exists db' b',
    Reclaimer.recordReclaimSuccess config clock pubkey signature amount db
    = Reclaimer.Done db' /\
    AttestationService.scan_row db' b row = Some b' /\
    ResultBuilder.totalLamports b' = ResultBuilder.totalLamports b + amount /\
    ResultBuilder.signatures b'
    = ResultBuilder.signatures b ++ recorded_signature signature.
Proof.
  unfold Reclaimer.recordReclaimSuccess, insert_event_checked.
  rewrite Hlive, has_row_update by reflexivity.
  rewrite (proj2 (has_row_In pubkey db) Hhas).
  eexists. 
  set (db' := insert_event _ _ _ _ _ _ _).
  set (e := {| event_id := event_seq db + 1;
               event_account := pubkey;
               old_state := "RECLAIMABLE";
               new_state := "RECLAIMED";
               trigger_reason := "Reclamation Success";
               evidence_payload := Some (Reclaimer.reclaim_payload signature amount);
               event_timestamp := current_timestamp clock |}).
  destruct (@first_event_added db db' pubkey "RECLAIMED" [e] eq_refl Hnew)
    as (e' & Hfirst & [<-|[]]).
  { exists e. split; [now left | now split]. }
  rewrite <- Hrow in Hfirst.
  destruct (@parse_flat ("signature", JStr signature)
              [("amount", JNum amount); ("slot", JStr "confirmed")] eq_refl)
    as (o' & Hall & Hparse).
  inversion Hall as [|? [k1 v1] ? o1 [Hk1 Hv1] Hall1]; subst.
  inversion Hall1 as [|? [k2 v2] ? o2 [Hk2 Hv2] Hall2]; subst.
  inversion Hall2 as [|? [k3 v3] ? o3 [Hk3 Hv3] Hall3]; subst.
  inversion Hall3; subst.
  cbn [fst snd reads_as] in Hk1, Hv1, Hk2, Hv2, Hk3, Hv3.
  specialize (Hv2 Hsafe). subst k1 v1 k2 v2 k3 v3.
  destruct (@scan_row_object db' b row e _ _ Hfirst eq_refl Hparse
              amount (recorded_signature signature))
    as (b' & Hscan & Htotal & Hsigs).
  - cbn. destruct (amount =? 0) eqn:E; [|reflexivity].
    apply Z.eqb_eq in E. now subst.
  - unfold recorded_signature. cbn.
    now destruct (signature =? "")%string.
  - exists b'. split; [reflexivity|]. repeat split; assumption.
Qed.

(** ** The single-class reclaimer in a dry run *)

Lemma markOutcome_dry_run (config : ReclaimerOrchestrator.ReclaimerConfig)
  (clock : Clock) (pubkey state reason : string) (db : Ledger) :
  ReclaimerOrchestrator.dryRun config = true ->
  Reclaimer.markOutcome config clock pubkey state reason db = Reclaimer.Done db.
Proof. intros Hdry. unfold Reclaimer.markOutcome. now rewrite Hdry. Qed.

Lemma verify_each_dry_run (config : ReclaimerOrchestrator.ReclaimerConfig)
  (clock : Clock) (db : Ledger) :
  ReclaimerOrchestrator.dryRun config = true ->
  forall accounts accountInfos validAccounts,
    Reclaimer.verify_each config clock accounts accountInfos validAccounts db
    = (Reclaimer.Done db, validAccounts).
Proof.
  intros Hdry accounts. induction accounts as [|acc rest IH];
    intros infos validAccounts; [reflexivity|].
  cbn [Reclaimer.verify_each]. rewrite Hdry.
  destruct (hd None infos) as [info|];
    [destruct (_ =? 0); [|destruct (negb _); [|destruct (_ >? 0)]]|];
    rewrite ?markOutcome_dry_run by exact Hdry; apply IH.
Qed.

Lemma processBatch_dry_run (rpc : Rpc)
  (config : ReclaimerOrchestrator.ReclaimerConfig) (clock : Clock)
  (accounts : list SponsoredAccount) (db : Ledger) :
  ReclaimerOrchestrator.dryRun config = true ->
  Reclaimer.ledger_of (Reclaimer.processBatch rpc config clock accounts db) = db.
Proof.
  intros Hdry. unfold Reclaimer.processBatch.
  destruct (forallb _ accounts); [|reflexivity].
  destruct (getMultipleAccountsInfo rpc _); [|reflexivity].
  rewrite verify_each_dry_run by exact Hdry. now rewrite Hdry.
Qed.

(** X25.  With [dryRun] set and a batch size that is positive or left to
    its default, [Reclaimer.execute] ends and leaves the ledger as it found
    it, whether it returns or throws. *)
Theorem reclaimer_dry_run_writes_nothing (fuel : nat) (rpc : Rpc)
  (config : ReclaimerOrchestrator.ReclaimerConfig) (clock : Clock) (db : Ledger)
  (Hdry : ReclaimerOrchestrator.dryRun config = true)
  (Hsize : 0 < or_default (ReclaimerOrchestrator.batchSize config) 10)
  (Hfuel : (List.length (sponsored_accounts db) <= fuel)%nat) :
  exists outcome,
    Reclaimer.execute fuel rpc config clock db = Some outcome /\
    Reclaimer.ledger_of outcome = db.
Proof.
  unfold Reclaimer.execute. rewrite Hdry. cbn [negb andb].
  set (targets := filter _ (sponsored_accounts db)).
  assert (Hlen : Z.of_nat (List.length targets) <= 0 + Z.of_nat fuel).
  { pose proof (filter_length_le
                  (fun a => (lifecycle_state a =? "RECLAIMABLE")%string)
                  (sponsored_accounts db)) as H.
    fold targets in H. lia. }
  destruct targets as [|t ts] eqn:Et; [now exists (Reclaimer.Done db)|].
  rewrite <- Et in *. clear Et t ts.
  set (size := or_default _ 10) in *.
  revert Hlen. generalize 0. clear Hfuel.
  induction fuel as [|fuel IH]; intros i Hlen; cbn [Reclaimer.batches].
  - rewrite (proj2 (Z.ltb_ge _ _)) by lia. now exists (Reclaimer.Done db).
  - destruct (i <? Z.of_nat (List.length targets));
      [|now exists (Reclaimer.Done db)].
    pose proof (@processBatch_dry_run rpc config clock
                  (slice targets i (i + size)) db Hdry) as Hb.
    destruct (Reclaimer.processBatch rpc config clock _ db) as [db'|db'];
      cbn [Reclaimer.ledger_of] in Hb; subst db'.
    + apply IH. lia.
    + now exists (Reclaimer.Threw db).
Qed.

(** ** A live run of the single-class reclaimer *)



















Ltac distinct_strings :=
  repeat (constructor; [simpl; intuition discriminate|]); constructor.

Lemma computeStateHash_ignores_row_order_witness :
  NoDup (map account_pubkey (sponsored_accounts seeded_ledger)) /\
  NoDup (map event_id (lifecycle_events seeded_ledger)) /\
  Permutation (sponsored_accounts seeded_ledger)
    (sponsored_accounts seeded_ledger_reversed) /\
  Permutation (lifecycle_events seeded_ledger)
    (lifecycle_events seeded_ledger_reversed) /\
  StateHasher.computeStateHash seeded_ledger
  = StateHasher.computeStateHash seeded_ledger_reversed.
Proof.
  assert (H1 : NoDup (map account_pubkey (sponsored_accounts seeded_ledger)))
    by distinct_strings.
  assert (H2 : NoDup (map event_id (lifecycle_events seeded_ledger)))
    by distinct_strings.
  assert (H3 : Permutation (sponsored_accounts seeded_ledger)
                 (sponsored_accounts seeded_ledger_reversed))
    by apply Permutation_rev.
  assert (H4 : Permutation (lifecycle_events seeded_ledger)
                 (lifecycle_events seeded_ledger_reversed))
    by apply Permutation_rev.
  repeat (split; [assumption|]).
  exact (@computeStateHash_ignores_row_order seeded_ledger seeded_ledger_reversed
           H1 H2 H3 H4).
Defined.

Lemma hashTable_ignores_column_order_witness :
  Forall2 equivalent [order_sample_1] [order_sample_2] /\
  StateHasher.hashTable "sponsored_accounts" [order_sample_1]
  = StateHasher.hashTable "sponsored_accounts" [order_sample_2].
Proof.
  assert (H : Forall2 equivalent [order_sample_1] [order_sample_2]).
  { constructor; [|constructor]. unfold order_sample_1, order_sample_2.
    show_equivalent. }
  split; [exact H|].
  exact (@hashTable_ignores_column_order "sponsored_accounts" [order_sample_1]
           [order_sample_2] H).
Defined.

Lemma evaluate_dry_run_writes_nothing_witness :
  PolicyEngine.dryRun dry_policy = true /\
  PolicyEngine.evaluate dry_policy test_clock seeded_ledger = seeded_ledger.
Proof.
  split; [reflexivity|].
  exact (@evaluate_dry_run_writes_nothing dry_policy test_clock seeded_ledger
           eq_refl).
Defined.

Lemma evaluate_reclaims_only_safe_rows_witness :
  NoDup (map account_pubkey (sponsored_accounts seeded_ledger)) /\
  In (seeded_account "A" "RECLAIMABLE" 5000000)
    (sponsored_accounts
       (PolicyEngine.evaluate month_policy dated_clock seeded_ledger)) /\
  exists a,
    In a (sponsored_accounts seeded_ledger) /\
    seeded_account "A" "RECLAIMABLE" 5000000
    = set_lifecycle_state "RECLAIMABLE" a /\
    (lifecycle_state a = "RECLAIMABLE"
     \/ safe_to_reclaim month_policy dated_clock a).
Proof.
  assert (H1 : NoDup (map account_pubkey (sponsored_accounts seeded_ledger)))
    by distinct_strings.
  assert (H2 : In (seeded_account "A" "RECLAIMABLE" 5000000)
                 (sponsored_accounts
                    (PolicyEngine.evaluate month_policy dated_clock
                       seeded_ledger))).
  { vm_compute. left. reflexivity. }
  split; [exact H1|]. split; [exact H2|].
  exact (@evaluate_reclaims_only_safe_rows month_policy dated_clock
           seeded_ledger (seeded_account "A" "RECLAIMABLE" 5000000)
           H1 H2 eq_refl).
Defined.

(** The age rule at work: a row checked a day ago stays as it is under a
    minimum age of 30 days, and a row whose last-check text is no date is
    marked RECLAIMABLE. *)
Example evaluate_age_rule :
  map lifecycle_state
    (sponsored_accounts (PolicyEngine.evaluate month_policy dated_clock aged_ledger))
  = ["RECLAIMABLE"; "ACTIVE"; "RECLAIMABLE"].
Proof. vm_compute. reflexivity. Qed.

Lemma evaluate_idempotent_witness :
  NoDup (map account_pubkey (sponsored_accounts seeded_ledger)) /\
  PolicyEngine.evaluate default_policy test_clock
    (PolicyEngine.evaluate default_policy test_clock seeded_ledger)
  = PolicyEngine.evaluate default_policy test_clock seeded_ledger.
Proof.
  assert (H : NoDup (map account_pubkey (sponsored_accounts seeded_ledger)))
    by distinct_strings.
  split; [exact H|].
  exact (@evaluate_idempotent default_policy test_clock seeded_ledger H).
Defined.


Lemma run_only_appends_discovered_rows_witness :
  NoDup (Indexer.history sponsoring_chain) /\
  exists st,
    Indexer.run sponsoring_chain scan_config test_clock seeded_ledger = Some st /\
    discovers scan_config seeded_ledger (Indexer.ledger st).
Proof.
  assert (H : NoDup (Indexer.history sponsoring_chain)) by distinct_strings.
  split; [exact H|].
  exact (@run_only_appends_discovered_rows sponsoring_chain scan_config
           test_clock seeded_ledger H).
Defined.

Lemma run_dry_run_writes_nothing_witness :
  NoDup (Indexer.history sponsoring_chain) /\
  Indexer.dryRun dry_scan_config = true /\
  Indexer.run sponsoring_chain dry_scan_config test_clock seeded_ledger
  = Some {| Indexer.ledger := seeded_ledger; Indexer.cursor_writes := [] |}.
Proof.
  assert (H : NoDup (Indexer.history sponsoring_chain)) by distinct_strings.
  split; [exact H|]. split; [reflexivity|].
  exact (@run_dry_run_writes_nothing sponsoring_chain dry_scan_config
           test_clock seeded_ledger H eq_refl).
Defined.

Lemma run_discovers_every_sponsored_account_witness :
  NoDup (Indexer.history sponsoring_chain) /\
  responsive sponsoring_chain /\
  sponsors scan_config sponsoring_transaction
    "Stake11111111111111111111111111111111111111" /\
  exists st,
    Indexer.run sponsoring_chain scan_config test_clock seeded_ledger = Some st /\
    In "Stake11111111111111111111111111111111111111"
      (map account_pubkey (sponsored_accounts (Indexer.ledger st))).
Proof.
  assert (H1 : NoDup (Indexer.history sponsoring_chain)) by distinct_strings.
  assert (H2 : responsive sponsoring_chain).
  { split; [reflexivity|]. intros sig. simpl.
    destruct (sig =? "sig1")%string; [discriminate | exact I]. }
  assert (H3 : sponsors scan_config sponsoring_transaction
                 "Stake11111111111111111111111111111111111111").
  { split; [do 2 eexists; repeat split|].
    split; [discriminate|].
    do 2 eexists. split; [left; reflexivity|]. repeat split. }
  assert (H4 : In "sig1" (Indexer.history sponsoring_chain))
    by (right; left; reflexivity).
  split; [exact H1|]. split; [exact H2|]. split; [exact H3|].
  exact (@run_discovers_every_sponsored_account sponsoring_chain scan_config
           test_clock seeded_ledger "sig1"
           "Stake11111111111111111111111111111111111111" sponsoring_transaction
           H1 H2 eq_refl eq_refl H4 eq_refl H3).
Defined.

Lemma unlock_undoes_fetchAndLock_witness :
  NoDup (map account_pubkey (sponsored_accounts jit_ledger)) /\
  ReclaimerFetcher.select_candidates 100
    (unlock
       (map ReclaimerFetcher.account_pubkey
          (fst (ReclaimerFetcher.fetchAndLock 2 "worker-1" jit_ledger)))
       (snd (ReclaimerFetcher.fetchAndLock 2 "worker-1" jit_ledger)))
  = ReclaimerFetcher.select_candidates 100 jit_ledger.
Proof.
  assert (H : NoDup (map account_pubkey (sponsored_accounts jit_ledger)))
    by distinct_strings.
  split; [exact H|].
  exact (proj1 (@unlock_undoes_fetchAndLock 2 100 "worker-1" jit_ledger H)).
Defined.



Lemma execute_failure_leaves_rows_locked_witness :
  (forall addresses, getMultipleAccountsInfo down_rpc addresses = None) /\
  candidate_rows jit_ledger <> [] /\
  exists r',
    ReclaimerOrchestrator.execute 1 down_rpc dry_reclaim test_clock batch_clock
      "0b4f7c3e" jit_ledger = Some (false, r') /\
    sponsored_accounts (ReclaimerReporter.db r')
    = lock_rows "worker-0b4f7c3e"
        (map account_pubkey (fetched_rows dry_reclaim jit_ledger))
        (sponsored_accounts jit_ledger) /\
    lifecycle_events (ReclaimerReporter.db r') = lifecycle_events jit_ledger /\
    forall a, In a (fetched_rows dry_reclaim jit_ledger) ->
              ~ In (account_pubkey a)
                  (map account_pubkey (candidate_rows (ReclaimerReporter.db r'))).
Proof.
  assert (H1 : forall addresses, getMultipleAccountsInfo down_rpc addresses = None)
    by reflexivity.
  assert (H2 : candidate_rows jit_ledger <> []) by discriminate.
  split; [exact H1|]. split; [exact H2|].
  exact (@execute_failure_leaves_rows_locked down_rpc dry_reclaim test_clock
           batch_clock "0b4f7c3e" jit_ledger 0 H1 H2 (or_introl eq_refl)).
Defined.


Lemma scan_swallows_node_failure_witness :
  (forall addresses,
      LifecycleEngine.getMultipleAccountsInfo down_node addresses = None) /\
  Forall (fun a => valid_pubkey (account_pubkey a) = true)
    (sponsored_accounts jit_ledger) /\
  0 < or_default (LifecycleEngine.batchSize live_lifecycle) 100 /\
  (List.length (sponsored_accounts jit_ledger) <= 5)%nat /\
  LifecycleEngine.scan 5 live_lifecycle test_clock down_node jit_ledger
  = Some (true, jit_ledger).
Proof.
  assert (H1 : forall addresses,
             LifecycleEngine.getMultipleAccountsInfo down_node addresses = None)
    by reflexivity.
  assert (H2 : Forall (fun a => valid_pubkey (account_pubkey a) = true)
                 (sponsored_accounts jit_ledger)).
  { repeat (constructor; [vm_compute; reflexivity|]). constructor. }
  assert (H3 : 0 < or_default (LifecycleEngine.batchSize live_lifecycle) 100)
    by reflexivity.
  assert (H4 : (List.length (sponsored_accounts jit_ledger) <= 5)%nat)
    by (simpl; lia).
  split; [exact H1|]. split; [exact H2|]. split; [exact H3|]. split; [exact H4|].
  exact (@scan_swallows_node_failure 5 live_lifecycle test_clock down_node
           jit_ledger H1 H2 H3 H4).
Defined.


Lemma recordSuccess_evidence_carries_no_amount_witness :
  Forall (fun k => In k (map account_pubkey (sponsored_accounts jit_ledger)))
    ["Stake11111111111111111111111111111111111111"] /\
  never_moved "RECLAIMED" ["Stake11111111111111111111111111111111111111"]
    jit_ledger /\
  exists b',
    AttestationService.scan_row
      (ReclaimerReporter.db
         (ReclaimerReporter.recordSuccess test_clock
            ["Stake11111111111111111111111111111111111111"] "sig1" 1500000
            (fresh_reporter jit_ledger)))
      ResultBuilder.empty
      (seeded_account "Stake11111111111111111111111111111111111111"
         "RECLAIMED" 0)
    = Some b' /\
    ResultBuilder.totalLamports b' = 0 /\
    ResultBuilder.signatures b' = [] ++ recorded_signature "sig1".
Proof.
  assert (H1 : Forall (fun k => In k (map account_pubkey
                                        (sponsored_accounts jit_ledger)))
                 ["Stake11111111111111111111111111111111111111"]).
  { constructor; [simpl; tauto | constructor]. }
  assert (H2 : never_moved "RECLAIMED"
                 ["Stake11111111111111111111111111111111111111"] jit_ledger).
  { intros e He. simpl in He. contradiction. }
  split; [exact H1|]. split; [exact H2|].
  exact (@recordSuccess_evidence_carries_no_amount test_clock
           ["Stake11111111111111111111111111111111111111"] "sig1" 1500000
           (fresh_reporter jit_ledger)
           (seeded_account "Stake11111111111111111111111111111111111111"
              "RECLAIMED" 0)
           ResultBuilder.empty H1 H2 (or_introl eq_refl)).
Defined.

Lemma recordReclaimSuccess_evidence_carries_amount_witness :
  ReclaimerOrchestrator.dryRun live_reclaim = false /\
  Double.safe 1500000 = true /\
  In "Stake11111111111111111111111111111111111111"
    (map account_pubkey (sponsored_accounts jit_ledger)) /\
  never_moved "RECLAIMED" ["Stake11111111111111111111111111111111111111"]
    jit_ledger /\
  exists db' b',
    Reclaimer.recordReclaimSuccess live_reclaim test_clock
      "Stake11111111111111111111111111111111111111" "sig1" 1500000 jit_ledger
    = Reclaimer.Done db' /\
    AttestationService.scan_row db' ResultBuilder.empty
      (seeded_account "Stake11111111111111111111111111111111111111"
         "RECLAIMED" 0)
    = Some b' /\
    ResultBuilder.totalLamports b' = 0 + 1500000 /\
    ResultBuilder.signatures b' = [] ++ recorded_signature "sig1".
Proof.
  assert (H1 : In "Stake11111111111111111111111111111111111111"
                 (map account_pubkey (sponsored_accounts jit_ledger)))
    by (simpl; tauto).
  assert (H2 : never_moved "RECLAIMED"
                 ["Stake11111111111111111111111111111111111111"] jit_ledger).
  { intros e He. simpl in He. contradiction. }
  split; [reflexivity|]. split; [reflexivity|].
  split; [exact H1|]. split; [exact H2|].
  exact (@recordReclaimSuccess_evidence_carries_amount live_reclaim test_clock
           "Stake11111111111111111111111111111111111111" "sig1" 1500000
           jit_ledger
           (seeded_account "Stake11111111111111111111111111111111111111"
              "RECLAIMED" 0)
           ResultBuilder.empty eq_refl eq_refl H1 H2 eq_refl).
Defined.

Lemma reclaimer_dry_run_writes_nothing_witness :
  ReclaimerOrchestrator.dryRun dry_reclaim = true /\
  0 < or_default (ReclaimerOrchestrator.batchSize dry_reclaim) 10 /\
  (List.length (sponsored_accounts jit_ledger) <= 5)%nat /\
  exists outcome,
    Reclaimer.execute 5 jit_rpc dry_reclaim test_clock jit_ledger = Some outcome /\
    Reclaimer.ledger_of outcome = jit_ledger.
Proof.
  assert (H1 : 0 < or_default (ReclaimerOrchestrator.batchSize dry_reclaim) 10)
    by reflexivity.
  assert (H2 : (List.length (sponsored_accounts jit_ledger) <= 5)%nat)
    by (simpl; lia).
  split; [reflexivity|]. split; [exact H1|]. split; [exact H2|].
  exact (@reclaimer_dry_run_writes_nothing 5 jit_rpc dry_reclaim test_clock
           jit_ledger eq_refl H1 H2).
Defined.

Lemma execute_counts_every_candidate_witness :
  answers jit_rpc jit_chain /\
  NoDup (map account_pubkey (sponsored_accounts jit_ledger)) /\
  Forall (fun a => valid_pubkey (account_pubkey a) = true)
    (candidate_rows jit_ledger) /\
  (List.length (candidate_rows jit_ledger) < 6)%nat /\
  exists r',
    ReclaimerOrchestrator.execute 6 jit_rpc live_reclaim test_clock batch_clock
      "0b4f7c3e" jit_ledger = Some (true, r') /\
    ReclaimerReporter.total_accounts_seen (ReclaimerReporter.metrics r')
    = Z.of_nat (List.length (candidate_rows jit_ledger)) /\
    ReclaimerReporter.skipped_accounts (ReclaimerReporter.metrics r')
    + ReclaimerReporter.total_reclaimable (ReclaimerReporter.metrics r')
    = ReclaimerReporter.total_accounts_seen (ReclaimerReporter.metrics r').
Proof.
  assert (H1 : answers jit_rpc jit_chain) by (intros addresses; reflexivity).
  assert (H2 : NoDup (map account_pubkey (sponsored_accounts jit_ledger)))
    by distinct_strings.
  assert (H3 : Forall (fun a => valid_pubkey (account_pubkey a) = true)
                 (candidate_rows jit_ledger)).
  { repeat (constructor; [vm_compute; reflexivity|]). constructor. }
  assert (H4 : (List.length (candidate_rows jit_ledger) < 6)%nat)
    by (simpl; lia).
  assert (H5 : ReclaimerOrchestrator.operatorKeypair live_reclaim <> None)
    by discriminate.
  split; [exact H1|]. split; [exact H2|]. split; [exact H3|]. split; [exact H4|].
  exact (@execute_counts_every_candidate jit_rpc live_reclaim test_clock
           batch_clock "0b4f7c3e" jit_chain jit_ledger 6 H1 H2 H3
           (or_intror H5) H4).
Defined.


(** The two runs side by side: the verified account is RECLAIMED when the
    transaction of its batch is confirmed, and FAILED when it is not. *)
Example reclaimer_execute_follows_the_transaction :
  option_map
    (fun o => map lifecycle_state (sponsored_accounts (Reclaimer.ledger_of o)))
    (Reclaimer.execute 5 paying_rpc live_pairs test_clock jit_ledger)
  = Some ["closed_zero"; "closed_zero"; "SKIPPED"; "SKIPPED"; "RECLAIMED"] /\
  option_map
    (fun o => map lifecycle_state (sponsored_accounts (Reclaimer.ledger_of o)))
    (Reclaimer.execute 5 jit_rpc live_pairs test_clock jit_ledger)
  = Some ["closed_zero"; "closed_zero"; "SKIPPED"; "SKIPPED"; "FAILED"].
Proof. vm_compute. split; reflexivity. Qed.
